(** * Prolly-tree sequences, cursors and collection facades of noms

    A shallow embedding of the JavaScript sources under [js/noms/src]
    (sequence cursor, ordered sequences, meta sequences, Map, Set, List and
    Blob facades) and of the Go sequence chunker, together with the
    properties the specification states about them.

    Conventions.  A JavaScript [number] used as an index is a [Z] (the
    sentinel [-1] is a legal index).  Arrays are lists.  A function that
    may throw (a failed [invariant], [notNull], an out-of-range item
    access that is then dereferenced) returns [option], [None] standing
    for the exception.  Promises are settled in program order, so the
    asynchronous methods are modelled as plain state-passing functions:
    a method that mutates [this] returns the updated object next to its
    result. *)

From Stdlib Require Import ZArith List Bool Lia Permutation Sorted FunctionalExtensionality.
From Stdlib Require Strings.Byte Strings.String.
Import ListNotations.
Local Open Scope Z_scope.

Set Implicit Arguments.
Set Warnings "-register-all".

(** ** Small list helpers *)

Definition len {A : Type} (l : list A) : Z := Z.of_nat (length l).

(** [arr[i]] for a JavaScript number [i]: [undefined] (here [None])
    outside [0 .. length-1]. *)
Definition item_at {A : Type} (l : list A) (i : Z) : option A :=
  if i <? 0 then None else nth_error l (Z.to_nat i).

Lemma len_nonneg {A : Type} (l : list A) : 0 <= len l.
Proof. unfold len. lia. Qed.

Lemma item_at_Some {A : Type} (l : list A) (i : Z) :
  0 <= i < len l -> exists x, item_at l i = Some x.
Proof.
  intros [H0 H1]. unfold item_at.
  destruct (i <? 0) eqn:E; [apply Z.ltb_lt in E; lia|].
  destruct (nth_error l (Z.to_nat i)) eqn:N; [eauto|].
  apply nth_error_None in N. unfold len in H1. lia.
Qed.

Lemma item_at_In {A : Type} (l : list A) (i : Z) (x : A) :
  item_at l i = Some x -> In x l.
Proof.
  unfold item_at. destruct (i <? 0); [discriminate|].
  apply nth_error_In.
Qed.

Lemma item_at_range {A : Type} (l : list A) (i : Z) (x : A) :
  item_at l i = Some x -> 0 <= i < len l.
Proof.
  unfold item_at. destruct (i <? 0) eqn:E; [discriminate|].
  apply Z.ltb_ge in E. intros N.
  assert (nth_error l (Z.to_nat i) <> None) as NN by congruence.
  apply nth_error_Some in NN. unfold len. lia.
Qed.

(** ** binary-search.js *)

Module BinarySearch.

(** Modelled from the spec: [binary-search.js] is not among the sources.
    The specification describes [search(length, pred)] as a binary search
    for the smallest [i] in [0 .. length) with [pred(i)], returning
    [length] when there is none.  The loop keeps [lo <= hi], probes the
    midpoint [lo + floor((hi - lo) / 2)] and halves the interval; [fuel]
    bounds the number of probes and [length] probes are always enough. *)
Fixpoint search_loop (fuel : nat) (pred : Z -> bool) (lo hi : Z) : Z :=
  match fuel with
  | O => lo
  | S fuel' =>
      if lo <? hi then
        let h := lo + (hi - lo) / 2 in
        if pred h then search_loop fuel' pred lo h
        else search_loop fuel' pred (h + 1) hi
      else lo
  end.

Definition search (length : Z) (pred : Z -> bool) : Z :=
  search_loop (Z.to_nat length) pred 0 length.

(** [pred] is monotone on [0 .. n): once true it stays true. *)
Definition monotone (n : Z) (pred : Z -> bool) : Prop :=
  forall i j, 0 <= i -> i <= j -> j < n -> pred i = true -> pred j = true.

Lemma search_loop_spec (pred : Z -> bool) (n : Z) :
  monotone n pred ->
  forall (fuel : nat) (lo hi : Z),
    0 <= lo -> lo <= hi -> hi <= n -> hi - lo <= Z.of_nat fuel ->
    (forall i, 0 <= i < lo -> pred i = false) ->
    (hi < n -> pred hi = true) ->
    let r := search_loop fuel pred lo hi in
    lo <= r <= hi /\
    (forall i, 0 <= i < r -> pred i = false) /\
    (r < n -> pred r = true).
Proof.
  intros Hmono fuel. induction fuel as [|fuel IH]; intros lo hi Hlo Hle Hhi Hfuel Hbelow Habove.
  - simpl. assert (lo = hi) by lia. subst. repeat split; auto; lia.
  - simpl. destruct (lo <? hi) eqn:E.
    + apply Z.ltb_lt in E.
      assert (Hh : lo <= lo + (hi - lo) / 2 < hi).
      { split.
        - assert (0 <= (hi - lo) / 2) by (apply Z.div_pos; lia). lia.
        - assert ((hi - lo) / 2 < hi - lo) by (apply Z.div_lt; lia). lia. }
      destruct (pred (lo + (hi - lo) / 2)) eqn:P.
      * specialize (IH lo (lo + (hi - lo) / 2)).
        cbv zeta in IH.
        destruct IH as (R1 & R2 & R3); try lia; auto.
        repeat split; auto; lia.
      * specialize (IH (lo + (hi - lo) / 2 + 1) hi).
        cbv zeta in IH.
        destruct IH as (R1 & R2 & R3); try lia; auto.
        { intros i Hi.
          destruct (pred i) eqn:Pi; [|reflexivity].
          rewrite (Hmono i (lo + (hi - lo) / 2)) in P; try discriminate; try lia.
          exact Pi. }
        repeat split; auto; lia.
    + apply Z.ltb_ge in E. assert (lo = hi) by lia. subst.
      repeat split; auto; lia.
Qed.

(** On a monotone predicate [search] returns the smallest index that
    satisfies it, or [length]. *)
Lemma search_spec (n : Z) (pred : Z -> bool) :
  0 <= n -> monotone n pred ->
  let r := search n pred in
  0 <= r <= n /\
  (forall i, 0 <= i < r -> pred i = false) /\
  (r < n -> pred r = true).
Proof.
  intros Hn Hmono. unfold search.
  pose proof (@search_loop_spec pred n Hmono (Z.to_nat n) 0 n) as H.
  cbv zeta in H. apply H; try lia.
Qed.

Lemma search_range (n : Z) (pred : Z -> bool) :
  0 <= n -> 0 <= search n pred <= n.
Proof.
  intros Hn. unfold search.
  assert (G : forall fuel lo hi, lo <= hi -> lo <= search_loop fuel pred lo hi <= hi).
  { induction fuel as [|fuel IH]; intros lo hi Hle; simpl; [lia|].
    destruct (lo <? hi) eqn:E; [|lia].
    apply Z.ltb_lt in E.
    assert (0 <= (hi - lo) / 2) by (apply Z.div_pos; lia).
    assert ((hi - lo) / 2 < hi - lo) by (apply Z.div_lt; lia).
    destruct (pred _).
    - specialize (IH lo (lo + (hi - lo) / 2)). lia.
    - specialize (IH (lo + (hi - lo) / 2 + 1) hi). lia. }
  apply G. lia.
Qed.

End BinarySearch.

(** ** Values and ordered keys (meta-sequence.js) *)

(** [compare.js], [value.js] and [hash.js] are not among the sources.  The
    specification takes a value as opaque, totally ordered and
    content-hashable, so the operations the sources call on values are the
    fields of this interface: [compare(a, b)], [equals(a, b)], the test
    [v instanceof ValueBase], [v.hash] and [Hash.compare]. *)
Class ValueOps (K : Type) : Type := {
  Hash : Type;
  compare : K -> K -> Z;
  equals : K -> K -> bool;
  isValueBase : K -> bool;
  hashOf : K -> Hash;
  hashCompare : Hash -> Hash -> Z
}.

(** The laws the specification asks of these operations: [compare] and
    [Hash.compare] are total orders whose zero is equality, [equals] is
    equality, and a hash identifies its value (content addressing). *)
Class ValueLaws (K : Type) {ops : ValueOps K} : Prop := {
  compare_eq : forall a b : K, compare a b = 0 <-> a = b;
  compare_antisym : forall a b : K, compare a b < 0 <-> 0 < compare b a;
  compare_trans : forall a b c : K, compare a b < 0 -> compare b c < 0 -> compare a c < 0;
  equals_eq : forall a b : K, equals a b = true <-> a = b;
  hashCompare_eq : forall a b : Hash, hashCompare a b = 0 <-> a = b;
  hashCompare_antisym : forall a b : Hash, hashCompare a b < 0 <-> 0 < hashCompare b a;
  hashCompare_trans :
    forall a b c : Hash, hashCompare a b < 0 -> hashCompare b c < 0 -> hashCompare a c < 0;
  hashOf_inj : forall a b : K, hashOf a = hashOf b -> a = b
}.

Arguments ValueLaws K {ops}.

Section OrderedKeys.

Context {K : Type} {ops : ValueOps K}.

(** [class OrderedKey]: the flag [isOrderedByValue] selects which of the
    fields [v] and [h] is meaningful, so the object is a tagged union.  A
    value-ordered key holds [v] (and [h = null]); a hash-ordered key holds
    [h] and, when built by the constructor rather than by [fromHash], [v]
    as well. *)
Inductive OrderedKey : Type :=
| ByValue (v : K)
| ByHash (v : option K) (h : Hash).

(** [new OrderedKey(v)] *)
Definition newOrderedKey (v : K) : OrderedKey :=
  if isValueBase v then ByHash (Some v) (hashOf v) else ByValue v.

(** [OrderedKey.fromHash(h)] *)
Definition fromHash (h : Hash) : OrderedKey := ByHash None h.

Definition isOrderedByValue (k : OrderedKey) : bool :=
  match k with ByValue _ => true | ByHash _ _ => false end.

(** [value()]: [notNull(this.v)], which throws for a key made by
    [fromHash]. *)
Definition value (k : OrderedKey) : option K :=
  match k with
  | ByValue v => Some v
  | ByHash v _ => v
  end.

(** [compare(other)] *)
Definition OrderedKey_compare (this other : OrderedKey) : Z :=
  match this, other with
  | ByValue a, ByValue b => compare a b
  | ByValue _, ByHash _ _ => -1
  | ByHash _ _, ByValue _ => 1
  | ByHash _ h1, ByHash _ h2 => hashCompare h1 h2
  end.

End OrderedKeys.

Arguments OrderedKey K {ops}.

(** ** Sequences (sequence.js, meta-sequence.js, the leaf sequences) *)

Section Sequences.

Context {T K : Type} {ops : ValueOps K}.

(** [class MetaTuple]: [ref], [key], [numLeaves] and the child.  The child
    sequence is what [getChildSequence(vr)] resolves to, either the cached
    [child] or the collection read through the value reader at
    [ref.targetHash]; the tuple carries it directly. *)
Record MetaTuple (S : Type) : Type := mkMetaTuple {
  mt_ref : Hash;
  mt_key : OrderedKey K;
  mt_numLeaves : Z;
  mt_child : S
}.

(** [interface Sequence]: a leaf sequence holds items, a meta sequence holds
    meta tuples. *)
Inductive Sequence : Type :=
| LeafSequence (items : list T)
| MetaSequence (items : list (MetaTuple Sequence)).

Definition isMeta (s : Sequence) : bool :=
  match s with LeafSequence _ => false | MetaSequence _ => true end.

(** [get length()] *)
Definition seq_length (s : Sequence) : Z :=
  match s with
  | LeafSequence items => len items
  | MetaSequence items => len items
  end.

(** The constructor of [MetaSequence] precomputes
    [_offsets[i] = items[0].numLeaves + ... + items[i].numLeaves]. *)
Fixpoint offsets_from (cum : Z) (items : list (MetaTuple Sequence)) : list Z :=
  match items with
  | [] => []
  | mt :: rest => (cum + mt_numLeaves mt) :: offsets_from (cum + mt_numLeaves mt) rest
  end.

Definition offsets (items : list (MetaTuple Sequence)) : list Z := offsets_from 0 items.

(** [get numLeaves()]: [this._items.length] for a leaf
    ([leaf-sequence.js]); for a meta sequence
    [_offsets[_offsets.length - 1]], which is [undefined] for an empty
    one. *)
Definition numLeaves (s : Sequence) : option Z :=
  match s with
  | LeafSequence items => Some (len items)
  | MetaSequence items => item_at (offsets items) (len (offsets items) - 1)
  end.

(** [cumulativeNumberOfLeaves(idx)].  A leaf returns [idx]
    ([leaf-sequence.js]); a meta sequence returns [_offsets[idx]], the
    number of leaves in the children up to and including [idx], which is
    [undefined] out of range. *)
Definition cumulativeNumberOfLeaves (s : Sequence) (idx : Z) : option Z :=
  match s with
  | LeafSequence _ => Some idx
  | MetaSequence items => item_at (offsets items) idx
  end.

(** [getChildSequence(idx)]: [null] for a leaf ([leaf-sequence.js]), the
    child of [items[idx]] for a meta sequence; dereferencing [items[idx]]
    throws when [idx] is out of range.  The outer [option] is the
    exception, the inner one the [null]. *)
Definition getChildSequence (s : Sequence) (idx : Z) : option (option Sequence) :=
  match s with
  | LeafSequence _ => Some None
  | MetaSequence items =>
      match item_at items idx with
      | Some mt => Some (Some (mt_child mt))
      | None => None
      end
  end.

(** The leaf items below a sequence, in order. *)
Fixpoint leaves (s : Sequence) : list T :=
  match s with
  | LeafSequence items => items
  | MetaSequence items =>
      (fix go (l : list (MetaTuple Sequence)) : list T :=
         match l with
         | [] => []
         | mt :: rest => leaves (mt_child mt) ++ go rest
         end) items
  end.

(** The number of levels of a sequence tree: the bound on the descent of
    the cursor constructors. *)
Fixpoint depth_of (s : Sequence) : nat :=
  match s with
  | LeafSequence _ => 1%nat
  | MetaSequence items =>
      S ((fix go (l : list (MetaTuple Sequence)) : nat :=
            match l with
            | [] => 0%nat
            | mt :: rest => Nat.max (depth_of (mt_child mt)) (go rest)
            end) items)
  end.

End Sequences.

Arguments MetaTuple K {ops} S.
Arguments Sequence T K {ops}.

(** ** sequence-cursor.js *)

Section Cursors.

Context {T K : Type} {ops : ValueOps K}.

(** [class SequenceCursor]: [parent], [sequence], [idx]. *)
Inductive SequenceCursor : Type := mkCursor {
  parent : option SequenceCursor;
  sequence : Sequence T K;
  idx : Z
}.

(** [constructor(parent, sequence, idx)]: a negative [idx] counts from the
    end, clamped at [0]. *)
Definition newSequenceCursor (parent : option SequenceCursor) (sequence : Sequence T K)
    (idx : Z) : SequenceCursor :=
  mkCursor parent sequence
    (if idx <? 0 then Z.max 0 (seq_length sequence + idx) else idx).

(** [get length()] *)
Definition length (c : SequenceCursor) : Z := seq_length (sequence c).

(** [get valid()] *)
Definition valid (c : SequenceCursor) : bool :=
  (0 <=? idx c) && (idx c <? length c).

(** [get indexInChunk()] *)
Definition indexInChunk (c : SequenceCursor) : Z := idx c.

(** [get depth()] *)
Fixpoint depth (c : SequenceCursor) : Z :=
  1 + match parent c with Some p => depth p | None => 0 end.

Definition set_idx (c : SequenceCursor) (i : Z) : SequenceCursor :=
  mkCursor (parent c) (sequence c) i.

(** [getChildSequence()] of the cursor: the child of its sequence at
    [idx]. *)
Definition cursor_getChildSequence (c : SequenceCursor) : option (option (Sequence T K)) :=
  getChildSequence (sequence c) (idx c).

(** [sync()]: [invariant(this.parent)], then the sequence becomes
    [notNull] of the parent's child. *)
Definition sync (c : SequenceCursor) : option SequenceCursor :=
  match parent c with
  | None => None
  | Some p =>
      match cursor_getChildSequence p with
      | Some (Some s) => Some (mkCursor (Some p) s (idx c))
      | _ => None
      end
  end.

(** [getCurrent()]: [invariant(this.valid)], then [sequence.items[idx]] of a
    leaf. *)
Definition getCurrent (c : SequenceCursor) : option T :=
  if valid c then
    match sequence c with
    | LeafSequence items => item_at items (idx c)
    | MetaSequence _ => None
    end
  else None.

(** [advanceLocal(allowPastEnd)] *)
Definition advanceLocal (allowPastEnd : bool) (c : SequenceCursor) : bool * SequenceCursor :=
  if idx c =? length c then (false, c)
  else if idx c <? length c - 1 then (true, set_idx c (idx c + 1))
  else if allowPastEnd then (false, set_idx c (idx c + 1))
  else (false, c).

(** [canAdvanceLocal()] *)
Definition canAdvanceLocal (c : SequenceCursor) : bool := idx c <? length c - 1.

(** [_advanceMaybeAllowPastEnd(allowPastEnd)].  The parent object is
    advanced in place, so the cursor returned carries the parent as the
    recursive call left it. *)
Fixpoint _advanceMaybeAllowPastEnd (allowPastEnd : bool) (c : SequenceCursor)
    : option (bool * SequenceCursor) :=
  match c with
  | mkCursor par s i =>
      if i =? seq_length s then Some (false, c)
      else
        let (moved, c1) := advanceLocal allowPastEnd c in
        if moved then Some (true, c1)
        else
          match par with
          | None => Some (false, c1)
          | Some p =>
              match _advanceMaybeAllowPastEnd false p with
              | None => None
              | Some (true, p') =>
                  match sync (mkCursor (Some p') (sequence c1) (idx c1)) with
                  | Some c2 => Some (true, set_idx c2 0)
                  | None => None
                  end
              | Some (false, p') => Some (false, mkCursor (Some p') (sequence c1) (idx c1))
              end
          end
  end.

(** [advance(allowPastEnd = true)] *)
Definition advance (c : SequenceCursor) : option (bool * SequenceCursor) :=
  _advanceMaybeAllowPastEnd true c.

(** [advanceChunk()] *)
Definition advanceChunk (c : SequenceCursor) : option (bool * SequenceCursor) :=
  _advanceMaybeAllowPastEnd true (set_idx c (length c - 1)).

(** [_retreatMaybeAllowBeforeStart(allowBeforeStart)] *)
Fixpoint _retreatMaybeAllowBeforeStart (allowBeforeStart : bool) (c : SequenceCursor)
    : option (bool * SequenceCursor) :=
  match c with
  | mkCursor par s i =>
      if 0 <? i then Some (true, mkCursor par s (i - 1))
      else if i =? -1 then Some (false, c)
      else if negb (i =? 0) then None
      else
        let stay (par' : option SequenceCursor) :=
          if allowBeforeStart then Some (false, mkCursor par' s (i - 1))
          else Some (false, mkCursor par' s i) in
        match par with
        | None => stay None
        | Some p =>
            match _retreatMaybeAllowBeforeStart false p with
            | None => None
            | Some (true, p') =>
                match sync (mkCursor (Some p') s i) with
                | Some c2 => Some (true, set_idx c2 (length c2 - 1))
                | None => None
                end
            | Some (false, p') => stay (Some p')
            end
        end
  end.

(** [retreat()] *)
Definition retreat (c : SequenceCursor) : option (bool * SequenceCursor) :=
  _retreatMaybeAllowBeforeStart true c.

End Cursors.

Arguments SequenceCursor T K {ops}.

(** ** Numbers as values

    The instance used by the concrete scenarios: JavaScript numbers (here
    integers) are not [ValueBase] objects, so their keys are ordered by
    value. *)

Definition number_compare (a b : Z) : Z :=
  match a ?= b with Lt => -1 | Eq => 0 | Gt => 1 end.

#[export] Instance NumberOps : ValueOps Z := {|
  Hash := Z;
  compare := number_compare;
  equals := Z.eqb;
  isValueBase := fun _ => false;
  hashOf := fun a => a;
  hashCompare := number_compare
|}.

Lemma number_compare_lt (a b : Z) : number_compare a b < 0 <-> a < b.
Proof.
  unfold number_compare. destruct (Z.compare_spec a b); split; intros; lia.
Qed.

Lemma number_compare_gt (a b : Z) : 0 < number_compare a b <-> b < a.
Proof.
  unfold number_compare. destruct (Z.compare_spec a b); split; intros; lia.
Qed.

Lemma number_compare_zero (a b : Z) : number_compare a b = 0 <-> a = b.
Proof.
  unfold number_compare. destruct (Z.compare_spec a b); split; intros; lia.
Qed.

#[export] Instance NumberLaws : ValueLaws Z.
Proof.
  constructor; simpl.
  - apply number_compare_zero.
  - intros a b. rewrite number_compare_lt, number_compare_gt. tauto.
  - intros a b c. rewrite !number_compare_lt. lia.
  - intros a b. apply Z.eqb_eq.
  - apply number_compare_zero.
  - intros a b. rewrite number_compare_lt, number_compare_gt. tauto.
  - intros a b c. rewrite !number_compare_lt. lia.
  - auto.
Defined.

(** ** Cursor sentinels *)

Section CursorSentinels.

Context {T K : Type} {ops : ValueOps K}.

Lemma advance_at_end (allowPastEnd : bool) (c : SequenceCursor T K) :
  idx c = length c -> _advanceMaybeAllowPastEnd allowPastEnd c = Some (false, c).
Proof.
  destruct c as [par s i]. unfold length. simpl. intros ->.
  rewrite Z.eqb_refl. reflexivity.
Qed.

Lemma retreat_at_start (allowBeforeStart : bool) (c : SequenceCursor T K) :
  idx c = -1 -> _retreatMaybeAllowBeforeStart allowBeforeStart c = Some (false, c).
Proof.
  destruct c as [par s i]. simpl. intros ->. reflexivity.
Qed.

Lemma retreat_inside (allowBeforeStart : bool) (c : SequenceCursor T K) :
  0 < idx c ->
  _retreatMaybeAllowBeforeStart allowBeforeStart c = Some (true, set_idx c (idx c - 1)).
Proof.
  destruct c as [par s i]. simpl. intros H.
  apply Z.ltb_lt in H. rewrite H. reflexivity.
Qed.

Lemma advance_inside (allowPastEnd : bool) (c : SequenceCursor T K) :
  idx c < length c - 1 ->
  _advanceMaybeAllowPastEnd allowPastEnd c = Some (true, set_idx c (idx c + 1)).
Proof.
  destruct c as [par s i]. unfold length. simpl. intros H.
  destruct (i =? seq_length s) eqn:E; [apply Z.eqb_eq in E; lia|].
  unfold advanceLocal, length. simpl. rewrite E.
  apply Z.ltb_lt in H. rewrite H. reflexivity.
Qed.

(** C5 (as the code has it).  A cursor at the past-end sentinel
    [idx = length] does not move when advanced, and a cursor at the
    before-start sentinel [idx = -1] does not move when retreated: the call
    returns false and the cursor, parents included, is unchanged.  The two
    other combinations do move: advancing from [-1] in a non-empty chunk
    returns true at index [0], and retreating from [length > 0] returns true
    at index [length - 1]. *)
Theorem sentinel_advance_retreat (c : SequenceCursor T K) :
  (idx c = length c -> advance c = Some (false, c)) /\
  (idx c = -1 -> retreat c = Some (false, c)) /\
  (idx c = -1 -> 0 < length c -> advance c = Some (true, set_idx c 0)) /\
  (idx c = length c -> 0 < length c -> retreat c = Some (true, set_idx c (length c - 1))).
Proof.
  repeat split.
  - apply advance_at_end.
  - apply retreat_at_start.
  - intros Hi Hl. unfold advance. rewrite advance_inside by lia.
    rewrite Hi. reflexivity.
  - intros Hi Hl. unfold retreat. rewrite retreat_inside by lia.
    rewrite Hi. reflexivity.
Qed.

(** C6.  At the past-end sentinel of a non-empty chunk the cursor is not
    valid, and [retreat] returns true and leaves it on the last index,
    [length - 1], which is a valid position. *)
Theorem retreat_from_past_end (c : SequenceCursor T K) :
  idx c = length c -> 0 < length c ->
  valid c = false /\
  retreat c = Some (true, set_idx c (length c - 1)) /\
  valid (set_idx c (length c - 1)) = true.
Proof.
  intros Hi Hl. repeat split.
  - unfold valid. rewrite Hi, Z.ltb_irrefl. apply andb_false_r.
  - unfold retreat. rewrite retreat_inside by lia. rewrite Hi. reflexivity.
  - unfold valid, length, set_idx. simpl. unfold length in Hl.
    apply andb_true_iff. split; [apply Z.leb_le | apply Z.ltb_lt]; lia.
Qed.

End CursorSentinels.

(** The tree of the cursor tests of [sequence-test.js]: two chunks,
    [[100, 101]] and [[102]], under one parent. *)
Definition test_tree : Sequence Z Z :=
  MetaSequence
    [ mkMetaTuple 1 (ByValue 101) 2 (LeafSequence [100; 101]);
      mkMetaTuple 2 (ByValue 102) 1 (LeafSequence [102]) ].

(** A cursor of the first chunk at the before-start sentinel. *)
Definition cursor_before_start : SequenceCursor Z Z :=
  mkCursor (Some (mkCursor None test_tree 0)) (LeafSequence [100; 101]) (-1).

(** A cursor of the last chunk at the past-end sentinel. *)
Definition cursor_past_end : SequenceCursor Z Z :=
  mkCursor (Some (mkCursor None test_tree 1)) (LeafSequence [102]) 1.

(** A cursor past the end of a five-element list. *)
Definition cursor_five : SequenceCursor Z Z :=
  mkCursor None (LeafSequence [10; 11; 12; 13; 14]) 5.

(** C5, as stated, fails: from the sentinel [-1] [advance] returns true and
    moves to index [0]; from the sentinel [length] [retreat] returns true and
    moves to the last index. *)
Lemma sentinel_moves_counterexample :
  idx cursor_before_start = -1 /\
  advance cursor_before_start = Some (true, set_idx cursor_before_start 0) /\
  idx cursor_past_end = length cursor_past_end /\
  retreat cursor_past_end = Some (true, set_idx cursor_past_end 0).
Proof. repeat split. Qed.

Lemma sentinel_advance_retreat_witness :
  advance cursor_past_end = Some (false, cursor_past_end) /\
  retreat cursor_before_start = Some (false, cursor_before_start).
Proof.
  split.
  - apply (sentinel_advance_retreat cursor_past_end). reflexivity.
  - apply (sentinel_advance_retreat cursor_before_start). reflexivity.
Defined.

Lemma retreat_from_past_end_witness :
  valid cursor_five = false /\
  retreat cursor_five = Some (true, set_idx cursor_five 4) /\
  valid (set_idx cursor_five 4) = true.
Proof.
  apply (retreat_from_past_end cursor_five); [reflexivity | reflexivity].
Defined.

(** ** The order of ordered keys *)

Section OrderedKeyOrder.

Context {K : Type} {ops : ValueOps K} {laws : ValueLaws K}.

Lemma compare_refl (a : K) : compare a a = 0.
Proof. apply compare_eq. reflexivity. Qed.

Lemma hashCompare_refl (a : Hash) : hashCompare a a = 0.
Proof. apply hashCompare_eq. reflexivity. Qed.

Lemma compare_le_trans (a b c : K) :
  compare a b <= 0 -> compare b c <= 0 -> compare a c <= 0.
Proof.
  intros H1 H2.
  destruct (Z.eq_dec (compare a b) 0) as [E|E]; [apply (proj1 (compare_eq a b)) in E; subst; exact H2|].
  destruct (Z.eq_dec (compare b c) 0) as [E'|E']; [apply (proj1 (compare_eq b c)) in E'; subst; exact H1|].
  assert (compare a c < 0) by (apply compare_trans with b; lia). lia.
Qed.

Lemma hashCompare_le_trans (a b c : Hash) :
  hashCompare a b <= 0 -> hashCompare b c <= 0 -> hashCompare a c <= 0.
Proof.
  intros H1 H2.
  destruct (Z.eq_dec (hashCompare a b) 0) as [E|E]; [apply (proj1 (hashCompare_eq a b)) in E; subst; exact H2|].
  destruct (Z.eq_dec (hashCompare b c) 0) as [E'|E']; [apply (proj1 (hashCompare_eq b c)) in E'; subst; exact H1|].
  assert (hashCompare a c < 0) by (apply hashCompare_trans with b; lia). lia.
Qed.

Lemma OrderedKey_compare_refl (a : OrderedKey K) : OrderedKey_compare a a = 0.
Proof. destruct a; simpl; [apply compare_refl | apply hashCompare_refl]. Qed.

Lemma OrderedKey_compare_antisym (a b : OrderedKey K) :
  OrderedKey_compare a b < 0 <-> 0 < OrderedKey_compare b a.
Proof.
  destruct a, b; simpl; try lia.
  - apply compare_antisym.
  - apply hashCompare_antisym.
Qed.

Lemma OrderedKey_compare_le_trans (a b c : OrderedKey K) :
  OrderedKey_compare a b <= 0 -> OrderedKey_compare b c <= 0 ->
  OrderedKey_compare a c <= 0.
Proof.
  destruct a, b, c; simpl; try lia.
  - apply compare_le_trans.
  - apply hashCompare_le_trans.
Qed.

Lemma OrderedKey_compare_ge_le (a b : OrderedKey K) :
  0 <= OrderedKey_compare a b <-> OrderedKey_compare b a <= 0.
Proof.
  pose proof (OrderedKey_compare_antisym a b).
  pose proof (OrderedKey_compare_antisym b a).
  lia.
Qed.

(** Two keys made from values compare equal only when the values are
    equal. *)
Lemma newOrderedKey_compare_zero (a b : K) :
  OrderedKey_compare (newOrderedKey a) (newOrderedKey b) = 0 -> a = b.
Proof.
  unfold newOrderedKey.
  destruct (isValueBase a), (isValueBase b); simpl; try lia.
  - intros H. apply (proj1 (hashCompare_eq _ _)) in H. apply hashOf_inj. exact H.
  - intros H. apply (proj1 (compare_eq a b)). exact H.
Qed.

Lemma newOrderedKey_value (a : K) : value (newOrderedKey a) = Some a.
Proof. unfold newOrderedKey. destruct (isValueBase a); reflexivity. Qed.

End OrderedKeyOrder.

(** ** Seeking by key (sequence-cursor.js, ordered-sequence.js) *)

Section OrderedSequences.

Context {T K : Type} {ops : ValueOps K}.

(** The key of a leaf item.  [MapLeafSequence.getKey(idx)] is
    [new OrderedKey(items[idx][KEY])] and [SetLeafSequence.getKey(idx)] is
    [new OrderedKey(items[idx])]; the leaves of lists and blobs have no keys
    (their [getKey] throws) and are never sought by key. *)
Variable leafKey : T -> OrderedKey K.

(** [getKey(idx)]: computed from the item for a leaf, read from the tuple
    for a meta sequence; [None] when [items[idx]] is undefined. *)
Definition getKey (s : Sequence T K) (idx : Z) : option (OrderedKey K) :=
  match s with
  | LeafSequence items => option_map leafKey (item_at items idx)
  | MetaSequence items => option_map (@mt_key K ops _) (item_at items idx)
  end.

(** The predicate [seekTo] hands to [search]:
    [i => this.sequence.getKey(i).compare(key) >= 0].  [search] only probes
    indices of the sequence, where [getKey] is defined. *)
Definition key_at_least (s : Sequence T K) (key : OrderedKey K) (i : Z) : bool :=
  match getKey s i with
  | Some k => 0 <=? OrderedKey_compare k key
  | None => false
  end.

(** [seekTo(key, lastPositionIfNotfound = false)] *)
Definition seekTo (key : OrderedKey K) (lastPositionIfNotfound : bool)
    (c : SequenceCursor T K) : option (bool * SequenceCursor T K) :=
  let i := BinarySearch.search (length c) (key_at_least (sequence c) key) in
  if (i =? length c) && lastPositionIfNotfound then
    if 0 <? i then Some (i - 1 <? length c, set_idx c (i - 1))
    else None
  else Some (i <? length c, set_idx c i).

(** [getCurrentKey()]: [invariant(this.valid)], then the key at [idx]. *)
Definition getCurrentKey (c : SequenceCursor T K) : option (OrderedKey K) :=
  if valid c then getKey (sequence c) (idx c) else None.

(** [newCursorAtKey(seq, key, forInsertion = false, last = false)]: one
    cursor per level, from the root down.  [fuel] bounds the number of
    levels. *)
Fixpoint newCursorAtKey_loop (fuel : nat) (cursor : option (SequenceCursor T K))
    (childSeq : Sequence T K) (key : option (OrderedKey K)) (forInsertion last : bool)
    : option (SequenceCursor T K) :=
  match fuel with
  | O => None
  | S fuel' =>
      let c := newSequenceCursor cursor childSeq (if last then -1 else 0) in
      let sought :=
        match key with
        | Some k => seekTo k (forInsertion && isMeta childSeq) c
        | None => Some (true, c)
        end in
      match sought with
      | None => None
      | Some (false, c') => Some c'
      | Some (true, c') =>
          match cursor_getChildSequence c' with
          | None => None
          | Some None => Some c'
          | Some (Some child) =>
              newCursorAtKey_loop fuel' (Some c') child key forInsertion last
          end
      end
  end.

Definition newCursorAtKey (seq : Sequence T K) (key : option (OrderedKey K))
    (forInsertion last : bool) : option (SequenceCursor T K) :=
  newCursorAtKey_loop (depth_of seq) None seq key forInsertion last.

(** [newCursorAtValue(seq, val, forInsertion = false, last = false)] *)
Definition newCursorAtValue (seq : Sequence T K) (val : option K)
    (forInsertion last : bool) : option (SequenceCursor T K) :=
  newCursorAtKey seq (option_map newOrderedKey val) forInsertion last.

(** The keys of a sequence, in order. *)
Definition keys (s : Sequence T K) : list (OrderedKey K) :=
  match s with
  | LeafSequence items => map leafKey items
  | MetaSequence items => map (@mt_key K ops _) items
  end.

Definition key_le (a b : OrderedKey K) : Prop := OrderedKey_compare a b <= 0.

Definition key_lt (a b : OrderedKey K) : Prop := OrderedKey_compare a b < 0.

(** The keys of a sequence are in order: a key never exceeds a later one.
    The sequences of ordered collections are built that way (the comment
    of [seekTo]: it only works for sequences that are ordered by K). *)
Definition keys_ordered (s : Sequence T K) : Prop := StronglySorted key_le (keys s).

(** [i] is the smallest index whose key is at least [key]. *)
Definition first_at_least (s : Sequence T K) (key : OrderedKey K) (i : Z) : Prop :=
  0 <= i < seq_length s /\
  key_at_least s key i = true /\
  forall j, 0 <= j < i -> key_at_least s key j = false.

(** No key of the sequence is at least [key]. *)
Definition none_at_least (s : Sequence T K) (key : OrderedKey K) : Prop :=
  forall j, 0 <= j < seq_length s -> key_at_least s key j = false.

Lemma getKey_in_range (s : Sequence T K) (i : Z) :
  0 <= i < seq_length s -> exists k, getKey s i = Some k.
Proof.
  intros H. destruct s as [items|items]; simpl in *;
    destruct (item_at_Some items H) as [x ->]; simpl; eauto.
Qed.

Lemma seq_length_nonneg (s : Sequence T K) : 0 <= seq_length s.
Proof. destruct s; simpl; apply len_nonneg. Qed.

End OrderedSequences.

Section SeekTo.

Context {T K : Type} {ops : ValueOps K} {laws : ValueLaws K}.
Variable leafKey : T -> OrderedKey K.

Lemma item_at_map {A B : Type} (f : A -> B) (l : list A) (i : Z) :
  item_at (map f l) i = option_map f (item_at l i).
Proof.
  unfold item_at. destruct (i <? 0); [reflexivity|].
  apply nth_error_map.
Qed.

Lemma getKey_keys (s : Sequence T K) (i : Z) :
  getKey leafKey s i = item_at (keys leafKey s) i.
Proof. destruct s; simpl; rewrite item_at_map; reflexivity. Qed.

Lemma StronglySorted_nth {A : Type} (R : A -> A -> Prop) (l : list A) :
  StronglySorted R l ->
  forall i j a b, nth_error l i = Some a -> nth_error l j = Some b -> (i < j)%nat -> R a b.
Proof.
  induction 1 as [|x l Hs IH Hall]; intros i j a b Hi Hj Hlt.
  - destruct i; discriminate.
  - destruct j as [|j]; [lia|]. simpl in Hj.
    destruct i as [|i]; simpl in Hi.
    + injection Hi as <-. rewrite Forall_forall in Hall. apply Hall.
      eapply nth_error_In; eauto.
    + eapply IH; eauto. lia.
Qed.

Lemma keys_ordered_at (s : Sequence T K) :
  keys_ordered leafKey s ->
  forall i j ki kj,
    getKey leafKey s i = Some ki -> getKey leafKey s j = Some kj -> i <= j ->
    OrderedKey_compare ki kj <= 0.
Proof.
  intros Hs i j ki kj Hi Hj Hle. rewrite getKey_keys in Hi, Hj.
  pose proof (item_at_range _ _ Hi) as Ri. pose proof (item_at_range _ _ Hj) as Rj.
  unfold item_at in Hi, Hj.
  destruct (i <? 0) eqn:Ei; [discriminate|]. destruct (j <? 0) eqn:Ej; [discriminate|].
  destruct (Z.eq_dec i j) as [->|Hne].
  - rewrite Hi in Hj. injection Hj as <-. rewrite OrderedKey_compare_refl. lia.
  - eapply (StronglySorted_nth Hs); eauto. lia.
Qed.

Lemma key_at_least_monotone (s : Sequence T K) (key : OrderedKey K) :
  keys_ordered leafKey s ->
  BinarySearch.monotone (seq_length s) (key_at_least leafKey s key).
Proof.
  intros Hs i j Hi Hij Hj. unfold key_at_least.
  destruct (getKey_in_range leafKey s (i := i)) as [ki Hki]; [lia|].
  destruct (getKey_in_range leafKey s (i := j)) as [kj Hkj]; [lia|].
  rewrite Hki, Hkj. intros H. apply Z.leb_le in H. apply Z.leb_le.
  pose proof (keys_ordered_at Hs Hki Hkj Hij) as Hle.
  apply OrderedKey_compare_ge_le. apply OrderedKey_compare_ge_le in H.
  eapply OrderedKey_compare_le_trans; eauto.
Qed.

(** What [search] finds on an ordered sequence. *)
Lemma search_key_at_least (s : Sequence T K) (key : OrderedKey K) :
  keys_ordered leafKey s ->
  let r := BinarySearch.search (seq_length s) (key_at_least leafKey s key) in
  (r < seq_length s /\ first_at_least leafKey s key r) \/
  (r = seq_length s /\ none_at_least leafKey s key).
Proof.
  intros Hs r.
  destruct (BinarySearch.search_spec (seq_length_nonneg s) (key_at_least_monotone key Hs))
    as (Hr & Hbelow & Hat). fold r in Hr, Hbelow, Hat.
  destruct (Z.eq_dec r (seq_length s)) as [E|E].
  - right. split; [exact E|]. intros j Hj. apply Hbelow. lia.
  - left. split; [lia|]. repeat split; try lia; auto. apply Hat. lia.
Qed.

Lemma first_at_least_unique (s : Sequence T K) (key : OrderedKey K) (i j : Z) :
  first_at_least leafKey s key i -> first_at_least leafKey s key j -> i = j.
Proof.
  intros (Ri & Pi & Bi) (Rj & Pj & Bj).
  destruct (Z.lt_trichotomy i j) as [H|[H|H]]; [|exact H|].
  - rewrite Bj in Pi by lia. discriminate.
  - rewrite Bi in Pj by lia. discriminate.
Qed.

Lemma first_not_none (s : Sequence T K) (key : OrderedKey K) (i : Z) :
  first_at_least leafKey s key i -> none_at_least leafKey s key -> False.
Proof.
  intros (Ri & Pi & _) Hn. rewrite Hn in Pi by lia. discriminate.
Qed.

Lemma seekTo_found (c : SequenceCursor T K) (key : OrderedKey K) (lastIfMissing : bool)
    (i : Z) :
  keys_ordered leafKey (sequence c) ->
  first_at_least leafKey (sequence c) key i ->
  seekTo leafKey key lastIfMissing c = Some (true, set_idx c i).
Proof.
  intros Hs Hi.
  pose proof (search_key_at_least key Hs) as Hsearch. cbv zeta in Hsearch.
  unfold seekTo, length.
  destruct Hsearch as [[Hlt Hf]|[_ Hn]]; [|exfalso; eapply first_not_none; eauto].
  rewrite (first_at_least_unique Hi Hf).
  destruct (_ =? _) eqn:E; [apply Z.eqb_eq in E; lia|]. simpl.
  apply Z.ltb_lt in Hlt. rewrite Hlt. reflexivity.
Qed.

(** C7 (as the code has it).  On a sequence whose keys are in order,
    [seekTo(key, lastIfMissing)] either finds the smallest index [i] whose
    key is at least [key], sets [idx = i] and returns true; or there is no
    such index, and then: with [lastIfMissing] on a non-empty sequence it
    sets [idx = length - 1] and returns true; with [lastIfMissing] on an
    empty sequence the invariant [idx > 0] fails and the call throws; and
    without [lastIfMissing] it sets [idx = length] and returns false. *)
Theorem seekTo_spec (c : SequenceCursor T K) (key : OrderedKey K) (lastIfMissing : bool) :
  keys_ordered leafKey (sequence c) ->
  ((exists i, first_at_least leafKey (sequence c) key i) \/
   none_at_least leafKey (sequence c) key) /\
  (forall i, first_at_least leafKey (sequence c) key i ->
     seekTo leafKey key lastIfMissing c = Some (true, set_idx c i)) /\
  (none_at_least leafKey (sequence c) key ->
     seekTo leafKey key lastIfMissing c =
       if lastIfMissing then
         if 0 <? length c then Some (true, set_idx c (length c - 1)) else None
       else Some (false, set_idx c (length c))).
Proof.
  intros Hs.
  pose proof (search_key_at_least key Hs) as Hsearch. cbv zeta in Hsearch.
  split; [|split].
  - destruct Hsearch as [[_ H]|[_ H]]; [left; eauto | right; exact H].
  - intros i Hi. apply seekTo_found; assumption.
  - intros Hn. unfold seekTo, length.
    destruct Hsearch as [[_ Hf]|[Heq _]]; [exfalso; eapply first_not_none; eauto|].
    rewrite Heq, Z.eqb_refl. simpl.
    destruct lastIfMissing.
    + destruct (0 <? seq_length (sequence c)) eqn:E; [|reflexivity].
      replace (seq_length (sequence c) - 1 <? seq_length (sequence c)) with true
        by (symmetry; apply Z.ltb_lt; lia).
      reflexivity.
    + rewrite Z.ltb_irrefl. reflexivity.
Qed.

End SeekTo.

(** A set leaf with three members, a cursor on it, and a cursor on an empty
    set leaf. *)
Definition cursor_set_leaf : SequenceCursor Z Z :=
  mkCursor None (LeafSequence [10; 20; 30]) 0.

Definition cursor_empty_leaf : SequenceCursor Z Z :=
  mkCursor None (LeafSequence []) 0.

(** C7, as stated, fails on an empty sequence: with [lastIfMissing] the call
    does not return false, it throws (the invariant [idx > 0]). *)
Lemma seekTo_empty_counterexample :
  length cursor_empty_leaf = 0 /\
  seekTo newOrderedKey (newOrderedKey 5) true cursor_empty_leaf = None /\
  seekTo newOrderedKey (newOrderedKey 5) true cursor_empty_leaf
    <> Some (false, cursor_empty_leaf).
Proof. repeat split. discriminate. Qed.

Lemma keys_ordered_set_leaf : keys_ordered newOrderedKey (sequence cursor_set_leaf).
Proof.
  unfold keys_ordered, key_le. simpl.
  repeat constructor; simpl; unfold number_compare; simpl; lia.
Qed.

Lemma seekTo_spec_witness :
  seekTo newOrderedKey (newOrderedKey 15) false cursor_set_leaf
    = Some (true, set_idx cursor_set_leaf 1) /\
  seekTo newOrderedKey (newOrderedKey 31) true cursor_set_leaf
    = Some (true, set_idx cursor_set_leaf 2) /\
  seekTo newOrderedKey (newOrderedKey 31) false cursor_set_leaf
    = Some (false, set_idx cursor_set_leaf 3).
Proof.
  pose proof (seekTo_spec (laws := NumberLaws) (leafKey := newOrderedKey) cursor_set_leaf) as H.
  split; [|split].
  - apply (H (newOrderedKey 15) false keys_ordered_set_leaf).
    repeat split; simpl; try lia.
    intros j Hj. assert (j = 0) as -> by lia. reflexivity.
  - apply (H (newOrderedKey 31) true keys_ordered_set_leaf).
    intros j Hj. simpl in Hj.
    assert (j = 0 \/ j = 1 \/ j = 2) as [->|[->| ->]] by (unfold len in Hj; simpl in Hj; lia);
      reflexivity.
  - apply (H (newOrderedKey 31) false keys_ordered_set_leaf).
    intros j Hj. simpl in Hj.
    assert (j = 0 \/ j = 1 \/ j = 2) as [->|[->| ->]] by (unfold len in Hj; simpl in Hj; lia);
      reflexivity.
Defined.

(** ** Cursors by index (sequence-cursor.js) *)

Section IndexedCursors.

Context {T K : Type} {ops : ValueOps K}.

(** The predicate [advanceToOffset] hands to [search]:
    [i => idx < this.sequence.cumulativeNumberOfLeaves(i)]; a comparison
    with [undefined] is false. *)
Definition offset_below (s : Sequence T K) (idx : Z) (i : Z) : bool :=
  match cumulativeNumberOfLeaves s i with
  | Some cum => idx <? cum
  | None => false
  end.

(** [advanceToOffset(idx)]: returns the number of leaves before the position
    the cursor moved to.  The lookup of the result is at an index of the
    sequence, so it is never [undefined] (lemma [advanceToOffset_defined]
    below); [None] stands for that impossible case. *)
Definition advanceToOffset (idx : Z) (c : SequenceCursor T K)
    : option (Z * SequenceCursor T K) :=
  let i := BinarySearch.search (length c) (offset_below (sequence c) idx) in
  let i := if isMeta (sequence c) && (i =? length c) then length c - 1 else i in
  if 0 <? i then
    match cumulativeNumberOfLeaves (sequence c) (i - 1) with
    | Some before => Some (before, set_idx c i)
    | None => None
    end
  else Some (0, set_idx c i).

(** [newCursorAtIndex(seq, idx)]: one cursor per level, from the root down;
    [fuel] bounds the number of levels. *)
Fixpoint newCursorAtIndex_loop (fuel : nat) (cursor : option (SequenceCursor T K))
    (childSeq : Sequence T K) (idx : Z) : option (SequenceCursor T K) :=
  match fuel with
  | O => None
  | S fuel' =>
      match advanceToOffset idx (newSequenceCursor cursor childSeq 0) with
      | None => None
      | Some (before, c) =>
          match cursor_getChildSequence c with
          | None => None
          | Some None => Some c
          | Some (Some child) => newCursorAtIndex_loop fuel' (Some c) child (idx - before)
          end
      end
  end.

Definition newCursorAtIndex (seq : Sequence T K) (idx : Z) : option (SequenceCursor T K) :=
  newCursorAtIndex_loop (depth_of seq) None seq idx.

End IndexedCursors.

(** ** Blob readers (blob.js) *)

Module Blob.

(** The bytes of a blob are the items of its leaves ([Uint8Array]); the
    keys of its meta tuples are numbers. *)
Definition BlobSequence : Type := Sequence Byte.byte Z.

Inductive Lock : Type := Unlocked | LockRead | LockSeek.

(** [class BlobReader]: [_sequence], [_cursor], [_pos], [_lock].  The
    promise [_cursor] is [None] when [newCursorAtIndex] rejected. *)
Record BlobReader : Type := mkBlobReader {
  _sequence : BlobSequence;
  _cursor : option (SequenceCursor Byte.byte Z);
  _pos : Z;
  _lock : Lock
}.

(** [constructor(sequence)] *)
Definition newBlobReader (sequence : BlobSequence) : BlobReader :=
  mkBlobReader sequence (newCursorAtIndex sequence 0) 0 Unlocked.

(** The result of [read()]: [{done: true}] or [{done: false, value}]. *)
Inductive ReadResult : Type :=
| ReadDone
| ReadChunk (value : list Byte.byte).

(** [_readCur(cur)]: the rest of the current chunk from [cur.indexInChunk],
    the cursor advanced to the next chunk, and [_pos] moved by the number of
    bytes returned.  Returns the advanced cursor, the new position and the
    bytes. *)
Definition _readCur (pos : Z) (cur : SequenceCursor Byte.byte Z)
    : option (SequenceCursor Byte.byte Z * Z * list Byte.byte) :=
  match sequence cur with
  | MetaSequence _ => None
  | LeafSequence arr =>
      let i := indexInChunk cur in
      let sliced :=
        if 0 <? i then
          if i <? len arr then Some (skipn (Z.to_nat i) arr) else None
        else Some arr in
      match sliced with
      | None => None
      | Some arr' =>
          match advanceChunk cur with
          | None => None
          | Some (_, cur') => Some (cur', pos + len arr', arr')
          end
      end
  end.

(** [read()].  A failed invariant or a rejected promise is [None]; the
    reader is returned as the call left it (the lock is only released when
    the read completes). *)
Definition read (r : BlobReader) : BlobReader * option ReadResult :=
  match _lock r with
  | Unlocked =>
      let locked := mkBlobReader (_sequence r) (_cursor r) (_pos r) LockRead in
      match _cursor r with
      | None => (locked, None)
      | Some cur =>
          if valid cur then
            match _readCur (_pos r) cur with
            | None => (locked, None)
            | Some (cur', pos', arr) =>
                (mkBlobReader (_sequence r) (Some cur') pos' Unlocked, Some (ReadChunk arr))
            end
          else (mkBlobReader (_sequence r) (_cursor r) (_pos r) Unlocked, Some ReadDone)
      end
  | _ => (r, None)
  end.

(** The absolute position [seek(offset, whence)] computes; [None] for an
    invalid [whence] (the [default] of the switch throws) or when
    [numLeaves] is undefined. *)
Definition seek_target (r : BlobReader) (offset whence : Z) : option Z :=
  if whence =? 0 then Some offset
  else if whence =? 1 then Some (_pos r + offset)
  else if whence =? 2 then option_map (fun n => n + offset) (numLeaves (_sequence r))
  else None.

(** [seek(offset, whence = 0)] *)
Definition seek (offset whence : Z) (r : BlobReader) : BlobReader * option Z :=
  match _lock r with
  | Unlocked =>
      let locked := mkBlobReader (_sequence r) (_cursor r) (_pos r) LockSeek in
      match seek_target r offset whence with
      | None => (locked, None)
      | Some abs =>
          if 0 <=? abs then
            match newCursorAtIndex (_sequence r) abs with
            | None => (mkBlobReader (_sequence r) None (_pos r) LockSeek, None)
            | Some cur => (mkBlobReader (_sequence r) (Some cur) abs Unlocked, Some abs)
            end
          else (locked, None)
      end
  | _ => (r, None)
  end.

End Blob.

(** ** Well-formed indexed trees and the position of a cursor *)

Section IndexedTrees.

Context {T K : Type} {ops : ValueOps K}.

(** A tree of [n] levels as the chunker builds them: the leaves are all at
    the same depth, a meta sequence is not empty, and the [numLeaves] of a
    tuple counts the leaves below it. *)
Fixpoint tree_wf (n : nat) (s : Sequence T K) : Prop :=
  match n with
  | O => False
  | S m =>
      match s with
      | LeafSequence _ => m = O
      | MetaSequence items =>
          m <> O /\ items <> [] /\
          Forall (fun mt => mt_numLeaves mt = len (leaves (mt_child mt)) /\
                            tree_wf m (mt_child mt)) items
      end
  end.

(** A cursor of level [n] (1 for a leaf cursor) of a well-formed tree: its
    sequence has [n] levels and every ancestor stands on a tuple. *)
Fixpoint cursor_wf (n : nat) (c : SequenceCursor T K) : Prop :=
  tree_wf n (sequence c) /\
  match parent c with
  | None => True
  | Some p => 0 <= idx p < length p /\ cursor_wf (S n) p
  end.

(** The leaves below the first [k] tuples. *)
Definition count_upto (items : list (MetaTuple K (Sequence T K))) (k : nat) : Z :=
  fold_right (fun mt acc => mt_numLeaves mt + acc) 0 (firstn k items).

Definition leaves_of_tuples (items : list (MetaTuple K (Sequence T K))) : list T :=
  flat_map (fun mt => leaves (mt_child mt)) items.

Lemma leaves_meta (items : list (MetaTuple K (Sequence T K))) :
  leaves (MetaSequence items) = leaves_of_tuples items.
Proof.
  simpl. induction items as [|mt rest IH]; [reflexivity|].
  simpl. rewrite IH. reflexivity.
Qed.

Lemma length_offsets_from (items : list (MetaTuple K (Sequence T K))) (cum : Z) :
  Datatypes.length (offsets_from cum items) = Datatypes.length items.
Proof.
  revert cum. induction items as [|mt rest IH]; intros cum; simpl; [reflexivity|].
  rewrite IH. reflexivity.
Qed.

Lemma nth_error_offsets_from (items : list (MetaTuple K (Sequence T K))) :
  forall (cum : Z) (i : nat),
    (i < Datatypes.length items)%nat ->
    nth_error (offsets_from cum items) i = Some (cum + count_upto items (S i)).
Proof.
  induction items as [|mt rest IH]; intros cum i Hi; simpl in Hi; [lia|].
  destruct i as [|i].
  - simpl. unfold count_upto. simpl. f_equal. destruct rest; simpl; lia.
  - simpl. rewrite IH by lia. unfold count_upto. simpl. f_equal. lia.
Qed.

Lemma cumulative_meta (items : list (MetaTuple K (Sequence T K))) (i : Z) :
  0 <= i < len items ->
  cumulativeNumberOfLeaves (MetaSequence items) i
    = Some (count_upto items (S (Z.to_nat i))).
Proof.
  intros Hi. simpl. unfold item_at, offsets.
  destruct (i <? 0) eqn:E; [apply Z.ltb_lt in E; lia|].
  rewrite nth_error_offsets_from by (unfold len in Hi; lia).
  reflexivity.
Qed.

Lemma count_upto_leaves (n : nat) (items : list (MetaTuple K (Sequence T K))) (k : nat) :
  Forall (fun mt => mt_numLeaves mt = len (leaves (mt_child mt)) /\
                    tree_wf n (mt_child mt)) items ->
  count_upto items k = len (leaves_of_tuples (firstn k items)).
Proof.
  intros Hall. revert k. induction Hall as [|mt rest [Hmt _] Hrest IH]; intros k.
  - destruct k; reflexivity.
  - destruct k as [|k]; [reflexivity|].
    unfold count_upto, leaves_of_tuples in *. simpl.
    rewrite IH, Hmt. unfold len. rewrite length_app. lia.
Qed.

Lemma count_upto_step (items : list (MetaTuple K (Sequence T K))) (k : nat) mt :
  nth_error items k = Some mt ->
  count_upto items (S k) = count_upto items k + mt_numLeaves mt.
Proof.
  revert k. induction items as [|x rest IH]; intros k Hk.
  - destruct k; discriminate.
  - destruct k as [|k]; simpl in Hk.
    + injection Hk as ->. unfold count_upto. simpl. destruct rest; simpl; lia.
    + specialize (IH k Hk). unfold count_upto in *. simpl in *. lia.
Qed.

Lemma count_upto_all (items : list (MetaTuple K (Sequence T K))) (k : nat) :
  (Datatypes.length items <= k)%nat ->
  count_upto items k = count_upto items (Datatypes.length items).
Proof.
  intros H. unfold count_upto. rewrite !firstn_all2 by lia. reflexivity.
Qed.

Lemma count_upto_mono (n : nat) (items : list (MetaTuple K (Sequence T K))) :
  Forall (fun mt => mt_numLeaves mt = len (leaves (mt_child mt)) /\
                    tree_wf n (mt_child mt)) items ->
  forall j k, (j <= k)%nat -> count_upto items j <= count_upto items k.
Proof.
  intros Hall j k Hjk. induction Hjk as [|k Hle IH]; [lia|].
  destruct (nth_error items k) as [mt|] eqn:E.
  - rewrite (@count_upto_step items k mt E).
    rewrite Forall_forall in Hall.
    destruct (Hall mt (nth_error_In _ _ E)) as [-> _].
    pose proof (len_nonneg (leaves (mt_child mt))). lia.
  - apply nth_error_None in E.
    rewrite (@count_upto_all items (S k)) by lia.
    rewrite (@count_upto_all items k) in IH by lia. exact IH.
Qed.

(** Skipping into the leaves of a list of tuples lands in the child that
    holds the position. *)
Lemma skipn_leaves_of_tuples (n : nat) (items : list (MetaTuple K (Sequence T K))) :
  Forall (fun mt => mt_numLeaves mt = len (leaves (mt_child mt)) /\
                    tree_wf n (mt_child mt)) items ->
  forall (k : nat) (mt : MetaTuple K (Sequence T K)) (pos : Z),
    nth_error items k = Some mt ->
    count_upto items k <= pos <= count_upto items (S k) ->
    skipn (Z.to_nat pos) (leaves_of_tuples items) =
      skipn (Z.to_nat (pos - count_upto items k)) (leaves (mt_child mt))
      ++ leaves_of_tuples (skipn (S k) items).
Proof.
  intros Hall. induction Hall as [|x rest [Hx _] Hrest IH]; intros k mt pos Hk Hpos.
  - destruct k; discriminate.
  - destruct k as [|k]; simpl in Hk.
    + injection Hk as ->.
      assert (Hc : count_upto (mt :: rest) 1 = mt_numLeaves mt)
        by (unfold count_upto; simpl; destruct rest; simpl; lia).
      assert (Hc0 : count_upto (mt :: rest) 0 = 0) by reflexivity.
      rewrite Hc, Hc0 in Hpos. rewrite Hc0, Z.sub_0_r.
      unfold leaves_of_tuples. simpl. rewrite skipn_app.
      replace (Z.to_nat pos - Datatypes.length (leaves (mt_child mt)))%nat with O
        by (unfold len in Hx; lia).
      reflexivity.
    + assert (Hc : forall j, count_upto (x :: rest) (S j) = mt_numLeaves x + count_upto rest j)
        by (intros j; unfold count_upto; reflexivity).
      rewrite !Hc in *.
      pose proof (len_nonneg (leaves (mt_child x))) as Hnn.
      assert (Hk0 : 0 <= count_upto rest k).
      { rewrite (@count_upto_leaves _ _ k Hrest). apply len_nonneg. }
      unfold leaves_of_tuples at 1. simpl. rewrite skipn_app.
      rewrite skipn_all2 by (unfold len in Hx; lia). simpl.
      replace (Z.to_nat pos - Datatypes.length (leaves (mt_child x)))%nat
        with (Z.to_nat (pos - mt_numLeaves x)) by (unfold len in Hx; lia).
      fold (leaves_of_tuples rest).
      rewrite (IH k mt (pos - mt_numLeaves x) Hk) by lia.
      f_equal. f_equal. lia.
Qed.

End IndexedTrees.

Section CursorAtIndex.

Context {T K : Type} {ops : ValueOps K}.

(** In a leaf [cumulativeNumberOfLeaves(i)] is [i], so the smallest [i]
    with [pos < i] is [pos + 1]: [advanceToOffset] leaves the cursor one
    item after position [pos], or past the end of the leaf. *)
Lemma advanceToOffset_leaf (par : option (SequenceCursor T K)) (items : list T) (pos : Z) :
  0 <= pos ->
  exists before : Z,
    advanceToOffset pos (newSequenceCursor par (LeafSequence items) 0)
      = Some (before, mkCursor par (LeafSequence items) (Z.min (pos + 1) (len items))).
Proof.
  intros Hpos. unfold advanceToOffset, newSequenceCursor, length. simpl.
  set (pred := offset_below (LeafSequence items) pos).
  assert (Hpred : forall i, pred i = (pos <? i)) by reflexivity.
  assert (Hmono : BinarySearch.monotone (len items) pred).
  { intros i j Hi Hij Hj. rewrite (Hpred i), (Hpred j), !Z.ltb_lt. lia. }
  destruct (BinarySearch.search_spec (len_nonneg items) Hmono) as (Hr & Hbelow & Hat).
  set (r := BinarySearch.search (len items) pred) in *.
  assert (Er : r = Z.min (pos + 1) (len items)).
  { destruct (Z_lt_dec r (len items)) as [Hlt|Hge].
    - specialize (Hat Hlt). rewrite Hpred in Hat. apply Z.ltb_lt in Hat.
      destruct (Z_lt_dec (pos + 1) r) as [H|H]; [|lia].
      assert (P : pred (pos + 1) = false) by (apply Hbelow; lia).
      rewrite Hpred in P. apply Z.ltb_ge in P. lia.
    - assert (r = len items) as Er by lia.
      destruct (Z_lt_dec pos (len items - 1)) as [H|H]; [|lia].
      assert (P : pred (pos + 1) = false) by (apply Hbelow; lia).
      rewrite Hpred in P. apply Z.ltb_ge in P. lia. }
  rewrite Er. unfold set_idx. simpl.
  destruct (0 <? Z.min (pos + 1) (len items)); eexists; reflexivity.
Qed.

Lemma advanceToOffset_meta (n : nat) (par : option (SequenceCursor T K))
    (items : list (MetaTuple K (Sequence T K))) (pos : Z) :
  Forall (fun mt => mt_numLeaves mt = len (leaves (mt_child mt)) /\
                    tree_wf n (mt_child mt)) items ->
  0 <= pos < count_upto items (Datatypes.length items) ->
  exists (k : nat) (mt : MetaTuple K (Sequence T K)),
    nth_error items k = Some mt /\
    count_upto items k <= pos < count_upto items (S k) /\
    advanceToOffset pos (newSequenceCursor par (MetaSequence items) 0)
      = Some (count_upto items k, mkCursor par (MetaSequence items) (Z.of_nat k)).
Proof.
  intros Hall Hpos. unfold advanceToOffset, newSequenceCursor, length.
  cbn [sequence idx seq_length isMeta Z.ltb Z.compare andb].
  set (pred := offset_below (MetaSequence items) pos).
  assert (Hpred : forall i, 0 <= i < len items ->
            pred i = (pos <? count_upto items (S (Z.to_nat i)))).
  { intros i Hi. unfold pred, offset_below. rewrite cumulative_meta by exact Hi. reflexivity. }
  assert (Hmono : BinarySearch.monotone (len items) pred).
  { intros i j Hi Hij Hj. rewrite !Hpred by lia. rewrite !Z.ltb_lt.
    pose proof (@count_upto_mono _ _ _ n items Hall (S (Z.to_nat i)) (S (Z.to_nat j))).
    lia. }
  destruct (BinarySearch.search_spec (len_nonneg items) Hmono) as (Hr & Hbelow & Hat).
  set (r := BinarySearch.search (len items) pred) in *.
  assert (Hlen : 0 < len items).
  { destruct items; [unfold count_upto in Hpos; simpl in Hpos; lia|].
    unfold len. simpl. lia. }
  assert (Hrlt : r < len items).
  { destruct (Z.eq_dec r (len items)) as [E|E]; [|lia].
    assert (P : pred (len items - 1) = false) by (apply Hbelow; lia).
    rewrite Hpred in P by lia. apply Z.ltb_ge in P.
    replace (S (Z.to_nat (len items - 1))) with (Datatypes.length items) in P
      by (unfold len in *; lia).
    lia. }
  assert (Pr : pos < count_upto items (S (Z.to_nat r))).
  { specialize (Hat Hrlt). rewrite Hpred in Hat by lia. apply Z.ltb_lt. exact Hat. }
  assert (Pb : count_upto items (Z.to_nat r) <= pos).
  { destruct (Z.eq_dec r 0) as [->|Hr0]; [unfold count_upto; simpl; lia|].
    assert (P : pred (r - 1) = false) by (apply Hbelow; lia).
    rewrite Hpred in P by lia. apply Z.ltb_ge in P.
    replace (S (Z.to_nat (r - 1))) with (Z.to_nat r) in P by lia. exact P. }
  destruct (nth_error items (Z.to_nat r)) as [mt|] eqn:Hnth;
    [|apply nth_error_None in Hnth; unfold len in Hrlt; lia].
  exists (Z.to_nat r), mt. split; [exact Hnth|]. split; [lia|].
  replace (r =? len items) with false by (symmetry; apply Z.eqb_neq; lia).
  unfold set_idx. cbn [sequence idx parent].
  rewrite Z2Nat.id by lia.
  destruct (0 <? r) eqn:E.
  - apply Z.ltb_lt in E. rewrite cumulative_meta by lia.
    replace (S (Z.to_nat (r - 1))) with (Z.to_nat r) by lia. reflexivity.
  - apply Z.ltb_ge in E. assert (r = 0) as -> by lia. reflexivity.
Qed.

(** On a well-formed tree [newCursorAtIndex] reaches the leaf that holds
    position [pos], and stands there one item after that position:
    [idx - 1] is the place of [pos] in the leaf, so the cursor is on the
    next item of the leaf, or past its end when [pos] is its last item. *)
Lemma newCursorAtIndex_loop_spec :
  forall (n fuel : nat) (s : Sequence T K) (par : option (SequenceCursor T K)) (pos : Z),
    (n <= fuel)%nat ->
    tree_wf n s ->
    match par with
    | None => True
    | Some p => 0 <= idx p < length p /\ cursor_wf (S n) p
    end ->
    0 <= pos < len (leaves s) ->
    exists (c : SequenceCursor T K) (items rest : list T),
      newCursorAtIndex_loop fuel par s pos = Some c /\
      sequence c = LeafSequence items /\
      1 <= idx c <= len items /\
      cursor_wf 1 c /\
      skipn (Z.to_nat pos) (leaves s) = skipn (Z.to_nat (idx c - 1)) items ++ rest.
Proof.
  induction n as [|n IH]; intros fuel s par pos Hfuel Hwf Hpar Hpos; [destruct Hwf|].
  destruct fuel as [|fuel]; [lia|].
  destruct s as [items|items]; simpl in Hwf.
  - subst n. simpl in Hpos. cbn [newCursorAtIndex_loop].
    destruct (@advanceToOffset_leaf par items pos) as [before Hadv]; [lia|].
    rewrite Hadv. unfold cursor_getChildSequence. cbn [getChildSequence sequence].
    rewrite Z.min_l in * by lia.
    exists (mkCursor par (LeafSequence items) (pos + 1)), items, [].
    split; [reflexivity|]. split; [reflexivity|]. split; [cbn [idx]; lia|].
    split; [simpl; split; [reflexivity | destruct par; exact Hpar]|].
    cbn [idx leaves]. rewrite app_nil_r. f_equal. lia.
  - destruct Hwf as (Hn & Hne & Hall).
    rewrite leaves_meta in Hpos.
    assert (Htot : count_upto items (Datatypes.length items) = len (leaves_of_tuples items)).
    { rewrite (@count_upto_leaves _ _ _ n items (Datatypes.length items) Hall).
      rewrite firstn_all. reflexivity. }
    destruct (@advanceToOffset_meta n par items pos Hall) as (k & mt & Hnth & Hrange & Hadv);
      [lia|].
    cbn [newCursorAtIndex_loop]. rewrite Hadv.
    unfold cursor_getChildSequence. cbn [getChildSequence sequence idx].
    assert (Hk : (k < Datatypes.length items)%nat)
      by (apply nth_error_Some; congruence).
    unfold item_at.
    replace (Z.of_nat k <? 0) with false by (symmetry; apply Z.ltb_ge; lia).
    rewrite Nat2Z.id, Hnth.
    pose proof Hall as Hall'. rewrite Forall_forall in Hall'.
    destruct (Hall' mt (nth_error_In _ _ Hnth)) as [Hcount Hchild].
    rewrite (@count_upto_step _ _ _ items k mt Hnth) in Hrange.
    destruct (IH fuel (mt_child mt) (Some (mkCursor par (MetaSequence items) (Z.of_nat k)))
                (pos - count_upto items k)) as (c & leaf & rest & Hc & Hseq & Hidx & Hcwf & Hskip).
    + lia.
    + exact Hchild.
    + simpl. unfold length. simpl. split; [unfold len; lia|].
      split; [|exact Hpar].
      simpl. destruct n; [congruence|]. repeat split; auto.
    + lia.
    + exists c, leaf, (rest ++ leaves_of_tuples (skipn (S k) items)).
      split; [exact Hc|]. split; [exact Hseq|]. split; [exact Hidx|]. split; [exact Hcwf|].
      rewrite leaves_meta.
      rewrite (@skipn_leaves_of_tuples _ _ _ n items Hall k mt pos Hnth)
        by (rewrite (@count_upto_step _ _ _ items k mt Hnth); lia).
      rewrite Hskip, app_assoc. reflexivity.
Qed.

Lemma tree_wf_depth (n : nat) (s : Sequence T K) : tree_wf n s -> depth_of s = n.
Proof.
  revert s. induction n as [|n IH]; intros s Hwf; [destruct Hwf|].
  destruct s as [items|items]; simpl in Hwf.
  - subst. reflexivity.
  - destruct Hwf as (Hn & Hne & Hall). simpl. f_equal.
    induction Hall as [|mt rest [_ Hmt] Hrest IHr]; [congruence|].
    rewrite (IH _ Hmt).
    destruct rest as [|mt' rest']; [apply Nat.max_0_r|].
    rewrite IHr by discriminate. apply Nat.max_id.
Qed.

Lemma newCursorAtIndex_spec (n : nat) (s : Sequence T K) (pos : Z) :
  tree_wf n s ->
  0 <= pos < len (leaves s) ->
  exists (c : SequenceCursor T K) (items rest : list T),
    newCursorAtIndex s pos = Some c /\
    sequence c = LeafSequence items /\
    1 <= idx c <= len items /\
    cursor_wf 1 c /\
    skipn (Z.to_nat pos) (leaves s) = skipn (Z.to_nat (idx c - 1)) items ++ rest.
Proof.
  intros Hwf Hpos. unfold newCursorAtIndex. rewrite (@tree_wf_depth n s Hwf).
  apply newCursorAtIndex_loop_spec with (n := n); auto.
Qed.

End CursorAtIndex.

Section AdvanceTotal.

Context {T K : Type} {ops : ValueOps K}.

Lemma tree_wf_pos (n : nat) (s : Sequence T K) : tree_wf n s -> (1 <= n)%nat.
Proof. destruct n; simpl; [tauto | lia]. Qed.

Lemma tree_wf_meta_length (n : nat) (s : Sequence T K) :
  tree_wf n s -> (2 <= n)%nat -> 0 < seq_length s.
Proof.
  destruct n as [|n]; simpl; [tauto|].
  destruct s as [items|items]; [lia|].
  intros (_ & Hne & _) _. simpl. destruct items; [congruence|].
  unfold len. simpl. lia.
Qed.

Lemma tree_wf_child (n : nat) (s : Sequence T K) (j : Z) :
  tree_wf (S n) s -> (1 <= n)%nat -> 0 <= j < seq_length s ->
  exists child, getChildSequence s j = Some (Some child) /\ tree_wf n child.
Proof.
  intros Hwf Hn Hj. simpl in Hwf. destruct s as [items|items]; [lia|].
  destruct Hwf as (_ & _ & Hall). simpl in Hj |- *.
  destruct (item_at_Some items Hj) as [mt Hmt]. rewrite Hmt.
  exists (mt_child mt). split; [reflexivity|].
  rewrite Forall_forall in Hall. apply (Hall mt). eapply item_at_In; eauto.
Qed.

Lemma cursor_wf_sequence (n : nat) (c : SequenceCursor T K) :
  cursor_wf n c -> tree_wf n (sequence c).
Proof. destruct c; simpl; tauto. Qed.

(** On the cursors of a well-formed tree advancing never throws: the
    [sync] after a parent moved always finds a child. *)
Lemma advance_total :
  forall (c : SequenceCursor T K) (n : nat) (allowPastEnd : bool),
    cursor_wf n c -> -1 <= idx c ->
    exists (b : bool) (c' : SequenceCursor T K),
      _advanceMaybeAllowPastEnd allowPastEnd c = Some (b, c') /\
      cursor_wf n c' /\
      (b = true -> 0 <= idx c' /\ ((2 <= n)%nat -> idx c' < length c')) /\
      (b = false -> allowPastEnd = false -> idx c' = idx c /\ sequence c' = sequence c).
Proof.
  fix IH 1. intros c n a Hwf Hi. destruct c as [par s i].
  cbn [idx] in Hi. destruct Hwf as [Hs Hpar]. cbn [sequence parent] in Hs, Hpar.
  cbn [_advanceMaybeAllowPastEnd].
  destruct (i =? seq_length s) eqn:Eend.
  { exists false, (mkCursor par s i). split; [reflexivity|].
    split; [split; assumption|]. split; [discriminate|]. auto. }
  apply Z.eqb_neq in Eend.
  unfold advanceLocal, length, set_idx. cbn [idx sequence parent].
  replace (i =? seq_length s) with false by (symmetry; apply Z.eqb_neq; exact Eend).
  destruct (i <? seq_length s - 1) eqn:Elocal.
  { apply Z.ltb_lt in Elocal.
    exists true, (mkCursor par s (i + 1)). split; [reflexivity|].
    split; [split; assumption|]. split; [|discriminate].
    intros _. unfold length. cbn [idx sequence]. split; lia. }
  assert (Hrest : forall i1 : Z, (a = false -> i1 = i) ->
    exists (b : bool) (c' : SequenceCursor T K),
      match par with
      | Some p =>
          match _advanceMaybeAllowPastEnd false p with
          | Some (true, p') =>
              match sync (mkCursor (Some p') s i1) with
              | Some c3 => Some (true, mkCursor (parent c3) (sequence c3) 0)
              | None => None
              end
          | Some (false, p') => Some (false, mkCursor (Some p') s i1)
          | None => None
          end
      | None => Some (false, mkCursor par s i1)
      end = Some (b, c') /\
      cursor_wf n c' /\
      (b = true -> 0 <= idx c' /\ ((2 <= n)%nat -> idx c' < length c')) /\
      (b = false -> a = false -> idx c' = i /\ sequence c' = s)).
  { intros i1 Hi1. destruct par as [p|].
    2:{ exists false, (mkCursor None s i1). split; [reflexivity|].
        split; [split; [exact Hs | exact I]|].
        split; [discriminate|]. intros _ Ha. cbn [idx sequence]. rewrite (Hi1 Ha). auto. }
    cbv beta iota in Hpar. destruct Hpar as [Hpi Hpwf].
    destruct (IH p (S n) false Hpwf) as (bp & p' & Hadv & Hwf' & Htrue & Hfalse); [lia|].
    rewrite Hadv. pose proof (@tree_wf_pos n s Hs) as Hn.
    destruct bp.
    - destruct (Htrue eq_refl) as [Hp0 Hplt]. specialize (Hplt ltac:(lia)).
      pose proof (@cursor_wf_sequence (S n) p' Hwf') as Hps'.
      destruct (@tree_wf_child n (sequence p') (idx p') Hps' Hn) as (child & Hchild & Hcwf);
        [unfold length in Hplt; lia|].
      unfold sync, cursor_getChildSequence. cbn [parent sequence idx]. rewrite Hchild.
      cbn [parent sequence idx].
      exists true, (mkCursor (Some p') child 0). split; [reflexivity|].
      split.
      { split; [exact Hcwf|]. cbn [parent]. split; [lia | exact Hwf']. }
      split; [|discriminate]. intros _. cbn [idx]. split; [lia|].
      intros Hn2. unfold length. cbn [sequence]. apply (@tree_wf_meta_length n child Hcwf Hn2).
    - destruct (Hfalse eq_refl eq_refl) as [Hpidx Hpseq].
      exists false, (mkCursor (Some p') s i1). split; [reflexivity|].
      split.
      { split; [exact Hs|]. cbn [parent].
        split; [unfold length; rewrite Hpidx, Hpseq; exact Hpi | exact Hwf']. }
      split; [discriminate|]. intros _ Ha. cbn [idx sequence]. rewrite (Hi1 Ha). auto. }
  destruct a.
  - destruct (Hrest (i + 1)) as (b & c' & H1 & H2 & H3 & H4); [discriminate|].
    exists b, c'. repeat split; auto; try apply H3; auto; discriminate.
  - destruct (Hrest i) as (b & c' & H1 & H2 & H3 & H4); [reflexivity|].
    exists b, c'. split; [exact H1|]. split; [exact H2|]. split; [exact H3|].
    intros Hb _. apply H4; auto.
Qed.

End AdvanceTotal.

Section CursorAtIndexTotal.

Context {T K : Type} {ops : ValueOps K}.

(** [advanceToOffset] never meets an undefined cumulative count, and on a
    non-empty meta sequence it leaves the cursor on a tuple. *)
Lemma advanceToOffset_defined (c : SequenceCursor T K) (pos : Z) :
  (isMeta (sequence c) = true -> 0 < length c) ->
  exists (before : Z) (i : Z),
    advanceToOffset pos c = Some (before, set_idx c i) /\
    0 <= i <= length c /\
    (isMeta (sequence c) = true -> i < length c).
Proof.
  intros Hne. unfold advanceToOffset.
  pose proof (BinarySearch.search_range (offset_below (sequence c) pos)
                (seq_length_nonneg (sequence c))) as Hr.
  fold (length c) in Hr.
  set (r := BinarySearch.search (length c) (offset_below (sequence c) pos)) in *.
  destruct (sequence c) as [items|items] eqn:Es; cbn [isMeta andb] in *.
  - destruct (0 <? r); eexists; exists r; (split; [reflexivity|]);
      (split; [lia | discriminate]).
  - assert (Hlen : length c = len items) by (unfold length; rewrite Es; reflexivity).
    specialize (Hne eq_refl).
    destruct (r =? length c) eqn:E.
    + apply Z.eqb_eq in E.
      destruct (0 <? length c - 1) eqn:E1.
      * apply Z.ltb_lt in E1.
        assert (Hc : 0 <= length c - 1 - 1 < len items) by lia.
        rewrite (cumulative_meta items Hc).
        eexists; exists (length c - 1). split; [reflexivity|]. split; lia.
      * apply Z.ltb_ge in E1. eexists; exists (length c - 1).
        split; [reflexivity|]. split; lia.
    + apply Z.eqb_neq in E.
      destruct (0 <? r) eqn:E1.
      * apply Z.ltb_lt in E1.
        assert (Hc : 0 <= r - 1 < len items) by lia.
        rewrite (cumulative_meta items Hc).
        eexists; exists r. split; [reflexivity|]. split; lia.
      * eexists; exists r. split; [reflexivity|]. split; lia.
Qed.

(** On a well-formed tree [newCursorAtIndex] returns a cursor for every
    index, also one past the end. *)
Lemma newCursorAtIndex_loop_total :
  forall (n fuel : nat) (s : Sequence T K) (par : option (SequenceCursor T K)) (pos : Z),
    (n <= fuel)%nat -> tree_wf n s ->
    exists c, newCursorAtIndex_loop fuel par s pos = Some c.
Proof.
  induction n as [|n IH]; intros fuel s par pos Hfuel Hwf; [destruct Hwf|].
  destruct fuel as [|fuel]; [lia|]. cbn [newCursorAtIndex_loop].
  set (c0 := newSequenceCursor par s 0).
  assert (Hs0 : sequence c0 = s) by reflexivity.
  destruct (@advanceToOffset_defined c0 pos) as (before & i & Hadv & Hi & Hmeta).
  { rewrite Hs0. intros Hm. unfold length. rewrite Hs0.
    destruct s; [discriminate|].
    apply (@tree_wf_meta_length _ _ _ (S n) _ Hwf).
    simpl in Hwf. lia. }
  rewrite Hadv. unfold cursor_getChildSequence, set_idx. cbn [sequence idx].
  rewrite Hs0. destruct s as [items|items]; [eexists; reflexivity|].
  assert (Hn : (1 <= n)%nat) by (simpl in Hwf; lia).
  specialize (Hmeta ltac:(rewrite Hs0; reflexivity)). unfold length in Hmeta, Hi.
  rewrite Hs0 in Hmeta, Hi.
  destruct (@tree_wf_child _ _ _ n (MetaSequence items) i Hwf Hn) as (child & Hchild & Hcwf);
    [lia|].
  rewrite Hchild. apply IH; [lia | exact Hcwf].
Qed.

End CursorAtIndexTotal.

(** ** Seeking and reading a blob *)

Section BlobReaderSpec.

Lemma numLeaves_wf {T K : Type} {ops : ValueOps K} (n : nat) (s : Sequence T K) :
  tree_wf n s -> numLeaves s = Some (len (leaves s)).
Proof.
  destruct n as [|n]; [intros []|]. destruct s as [items|items]; [reflexivity|].
  intros (Hn & Hne & Hall). unfold numLeaves, offsets, item_at, len.
  rewrite length_offsets_from.
  assert (Hlen : (0 < Datatypes.length items)%nat) by (destruct items; simpl; [congruence|lia]).
  destruct (_ <? 0) eqn:E; [apply Z.ltb_lt in E; lia|].
  rewrite nth_error_offsets_from by lia.
  replace (S (Z.to_nat (Z.of_nat (Datatypes.length items) - 1))) with (Datatypes.length items)
    by lia.
  rewrite leaves_meta.
  rewrite (@count_upto_leaves _ _ _ n items (Datatypes.length items) Hall), firstn_all.
  reflexivity.
Qed.

Lemma cursor_wf_set_idx {T K : Type} {ops : ValueOps K} (n : nat)
    (c : SequenceCursor T K) (i : Z) :
  cursor_wf n c -> cursor_wf n (set_idx c i).
Proof. destruct c; simpl; tauto. Qed.

(** The absolute position a [seek] on a well-formed blob asks for. *)
Lemma seek_target_wf (n : nat) (r : Blob.BlobReader) (offset whence : Z) :
  tree_wf n (Blob._sequence r) ->
  Blob.seek_target r offset whence =
    if whence =? 0 then Some offset
    else if whence =? 1 then Some (Blob._pos r + offset)
    else if whence =? 2 then Some (len (leaves (Blob._sequence r)) + offset)
    else None.
Proof.
  intros Hwf. unfold Blob.seek_target. rewrite (@numLeaves_wf _ _ _ n _ Hwf). reflexivity.
Qed.

Lemma skipn_next {A : Type} (l : list A) (k : nat) :
  (k < Datatypes.length l)%nat -> exists x, skipn k l = x :: skipn (S k) l.
Proof.
  revert k. induction l as [|y l IH]; intros k Hk; simpl in Hk; [lia|].
  destruct k as [|k]; [exists y; reflexivity|].
  destruct (IH k) as [x Hx]; [lia|]. exists x. exact Hx.
Qed.

(** C8 (as the code has it).  On a reader that is not busy, over a
    well-formed blob, [seek(offset, whence)] asks for the absolute position
    [offset] ([whence = 0]), [_pos + offset] ([whence = 1]) or
    [length + offset] ([whence = 2]).  A negative position fails (the
    invariant throws); a position [abs >= 0] is returned and becomes
    [_pos].  The [read()] that follows does not begin at [abs]: the cursor
    of [newCursorAtIndex] stands one byte after it.  When [abs] is inside
    the blob, the byte [b] at [abs] is skipped; [read()] returns the bytes
    [arr] that follow [b] in its chunk and moves [_pos] by their number,
    and when [b] is the last byte of its chunk it returns [{done: true}]. *)
Theorem seek_then_read (n : nat) (r : Blob.BlobReader) (offset whence : Z) :
  Blob._lock r = Blob.Unlocked ->
  tree_wf n (Blob._sequence r) ->
  let total := len (leaves (Blob._sequence r)) in
  Blob.seek_target r offset whence =
    (if whence =? 0 then Some offset
     else if whence =? 1 then Some (Blob._pos r + offset)
     else if whence =? 2 then Some (total + offset)
     else None) /\
  forall abs : Z,
    Blob.seek_target r offset whence = Some abs ->
    (abs < 0 -> snd (Blob.seek offset whence r) = None) /\
    (0 <= abs ->
       exists r1,
         Blob.seek offset whence r = (r1, Some abs) /\
         Blob._pos r1 = abs /\ Blob._lock r1 = Blob.Unlocked /\
         (abs < total ->
            exists b arr rest,
              skipn (Z.to_nat abs) (leaves (Blob._sequence r)) = b :: arr ++ rest /\
              (arr <> [] ->
                 exists r2,
                   Blob.read r1 = (r2, Some (Blob.ReadChunk arr)) /\
                   Blob._pos r2 = abs + len arr /\ Blob._lock r2 = Blob.Unlocked) /\
              (arr = [] -> Blob.read r1 = (r1, Some Blob.ReadDone)))).
Proof.
  intros Hlock Hwf total. split; [apply (@seek_target_wf n r offset whence Hwf)|].
  intros abs Htarget. unfold Blob.seek. rewrite Hlock, Htarget. split.
  - intros Hneg. replace (0 <=? abs) with false by (symmetry; apply Z.leb_gt; lia).
    reflexivity.
  - intros Hpos. replace (0 <=? abs) with true by (symmetry; apply Z.leb_le; lia).
    destruct (Z_lt_dec abs total) as [Hin|Hout].
    + destruct (@newCursorAtIndex_spec _ _ _ n (Blob._sequence r) abs Hwf)
        as (c & items & rest & Hc & Hseq & Hidx & Hcwf & Hskip); [fold total; lia|].
      rewrite Hc. eexists. split; [reflexivity|]. split; [reflexivity|].
      split; [reflexivity|]. intros _.
      destruct (@skipn_next _ items (Z.to_nat (idx c - 1))) as [b Hb];
        [unfold len in Hidx; lia|].
      replace (S (Z.to_nat (idx c - 1))) with (Z.to_nat (idx c)) in Hb by lia.
      exists b, (skipn (Z.to_nat (idx c)) items), rest.
      split; [rewrite Hskip, Hb; reflexivity|].
      unfold Blob.read. cbn [Blob._lock Blob._cursor Blob._pos Blob._sequence].
      assert (Hvalid : valid c = (idx c <? len items)).
      { unfold valid, length. rewrite Hseq. simpl.
        replace (0 <=? idx c) with true by (symmetry; apply Z.leb_le; lia).
        reflexivity. }
      rewrite Hvalid. split.
      * intros Hne.
        assert (Hlt : idx c < len items).
        { destruct (Z_lt_dec (idx c) (len items)) as [H|H]; [exact H|].
          exfalso. apply Hne. apply skipn_all2. unfold len in *. lia. }
        replace (idx c <? len items) with true by (symmetry; apply Z.ltb_lt; lia).
        unfold Blob._readCur, indexInChunk. rewrite Hseq.
        replace (0 <? idx c) with true by (symmetry; apply Z.ltb_lt; lia).
        replace (idx c <? len items) with true by (symmetry; apply Z.ltb_lt; lia).
        destruct (@advance_total _ _ _ (set_idx c (length c - 1)) 1%nat true)
          as (b' & c' & Hadv & _).
        { apply cursor_wf_set_idx. exact Hcwf. }
        { unfold length, set_idx. rewrite Hseq. simpl. lia. }
        unfold advanceChunk. rewrite Hadv.
        eexists. split; [reflexivity|]. split; reflexivity.
      * intros Hnil.
        assert (Hge : idx c = len items).
        { apply (f_equal (@Datatypes.length _)) in Hnil.
          rewrite length_skipn in Hnil. simpl in Hnil. unfold len in *. lia. }
        replace (idx c <? len items) with false by (symmetry; apply Z.ltb_ge; lia).
        reflexivity.
    + destruct (@newCursorAtIndex_loop_total _ _ _ n (depth_of (Blob._sequence r))
                  (Blob._sequence r) None abs) as (c & Hc).
      { rewrite (@tree_wf_depth _ _ _ n _ Hwf). lia. }
      { exact Hwf. }
      unfold newCursorAtIndex. rewrite Hc.
      eexists. split; [reflexivity|]. split; [reflexivity|]. split; [reflexivity|].
      intros Hlt. fold total in Hout. lia.
Qed.

End BlobReaderSpec.

(** *** The 1000-byte blob of the specification's scenario *)

Definition byte_of_nat (i : nat) : Byte.byte :=
  match Byte.of_N (N.of_nat (i mod 256)) with
  | Some b => b
  | None => Byte.x00
  end.

(** The bytes [start, start + 1, ...], [count] of them, each modulo 256. *)
Definition bytes_range (start count : nat) : list Byte.byte :=
  map byte_of_nat (seq start count).

(** A blob of the bytes [0 .. 999] in three chunks of 300, 300 and 400
    bytes; the key of a tuple of an indexed tree is its number of leaves. *)
Definition blob_1000 : Blob.BlobSequence :=
  MetaSequence
    [ mkMetaTuple 1 (ByValue 300) 300 (LeafSequence (bytes_range 0 300));
      mkMetaTuple 2 (ByValue 300) 300 (LeafSequence (bytes_range 300 300));
      mkMetaTuple 3 (ByValue 400) 400 (LeafSequence (bytes_range 600 400)) ].

Definition reader_1000 : Blob.BlobReader := Blob.newBlobReader blob_1000.

Lemma blob_1000_wf : tree_wf 2 blob_1000.
Proof.
  simpl. split; [discriminate|]. split; [discriminate|].
  repeat constructor.
Qed.

Lemma blob_1000_leaves : leaves blob_1000 = bytes_range 0 1000.
Proof. vm_compute. reflexivity. Qed.

(** The scenario, by evaluation: after [seek(500, 0)] the read returns the
    bytes 501 .. 599 (the second chunk after byte 500), and after
    [seek(-100, 2)] the bytes 901 .. 999.  The first read of a new reader
    begins at byte 1, and a read after a seek to the last byte of a chunk
    reports the end of the blob. *)
Example read_after_seek_500 :
  Blob.seek 500 0 reader_1000 = (fst (Blob.seek 500 0 reader_1000), Some 500) /\
  snd (Blob.read (fst (Blob.seek 500 0 reader_1000)))
    = Some (Blob.ReadChunk (bytes_range 501 99)).
Proof. vm_compute. split; reflexivity. Qed.

Example read_after_seek_end :
  Blob.seek (-100) 2 reader_1000 = (fst (Blob.seek (-100) 2 reader_1000), Some 900) /\
  snd (Blob.read (fst (Blob.seek (-100) 2 reader_1000)))
    = Some (Blob.ReadChunk (bytes_range 901 99)).
Proof. vm_compute. split; reflexivity. Qed.

Example first_read_skips_byte_0 :
  snd (Blob.read reader_1000) = Some (Blob.ReadChunk (bytes_range 1 299)).
Proof. vm_compute. reflexivity. Qed.

Example read_after_seek_299 :
  snd (Blob.read (fst (Blob.seek 299 0 reader_1000))) = Some Blob.ReadDone.
Proof. vm_compute. reflexivity. Qed.

Example seek_negative_fails :
  snd (Blob.seek (-1) 0 reader_1000) = None /\
  snd (Blob.seek (-1001) 2 reader_1000) = None.
Proof. vm_compute. split; reflexivity. Qed.

Lemma seek_then_read_witness :
  (exists r1,
     Blob.seek 500 0 reader_1000 = (r1, Some 500) /\
     Blob._pos r1 = 500 /\ Blob._lock r1 = Blob.Unlocked /\
     (500 < len (leaves (Blob._sequence reader_1000)) ->
        exists b arr rest,
          skipn (Z.to_nat 500) (leaves (Blob._sequence reader_1000)) = b :: arr ++ rest /\
          (arr <> [] ->
             exists r2,
               Blob.read r1 = (r2, Some (Blob.ReadChunk arr)) /\
               Blob._pos r2 = 500 + len arr /\ Blob._lock r2 = Blob.Unlocked) /\
          (arr = [] -> Blob.read r1 = (r1, Some Blob.ReadDone)))) /\
  snd (Blob.seek (-1) 0 reader_1000) = None.
Proof.
  pose proof (@seek_then_read 2 reader_1000 500 0 eq_refl blob_1000_wf) as H500.
  pose proof (@seek_then_read 2 reader_1000 (-1) 0 eq_refl blob_1000_wf) as Hneg.
  cbv zeta in H500, Hneg.
  split.
  - apply (proj2 H500 500 eq_refl). lia.
  - apply (proj2 Hneg (-1) eq_refl). lia.
Defined.

(** ** Reading a List by index (list.js) *)

Section Lists.

Context {T K : Type} {ops : ValueOps K}.

(** [get length()]: [this.sequence.numLeaves]. *)
Definition List_length (l : Sequence T K) : option Z := numLeaves l.

(** [List.get(idx)]: [invariant(idx >= 0 && idx < this.length)], then the
    current item of the cursor of [newCursorAtIndex]. *)
Definition List_get (l : Sequence T K) (idx : Z) : option T :=
  match List_length l with
  | Some n =>
      if (0 <=? idx) && (idx <? n) then
        match newCursorAtIndex l idx with
        | Some cursor => getCurrent cursor
        | None => None
        end
      else None
  | None => None
  end.

(** The cursor [List.splice(idx, deleteCount, ...insert)] hands to
    [chunkSequence]. *)
Definition List_splice_cursor (l : Sequence T K) (idx : Z) : option (SequenceCursor T K) :=
  newCursorAtIndex l idx.

Lemma nth_error_after_skipn (l : list T) (k m : nat) :
  nth_error (skipn k l) m = nth_error l (k + m).
Proof.
  revert k. induction l as [|x l IH]; intros [|k]; simpl; try reflexivity.
  - destruct m; reflexivity.
  - apply IH.
Qed.

(** What the cursor of [newCursorAtIndex] stands on: the item after
    position [i], when it is in the same chunk; nothing otherwise. *)
Lemma cursor_at_index_current (n : nat) (l : Sequence T K) (i : Z) :
  tree_wf n l -> 0 <= i < len (leaves l) ->
  exists cursor,
    newCursorAtIndex l i = Some cursor /\
    (getCurrent cursor = None \/ getCurrent cursor = item_at (leaves l) (i + 1)).
Proof.
  intros Hwf Hi.
  destruct (@newCursorAtIndex_spec _ _ _ n l i Hwf Hi)
    as (c & items & rest & Hc & Hseq & Hidx & _ & Hskip).
  exists c. split; [exact Hc|].
  unfold getCurrent. destruct (valid c) eqn:Hv; [right | left; reflexivity].
  rewrite Hseq. unfold valid, length in Hv. rewrite Hseq in Hv. simpl in Hv.
  apply andb_true_iff in Hv as [_ Hlt]. apply Z.ltb_lt in Hlt.
  unfold item_at.
  replace (idx c <? 0) with false by (symmetry; apply Z.ltb_ge; lia).
  replace (i + 1 <? 0) with false by (symmetry; apply Z.ltb_ge; lia).
  replace (Z.to_nat (i + 1)) with (Z.to_nat i + 1)%nat by lia.
  rewrite <- (nth_error_after_skipn (leaves l)), Hskip.
  destruct (@skipn_next _ items (Z.to_nat (idx c - 1))) as [b Hb];
    [unfold len in Hidx; lia|].
  replace (S (Z.to_nat (idx c - 1))) with (Z.to_nat (idx c)) in Hb by lia.
  rewrite Hb.
  destruct (@skipn_next _ items (Z.to_nat (idx c))) as [y Hy]; [unfold len in Hlt; lia|].
  rewrite Hy. cbn [app nth_error].
  replace (Z.to_nat (idx c)) with (Z.to_nat (idx c) + 0)%nat at 1 by lia.
  rewrite <- (nth_error_after_skipn items), Hy. reflexivity.
Qed.

(** C2.  [L.get(i)] does not return the item at [i], so the value the round
    trip re-inserts is not the one at [i]: on a well-formed List, for every
    index [i] of it, [get(i)] throws or returns the item at [i + 1], and the
    cursor [splice(i, ...)] hands to the chunker stands on that same item
    or past the end of its chunk.  At the last index [get] always throws
    ([invariant(this.valid)] in [getCurrent]), so there the round trip has
    no value to re-insert.  The cause is [cumulativeNumberOfLeaves(idx)]
    of a leaf, which returns [idx]: [advanceToOffset] then stops at the
    smallest [j] with [idx < j]. *)
Theorem List_get_one_past (n : nat) (l : Sequence T K) (i : Z) :
  tree_wf n l -> 0 <= i < len (leaves l) ->
  (List_get l i = None \/ List_get l i = item_at (leaves l) (i + 1)) /\
  (exists cursor,
     List_splice_cursor l i = Some cursor /\ getCurrent cursor = List_get l i) /\
  (i = len (leaves l) - 1 -> List_get l i = None).
Proof.
  intros Hwf Hi.
  destruct (@cursor_at_index_current n l i Hwf Hi) as (c & Hc & Hcur).
  assert (Hget : List_get l i = getCurrent c).
  { unfold List_get, List_length. rewrite (@numLeaves_wf _ _ _ n l Hwf).
    replace (0 <=? i) with true by (symmetry; apply Z.leb_le; lia).
    replace (i <? len (leaves l)) with true by (symmetry; apply Z.ltb_lt; lia).
    simpl. rewrite Hc. reflexivity. }
  split; [rewrite Hget; exact Hcur|]. split.
  - exists c. split; [exact Hc | symmetry; exact Hget].
  - intros Hlast. rewrite Hget. destruct Hcur as [H|H]; [exact H|].
    rewrite H. unfold item_at.
    replace (i + 1 <? 0) with false by (symmetry; apply Z.ltb_ge; lia).
    apply nth_error_None. unfold len in *. lia.
Qed.

End Lists.

(** The List of the specification's round trip, in one chunk: [get(2)]
    returns 13, the item at index 3, and [get(4)] throws. *)
Definition list_10_14 : Sequence Z Z := LeafSequence [10; 11; 12; 13; 14].

Example List_get_evaluated :
  map (List_get list_10_14) [0; 1; 2; 3; 4]
  = [Some 11; Some 12; Some 13; Some 14; None].
Proof. vm_compute. reflexivity. Qed.

Lemma List_get_one_past_witness :
  List_get list_10_14 4 = None /\
  (List_get list_10_14 2 = None \/ List_get list_10_14 2 = item_at (leaves list_10_14) 3).
Proof.
  split.
  - apply (@List_get_one_past Z Z NumberOps 1 list_10_14 4); [reflexivity | vm_compute; split; [discriminate | reflexivity] | reflexivity].
  - apply (@List_get_one_past Z Z NumberOps 1 list_10_14 2); [reflexivity | vm_compute; split; [discriminate | reflexivity]].
Defined.

(** ** Building the data of a Map or Set (map.js, set.js) *)

Section Comparators.

Variable A : Type.
Variable cmp : A -> A -> Z.

(** A consistent comparator, as [Array.prototype.sort] requires: a total
    preorder given by the sign of [cmp]. *)
Record consistent : Prop := {
  cmp_refl : forall x, cmp x x = 0;
  cmp_antisym : forall x y, cmp x y < 0 <-> 0 < cmp y x;
  cmp_le_trans : forall x y z, cmp x y <= 0 -> cmp y z <= 0 -> cmp x z <= 0
}.

Definition cmp_le (x y : A) : Prop := cmp x y <= 0.
Definition cmp_lt (x y : A) : Prop := cmp x y < 0.
Definition cmp_eqb (x y : A) : bool := cmp x y =? 0.

Hypothesis Hcmp : consistent.

Lemma cmp_zero_sym (x y : A) : cmp x y = 0 -> cmp y x = 0.
Proof.
  intros H. pose proof (cmp_antisym Hcmp x y). pose proof (cmp_antisym Hcmp y x). lia.
Qed.

Lemma cmp_lt_le_trans (x y z : A) : cmp x y < 0 -> cmp y z <= 0 -> cmp x z < 0.
Proof.
  intros H1 H2. destruct (Z_lt_dec (cmp x z) 0) as [|Hge]; [assumption|].
  assert (cmp z x <= 0).
  { pose proof (cmp_antisym Hcmp x z). pose proof (cmp_antisym Hcmp z x). lia. }
  pose proof (@cmp_le_trans Hcmp y z x H2 H).
  pose proof (cmp_antisym Hcmp x y). lia.
Qed.

Lemma cmp_le_lt_trans (x y z : A) : cmp x y <= 0 -> cmp y z < 0 -> cmp x z < 0.
Proof.
  intros H1 H2. destruct (Z_lt_dec (cmp x z) 0) as [|Hge]; [assumption|].
  assert (cmp z x <= 0).
  { pose proof (cmp_antisym Hcmp x z). pose proof (cmp_antisym Hcmp z x). lia. }
  pose proof (@cmp_le_trans Hcmp z x y H H1).
  pose proof (cmp_antisym Hcmp y z). lia.
Qed.

Lemma cmp_zero_trans (x y z : A) : cmp x y = 0 -> cmp y z = 0 -> cmp x z = 0.
Proof.
  intros H1 H2.
  pose proof (cmp_zero_sym H1). pose proof (cmp_zero_sym H2).
  assert (cmp x z <= 0) by (apply (@cmp_le_trans Hcmp x y z); lia).
  assert (cmp z x <= 0) by (apply (@cmp_le_trans Hcmp z y x); lia).
  pose proof (cmp_antisym Hcmp x z). pose proof (cmp_antisym Hcmp z x). lia.
Qed.

End Comparators.

Section RemoveDuplicates.

Variable A : Type.
Variable cmp : A -> A -> Z.

(** [unique[i] = elem] on a JavaScript array: an index inside the array
    overwrites, the index [length] appends.  (A larger index would leave
    holes; the loop below never produces one.) *)
Definition array_set (unique : list A) (i : Z) (elem : A) : list A :=
  if i <? len unique
  then firstn (Z.to_nat i) unique ++ elem :: skipn (S (Z.to_nat i)) unique
  else unique ++ [elem].

(** The body of [elems.forEach] in [removeDuplicateFromOrdered], with its
    three variables [unique], [i] and [last]; the elements are values, never
    [null] or [undefined], and [last] is [null] ([None]) before the first
    one. *)
Fixpoint removeDuplicate_loop (elems unique : list A) (i : Z) (last : option A) : list A :=
  match elems with
  | [] => unique
  | elem :: rest =>
      let i' :=
        match last with
        | None => i + 1
        | Some l => if negb (cmp l elem =? 0) then i + 1 else i
        end in
      removeDuplicate_loop rest (array_set unique i' elem) i' (Some elem)
  end.

(** [removeDuplicateFromOrdered(elems, compare)] *)
Definition removeDuplicateFromOrdered (elems : list A) : list A :=
  removeDuplicate_loop elems [] (-1) None.

(** The same function by recursion on the list: of two neighbours that
    compare equal the first is dropped. *)
Fixpoint keep_last_of_runs (l : list A) : list A :=
  match l with
  | [] => []
  | x :: rest =>
      match rest with
      | [] => [x]
      | y :: _ => if cmp x y =? 0 then keep_last_of_runs rest else x :: keep_last_of_runs rest
      end
  end.

Lemma array_set_append (u : list A) (x : A) : array_set u (len u) x = u ++ [x].
Proof. unfold array_set. rewrite Z.ltb_irrefl. reflexivity. Qed.

Lemma array_set_last (u : list A) (l x : A) : array_set (u ++ [l]) (len u) x = u ++ [x].
Proof.
  unfold array_set, len. rewrite length_app. cbn [Datatypes.length].
  replace (Z.of_nat (Datatypes.length u) <? Z.of_nat (Datatypes.length u + 1)) with true
    by (symmetry; apply Z.ltb_lt; lia).
  rewrite Nat2Z.id.
  rewrite (skipn_all2 (n := S (Datatypes.length u)))
    by (rewrite length_app; simpl; lia).
  rewrite firstn_app, firstn_all, Nat.sub_diag.
  change (firstn 0 [l]) with (@nil A). rewrite app_nil_r. reflexivity.
Qed.

Lemma removeDuplicate_loop_spec (elems : list A) :
  forall (u : list A) (l : A),
    removeDuplicate_loop elems (u ++ [l]) (len u) (Some l) = u ++ keep_last_of_runs (l :: elems).
Proof.
  induction elems as [|x rest IH]; intros u l; [reflexivity|].
  cbn [removeDuplicate_loop keep_last_of_runs].
  destruct (cmp l x =? 0) eqn:E; cbn [negb].
  - rewrite array_set_last. rewrite IH. reflexivity.
  - replace (len u + 1) with (len (u ++ [l])) by (unfold len; rewrite length_app; simpl; lia).
    rewrite array_set_append. rewrite IH.
    rewrite <- app_assoc. reflexivity.
Qed.

Lemma removeDuplicateFromOrdered_spec (elems : list A) :
  removeDuplicateFromOrdered elems = keep_last_of_runs elems.
Proof.
  unfold removeDuplicateFromOrdered. destruct elems as [|x rest]; [reflexivity|].
  cbn [removeDuplicate_loop].
  replace (-1 + 1) with (len (@nil A)) by reflexivity.
  rewrite array_set_append. apply (removeDuplicate_loop_spec rest [] x).
Qed.

End RemoveDuplicates.

Lemma filter_none {A : Type} (f : A -> bool) (l : list A) :
  (forall x, In x l -> f x = false) -> filter f l = [].
Proof.
  induction l as [|x rest IH]; [reflexivity|]. intros H. simpl.
  rewrite (H x (or_introl eq_refl)). apply IH. intros y Hy. apply H. right. exact Hy.
Qed.

Lemma filter_all {A : Type} (f : A -> bool) (l : list A) :
  (forall x, In x l -> f x = true) -> filter f l = l.
Proof.
  induction l as [|x rest IH]; [reflexivity|]. intros H. simpl.
  rewrite (H x (or_introl eq_refl)). f_equal. apply IH. intros y Hy. apply H. right. exact Hy.
Qed.

Section KeepLast.

Variable A : Type.
Variable cmp : A -> A -> Z.
Hypothesis Hcmp : consistent cmp.

Lemma keep_last_subset (l : list A) (e : A) : In e (keep_last_of_runs cmp l) -> In e l.
Proof.
  induction l as [|x rest IH]; [tauto|].
  cbn [keep_last_of_runs]. destruct rest as [|y rest'].
  - auto.
  - destruct (cmp x y =? 0).
    + intros H. right. apply IH. exact H.
    + intros [H|H]; [left; exact H | right; apply IH; exact H].
Qed.

Lemma keep_last_cover (l : list A) :
  forall x : A, In x l -> exists e, In e (keep_last_of_runs cmp l) /\ cmp x e = 0.
Proof.
  induction l as [|y rest IH]; [intros x []|]. intros x.
  cbn [keep_last_of_runs]. destruct rest as [|z rest'].
  - intros [<-|[]]. exists y. split; [left; reflexivity | apply (cmp_refl Hcmp)].
  - intros [<-|Hin].
    + destruct (cmp y z =? 0) eqn:E.
      * apply Z.eqb_eq in E.
        destruct (IH z (or_introl eq_refl)) as (e & He & Hze).
        exists e. split; [exact He|]. apply (@cmp_zero_trans _ _ Hcmp _ _ _ E Hze).
      * exists y. split; [left; reflexivity | apply (cmp_refl Hcmp)].
    + destruct (IH x Hin) as (e & He & Hxe).
      exists e. split; [|exact Hxe].
      destruct (cmp y z =? 0); [exact He | right; exact He].
Qed.

Lemma sorted_head_lt (x y : A) (rest : list A) :
  StronglySorted (cmp_le cmp) (x :: y :: rest) -> cmp x y <> 0 ->
  forall e, In e (y :: rest) -> cmp x e < 0.
Proof.
  intros Hs Hne e He. inversion Hs as [|? ? Hs' Hall]; subst.
  assert (Hxy : cmp x y < 0).
  { rewrite Forall_forall in Hall. specialize (Hall y (or_introl eq_refl)).
    unfold cmp_le in Hall. lia. }
  apply (@cmp_lt_le_trans _ _ Hcmp _ _ _ Hxy).
  destruct He as [<-|He]; [rewrite (cmp_refl Hcmp); lia|].
  inversion Hs' as [|? ? _ Hall']; subst.
  rewrite Forall_forall in Hall'. apply Hall'. exact He.
Qed.

Lemma keep_last_sorted (l : list A) :
  StronglySorted (cmp_le cmp) l -> StronglySorted (cmp_lt cmp) (keep_last_of_runs cmp l).
Proof.
  induction l as [|x rest IH]; [constructor|].
  intros Hs. cbn [keep_last_of_runs]. destruct rest as [|y rest'].
  - repeat constructor.
  - assert (Hs' : StronglySorted (cmp_le cmp) (y :: rest')) by (inversion Hs; assumption).
    destruct (cmp x y =? 0) eqn:E; [apply IH; exact Hs'|].
    apply Z.eqb_neq in E. constructor; [apply IH; exact Hs'|].
    apply Forall_forall. intros e He.
    apply (@sorted_head_lt _ _ _ Hs E). apply keep_last_subset. exact He.
Qed.

(** An element kept is the last of the list among those that compare equal
    to it. *)
Lemma keep_last_is_last (l : list A) :
  StronglySorted (cmp_le cmp) l ->
  forall e, In e (keep_last_of_runs cmp l) ->
  exists pre, filter (cmp_eqb cmp e) l = pre ++ [e].
Proof.
  induction l as [|x rest IH]; [intros _ e []|].
  intros Hs e. cbn [keep_last_of_runs]. destruct rest as [|y rest'].
  - intros [<-|[]]. exists []. simpl. unfold cmp_eqb. rewrite (cmp_refl Hcmp). reflexivity.
  - assert (Hs' : StronglySorted (cmp_le cmp) (y :: rest')) by (inversion Hs; assumption).
    assert (Hrec : In e (keep_last_of_runs cmp (y :: rest')) ->
                   exists pre, filter (cmp_eqb cmp e) (x :: y :: rest') = pre ++ [e]).
    { intros He. destruct (IH Hs' e He) as (pre & Hpre).
      cbn [filter] in *. destruct (cmp_eqb cmp e x).
      - exists (x :: pre). rewrite Hpre. reflexivity.
      - exists pre. exact Hpre. }
    destruct (cmp x y =? 0) eqn:E; [exact Hrec|].
    apply Z.eqb_neq in E. intros [<-|He]; [|apply Hrec; exact He].
    exists []. change (filter (cmp_eqb cmp x) (x :: y :: rest'))
      with (if cmp_eqb cmp x x then x :: filter (cmp_eqb cmp x) (y :: rest')
            else filter (cmp_eqb cmp x) (y :: rest')).
    unfold cmp_eqb at 1. rewrite (cmp_refl Hcmp). cbn [Z.eqb].
    replace (filter (cmp_eqb cmp x) (y :: rest')) with (@nil A); [reflexivity|].
    symmetry. apply filter_none. intros z Hz. unfold cmp_eqb.
    pose proof (@sorted_head_lt _ _ _ Hs E z Hz).
    apply Z.eqb_neq. lia.
Qed.

End KeepLast.

(** *** Array.prototype.sort

    The sort is the platform's; the sources rely on it to order the entries
    by the comparator and, for later duplicates to win, to keep entries
    that compare equal in their input order (a stable sort, as ECMAScript
    requires since its 2019 edition).  It is a parameter of the model, with
    this contract. *)

Definition ArraySort : Type := forall A : Type, (A -> A -> Z) -> list A -> list A.

Definition stable_sort (sort : ArraySort) : Prop :=
  forall (A : Type) (cmp : A -> A -> Z),
    consistent cmp ->
    forall l : list A,
      Permutation (sort A cmp l) l /\
      StronglySorted (cmp_le cmp) (sort A cmp l) /\
      forall x, filter (cmp_eqb cmp x) (sort A cmp l) = filter (cmp_eqb cmp x) l.

(** A sort that meets the contract: insertion sort, each element placed
    before the first one that is not smaller. *)
Fixpoint insert_sorted {A : Type} (cmp : A -> A -> Z) (x : A) (l : list A) : list A :=
  match l with
  | [] => [x]
  | y :: rest => if cmp x y <=? 0 then x :: l else y :: insert_sorted cmp x rest
  end.

Definition insertion_sort : ArraySort :=
  fun A cmp l => fold_right (insert_sorted cmp) [] l.

Section InsertionSort.

Variable A : Type.
Variable cmp : A -> A -> Z.
Hypothesis Hcmp : consistent cmp.

Lemma insert_sorted_perm (x : A) (l : list A) : Permutation (insert_sorted cmp x l) (x :: l).
Proof.
  induction l as [|y rest IH]; simpl; [reflexivity|].
  destruct (cmp x y <=? 0); [reflexivity|].
  rewrite IH. apply perm_swap.
Qed.

Lemma insert_sorted_sorted (x : A) (l : list A) :
  StronglySorted (cmp_le cmp) l -> StronglySorted (cmp_le cmp) (insert_sorted cmp x l).
Proof.
  induction l as [|y rest IH]; intros Hs; simpl; [repeat constructor|].
  inversion Hs as [|? ? Hs' Hall]; subst.
  destruct (cmp x y <=? 0) eqn:E.
  - apply Z.leb_le in E. constructor; [exact Hs|].
    constructor; [exact E|].
    rewrite Forall_forall in *. intros z Hz.
    apply (@cmp_le_trans _ _ Hcmp x y z E (Hall z Hz)).
  - apply Z.leb_gt in E.
    assert (Hyx : cmp y x <= 0) by (pose proof (cmp_antisym Hcmp y x); lia).
    constructor; [apply IH; exact Hs'|].
    rewrite Forall_forall in *. intros z Hz.
    apply (Permutation_in _ (insert_sorted_perm x rest)) in Hz.
    destruct Hz as [<-|Hz]; [exact Hyx | apply Hall; exact Hz].
Qed.

Lemma insert_sorted_stable (z x : A) (l : list A) :
  filter (cmp_eqb cmp z) (insert_sorted cmp x l) = filter (cmp_eqb cmp z) (x :: l).
Proof.
  induction l as [|y rest IH]; [reflexivity|].
  cbn [insert_sorted]. destruct (cmp x y <=? 0) eqn:E; [reflexivity|].
  apply Z.leb_gt in E.
  cbn [filter] in *. rewrite IH.
  destruct (cmp_eqb cmp z x) eqn:Ex, (cmp_eqb cmp z y) eqn:Ey; try reflexivity.
  exfalso. unfold cmp_eqb in Ex, Ey. apply Z.eqb_eq in Ex, Ey.
  pose proof (@cmp_zero_trans _ _ Hcmp x z y (@cmp_zero_sym _ _ Hcmp z x Ex) Ey). lia.
Qed.

Lemma insertion_sort_stable_sort (l : list A) :
  Permutation (insertion_sort cmp l) l /\
  StronglySorted (cmp_le cmp) (insertion_sort cmp l) /\
  forall x, filter (cmp_eqb cmp x) (insertion_sort cmp l) = filter (cmp_eqb cmp x) l.
Proof.
  unfold insertion_sort. induction l as [|y rest (IHp & IHs & IHf)]; simpl.
  - repeat split; constructor.
  - split; [|split].
    + rewrite insert_sorted_perm. constructor. exact IHp.
    + apply insert_sorted_sorted. exact IHs.
    + intros x. rewrite insert_sorted_stable. cbn [filter]. rewrite IHf. reflexivity.
Qed.

End InsertionSort.

Lemma insertion_sort_stable : stable_sort insertion_sort.
Proof. intros A cmp Hcmp l. apply insertion_sort_stable_sort. exact Hcmp. Qed.

(** *** map.js and set.js *)

Section MapAndSet.

Context {K V : Type} {ops : ValueOps K}.
Variable sort : ArraySort.

(** [type MapEntry<K, V> = [K, V]], with [KEY = 0] and [VALUE = 1]. *)
Definition MapEntry : Type := (K * V)%type.

(** [compareKeys(v1, v2)] *)
Definition compareKeys (v1 v2 : MapEntry) : Z := compare (fst v1) (fst v2).

(** [buildMapData(kvs)]: copy, sort by key, remove duplicates. *)
Definition buildMapData (kvs : list MapEntry) : list MapEntry :=
  removeDuplicateFromOrdered compareKeys (sort compareKeys kvs).

(** [buildSetData(values)] *)
Definition buildSetData (values : list K) : list K :=
  removeDuplicateFromOrdered compare (sort compare values).

(** [MapLeafSequence.getKey]: [new OrderedKey(items[idx][KEY])]. *)
Definition mapLeafKey (entry : MapEntry) : OrderedKey K := newOrderedKey (fst entry).

(** [SetLeafSequence.getKey]: [new OrderedKey(items[idx])]. *)
Definition setLeafKey (v : K) : OrderedKey K := newOrderedKey v.

End MapAndSet.

Section Facades.

Context {K V : Type} {ops : ValueOps K}.

(** [equals] on the values of a map. *)
Variable equalsV : V -> V -> bool.

(** The condition [cursor.valid && equals(cursor.getCurrentKey().value(), key)]
    of [has], [set], [add] and [delete]. *)
Definition current_key_is {T : Type} (leafKey : T -> OrderedKey K)
    (cursor : SequenceCursor T K) (key : K) : option bool :=
  if valid cursor then
    match getCurrentKey leafKey cursor with
    | Some k =>
        match value k with
        | Some v => Some (equals v key)
        | None => None
        end
    | None => None
    end
  else Some false.

(** What a mutating method returns: the collection itself, or the
    collection [fromSequence] makes of
    [chunkSequence(cursor, vr, insert, remove, ...)].  The chunker
    ([sequence-chunker.js]) is not among the sources, so the call is kept
    as data. *)
Inductive Mutation (T : Type) : Type :=
| ReturnThis
| Splice (cursor : SequenceCursor T K) (insert : list T) (remove : Z).

Arguments ReturnThis {T}.

(** [Map.has(key)] *)
Definition Map_has (m : Sequence (MapEntry (K := K) (V := V)) K) (key : K) : option bool :=
  match newCursorAtValue mapLeafKey m (Some key) false false with
  | None => None
  | Some cursor => current_key_is mapLeafKey cursor key
  end.

(** [Map.get(key)]: [Some None] is [undefined]. *)
Definition Map_get (m : Sequence (MapEntry (K := K) (V := V)) K) (key : K)
    : option (option V) :=
  match newCursorAtValue mapLeafKey m (Some key) false false with
  | None => None
  | Some cursor =>
      if valid cursor then
        match getCurrent cursor with
        | Some entry => Some (if equals (fst entry) key then Some (snd entry) else None)
        | None => None
        end
      else Some None
  end.

(** [Map.set(key, value)] *)
Definition Map_set (m : Sequence (MapEntry (K := K) (V := V)) K) (key : K) (value : V)
    : option (Mutation (MapEntry (K := K) (V := V))) :=
  match newCursorAtValue mapLeafKey m (Some key) true false with
  | None => None
  | Some cursor =>
      match current_key_is mapLeafKey cursor key with
      | None => None
      | Some true =>
          match getCurrent cursor with
          | None => None
          | Some entry =>
              if equalsV (snd entry) value then Some ReturnThis
              else Some (Splice cursor [(key, value)] 1)
          end
      | Some false => Some (Splice cursor [(key, value)] 0)
      end
  end.

(** [Map.delete(key)] *)
Definition Map_delete (m : Sequence (MapEntry (K := K) (V := V)) K) (key : K)
    : option (Mutation (MapEntry (K := K) (V := V))) :=
  match newCursorAtValue mapLeafKey m (Some key) false false with
  | None => None
  | Some cursor =>
      match current_key_is mapLeafKey cursor key with
      | None => None
      | Some true => Some (Splice cursor [] 1)
      | Some false => Some ReturnThis
      end
  end.

(** [get size()] of a Map or Set, [get length()] of a List or Blob. *)
Definition size {T : Type} (s : Sequence T K) : option Z := numLeaves s.

(** [Set.has(key)] *)
Definition Set_has (s : Sequence K K) (key : K) : option bool :=
  match newCursorAtValue setLeafKey s (Some key) false false with
  | None => None
  | Some cursor => current_key_is setLeafKey cursor key
  end.

(** [Set.add(value)] *)
Definition Set_add (s : Sequence K K) (value : K) : option (Mutation K) :=
  match newCursorAtValue setLeafKey s (Some value) true false with
  | None => None
  | Some cursor =>
      match current_key_is setLeafKey cursor value with
      | None => None
      | Some true => Some ReturnThis
      | Some false => Some (Splice cursor [value] 0)
      end
  end.

(** [Set.delete(value)] *)
Definition Set_delete (s : Sequence K K) (value : K) : option (Mutation K) :=
  match newCursorAtValue setLeafKey s (Some value) false false with
  | None => None
  | Some cursor =>
      match current_key_is setLeafKey cursor value with
      | None => None
      | Some true => Some (Splice cursor [] 1)
      | Some false => Some ReturnThis
      end
  end.

End Facades.

Arguments ReturnThis {K ops T}.

(** ** Ordered uniqueness of the data of a Map or Set *)

Section BuildDataSpec.

Context {K V : Type} {ops : ValueOps K} {laws : ValueLaws K}.
Variable sort : ArraySort.
Hypothesis Hsort : stable_sort sort.

Lemma compare_consistent : consistent (compare (K := K)).
Proof.
  constructor.
  - apply compare_refl.
  - apply compare_antisym.
  - apply compare_le_trans.
Qed.

Lemma compareKeys_consistent : consistent (compareKeys (K := K) (V := V)).
Proof.
  constructor; unfold compareKeys.
  - intros x. apply compare_refl.
  - intros x y. apply compare_antisym.
  - intros x y z. apply compare_le_trans.
Qed.

Lemma strictly_sorted_NoDup {A : Type} (cmp : A -> A -> Z) (l : list A) :
  (forall x, cmp x x = 0) -> StronglySorted (cmp_lt cmp) l -> NoDup l.
Proof.
  intros Hrefl. induction 1 as [|x rest Hs IH Hall]; constructor; [|exact IH].
  intros Hin. rewrite Forall_forall in Hall. specialize (Hall x Hin).
  unfold cmp_lt in Hall. rewrite Hrefl in Hall. lia.
Qed.

Lemma strictly_sorted_keys_NoDup (l : list (MapEntry (K := K) (V := V))) :
  StronglySorted (cmp_lt compareKeys) l -> NoDup (map fst l).
Proof.
  induction 1 as [|x rest Hs IH Hall]; simpl; constructor; [|exact IH].
  intros Hin. apply in_map_iff in Hin. destruct Hin as (y & Hy & Hin).
  rewrite Forall_forall in Hall. specialize (Hall y Hin).
  unfold cmp_lt, compareKeys in Hall. rewrite Hy, compare_refl in Hall. lia.
Qed.

(** The general facts about sorting and removing duplicates. *)
Lemma sorted_dedup_spec {A : Type} (cmp : A -> A -> Z) (l : list A) :
  consistent cmp ->
  let r := removeDuplicateFromOrdered cmp (sort cmp l) in
  StronglySorted (cmp_lt cmp) r /\
  (forall e, In e r -> In e l) /\
  (forall x, In x l -> exists e, In e r /\ cmp x e = 0) /\
  (forall e, In e r -> exists pre, filter (cmp_eqb cmp e) l = pre ++ [e]).
Proof.
  intros Hcmp r. unfold r. rewrite removeDuplicateFromOrdered_spec.
  destruct (Hsort Hcmp l) as (Hperm & Hsorted & Hstable).
  split; [apply keep_last_sorted; assumption|]. split; [|split].
  - intros e He. apply (Permutation_in _ Hperm). apply (keep_last_subset _ _ _ He).
  - intros x Hx. apply keep_last_cover; [exact Hcmp|].
    apply (Permutation_in _ (Permutation_sym Hperm)). exact Hx.
  - intros e He. rewrite <- Hstable. apply keep_last_is_last; assumption.
Qed.

Lemma sort_equal_keys (k : K) (a b : V) :
  sort compareKeys [(k, a); (k, b)] = [(k, a); (k, b)].
Proof.
  destruct (Hsort compareKeys_consistent [(k, a); (k, b)]) as (Hperm & _ & Hstable).
  specialize (Hstable (k, a)).
  assert (Hall : forall l : list (MapEntry (K := K) (V := V)),
            (forall x, In x l -> In x [(k, a); (k, b)]) ->
            filter (cmp_eqb compareKeys (k, a)) l = l).
  { intros l Hl. apply filter_all. intros x Hx.
    unfold cmp_eqb, compareKeys. apply Z.eqb_eq.
    destruct (Hl x Hx) as [<-|[<-|[]]]; simpl; apply compare_refl. }
  rewrite (Hall (sort compareKeys [(k, a); (k, b)])) in Hstable
    by (intros x Hx; apply (Permutation_in _ Hperm); exact Hx).
  rewrite (Hall [(k, a); (k, b)]) in Hstable by auto.
  exact Hstable.
Qed.

(** C3.  For every array of entries, [buildMapData] returns entries whose
    keys are strictly increasing (so no key occurs twice), whose keys are
    exactly the keys of the input (so their number is the number of distinct
    keys), and each of which is the last entry of the input with its key
    (later duplicates win).  In particular the data of
    [new Map([[k, a], [k, b]])] is the single entry [[k, b]], on which
    [get(k)] is [b] and [size] is 1.  [buildSetData] likewise returns the
    distinct values of its input in strictly increasing order. *)
Theorem build_data_ordered_unique :
  (forall kvs : list (MapEntry (K := K) (V := V)),
     let r := buildMapData sort kvs in
     StronglySorted (fun e1 e2 => compare (fst e1) (fst e2) < 0) r /\
     NoDup (map fst r) /\
     (forall k, In k (map fst r) <-> In k (map fst kvs)) /\
     (forall e, In e r ->
        exists pre, filter (fun e' => compare (fst e) (fst e') =? 0) kvs = pre ++ [e])) /\
  (forall (k : K) (a b : V),
     buildMapData sort [(k, a); (k, b)] = [(k, b)] /\
     Map_get (LeafSequence (buildMapData sort [(k, a); (k, b)])) k = Some (Some b) /\
     size (LeafSequence (buildMapData sort [(k, a); (k, b)])) = Some 1) /\
  (forall values : list K,
     let r := buildSetData sort values in
     StronglySorted (fun v1 v2 => compare v1 v2 < 0) r /\
     NoDup r /\
     (forall v, In v r <-> In v values)).
Proof.
  split; [|split].
  - intros kvs r.
    destruct (@sorted_dedup_spec _ compareKeys kvs compareKeys_consistent)
      as (Hs & Hsub & Hcover & Hlast).
    fold (buildMapData sort kvs) in Hs, Hsub, Hcover, Hlast. fold r in Hs, Hsub, Hcover, Hlast.
    split; [exact Hs|]. split; [apply strictly_sorted_keys_NoDup; exact Hs|].
    split; [|exact Hlast].
    intros k. rewrite !in_map_iff. split.
    + intros (e & <- & He). exists e. split; [reflexivity | apply Hsub; exact He].
    + intros (x & <- & Hx). destruct (Hcover x Hx) as (e & He & Hxe).
      exists e. split; [|exact He].
      unfold compareKeys in Hxe. symmetry. apply (proj1 (compare_eq _ _) Hxe).
  - intros k a b.
    assert (Hdata : buildMapData sort [(k, a); (k, b)] = [(k, b)]).
    { unfold buildMapData. rewrite sort_equal_keys, removeDuplicateFromOrdered_spec.
      cbn [keep_last_of_runs]. unfold compareKeys. simpl. rewrite compare_refl. reflexivity. }
    rewrite Hdata. split; [reflexivity|]. split; [|reflexivity].
    unfold Map_get, newCursorAtValue, newCursorAtKey. simpl.
    unfold seekTo, length, BinarySearch.search. simpl.
    unfold key_at_least. simpl. unfold mapLeafKey. simpl.
    rewrite OrderedKey_compare_refl. simpl.
    unfold cursor_getChildSequence. simpl.
    unfold getCurrent, valid, length. simpl.
    replace (equals k k) with true by (symmetry; apply equals_eq; reflexivity).
    reflexivity.
  - intros values r.
    destruct (@sorted_dedup_spec _ compare values compare_consistent)
      as (Hs & Hsub & Hcover & Hlast).
    fold (buildSetData sort values) in Hs, Hsub, Hcover. fold r in Hs, Hsub, Hcover.
    split; [exact Hs|].
    split; [apply (@strictly_sorted_NoDup K compare r); [apply compare_refl | exact Hs]|].
    intros v. split; [apply Hsub|].
    intros Hv. destruct (Hcover v Hv) as (e & He & Hve).
    apply (proj1 (compare_eq _ _)) in Hve. subst e. exact He.
Qed.

End BuildDataSpec.

(** ** Well-formed ordered trees and lookups by key *)

Section OrderedTrees.

Context {T K : Type} {ops : ValueOps K} {laws : ValueLaws K}.
Variable leafKey : T -> OrderedKey K.

(** An ordered tree of [n] levels as the chunker builds them for a Map or a
    Set: leaves at one depth, no empty meta sequence, keys strictly
    increasing within every sequence, the key of a tuple an upper bound of
    the keys below it (it is the largest one) and the keys of the tuples
    before it strict lower bounds. *)
Fixpoint otree_wf (n : nat) (s : Sequence T K) : Prop :=
  match n with
  | O => False
  | S m =>
      match s with
      | LeafSequence items => m = O /\ StronglySorted key_lt (map leafKey items)
      | MetaSequence items =>
          m <> O /\ items <> [] /\
          StronglySorted key_lt (map (@mt_key K ops _) items) /\
          (forall (j : nat) (mt : MetaTuple K (Sequence T K)),
             nth_error items j = Some mt ->
             otree_wf m (mt_child mt) /\
             (forall x, In x (leaves (mt_child mt)) -> key_le (leafKey x) (mt_key mt)) /\
             (forall (j' : nat) (mt' : MetaTuple K (Sequence T K)),
                (j' < j)%nat -> nth_error items j' = Some mt' ->
                forall x, In x (leaves (mt_child mt)) -> key_lt (mt_key mt') (leafKey x)))
      end
  end.

Lemma OrderedKey_compare_consistent : consistent (OrderedKey_compare (K := K)).
Proof.
  constructor.
  - apply OrderedKey_compare_refl.
  - apply OrderedKey_compare_antisym.
  - apply OrderedKey_compare_le_trans.
Qed.

Lemma strictly_sorted_weaken (l : list (OrderedKey K)) :
  StronglySorted key_lt l -> StronglySorted key_le l.
Proof.
  induction 1 as [|x rest Hs IH Hall]; constructor; [exact IH|].
  eapply Forall_impl; [|exact Hall]. unfold key_lt, key_le. intros; lia.
Qed.

Lemma otree_keys_ordered (n : nat) (s : Sequence T K) :
  otree_wf n s -> keys_ordered leafKey s.
Proof.
  destruct n as [|n]; [intros []|]. unfold keys_ordered.
  destruct s as [items|items]; simpl.
  - intros [_ Hs]. apply strictly_sorted_weaken. exact Hs.
  - intros (_ & _ & Hs & _). apply strictly_sorted_weaken. exact Hs.
Qed.

Lemma In_leaves_of_tuples (items : list (MetaTuple K (Sequence T K))) (x : T) :
  In x (leaves_of_tuples items) <->
  exists (j : nat) (mt : MetaTuple K (Sequence T K)),
    nth_error items j = Some mt /\ In x (leaves (mt_child mt)).
Proof.
  unfold leaves_of_tuples. rewrite in_flat_map. split.
  - intros (mt & Hmt & Hx). destruct (In_nth_error _ _ Hmt) as [j Hj]. eauto.
  - intros (j & mt & Hj & Hx). exists mt. split; [eapply nth_error_In; eauto | exact Hx].
Qed.

Lemma item_at_nth {A : Type} (l : list A) (j : nat) :
  item_at l (Z.of_nat j) = nth_error l j.
Proof.
  unfold item_at. replace (Z.of_nat j <? 0) with false by (symmetry; apply Z.ltb_ge; lia).
  rewrite Nat2Z.id. reflexivity.
Qed.

Lemma key_at_least_iff (s : Sequence T K) (key k : OrderedKey K) (i : Z) :
  getKey leafKey s i = Some k ->
  key_at_least leafKey s key i = (0 <=? OrderedKey_compare k key).
Proof. intros H. unfold key_at_least. rewrite H. reflexivity. Qed.

(** In a strictly sorted sequence the position of a key equal to [key] is
    the first position at least [key]. *)
Lemma first_at_least_of_equal (s : Sequence T K) (key k : OrderedKey K) (p : nat) :
  StronglySorted key_lt (keys leafKey s) ->
  nth_error (keys leafKey s) p = Some k ->
  OrderedKey_compare k key = 0 ->
  first_at_least leafKey s key (Z.of_nat p).
Proof.
  intros Hs Hp Hk.
  assert (Hlen : seq_length s = len (keys leafKey s)).
  { destruct s; simpl; unfold len; rewrite length_map; reflexivity. }
  assert (Hp' : (p < Datatypes.length (keys leafKey s))%nat)
    by (apply nth_error_Some; congruence).
  split; [rewrite Hlen; unfold len; lia|]. split.
  - rewrite (@key_at_least_iff s key k); [rewrite Hk; reflexivity|].
    rewrite getKey_keys, item_at_nth. exact Hp.
  - intros j Hj.
    destruct (nth_error (keys leafKey s) (Z.to_nat j)) as [kj|] eqn:Ej;
      [|apply nth_error_None in Ej; lia].
    rewrite (@key_at_least_iff s key kj);
      [|rewrite getKey_keys; unfold item_at;
        replace (j <? 0) with false by (symmetry; apply Z.ltb_ge; lia); exact Ej].
    assert (Hlt : key_lt kj k).
    { apply (StronglySorted_nth Hs (i := Z.to_nat j) (j := p)); auto. lia. }
    apply Z.leb_gt.
    apply (@cmp_lt_le_trans _ _ OrderedKey_compare_consistent kj k key Hlt). lia.
Qed.

End OrderedTrees.

Section CursorAtKey.

Context {T K : Type} {ops : ValueOps K} {laws : ValueLaws K}.
Variable leafKey : T -> OrderedKey K.

(** A key that is in the tree is found: the cursor lands on the item that
    carries it. *)
Lemma newCursorAtKey_loop_finds :
  forall (n fuel : nat) (s : Sequence T K) (par : option (SequenceCursor T K))
         (key : OrderedKey K) (x : T) (forInsertion : bool),
    (n <= fuel)%nat ->
    otree_wf leafKey n s ->
    In x (leaves s) ->
    OrderedKey_compare (leafKey x) key = 0 ->
    exists (c : SequenceCursor T K) (items : list T),
      newCursorAtKey_loop leafKey fuel par s (Some key) forInsertion false = Some c /\
      sequence c = LeafSequence items /\
      valid c = true /\
      item_at items (idx c) = Some x.
Proof.
  induction n as [|n IH]; intros fuel s par key x fi Hfuel Hwf Hx Hkey; [destruct Hwf|].
  destruct fuel as [|fuel]; [lia|].
  pose proof (otree_keys_ordered leafKey _ _ Hwf) as Hord.
  destruct s as [items|items].
  - destruct Hwf as [-> Hs]. simpl in Hx.
    destruct (In_nth_error _ _ Hx) as [p Hp].
    assert (Hfirst : first_at_least leafKey (LeafSequence items) key (Z.of_nat p)).
    { apply first_at_least_of_equal with (k := leafKey x); auto.
      simpl. rewrite nth_error_map, Hp. reflexivity. }
    cbn [newCursorAtKey_loop]. unfold newSequenceCursor. cbn [Z.ltb Z.compare].
    rewrite (@seekTo_found _ _ _ laws leafKey (mkCursor par (LeafSequence items) 0) key
               (fi && isMeta (LeafSequence items)) (Z.of_nat p) Hord Hfirst).
    unfold cursor_getChildSequence, set_idx. cbn [sequence idx getChildSequence].
    eexists; exists items. split; [reflexivity|]. split; [reflexivity|].
    destruct Hfirst as (Hrange & _). simpl in Hrange.
    split.
    + unfold valid, length. cbn [idx sequence seq_length].
      apply andb_true_iff. split; [apply Z.leb_le | apply Z.ltb_lt]; lia.
    + cbn [idx]. rewrite item_at_nth. exact Hp.
  - destruct Hwf as (Hn & Hne & Hs & Hchildren).
    rewrite leaves_meta in Hx. apply In_leaves_of_tuples in Hx.
    destruct Hx as (j & mt & Hj & Hx).
    destruct (Hchildren j mt Hj) as (Hcwf & Hupper & Hlower).
    assert (Hfirst : first_at_least leafKey (MetaSequence items) key (Z.of_nat j)).
    { assert (Hj' : (j < Datatypes.length items)%nat) by (apply nth_error_Some; congruence).
      split; [simpl; unfold len; lia|]. split.
      - rewrite (@key_at_least_iff _ _ _ leafKey _ key (mt_key mt));
          [|simpl; rewrite item_at_nth, Hj; reflexivity].
        apply Z.leb_le. apply OrderedKey_compare_ge_le.
        apply OrderedKey_compare_le_trans with (b := leafKey x).
        + pose proof (@cmp_zero_sym _ _ OrderedKey_compare_consistent _ _ Hkey). lia.
        + apply Hupper. exact Hx.
      - intros i Hi.
        destruct (nth_error items (Z.to_nat i)) as [mt'|] eqn:Ei;
          [|apply nth_error_None in Ei; lia].
        rewrite (@key_at_least_iff _ _ _ leafKey _ key (mt_key mt'));
          [|simpl; unfold item_at;
            replace (i <? 0) with false by (symmetry; apply Z.ltb_ge; lia);
            rewrite Ei; reflexivity].
        apply Z.leb_gt.
        apply (@cmp_lt_le_trans _ _ OrderedKey_compare_consistent _ (leafKey x) _).
        + apply (Hlower (Z.to_nat i) mt'); auto. lia.
        + lia. }
    cbn [newCursorAtKey_loop]. unfold newSequenceCursor. cbn [Z.ltb Z.compare].
    rewrite (@seekTo_found _ _ _ laws leafKey (mkCursor par (MetaSequence items) 0) key
               (fi && isMeta (MetaSequence items)) (Z.of_nat j) Hord Hfirst).
    unfold cursor_getChildSequence, set_idx. cbn [sequence idx getChildSequence].
    rewrite item_at_nth, Hj.
    apply IH; auto. lia.
Qed.

Lemma otree_wf_pos (n : nat) (s : Sequence T K) : otree_wf leafKey n s -> (1 <= n)%nat.
Proof. destruct n; simpl; [tauto | lia]. Qed.

Lemma otree_wf_depth (n : nat) (s : Sequence T K) :
  otree_wf leafKey n s -> depth_of s = n.
Proof.
  revert s. induction n as [|n IH]; intros s Hwf; [destruct Hwf|].
  destruct s as [items|items]; simpl in Hwf.
  - destruct Hwf as [-> _]. reflexivity.
  - destruct Hwf as (Hn & Hne & _ & Hchildren). simpl. f_equal.
    assert (Hall : forall mt, In mt items -> depth_of (mt_child mt) = n).
    { intros mt Hmt. destruct (In_nth_error _ _ Hmt) as [j Hj].
      apply IH. apply (Hchildren j mt Hj). }
    clear Hchildren. induction items as [|mt rest IHr]; [congruence|].
    rewrite (Hall mt (or_introl eq_refl)).
    destruct rest as [|mt' rest']; [apply Nat.max_0_r|].
    rewrite IHr; [apply Nat.max_id | discriminate | intros; apply Hall; right; assumption].
Qed.

(** Whatever the key, the descent returns a cursor, and a valid cursor
    stands on an item of the tree. *)
Lemma newCursorAtKey_loop_lands :
  forall (n fuel : nat) (s : Sequence T K) (par : option (SequenceCursor T K))
         (key : OrderedKey K),
    (n <= fuel)%nat ->
    otree_wf leafKey n s ->
    exists c : SequenceCursor T K,
      newCursorAtKey_loop leafKey fuel par s (Some key) false false = Some c /\
      (valid c = true ->
         exists (items : list T) (y : T),
           sequence c = LeafSequence items /\
           item_at items (idx c) = Some y /\ In y (leaves s)).
Proof.
  induction n as [|n IH]; intros fuel s par key Hfuel Hwf; [destruct Hwf|].
  destruct fuel as [|fuel]; [lia|].
  cbn [newCursorAtKey_loop]. unfold newSequenceCursor. cbn [Z.ltb Z.compare andb].
  unfold seekTo. rewrite andb_false_r.
  set (c0 := mkCursor par s 0).
  pose proof (BinarySearch.search_range (key_at_least leafKey (sequence c0) key)
                (seq_length_nonneg (sequence c0))) as Hr.
  fold (length c0) in Hr.
  set (r := BinarySearch.search (length c0) (key_at_least leafKey (sequence c0) key)) in *.
  destruct (r <? length c0) eqn:E.
  2:{ exists (set_idx c0 r). split; [reflexivity|].
      unfold valid, set_idx, length. cbn [idx sequence].
      unfold length in E. cbn [sequence] in E. rewrite E, andb_false_r. discriminate. }
  apply Z.ltb_lt in E. unfold cursor_getChildSequence, set_idx. cbn [sequence idx].
  unfold c0 in *. unfold length in *. cbn [sequence] in *.
  destruct s as [items|items]; cbn [getChildSequence].
  - eexists. split; [reflexivity|]. intros _. cbn [sequence idx seq_length] in *.
    destruct (@item_at_Some _ items r) as [y Hy]; [lia|].
    exists items, y. repeat split; auto. simpl. eapply item_at_In; eauto.
  - cbn [seq_length] in *. destruct (@item_at_Some _ items r) as [mt Hmt]; [lia|].
    rewrite Hmt. destruct Hwf as (Hn & Hne & _ & Hchildren).
    assert (Hnth : nth_error items (Z.to_nat r) = Some mt).
    { unfold item_at in Hmt. destruct (r <? 0); [discriminate | exact Hmt]. }
    destruct (Hchildren _ _ Hnth) as (Hcwf & _).
    destruct (IH fuel (mt_child mt) (Some (mkCursor par (MetaSequence items) r)) key)
      as (c & Hc & Hvalid); [lia | exact Hcwf |].
    exists c. split; [exact Hc|]. intros Hv.
    destruct (Hvalid Hv) as (leaf & y & Hseq & Hy & Hin).
    exists leaf, y. split; [exact Hseq|]. split; [exact Hy|].
    rewrite leaves_meta. apply In_leaves_of_tuples. eauto.
Qed.

End CursorAtKey.

(** ** Mutations that change nothing *)

Section BenignMutations.

Context {K V : Type} {ops : ValueOps K} {laws : ValueLaws K}.
Variable equalsV : V -> V -> bool.

Lemma equals_refl (k : K) : equals k k = true.
Proof. apply equals_eq. reflexivity. Qed.

(** The cursor of a lookup that found the item [x]. *)
Lemma current_key_is_found {T : Type} (leafKey : T -> OrderedKey K) (keyOf : T -> K)
    (c : SequenceCursor T K) (items : list T) (x : T) (key : K) :
  (forall y, leafKey y = newOrderedKey (keyOf y)) ->
  sequence c = LeafSequence items -> valid c = true -> item_at items (idx c) = Some x ->
  current_key_is leafKey c key = Some (equals (keyOf x) key) /\
  getCurrent c = Some x.
Proof.
  intros Hkey Hseq Hvalid Hitem.
  unfold current_key_is, getCurrentKey, getCurrent. rewrite Hvalid, Hseq. simpl.
  rewrite Hitem. simpl. rewrite Hkey, newOrderedKey_value. auto.
Qed.

(** C9.  On a well-formed Map, [set(k, v)] when [k] is present with a value
    that equals [v] returns the Map itself, and [delete(k)] when [k] is
    absent returns the Map itself; on a well-formed Set, [add(v)] when [v]
    is a member returns the Set itself (and so does [delete(v)] when it is
    not).  None of these calls throws. *)
Theorem benign_mutations_return_self :
  (forall (n : nat) (m : Sequence (MapEntry (K := K) (V := V)) K) (k : K) (v0 v : V),
     otree_wf mapLeafKey n m -> In (k, v0) (leaves m) -> equalsV v0 v = true ->
     Map_set equalsV m k v = Some ReturnThis) /\
  (forall (n : nat) (m : Sequence (MapEntry (K := K) (V := V)) K) (k : K),
     otree_wf mapLeafKey n m -> (forall v0, ~ In (k, v0) (leaves m)) ->
     Map_delete m k = Some ReturnThis) /\
  (forall (n : nat) (s : Sequence K K) (v : K),
     otree_wf setLeafKey n s -> In v (leaves s) ->
     Set_add s v = Some ReturnThis) /\
  (forall (n : nat) (s : Sequence K K) (v : K),
     otree_wf setLeafKey n s -> ~ In v (leaves s) ->
     Set_delete s v = Some ReturnThis).
Proof.
  split; [|split; [|split]].
  - intros n m k v0 v Hwf Hin Heq.
    unfold Map_set, newCursorAtValue, newCursorAtKey. cbn [option_map].
    rewrite (otree_wf_depth _ _ _ Hwf).
    destruct (@newCursorAtKey_loop_finds _ _ _ laws mapLeafKey n n m None
                (newOrderedKey k) (k, v0) true (le_n n) Hwf Hin)
      as (c & items & Hc & Hseq & Hvalid & Hitem).
    { apply OrderedKey_compare_refl. }
    rewrite Hc.
    destruct (@current_key_is_found _ mapLeafKey fst c items (k, v0) k) as [Hkey Hcur]; auto.
    rewrite Hkey, Hcur. cbn [fst snd]. rewrite equals_refl, Heq. reflexivity.
  - intros n m k Hwf Habsent.
    unfold Map_delete, newCursorAtValue, newCursorAtKey. cbn [option_map].
    rewrite (otree_wf_depth _ _ _ Hwf).
    destruct (@newCursorAtKey_loop_lands _ _ _ mapLeafKey n n m None
                (newOrderedKey k) (le_n n) Hwf) as (c & Hc & Hlands).
    rewrite Hc. destruct (valid c) eqn:Hvalid.
    + destruct (Hlands eq_refl) as (items & y & Hseq & Hitem & Hin).
      destruct (@current_key_is_found _ mapLeafKey fst c items y k) as [Hkey _]; auto.
      rewrite Hkey. destruct (equals (fst y) k) eqn:E; [|reflexivity].
      exfalso. apply equals_eq in E. apply (Habsent (snd y)).
      rewrite <- E. destruct y; exact Hin.
    + unfold current_key_is. rewrite Hvalid. reflexivity.
  - intros n s v Hwf Hin.
    unfold Set_add, newCursorAtValue, newCursorAtKey. cbn [option_map].
    rewrite (otree_wf_depth _ _ _ Hwf).
    destruct (@newCursorAtKey_loop_finds _ _ _ laws setLeafKey n n s None
                (newOrderedKey v) v true (le_n n) Hwf Hin)
      as (c & items & Hc & Hseq & Hvalid & Hitem).
    { apply OrderedKey_compare_refl. }
    rewrite Hc.
    destruct (@current_key_is_found _ setLeafKey (fun y => y) c items v v) as [Hkey _]; auto.
    rewrite Hkey, equals_refl. reflexivity.
  - intros n s v Hwf Habsent.
    unfold Set_delete, newCursorAtValue, newCursorAtKey. cbn [option_map].
    rewrite (otree_wf_depth _ _ _ Hwf).
    destruct (@newCursorAtKey_loop_lands _ _ _ setLeafKey n n s None
                (newOrderedKey v) (le_n n) Hwf) as (c & Hc & Hlands).
    rewrite Hc. destruct (valid c) eqn:Hvalid.
    + destruct (Hlands eq_refl) as (items & y & Hseq & Hitem & Hin).
      destruct (@current_key_is_found _ setLeafKey (fun y => y) c items y v) as [Hkey _]; auto.
      rewrite Hkey. destruct (equals y v) eqn:E; [|reflexivity].
      exfalso. apply equals_eq in E. subst y. exact (Habsent Hin).
    + unfold current_key_is. rewrite Hvalid. reflexivity.
Qed.

End BenignMutations.

(** *** A Map and a Set of two chunks *)

(** The Map [{1: 10, 2: 20, 4: 40, 5: 50}] in two chunks; the key of a tuple
    is the largest key of its chunk. *)
Definition map_tree : Sequence (MapEntry (K := Z) (V := Z)) Z :=
  MetaSequence
    [ mkMetaTuple 1 (ByValue 2) 2 (LeafSequence [(1, 10); (2, 20)]);
      mkMetaTuple 2 (ByValue 5) 2 (LeafSequence [(4, 40); (5, 50)]) ].

(** The Set [{10, 20, 40, 50}] in two chunks. *)
Definition set_tree : Sequence Z Z :=
  MetaSequence
    [ mkMetaTuple 1 (ByValue 20) 2 (LeafSequence [10; 20]);
      mkMetaTuple 2 (ByValue 50) 2 (LeafSequence [40; 50]) ].

Ltac solve_key_order :=
  unfold key_lt, key_le, mapLeafKey, setLeafKey, newOrderedKey; simpl;
  unfold number_compare; simpl; lia.

Ltac solve_two_chunks :=
  simpl; split; [discriminate|]; split; [discriminate|];
  split; [repeat constructor; solve_key_order|];
  intros j mt Hj; destruct j as [|[|j]]; simpl in Hj;
  [ injection Hj as <- | injection Hj as <- | destruct j; discriminate ];
  (split; [simpl; split; [reflexivity | repeat constructor; solve_key_order]|]);
  (split; [intros x [<-|[<-|[]]]; solve_key_order|]);
  intros j' mt' Hlt Hj' x Hx;
  try lia;
  (destruct j' as [|j']; [|lia]); simpl in Hj'; injection Hj' as <-;
  destruct Hx as [<-|[<-|[]]]; solve_key_order.

Lemma map_tree_wf : otree_wf mapLeafKey 2 map_tree.
Proof. solve_two_chunks. Qed.

Lemma set_tree_wf : otree_wf setLeafKey 2 set_tree.
Proof. solve_two_chunks. Qed.

(** The benign calls, by evaluation, next to calls that do change the
    collection. *)
Example benign_calls_evaluated :
  Map_set Z.eqb map_tree 4 40 = Some ReturnThis /\
  Map_delete map_tree 3 = Some ReturnThis /\
  Set_add set_tree 20 = Some ReturnThis /\
  Map_get map_tree 4 = Some (Some 40) /\
  Map_has map_tree 3 = Some false /\
  (exists cursor, Map_set Z.eqb map_tree 4 41 = Some (Splice cursor [(4, 41)] 1)) /\
  (exists cursor, Set_add set_tree 30 = Some (Splice cursor [30] 0)).
Proof. vm_compute. repeat split; eexists; reflexivity. Qed.

Lemma benign_mutations_return_self_witness :
  Map_set Z.eqb map_tree 4 40 = Some ReturnThis /\
  Map_delete map_tree 3 = Some ReturnThis /\
  Set_add set_tree 20 = Some ReturnThis /\
  Set_delete set_tree 30 = Some ReturnThis.
Proof.
  pose proof (@benign_mutations_return_self Z Z NumberOps NumberLaws Z.eqb)
    as (Hset & Hdelete & Hadd & Hsdel).
  split; [|split; [|split]].
  - apply (Hset 2%nat map_tree 4 40 40 map_tree_wf).
    + simpl. tauto.
    + reflexivity.
  - apply (Hdelete 2%nat map_tree 3 map_tree_wf).
    intros v0 Hin. simpl in Hin.
    repeat (destruct Hin as [Hin|Hin]; [discriminate Hin|]). exact Hin.
  - apply (Hadd 2%nat set_tree 20 set_tree_wf). simpl. tauto.
  - apply (Hsdel 2%nat set_tree 30 set_tree_wf). simpl. lia.
Defined.

(** *** The duplicate-key scenario of the specification *)

Module MapScenario.

Import Stdlib.Strings.String.

Definition entries : list (MapEntry (K := Z) (V := string)) :=
  [(1, "a"%string); (1, "b"%string)].

Definition unsorted_entries : list (MapEntry (K := Z) (V := string)) :=
  [(3, "c"%string); (1, "a"%string); (2, "b"%string); (1, "d"%string); (3, "e"%string)].

Example buildMapData_evaluated :
  buildMapData insertion_sort entries = [(1, "b"%string)] /\
  buildMapData insertion_sort unsorted_entries
    = [(1, "d"%string); (2, "b"%string); (3, "e"%string)] /\
  buildSetData insertion_sort [5; 3; 5; 1; 3] = [1; 3; 5].
Proof. vm_compute. repeat split. Qed.

Lemma build_data_ordered_unique_witness :
  buildMapData insertion_sort entries = [(1, "b"%string)] /\
  Map_get (LeafSequence (buildMapData insertion_sort entries)) 1 = Some (Some "b"%string) /\
  size (LeafSequence (buildMapData insertion_sort entries)) = Some 1.
Proof.
  exact (proj1 (proj2 (@build_data_ordered_unique Z string NumberOps NumberLaws
                          insertion_sort insertion_sort_stable))
           1 "a"%string "b"%string).
Defined.

End MapScenario.

(** ** Ordered diff (ordered-sequence-diff.js) and Set.diff *)

Section OrderedDiff.

Context {T K : Type} {ops : ValueOps K}.

(** The three interface members the walk uses: the key of an item
    ([getKey]), the value reported for it, and the equality of two items
    ([getEqualsFn] of the leaf sequences). *)
Variable leafKey : T -> OrderedKey K.
Variable reported : T -> K.
Variable itemEquals : T -> T -> bool.

(** [[added, removed, modified]] *)
Record DiffResult : Type := mkDiff {
  added : list K;
  removed : list K;
  modified : list K
}.

Definition emit_added (k : K) (d : DiffResult) : DiffResult :=
  mkDiff (k :: added d) (removed d) (modified d).

Definition emit_removed (k : K) (d : DiffResult) : DiffResult :=
  mkDiff (added d) (k :: removed d) (modified d).

Definition emit_modified (k : K) (d : DiffResult) : DiffResult :=
  mkDiff (added d) (removed d) (k :: modified d).

(** Modelled from the spec: [ordered-sequence-diff.js] is not among the
    sources.  The specification has two synchronized cursors walk the two
    trees in key order, that is, over their leaf items in order.  At each
    step, if the keys are equal the items are compared: equal items are
    skipped on both sides, different ones are emitted as modified and both
    sides advance; otherwise the side with the smaller key is emitted,
    removed when it is the old tree [last] and added when it is the new tree
    [current], and that side advances.  What is left of one side when the
    other is exhausted is all removed, or all added.  (Skipping two subtrees
    of identical ref emits nothing, like walking their equal items.) *)
Fixpoint ordered_diff (last : list T) : list T -> DiffResult :=
  fix walk (current : list T) : DiffResult :=
    match last, current with
    | [], _ => mkDiff (map reported current) [] []
    | _, [] => mkDiff [] (map reported last) []
    | l :: last', c :: current' =>
        let order := OrderedKey_compare (leafKey l) (leafKey c) in
        if order =? 0 then
          if itemEquals l c then ordered_diff last' current'
          else emit_modified (reported l) (ordered_diff last' current')
        else if order <? 0 then emit_removed (reported l) (ordered_diff last' current)
        else emit_added (reported c) (walk current')
    end.

(** Equal keys carry equal items: then nothing is ever modified. *)
Lemma ordered_diff_no_modified :
  (forall l c, OrderedKey_compare (leafKey l) (leafKey c) = 0 -> itemEquals l c = true) ->
  forall last current, modified (ordered_diff last current) = [].
Proof.
  intros Hkeys. induction last as [|l last' IHl]; intros current.
  - destruct current; reflexivity.
  - induction current as [|c current' IHc]; [reflexivity|].
    cbn [ordered_diff].
    destruct (OrderedKey_compare (leafKey l) (leafKey c) =? 0) eqn:E.
    + apply Z.eqb_eq in E. rewrite (Hkeys l c E). apply IHl.
    + destruct (OrderedKey_compare (leafKey l) (leafKey c) <? 0).
      * unfold emit_removed. cbn [modified]. apply IHl.
      * unfold emit_added. cbn [modified]. exact IHc.
Qed.

End OrderedDiff.

Section SetDiff.

Context {K : Type} {ops : ValueOps K}.

(** [SetLeafSequence.getEqualsFn]:
    [(idx, otherIdx) => equals(this.items[idx], other.items[otherIdx])]. *)
Definition setItemEquals (a b : K) : bool := equals a b.

(** The ordered diff of two Sets, [diff(from.sequence, this.sequence)]. *)
Definition set_ordered_diff (from this : Sequence K K) : DiffResult (K := K) :=
  ordered_diff setLeafKey (fun v => v) setItemEquals (leaves from) (leaves this).

(** [Set.diff(from)]: [invariant(modified.length === 0)], then
    [[added, removed]]. *)
Definition Set_diff (this from : Sequence K K) : option (list K * list K) :=
  let d := set_ordered_diff from this in
  match modified d with
  | [] => Some (added d, removed d)
  | _ :: _ => None
  end.

Context {laws : ValueLaws K}.

(** C10.  The ordered diff of two Sets never has a modified entry, so the
    invariant of [Set.diff] holds and [diff] returns the pair
    [[added, removed]]. *)
Theorem set_diff_never_modified (a b : Sequence K K) :
  modified (set_ordered_diff a b) = [] /\
  Set_diff b a = Some (added (set_ordered_diff a b), removed (set_ordered_diff a b)).
Proof.
  assert (H : modified (set_ordered_diff a b) = []).
  { unfold set_ordered_diff. apply ordered_diff_no_modified.
    intros l c Hlc. unfold setItemEquals. apply equals_eq.
    apply newOrderedKey_compare_zero. exact Hlc. }
  split; [exact H|]. unfold Set_diff. rewrite H. reflexivity.
Qed.

End SetDiff.

Example set_diff_evaluated :
  Set_diff (LeafSequence [10; 20; 35; 50]) set_tree = Some ([35], [40]).
Proof. reflexivity. Qed.

Lemma set_diff_never_modified_witness :
  modified (set_ordered_diff set_tree (LeafSequence [10; 20; 35; 50])) = [] /\
  Set_diff (LeafSequence [10; 20; 35; 50]) set_tree
    = Some (added (set_ordered_diff set_tree (LeafSequence [10; 20; 35; 50])),
            removed (set_ordered_diff set_tree (LeafSequence [10; 20; 35; 50]))).
Proof.
  exact (@set_diff_never_modified Z NumberOps NumberLaws set_tree
           (LeafSequence [10; 20; 35; 50])).
Defined.

(** * The sequence chunker (go/types/sequence_chunker.go) *)

Module Chunker.

(** [NomsKind]: the chunker only asks whether the kind is [ListKind]. *)
Inductive NomsKind : Type := BlobKind | ListKind | MapKind | SetKind.

Definition isListKind (k : NomsKind) : bool :=
  match k with ListKind => true | _ => false end.

Section Items.

Context {Value K : Type} {ops : ValueOps K}.

(** A collection is its root sequence ([col.asSequence()]); the sequences
    and meta tuples are those of the data model above, a tuple carrying the
    collection its ref addresses ([mt.getChildSequence(vrw)]). *)
Definition Collection : Type := Sequence Value K.

Definition metaTuple : Type := MetaTuple K (Sequence Value K).

(** [sequenceItem] is an empty interface; the chunker appends values to a
    leaf chunker and meta tuples to its parents. *)
Inductive sequenceItem : Type :=
| valueItem (v : Value)
| tupleItem (mt : metaTuple).

(** [type sequenceEntry struct { count uint64; item sequenceItem }] *)
Record sequenceEntry : Type := mkEntry {
  count : Z;
  item : sequenceItem
}.

(** [makeChunkFn] *)
Definition makeChunkFn : Type :=
  Z -> list sequenceEntry -> Collection * OrderedKey K * Z.

(** The loop at the end of [Done]: from the child of a single meta tuple
    down, through meta sequences of one tuple, to the first sequence that is
    not a [metaSequence] or has more than one item.  [getItem(0)] of an
    empty meta sequence panics ([None]). *)
Fixpoint canonical_root (child : Sequence Value K) : option (Sequence Value K) :=
  match child with
  | LeafSequence _ => Some child
  | MetaSequence tuples =>
      match tuples with
      | [] => None
      | [mt] => canonical_root (mt_child mt)
      | _ :: _ :: _ => Some child
      end
  end.

End Items.

Arguments sequenceItem Value K {ops}.
Arguments sequenceEntry Value K {ops}.
Arguments makeChunkFn Value K {ops}.
Arguments Collection Value K {ops}.
Arguments metaTuple Value K {ops}.

(** What the chunker takes from the rest of the package, none of it among
    the sources: the rolling hasher ([newRollingValueHasher],
    [crossedBoundary], [Reset]), [metaHashValueBytes], the value
    [Number(count)], the ref of a collection ([WriteValue] and [NewRef]
    return it), Go's [==] on two items, and the sequence cursor.  The
    chunker holds cursors by pointer and shares the parent cursor with its
    parent chunker, so the cursor operations act on a heap of cursor
    objects. *)
Class Env (Value K : Type) {ops : ValueOps K} : Type := {
  Hasher : Type;
  newRollingValueHasher : Z -> Hasher;
  crossedBoundary : Hasher -> bool;
  Reset : Hasher -> Hasher;
  metaHashValueBytes : sequenceItem Value K -> Hasher -> Hasher;
  Number : Z -> Value;
  refOf : Collection Value K -> Hash;
  itemEq : sequenceItem Value K -> sequenceItem Value K -> bool;
  Cursor : Type;
  Heap : Type;
  cur_parent : Cursor -> Heap -> option Cursor;
  cur_idx : Cursor -> Heap -> Z;
  cur_indexInChunk : Cursor -> Heap -> Z;
  cur_valid : Cursor -> Heap -> bool;
  cur_atLastItem : Cursor -> Heap -> bool;
  cur_currentEntry : Cursor -> Heap -> option (sequenceEntry Value K);
  cur_advance : Cursor -> Heap -> option (bool * Heap);
  cur_advanceMaybeAllowPastEnd : bool -> Cursor -> Heap -> option (bool * Heap);
  cur_retreatMaybeAllowBeforeStart : bool -> Cursor -> Heap -> option (bool * Heap);
  cur_compare : Cursor -> Cursor -> Heap -> option Z;
  cur_invalidate : Cursor -> Heap -> Heap
}.

Arguments Env Value K {ops}.

Section Model.

Context {Value K : Type} {ops : ValueOps K} {env : Env Value K}.

(** [hashValueBytesFn] *)
Definition hashValueBytesFn : Type := sequenceItem Value K -> Hasher -> Hasher.

(** [type sequenceChunker struct]; the value store [vrw] is part of the
    world below. *)
Inductive sequenceChunker : Type := mkChunker {
  kind : NomsKind;
  cur : option Cursor;
  level : Z;
  parent : option sequenceChunker;
  current : list (sequenceEntry Value K);
  makeChunk : makeChunkFn Value K;
  parentMakeChunk : makeChunkFn Value K;
  isLeaf : bool;
  hashValueBytes : hashValueBytesFn;
  rv : Hasher;
  done : bool;
  unwrittenCol : option (Collection Value K)
}.

Definition set_cur (sc : sequenceChunker) (c : option Cursor) : sequenceChunker :=
  mkChunker (kind sc) c (level sc) (parent sc) (current sc) (makeChunk sc)
    (parentMakeChunk sc) (isLeaf sc) (hashValueBytes sc) (rv sc) (done sc) (unwrittenCol sc).

Definition set_parent (sc : sequenceChunker) (p : option sequenceChunker) : sequenceChunker :=
  mkChunker (kind sc) (cur sc) (level sc) p (current sc) (makeChunk sc)
    (parentMakeChunk sc) (isLeaf sc) (hashValueBytes sc) (rv sc) (done sc) (unwrittenCol sc).

Definition set_current (sc : sequenceChunker) (l : list (sequenceEntry Value K))
    : sequenceChunker :=
  mkChunker (kind sc) (cur sc) (level sc) (parent sc) l (makeChunk sc)
    (parentMakeChunk sc) (isLeaf sc) (hashValueBytes sc) (rv sc) (done sc) (unwrittenCol sc).

Definition set_isLeaf (sc : sequenceChunker) (b : bool) : sequenceChunker :=
  mkChunker (kind sc) (cur sc) (level sc) (parent sc) (current sc) (makeChunk sc)
    (parentMakeChunk sc) b (hashValueBytes sc) (rv sc) (done sc) (unwrittenCol sc).

Definition set_rv (sc : sequenceChunker) (h : Hasher) : sequenceChunker :=
  mkChunker (kind sc) (cur sc) (level sc) (parent sc) (current sc) (makeChunk sc)
    (parentMakeChunk sc) (isLeaf sc) (hashValueBytes sc) h (done sc) (unwrittenCol sc).

Definition set_done (sc : sequenceChunker) (b : bool) : sequenceChunker :=
  mkChunker (kind sc) (cur sc) (level sc) (parent sc) (current sc) (makeChunk sc)
    (parentMakeChunk sc) (isLeaf sc) (hashValueBytes sc) (rv sc) b (unwrittenCol sc).

Definition set_unwrittenCol (sc : sequenceChunker) (c : option (Collection Value K))
    : sequenceChunker :=
  mkChunker (kind sc) (cur sc) (level sc) (parent sc) (current sc) (makeChunk sc)
    (parentMakeChunk sc) (isLeaf sc) (hashValueBytes sc) (rv sc) (done sc) c.

(** The world the chunker runs in: the heap of cursor objects and the
    collections written through [vrw.WriteValue], latest first. *)
Record World : Type := mkWorld {
  heap : Heap;
  written : list (Collection Value K)
}.

(** A call returns in a new world, panics, or exhausts the fuel that
    bounds the loops and the chain of parent chunkers. *)
Inductive Outcome (A : Type) : Type :=
| Returned (a : A) (w : World)
| Panicked
| OutOfFuel.

Arguments Panicked {A}.
Arguments OutOfFuel {A}.

Definition M (A : Type) : Type := World -> Outcome A.

Definition ret {A : Type} (a : A) : M A := fun w => Returned a w.

Definition bind {A B : Type} (m : M A) (f : A -> M B) : M B :=
  fun w =>
    match m w with
    | Returned a w' => f a w'
    | Panicked => Panicked
    | OutOfFuel => OutOfFuel
    end.

Definition panic {A : Type} : M A := fun _ => Panicked.

Definition out_of_fuel {A : Type} : M A := fun _ => OutOfFuel.

(** Reading the heap, and running a cursor method that mutates it. *)
Definition read_heap {A : Type} (f : Heap -> A) : M A := fun w => Returned (f (heap w)) w.

Definition on_heap {A : Type} (f : Heap -> option (A * Heap)) : M A :=
  fun w =>
    match f (heap w) with
    | Some (a, h) => Returned a (mkWorld h (written w))
    | None => Panicked
    end.

(** [vrw.WriteValue(col)] *)
Definition WriteValue (col : Collection Value K) : M Hash :=
  fun w => Returned (refOf col) (mkWorld (heap w) (col :: written w)).


Notation "x <- m ;; k" := (bind m (fun x => k))
  (at level 61, m at next level, right associativity).

Definition uint64 (z : Z) : Z := z mod 2 ^ 64.

Definition last_entry (l : list (sequenceEntry Value K)) : option (sequenceEntry Value K) :=
  item_at l (len l - 1).

(** The methods a chunker calls on its parent chunker.  A call on a chunker
    of one level uses the methods of the level above; [fuel] bounds how far
    up a chain of calls may go. *)
Record Ops : Type := mkOps {
  op_newSequenceChunker :
    NomsKind -> option Cursor -> Z -> makeChunkFn Value K -> makeChunkFn Value K ->
    hashValueBytesFn -> M sequenceChunker;
  op_Append : sequenceChunker -> sequenceItem Value K -> M sequenceChunker;
  op_Done : sequenceChunker -> M (Sequence Value K * sequenceChunker);
  op_advanceTo : sequenceChunker -> Cursor -> M sequenceChunker
}.

Definition no_ops : Ops :=
  mkOps (fun _ _ _ _ _ _ => out_of_fuel) (fun _ _ => out_of_fuel)
        (fun _ => out_of_fuel) (fun _ _ => out_of_fuel).

(** [anyPending()] *)
Fixpoint anyPending (sc : sequenceChunker) : bool :=
  match current sc with
  | _ :: _ => true
  | [] =>
      match parent sc with
      | Some p => anyPending p
      | None => false
      end
  end.

(** [createParent()] *)
Definition createParent (P : Ops) (sc : sequenceChunker) : M sequenceChunker :=
  match parent sc with
  | Some _ => panic
  | None =>
      pcur <- match cur sc with
              | Some c => read_heap (cur_parent c)
              | None => ret None
              end ;;
      p <- op_newSequenceChunker P (kind sc) pcur (uint64 (level sc + 1))
             (parentMakeChunk sc) (parentMakeChunk sc) metaHashValueBytes ;;
      let sc1 := set_parent sc (Some (set_isLeaf p false)) in
      match unwrittenCol sc1 with
      | Some col => _ <- WriteValue col ;; ret (set_unwrittenCol sc1 None)
      | None => ret sc1
      end
  end.

(** [createSequence(write)]: the chunker with [current] cleared, the
    sequence, and the meta tuple that points to it. *)
Definition createSequence (write : bool) (sc : sequenceChunker)
    : M (sequenceChunker * Sequence Value K * metaTuple Value K) :=
  let '(col, key, numLeaves) := makeChunk sc (level sc) (current sc) in
  let sc1 := set_current sc [] in
  let mt := mkMetaTuple (refOf col) key numLeaves col in
  if write then _ <- WriteValue col ;; ret (sc1, col, mt)
  else ret (set_unwrittenCol sc1 (Some col), col, mt).

(** [handleChunkBoundary()] *)
Definition handleChunkBoundary (P : Ops) (sc : sequenceChunker) : M sequenceChunker :=
  match current sc with
  | [] => panic
  | _ :: _ =>
      let sc1 := set_rv sc (Reset (rv sc)) in
      sc2 <- match parent sc1 with
             | None => createParent P sc1
             | Some _ => ret sc1
             end ;;
      r <- createSequence true sc2 ;;
      let '(sc3, _, mt) := r in
      match parent sc3 with
      | None => panic
      | Some p => p' <- op_Append P p (tupleItem mt) ;; ret (set_parent sc3 (Some p'))
      end
  end.

(** [consumeLastEntry()] *)
Definition consumeLastEntry (P : Ops) (sc : sequenceChunker) : M (sequenceChunker * bool) :=
  match last_entry (current sc) with
  | None => panic
  | Some last =>
      let rv1 :=
        if 1 <? count last
        then hashValueBytes sc (valueItem (Number (count last))) (rv sc)
        else rv sc in
      let rv2 := hashValueBytes sc (item last) rv1 in
      let sc1 := set_rv sc rv2 in
      if crossedBoundary rv2
      then sc2 <- handleChunkBoundary P sc1 ;; ret (sc2, true)
      else ret (sc1, false)
  end.

(** [appendEntry(entry)] *)
Definition appendEntry (P : Ops) (sc : sequenceChunker) (entry : sequenceEntry Value K)
    : M (sequenceChunker * bool) :=
  consumeLastEntry P (set_current sc (current sc ++ [entry])).

(** [Append(item)] *)
Definition Append_at (P : Ops) (sc : sequenceChunker) (it : sequenceItem Value K)
    : M sequenceChunker :=
  if negb (isListKind (kind sc)) then
    r <- appendEntry P sc (mkEntry 1 it) ;; ret (fst r)
  else
    match last_entry (current sc) with
    | None => ret (set_current sc (current sc ++ [mkEntry 1 it]))
    | Some last =>
        if itemEq (item last) it
        then ret (set_current sc
                    (removelast (current sc) ++ [mkEntry (uint64 (count last + 1)) (item last)]))
        else
          r <- consumeLastEntry P sc ;;
          ret (set_current (fst r) (current (fst r) ++ [mkEntry 1 it]))
    end.

(** [Skip()] *)
Definition Skip (sc : sequenceChunker) : M sequenceChunker :=
  match cur sc with
  | None => panic
  | Some c => _ <- on_heap (cur_advance c) ;; ret sc
  end.

Definition current_entry_of (c : Cursor) : M (sequenceEntry Value K) :=
  fun w =>
    match cur_currentEntry c (heap w) with
    | Some e => Returned e w
    | None => Panicked
    end.

(** The first loop of [resume]: walk backwards to the start of the
    existing chunk. *)
Fixpoint walk_back (n : nat) (c : Cursor) : M unit :=
  match n with
  | O => out_of_fuel
  | S n' =>
      i <- read_heap (cur_indexInChunk c) ;;
      if 0 <? i then
        moved <- on_heap (cur_retreatMaybeAllowBeforeStart false c) ;;
        if moved then walk_back n' c else ret tt
      else ret tt
  end.

(** The second loop of [resume]: append the entries before [idx] again. *)
Fixpoint replay (n : nat) (P : Ops) (sc : sequenceChunker) (c : Cursor) (i0 : Z)
    : M sequenceChunker :=
  match n with
  | O => out_of_fuel
  | S n' =>
      i <- read_heap (cur_idx c) ;;
      if i <? i0 then
        e <- current_entry_of c ;;
        r <- appendEntry P sc e ;;
        _ <- on_heap (cur_advance c) ;;
        replay n' P (fst r) c i0
      else ret sc
  end.

(** [resume()] *)
Definition resume (P : Ops) (n : nat) (sc : sequenceChunker) : M sequenceChunker :=
  match cur sc with
  | None => panic
  | Some c =>
      cpar <- read_heap (cur_parent c) ;;
      sc1 <- match cpar, parent sc with
             | Some _, None => createParent P sc
             | _, _ => ret sc
             end ;;
      i0 <- read_heap (cur_idx c) ;;
      _ <- walk_back n c ;;
      replay n P sc1 c i0
  end.

(** [newSequenceChunker(kind, cur, level, vrw, makeChunk, parentMakeChunk,
    hashValueBytes)] *)
Definition newSequenceChunker_at (P : Ops) (n : nat) (kind : NomsKind) (cur : option Cursor)
    (level : Z) (makeChunk parentMakeChunk : makeChunkFn Value K)
    (hashValueBytes : hashValueBytesFn) : M sequenceChunker :=
  let sc := mkChunker kind cur level None [] makeChunk parentMakeChunk true hashValueBytes
              (newRollingValueHasher (level mod 256)) false None in
  match cur with
  | Some _ => resume P n sc
  | None => ret sc
  end.

(** The loop of [finalizeCursor]. *)
Fixpoint finalize_loop (n : nat) (P : Ops) (sc : sequenceChunker) (c : Cursor)
    : M sequenceChunker :=
  match n with
  | O => out_of_fuel
  | S n' =>
      v <- read_heap (cur_valid c) ;;
      if v then
        e <- current_entry_of c ;;
        r <- appendEntry P sc e ;;
        atLast <- (if snd r then read_heap (cur_atLastItem c) else ret false) ;;
        if atLast then ret (fst r)
        else _ <- on_heap (cur_advance c) ;; finalize_loop n' P (fst r) c
      else ret sc
  end.

(** [finalizeCursor()] *)
Definition finalizeCursor (P : Ops) (n : nat) (sc : sequenceChunker) : M sequenceChunker :=
  match cur sc with
  | None => panic
  | Some c =>
      sc1 <- finalize_loop n P sc c ;;
      cpar <- read_heap (cur_parent c) ;;
      match cpar with
      | Some p =>
          _ <- on_heap (cur_advance p) ;;
          fun w => Returned sc1 (mkWorld (cur_invalidate c (heap w)) (written w))
      | None => ret sc1
      end
  end.

(** The end of [Done]: this chunker holds every item of the top level. *)
Definition Done_root (sc : sequenceChunker) : M (Sequence Value K * sequenceChunker) :=
  if isLeaf sc || (1 <? len (current sc)) then
    r <- createSequence false sc ;;
    let '(sc1, seq, _) := r in ret (seq, sc1)
  else
    match current sc with
    | [e] =>
        match item e with
        | tupleItem mt =>
            match canonical_root (mt_child mt) with
            | Some root => ret (root, sc)
            | None => panic
            end
        | valueItem _ => panic
        end
    | _ => panic
    end.

(** The beginning of [Done]: mark the chunker done and finalize its
    cursor. *)
Definition Done_finalize (P : Ops) (n : nat) (sc : sequenceChunker) : M sequenceChunker :=
  if done sc then panic
  else
    let sc1 := set_done sc true in
    match cur sc1 with
    | Some _ => finalizeCursor P n sc1
    | None => ret sc1
    end.

(** [Done()] *)
Definition Done_at (P : Ops) (n : nat) (sc : sequenceChunker)
    : M (Sequence Value K * sequenceChunker) :=
  sc2 <- Done_finalize P n sc ;;
  match parent sc2 with
  | Some p =>
      if anyPending p then
        sc3 <- match current sc2 with
               | _ :: _ => handleChunkBoundary P sc2
               | [] => ret sc2
               end ;;
        match parent sc3 with
        | Some p3 =>
            r <- op_Done P p3 ;;
            ret (fst r, set_parent sc3 (Some (snd r)))
        | None => panic
        end
      else Done_root sc2
  | None => Done_root sc2
  end.

Definition compare_cursors (a b : Cursor) : M Z :=
  fun w =>
    match cur_compare a b (heap w) with
    | Some z => Returned z w
    | None => Panicked
    end.

(** The first loop of [advanceTo], case (2): [next] is advanced until it is
    not behind [sc.cur]. *)
Fixpoint catch_up (n : nat) (c next : Cursor) : M unit :=
  match n with
  | O => out_of_fuel
  | S n' =>
      d <- compare_cursors c next ;;
      if 0 <? d then _ <- on_heap (cur_advance next) ;; catch_up n' c next
      else ret tt
  end.

(** The second loop of [advanceTo], cases (3) and (4); returns the chunker
    and [reachedNext]. *)
Fixpoint consume_until (n : nat) (P : Ops) (sc : sequenceChunker) (c next : Cursor)
    : M (sequenceChunker * bool) :=
  match n with
  | O => out_of_fuel
  | S n' =>
      d <- compare_cursors c next ;;
      if d <? 0 then
        e <- current_entry_of c ;;
        r <- appendEntry P sc e ;;
        atLast <- (if snd r then read_heap (cur_atLastItem c) else ret false) ;;
        if atLast then
          cpar <- read_heap (cur_parent c) ;;
          match cpar with
          | Some p =>
              npar <- read_heap (cur_parent next) ;;
              match npar with
              | None => panic
              | Some np =>
                  dp <- compare_cursors p np ;;
                  _ <- on_heap (cur_advanceMaybeAllowPastEnd false p) ;;
                  fun w => Returned (fst r, negb (dp <? 0))
                             (mkWorld (cur_invalidate c (heap w)) (written w))
              end
          | None => ret (fst r, true)
          end
        else _ <- on_heap (cur_advance c) ;; consume_until n' P (fst r) c next
      else ret (sc, true)
  end.

(** [advanceTo(next)] *)
Definition advanceTo_at (P : Ops) (n : nat) (sc : sequenceChunker) (next : Cursor)
    : M sequenceChunker :=
  match cur sc with
  | None => panic
  | Some c =>
      _ <- catch_up n c next ;;
      r <- consume_until n P sc c next ;;
      let '(sc1, reachedNext) := r in
      npar <- read_heap (cur_parent next) ;;
      sc2 <- match parent sc1, npar with
             | Some p, Some np =>
                 p' <- op_advanceTo P p np ;; ret (set_parent sc1 (Some p'))
             | _, _ => ret sc1
             end ;;
      let sc3 := set_cur sc2 (Some next) in
      if reachedNext then ret sc3 else resume P n sc3
  end.

(** The methods with [fuel] levels of parents above. *)
Fixpoint ops_at (fuel : nat) : Ops :=
  match fuel with
  | O => no_ops
  | S n =>
      let P := ops_at n in
      mkOps (newSequenceChunker_at P n) (Append_at P) (Done_at P n) (advanceTo_at P n)
  end.

Definition newSequenceChunker (fuel : nat) := op_newSequenceChunker (ops_at (S fuel)).

(** [newEmptySequenceChunker(kind, vrw, makeChunk, parentMakeChunk,
    hashValueBytes)] *)
Definition newEmptySequenceChunker (fuel : nat) (kind : NomsKind)
    (makeChunk parentMakeChunk : makeChunkFn Value K) (hashValueBytes : hashValueBytesFn)
    : M sequenceChunker :=
  newSequenceChunker fuel kind None 0 makeChunk parentMakeChunk hashValueBytes.

Definition Append (fuel : nat) := op_Append (ops_at (S fuel)).

Definition Done (fuel : nat) := op_Done (ops_at (S fuel)).

Definition advanceTo (fuel : nat) := op_advanceTo (ops_at (S fuel)).






End Model.

Arguments Panicked {Value K ops env A}.
Arguments OutOfFuel {Value K ops env A}.

Notation "x <- m ;; k" := (bind m (fun x => k))
  (at level 61, m at next level, right associativity).


(** ** A concrete environment

    The instance on which the chunker is run below: values are numbers, the
    cursor is the cursor of the specification on a heap of cursor objects,
    and the rolling hasher is given by its boundary predicate. *)

(** *** Cursors on a heap *)

(** A cursor object: [parent], [seq] (nil once invalidated) and [idx]. *)
Record cursorObject : Type := mkCursorObject {
  co_parent : option nat;
  co_seq : option (Sequence Z Z);
  co_idx : Z
}.

Definition CursorHeap : Type := list cursorObject.

Definition co_length (o : cursorObject) : Z :=
  match co_seq o with
  | Some s => seq_length s
  | None => 0
  end.

Definition heap_set (h : CursorHeap) (p : nat) (o : cursorObject) : CursorHeap :=
  firstn p h ++ o :: skipn (S p) h.

Definition co_set_idx (o : cursorObject) (i : Z) : cursorObject :=
  mkCursorObject (co_parent o) (co_seq o) i.

(** [sync()]: the sequence of the cursor becomes the child of its parent at
    the parent's index. *)
Definition h_sync (p : nat) (h : CursorHeap) : option CursorHeap :=
  match nth_error h p with
  | None => None
  | Some o =>
      match co_parent o with
      | None => None
      | Some q =>
          match nth_error h q with
          | None => None
          | Some po =>
              match co_seq po with
              | None => None
              | Some ps =>
                  match getChildSequence ps (co_idx po) with
                  | Some (Some child) =>
                      Some (heap_set h p (mkCursorObject (Some q) (Some child) (co_idx o)))
                  | _ => None
                  end
              end
          end
      end
  end.

(** Modelled from the spec: [sequence_cursor.go] is not among the sources.
    [advance]: if there is room in the chunk, increment and return true;
    else advance the parent, and on success sync and set [idx = 0]; on
    failure move to the past-end sentinel [idx = length] when allowed and
    return false.  [fuel] bounds the chain of parents. *)
Fixpoint h_advanceMaybeAllowPastEnd (fuel : nat) (allowPastEnd : bool) (p : nat)
    (h : CursorHeap) : option (bool * CursorHeap) :=
  match fuel with
  | O => None
  | S fuel' =>
      match nth_error h p with
      | None => None
      | Some o =>
          if co_idx o <? co_length o - 1
          then Some (true, heap_set h p (co_set_idx o (co_idx o + 1)))
          else if co_idx o =? co_length o then Some (false, h)
          else
            let past := if allowPastEnd
                        then heap_set h p (co_set_idx o (co_idx o + 1)) else h in
            match co_parent o with
            | None => Some (false, past)
            | Some q =>
                match h_advanceMaybeAllowPastEnd fuel' false q h with
                | None => None
                | Some (true, h1) =>
                    match h_sync p h1 with
                    | None => None
                    | Some h2 =>
                        match nth_error h2 p with
                        | None => None
                        | Some o2 => Some (true, heap_set h2 p (co_set_idx o2 0))
                        end
                    end
                | Some (false, _) => Some (false, past)
                end
            end
      end
  end.

(** Modelled from the spec: [retreat] is symmetric, with the before-start
    sentinel [idx = -1]. *)
Fixpoint h_retreatMaybeAllowBeforeStart (fuel : nat) (allowBeforeStart : bool) (p : nat)
    (h : CursorHeap) : option (bool * CursorHeap) :=
  match fuel with
  | O => None
  | S fuel' =>
      match nth_error h p with
      | None => None
      | Some o =>
          if 0 <? co_idx o
          then Some (true, heap_set h p (co_set_idx o (co_idx o - 1)))
          else if co_idx o =? -1 then Some (false, h)
          else if negb (co_idx o =? 0) then None
          else
            let before := if allowBeforeStart
                          then heap_set h p (co_set_idx o (co_idx o - 1)) else h in
            match co_parent o with
            | None => Some (false, before)
            | Some q =>
                match h_retreatMaybeAllowBeforeStart fuel' false q h with
                | None => None
                | Some (true, h1) =>
                    match h_sync p h1 with
                    | None => None
                    | Some h2 =>
                        match nth_error h2 p with
                        | None => None
                        | Some o2 => Some (true, heap_set h2 p (co_set_idx o2 (co_length o2 - 1)))
                        end
                    end
                | Some (false, _) => Some (false, before)
                end
            end
      end
  end.

(** Modelled from the spec: the order of two cursors of the same tree, the
    parents first, then the indices. *)
Fixpoint h_compare (fuel : nat) (a b : nat) (h : CursorHeap) : option Z :=
  match fuel with
  | O => None
  | S fuel' =>
      match nth_error h a, nth_error h b with
      | Some oa, Some ob =>
          let here := Some (co_idx oa - co_idx ob) in
          match co_parent oa with
          | None => here
          | Some pa =>
              match co_parent ob with
              | None => None
              | Some pb =>
                  match h_compare fuel' pa pb h with
                  | Some 0 => here
                  | other => other
                  end
              end
          end
      | _, _ => None
      end
  end.

Definition h_read {A : Type} (default : A) (f : cursorObject -> A) (p : nat) (h : CursorHeap)
    : A :=
  match nth_error h p with
  | Some o => f o
  | None => default
  end.

(** Modelled from the spec: the entry under the cursor, a single
    occurrence of the item at [idx]. *)
Definition h_currentEntry (p : nat) (h : CursorHeap) : option (sequenceEntry Z Z) :=
  match nth_error h p with
  | None => None
  | Some o =>
      match co_seq o with
      | Some (LeafSequence items) => option_map (fun v => mkEntry 1 (valueItem v)) (item_at items (co_idx o))
      | Some (MetaSequence tuples) => option_map (fun mt => mkEntry 1 (tupleItem mt)) (item_at tuples (co_idx o))
      | None => None
      end
  end.

Definition h_invalidate (p : nat) (h : CursorHeap) : CursorHeap :=
  match nth_error h p with
  | Some o => heap_set h p (mkCursorObject None None (co_idx o))
  | None => h
  end.

(** Puts a cursor of the data model, with its parents, on the heap and
    returns its address. *)
Fixpoint alloc_cursor (c : SequenceCursor Z Z) (h : CursorHeap) : nat * CursorHeap :=
  match c with
  | mkCursor par s i =>
      match par with
      | None => (Datatypes.length h, h ++ [mkCursorObject None (Some s) i])
      | Some p =>
          let (q, h1) := alloc_cursor p h in
          (Datatypes.length h1, h1 ++ [mkCursorObject (Some q) (Some s) i])
      end
  end.

(** *** Rolling hashers

    The hasher of the specification decides a boundary from the seed of its
    level and the bytes hashed since the last [Reset] (a hasher with a
    window, from the last of them).  The state kept here is that seed and
    those bytes; the decision itself, [boundary], is a parameter. *)

Record streamHasher : Type := mkStreamHasher {
  salt : Z;
  hashed : list Z
}.

Definition stream_new (salt : Z) : streamHasher := mkStreamHasher salt [].

Definition stream_hashByte (b : Z) (h : streamHasher) : streamHasher :=
  mkStreamHasher (salt h) (hashed h ++ [b]).

Definition stream_reset (h : streamHasher) : streamHasher := mkStreamHasher (salt h) [].

Definition key_number (k : OrderedKey Z) : Z :=
  match k with
  | ByValue v => v
  | ByHash _ h => h
  end.

(** [hashValueBytes] and [metaHashValueBytes]: a number is one byte; a meta
    tuple is its ref followed by its key. *)
Definition stream_hashValueBytes (it : sequenceItem Z Z) (h : streamHasher) : streamHasher :=
  match it with
  | valueItem v => stream_hashByte v h
  | tupleItem mt => stream_hashByte (key_number (mt_key mt)) (stream_hashByte (mt_ref mt) h)
  end.

Definition sum_list (l : list Z) : Z := fold_right Z.add 0 l.

(** The ref of a collection: a number that tells the collections of the
    scenarios apart. *)
Definition content_ref (col : Collection Z Z) : Z :=
  sum_list (leaves col) + 1000 * len (leaves col).

(** Go's [==] on two items. *)
Definition item_equal (a b : sequenceItem Z Z) : bool :=
  match a, b with
  | valueItem x, valueItem y => x =? y
  | tupleItem x, tupleItem y =>
      (mt_ref x =? mt_ref y) && (key_number (mt_key x) =? key_number (mt_key y))
      && (mt_numLeaves x =? mt_numLeaves y)
  | _, _ => false
  end.

Definition streamEnv (boundary : Z -> list Z -> bool) : Env Z Z := {|
  Hasher := streamHasher;
  newRollingValueHasher := stream_new;
  crossedBoundary := fun h => boundary (salt h) (hashed h);
  Reset := stream_reset;
  metaHashValueBytes := stream_hashValueBytes;
  Number := fun n => n;
  refOf := content_ref;
  itemEq := item_equal;
  Cursor := nat;
  Heap := CursorHeap;
  cur_parent := h_read None co_parent;
  cur_idx := h_read 0 co_idx;
  cur_indexInChunk := h_read 0 co_idx;
  cur_valid := h_read false (fun o => (0 <=? co_idx o) && (co_idx o <? co_length o));
  cur_atLastItem := h_read false (fun o => co_idx o =? co_length o - 1);
  cur_currentEntry := h_currentEntry;
  cur_advance := fun p h => h_advanceMaybeAllowPastEnd (S (Datatypes.length h)) true p h;
  cur_advanceMaybeAllowPastEnd :=
    fun allow p h => h_advanceMaybeAllowPastEnd (S (Datatypes.length h)) allow p h;
  cur_retreatMaybeAllowBeforeStart :=
    fun allow p h => h_retreatMaybeAllowBeforeStart (S (Datatypes.length h)) allow p h;
  cur_compare := fun a b h => h_compare (S (Datatypes.length h)) a b h;
  cur_invalidate := h_invalidate
|}.

(** A boundary predicate with a window of two bytes: the boundary is
    crossed, and stays crossed until the reset, when the last two bytes,
    seeded, match a pattern. *)
Fixpoint window_crossed (salt w1 : Z) (bytes : list Z) : bool :=
  match bytes with
  | [] => false
  | b :: rest =>
      let w2 := (b + salt) mod 256 in
      ((w1 + 2 * w2) mod 8 =? 5) || window_crossed salt w2 rest
  end.

Definition window_boundary (salt : Z) (bytes : list Z) : bool := window_crossed salt 0 bytes.

(** *** The chunk functions of List and Set

    [makeChunk] and [parentMakeChunk] as [list.js], [set.js] and
    [meta-sequence.js] define them: a list leaf has the key and the leaf
    count [items.length]; an indexed meta chunk has the sum of the keys of
    its tuples for both; a set leaf has its last item for key; an ordered
    meta chunk has the key of its last tuple and the sum of the leaf
    counts.  An entry of count [n] stands for [n] occurrences of its
    item. *)

Definition entry_values (e : sequenceEntry Z Z) : list Z :=
  match item e with
  | valueItem v => repeat v (Z.to_nat (count e))
  | tupleItem _ => []
  end.

Definition entry_tuples (e : sequenceEntry Z Z) : list (metaTuple Z Z) :=
  match item e with
  | valueItem _ => []
  | tupleItem mt => repeat mt (Z.to_nat (count e))
  end.

Definition listLeafChunk : makeChunkFn Z Z :=
  fun _ entries =>
    let items := flat_map entry_values entries in
    (LeafSequence items, ByValue (len items), len items).

Definition indexedMetaChunk : makeChunkFn Z Z :=
  fun _ entries =>
    let tuples := flat_map entry_tuples entries in
    let sum := sum_list (map (fun mt => key_number (mt_key mt)) tuples) in
    (MetaSequence tuples, ByValue sum, sum).

Definition setLeafChunk : makeChunkFn Z Z :=
  fun _ entries =>
    let items := flat_map entry_values entries in
    (LeafSequence items, ByValue (last items 0), len items).

Definition orderedMetaChunk : makeChunkFn Z Z :=
  fun _ entries =>
    let tuples := flat_map entry_tuples entries in
    (MetaSequence tuples,
     match last_entry entries with
     | Some e => match item e with tupleItem mt => mt_key mt | valueItem _ => ByValue 0 end
     | None => ByValue 0
     end,
     sum_list (map (fun mt => mt_numLeaves mt) tuples)).

(** *** Two ways to build a collection *)

Section Histories.

Variable boundary : Z -> list Z -> bool.

Let env : Env Z Z := streamEnv boundary.
Let Chunker : Type := sequenceChunker (env := env).
Let Run : Type := M (env := env) (Sequence Z Z * Chunker).

Fixpoint append_all (fuel : nat) (sc : Chunker) (items : list Z) : M (env := env) Chunker :=
  match items with
  | [] => ret sc
  | v :: rest => sc1 <- Append (env := env) fuel sc (valueItem v) ;; append_all fuel sc1 rest
  end.

Fixpoint skip_n (n : nat) (sc : Chunker) : M (env := env) Chunker :=
  match n with
  | O => ret sc
  | S n' => sc1 <- Skip (env := env) sc ;; skip_n n' sc1
  end.

(** Bulk construction: a new chunker, every item appended, [Done]. *)
Definition build (fuel : nat) (kind : NomsKind) (mk pmk : makeChunkFn Z Z) (items : list Z)
    : Run :=
  sc <- newEmptySequenceChunker (env := env) fuel kind mk pmk stream_hashValueBytes ;;
  sc1 <- append_all fuel sc items ;;
  Done (env := env) fuel sc1.

(** Modelled from the spec: [chunkSequence] (4.6) is not among the sources.
    Create a chunker with the cursor, append each item to insert, skip
    [remove] items on the cursor, call [Done]. *)
Definition chunkSequence (fuel : nat) (kind : NomsKind) (mk pmk : makeChunkFn Z Z)
    (cursor : SequenceCursor Z Z) (insert : list Z) (remove : nat)
    : Run :=
  fun w =>
    let (p, h) := alloc_cursor cursor (heap w) in
    (sc <- newSequenceChunker (env := env) fuel kind (Some p) 0 mk pmk
             stream_hashValueBytes ;;
     sc1 <- append_all fuel sc insert ;;
     sc2 <- skip_n remove sc1 ;;
     Done (env := env) fuel sc2) (mkWorld (env := env) h (written w)).

Definition empty_world : World (env := env) := mkWorld (env := env) [] [].

(** The root a run returns. *)
Definition root_of (o : Outcome (env := env) (Sequence Z Z * Chunker))
    : option (Sequence Z Z) :=
  match o with
  | Returned (root, _) _ => Some root
  | _ => None
  end.

(** The collections a run wrote to the store, in the order written. *)
Definition chunks_of (o : Outcome (env := env) (Sequence Z Z * Chunker))
    : list (Sequence Z Z) :=
  match o with
  | Returned _ w => rev (written w)
  | _ => []
  end.

(** The runs below have fuel for trees of a hundred levels and chunks of a
    hundred items. *)
Definition run_fuel : nat := 100.

(** A List of [items] by bulk construction, and by a splice at a cursor of
    an existing tree. *)
Definition list_new (items : list Z) : Run :=
  build run_fuel ListKind listLeafChunk indexedMetaChunk items.

Definition list_splice (cursor : SequenceCursor Z Z) (insert : list Z) (remove : nat) : Run :=
  chunkSequence run_fuel ListKind listLeafChunk indexedMetaChunk cursor insert remove.

(** The same for a Set; [items] are in order and distinct. *)
Definition set_new (items : list Z) : Run :=
  build run_fuel SetKind setLeafChunk orderedMetaChunk items.

Definition set_splice (cursor : SequenceCursor Z Z) (insert : list Z) (remove : nat) : Run :=
  chunkSequence run_fuel SetKind setLeafChunk orderedMetaChunk cursor insert remove.

(** The Set a mutation of [set.js] returns, the chunker run where the
    method calls [chunkSequence]. *)
Definition set_mutated (s : Sequence Z Z) (m : option (Mutation Z)) : option (Sequence Z Z) :=
  match m with
  | None => None
  | Some ReturnThis => Some s
  | Some (Splice cursor insert remove) =>
      root_of (set_splice cursor insert (Z.to_nat remove) empty_world)
  end.

End Histories.

Arguments build : clear implicits.
Arguments chunkSequence : clear implicits.
Arguments set_mutated : clear implicits.
Arguments list_new : clear implicits.
Arguments list_splice : clear implicits.
Arguments set_new : clear implicits.
Arguments set_splice : clear implicits.

(** ** The root [Done] returns, on a chunker that holds one meta tuple *)

(** A non-leaf chunker of level 2 whose buffer holds one tuple, over a meta
    sequence of one tuple, over the leaf [[1; 2]]. *)
Definition tuple_over (child : Sequence Z Z) : metaTuple Z Z :=
  mkMetaTuple (content_ref child) (ByValue 2) 2 child.

Definition chunker_of_one_tuple : sequenceChunker (env := streamEnv window_boundary) :=
  mkChunker (env := streamEnv window_boundary) ListKind None 2 None
    [mkEntry 1 (tupleItem (tuple_over (MetaSequence [tuple_over (LeafSequence [1; 2])])))]
    indexedMetaChunk indexedMetaChunk false stream_hashValueBytes (stream_new 2) false None.


(** ** History independence *)

(** A boundary predicate that decides the streams of a table as the table
    says, and every other stream as [boundary] does. *)
Fixpoint stream_eqb (a b : list Z) : bool :=
  match a, b with
  | [], [] => true
  | x :: a', y :: b' => (x =? y) && stream_eqb a' b'
  | _, _ => false
  end.

Fixpoint decided (table : list (Z * list Z * bool)) (salt : Z) (bytes : list Z) : option bool :=
  match table with
  | [] => None
  | (s, l, v) :: rest =>
      if (s =? salt) && stream_eqb l bytes then Some v else decided rest salt bytes
  end.

Definition with_decisions (table : list (Z * list Z * bool)) (boundary : Z -> list Z -> bool)
    : Z -> list Z -> bool :=
  fun salt bytes =>
    match decided table salt bytes with
    | Some v => v
    | None => boundary salt bytes
    end.

Lemma stream_eqb_eq (a b : list Z) : stream_eqb a b = true -> a = b.
Proof.
  revert b. induction a as [|x a IH]; intros [|y b]; simpl; try discriminate; [reflexivity|].
  intros H. apply andb_true_iff in H as [Hx Hl].
  apply Z.eqb_eq in Hx. subst y. f_equal. apply IH. exact Hl.
Qed.

(** A predicate that agrees with the table is the predicate the table
    gives. *)
Lemma with_decisions_agree (table : list (Z * list Z * bool)) (boundary : Z -> list Z -> bool) :
  Forall (fun e => boundary (fst (fst e)) (snd (fst e)) = snd e) table ->
  with_decisions table boundary = boundary.
Proof.
  intros Hall. apply functional_extensionality. intros salt.
  apply functional_extensionality. intros bytes. unfold with_decisions.
  induction Hall as [|[[s l] v] rest He _ IH]; [reflexivity|].
  simpl. destruct ((s =? salt) && stream_eqb l bytes) eqn:E; [|exact IH].
  apply andb_true_iff in E as [Es El]. apply Z.eqb_eq in Es.
  apply stream_eqb_eq in El. subst. symmetry. exact He.
Qed.

(** The decisions the two histories of the List [[1; 2; 3]] consult. *)
Definition list_decisions : list (Z * list Z * bool) :=
  [ (0, [1], false); (0, [1; 2], true); (0, [1; 1], false); (0, [1; 1; 3], false);
    (1, [content_ref (LeafSequence [1; 2]); 2], false) ].

(** A cursor on index 1 of the List [[1; 3]]. *)
Definition cursor_on_3 : SequenceCursor Z Z := mkCursor None (LeafSequence [1; 3]) 1.

Definition tree_12_3 : Sequence Z Z :=
  MetaSequence [ mkMetaTuple (content_ref (LeafSequence [1; 2])) (ByValue 2) 2 (LeafSequence [1; 2]);
                 mkMetaTuple (content_ref (LeafSequence [3])) (ByValue 1) 1 (LeafSequence [3]) ].

Lemma list_runs_decided (boundary : Z -> list Z -> bool) :
  let b := with_decisions list_decisions boundary in
  root_of (list_new b [1; 3] (empty_world b)) = Some (LeafSequence [1; 3]) /\
  root_of (list_new b [1; 2; 3] (empty_world b)) = Some tree_12_3 /\
  chunks_of (list_new b [1; 2; 3] (empty_world b)) = [LeafSequence [1; 2]; LeafSequence [3]] /\
  root_of (list_splice b cursor_on_3 [2] 0 (empty_world b)) = Some (LeafSequence [1; 2; 3]) /\
  chunks_of (list_splice b cursor_on_3 [2] 0 (empty_world b)) = [].
Proof. vm_compute. repeat split. Qed.

(** C1.  The chunker is not history independent for Lists.  Take any rolling
    hasher that, at the leaf level, crosses a boundary after the bytes of
    [1; 2] and none after [1], [1; 1] and [1; 1; 3] (and none at level 1
    after the first meta tuple).  Bulk construction of [[1; 2; 3]] returns a
    meta sequence over the chunks [[1; 2]] and [[3]], both written to the
    store.  The splice that inserts [2] at index 1 of the List [[1; 3]]
    (itself the bulk construction of [[1; 3]]) returns the single leaf
    [[1; 2; 3]] and writes nothing: [resume] hashes the replayed item [1]
    at once, [Append] then hashes that last entry a second time, and the
    appended [2] is never hashed.  Same leaf items, two trees. *)
Theorem list_histories_diverge (boundary : Z -> list Z -> bool) :
  boundary 0 [1] = false -> boundary 0 [1; 2] = true ->
  boundary 0 [1; 1] = false -> boundary 0 [1; 1; 3] = false ->
  boundary 1 [content_ref (LeafSequence [1; 2]); 2] = false ->
  let bulk := list_new boundary [1; 2; 3] (empty_world boundary) in
  let spliced := list_splice boundary cursor_on_3 [2] 0 (empty_world boundary) in
  root_of (list_new boundary [1; 3] (empty_world boundary)) = Some (LeafSequence [1; 3]) /\
  root_of bulk = Some tree_12_3 /\
  chunks_of bulk = [LeafSequence [1; 2]; LeafSequence [3]] /\
  root_of spliced = Some (LeafSequence [1; 2; 3]) /\
  chunks_of spliced = [] /\
  leaves tree_12_3 = leaves (LeafSequence [1; 2; 3]) /\
  root_of bulk <> root_of spliced.
Proof.
  intros H1 H2 H3 H4 H5 bulk spliced. subst bulk spliced.
  rewrite <- (@with_decisions_agree list_decisions boundary)
    by (repeat constructor; assumption).
  destruct (list_runs_decided boundary) as (Ha & Hb & Hc & Hd & He).
  cbv zeta in Ha, Hb, Hc, Hd, He.
  rewrite Ha, Hb, Hc, Hd, He.
  repeat split. discriminate.
Qed.

Lemma list_histories_diverge_witness :
  root_of (list_new window_boundary [1; 2; 3] (empty_world window_boundary))
  <> root_of (list_splice window_boundary cursor_on_3 [2] 0 (empty_world window_boundary)).
Proof.
  apply (@list_histories_diverge window_boundary); reflexivity.
Defined.

(** The same two histories for a Set take the other branch of [Append],
    which hashes every entry once, when it enters the buffer: they return
    the same tree. *)
Definition set_decisions : list (Z * list Z * bool) :=
  [ (0, [1], false); (0, [1; 3], false); (0, [1; 2], true); (0, [3], false);
    (1, [content_ref (LeafSequence [1; 2]); 2], false);
    (1, [content_ref (LeafSequence [1; 2]); 2; content_ref (LeafSequence [3]); 3], false) ].

Definition set_tree_12_3 : Sequence Z Z :=
  MetaSequence [ mkMetaTuple (content_ref (LeafSequence [1; 2])) (ByValue 2) 2 (LeafSequence [1; 2]);
                 mkMetaTuple (content_ref (LeafSequence [3])) (ByValue 3) 1 (LeafSequence [3]) ].

Lemma set_runs_decided (boundary : Z -> list Z -> bool) :
  let b := with_decisions set_decisions boundary in
  root_of (set_new b [1; 3] (empty_world b)) = Some (LeafSequence [1; 3]) /\
  root_of (set_new b [1; 2; 3] (empty_world b)) = Some set_tree_12_3 /\
  root_of (set_splice b cursor_on_3 [2] 0 (empty_world b)) = Some set_tree_12_3.
Proof. vm_compute. repeat split. Qed.

Lemma set_histories_agree (boundary : Z -> list Z -> bool) :
  Forall (fun e => boundary (fst (fst e)) (snd (fst e)) = snd e) set_decisions ->
  root_of (set_new boundary [1; 3] (empty_world boundary)) = Some (LeafSequence [1; 3]) /\
  root_of (set_splice boundary cursor_on_3 [2] 0 (empty_world boundary))
  = root_of (set_new boundary [1; 2; 3] (empty_world boundary)).
Proof.
  intros Hall. rewrite <- (@with_decisions_agree set_decisions boundary Hall).
  destruct (set_runs_decided boundary) as (Ha & Hb & Hc).
  cbv zeta in Ha, Hb, Hc. rewrite Ha, Hb, Hc. split; reflexivity.
Qed.

(** With the hasher of a window of two bytes, on the items [1 .. 40]:
    [Set.add] of any one item to the Set of the others, and [Set.delete] of
    any one item of the Set of all, return the tree of bulk construction. *)
Definition numbers (n : nat) : list Z := map Z.of_nat (seq 1 n).

Definition without (i : nat) (l : list Z) : list Z := firstn i l ++ skipn (S i) l.

Definition set_root (items : list Z) : option (Sequence Z Z) :=
  root_of (set_new window_boundary items (empty_world window_boundary)).

Definition set_add_back (items : list Z) (i : nat) : option (Sequence Z Z) :=
  match set_root (without i items) with
  | Some s => set_mutated window_boundary s (Set_add s (nth i items 0))
  | None => None
  end.

Definition set_delete_one (items : list Z) (i : nat) : option (Sequence Z Z) :=
  match set_root items with
  | Some s => set_mutated window_boundary s (Set_delete s (nth i items 0))
  | None => None
  end.

Example set_add_any :
  Forall (fun i => set_add_back (numbers 40) i = set_root (numbers 40)) (seq 0 40).
Proof. repeat (constructor; [vm_compute; reflexivity|]). constructor. Qed.

Example set_delete_any :
  Forall (fun i => set_delete_one (numbers 40) i = set_root (without i (numbers 40)))
    (seq 0 40).
Proof. repeat (constructor; [vm_compute; reflexivity|]). constructor. Qed.

End Chunker.

(** * Walking a tree with a cursor (sequence-cursor.js) *)

Section Traversal.

Context {T K : Type} {ops : ValueOps K}.

(** A tree of [n] levels whose chunks below the root are not empty, as
    [handleChunkBoundary] only makes chunks of a non-empty buffer. *)
Fixpoint shaped (n : nat) (s : Sequence T K) : Prop :=
  match n with
  | O => False
  | S m =>
      match s with
      | LeafSequence _ => m = O
      | MetaSequence items =>
          m <> O /\ items <> [] /\
          Forall (fun mt => 0 < seq_length (mt_child mt) /\ shaped m (mt_child mt)) items
      end
  end.

(** A cursor of level [n] (1 at the leaves) in such a tree: the sequence of
    every cursor is the child its parent stands on. *)
Fixpoint cursor_ok (n : nat) (c : SequenceCursor T K) : Prop :=
  match parent c with
  | None => shaped n (sequence c)
  | Some p => cursor_getChildSequence p = Some (Some (sequence c)) /\ cursor_ok (S n) p
  end.

(** The leaves below the items of a sequence from index [i] on. *)
Definition leaves_from (s : Sequence T K) (i : Z) : list T :=
  match s with
  | LeafSequence items => skipn (Z.to_nat i) items
  | MetaSequence items => leaves_of_tuples (skipn (Z.to_nat i) items)
  end.

(** The leaves of the tree after the chunk of the cursor. *)
Fixpoint outside (c : SequenceCursor T K) : list T :=
  match parent c with
  | None => []
  | Some p => leaves_from (sequence p) (idx p + 1) ++ outside p
  end.

(** The leaves of the tree from the cursor on, and those after it. *)
Definition remaining (c : SequenceCursor T K) : list T :=
  leaves_from (sequence c) (idx c) ++ outside c.

Definition following (c : SequenceCursor T K) : list T :=
  leaves_from (sequence c) (idx c + 1) ++ outside c.

(** The leaves of the tree before the chunk of the cursor, and before the
    cursor. *)
Definition leaves_upto (s : Sequence T K) (i : Z) : list T :=
  match s with
  | LeafSequence items => firstn (Z.to_nat i) items
  | MetaSequence items => leaves_of_tuples (firstn (Z.to_nat i) items)
  end.

Fixpoint before_chunk (c : SequenceCursor T K) : list T :=
  match parent c with
  | None => []
  | Some p => before_chunk p ++ leaves_upto (sequence p) (idx p)
  end.

Definition preceding (c : SequenceCursor T K) : list T :=
  before_chunk c ++ leaves_upto (sequence c) (idx c).

(** [iter(cb)]: the callback gets each item with a running index and may
    stop the loop; its effect is a state [S] it threads.  [fuel] bounds
    the number of turns of the loop. *)
Fixpoint iter {St : Type} (fuel : nat) (cb : St -> T -> Z -> St * bool)
    (c : SequenceCursor T K) (i : Z) (st : St) : option (SequenceCursor T K * St) :=
  match fuel with
  | O => None
  | S fuel' =>
      if valid c then
        match sequence c with
        | MetaSequence _ => None
        | LeafSequence items =>
            match item_at items (idx c) with
            | None => None
            | Some x =>
                let (st1, stop) := cb st x i in
                if stop then Some (c, st1)
                else
                  let (moved, c1) := advanceLocal false c in
                  if moved then iter fuel' cb c1 (i + 1) st1
                  else
                    match advance c1 with
                    | Some (_, c2) => iter fuel' cb c2 (i + 1) st1
                    | None => None
                    end
            end
        end
      else Some (c, st)
  end.

(** What [iter] does to the state of the callback on the items [l]. *)
Fixpoint visit {St : Type} (cb : St -> T -> Z -> St * bool) (l : list T) (i : Z) (st : St)
    : St :=
  match l with
  | [] => st
  | x :: rest =>
      let (st1, stop) := cb st x i in
      if stop then st1 else visit cb rest (i + 1) st1
  end.

Lemma shaped_pos (n : nat) (s : Sequence T K) : shaped n s -> (1 <= n)%nat.
Proof. destruct n; simpl; [tauto | lia]. Qed.

Lemma shaped_meta (n : nat) (s : Sequence T K) :
  shaped n s -> (2 <= n)%nat -> isMeta s = true.
Proof.
  destruct n as [|n]; simpl; [tauto|]. destruct s; [lia | reflexivity].
Qed.

Lemma shaped_child (n : nat) (s : Sequence T K) (j : Z) :
  shaped (S n) s -> (1 <= n)%nat -> 0 <= j < seq_length s ->
  exists child,
    getChildSequence s j = Some (Some child) /\ shaped n child /\ 0 < seq_length child.
Proof.
  intros Hs Hn Hj. simpl in Hs. destruct s as [items|items]; [lia|].
  destruct Hs as (_ & _ & Hall). simpl in Hj |- *.
  destruct (item_at_Some items Hj) as [mt Hmt]. rewrite Hmt.
  exists (mt_child mt). split; [reflexivity|].
  rewrite Forall_forall in Hall.
  destruct (Hall mt) as [Hlen Hch]; [eapply item_at_In; eauto|]. auto.
Qed.

Lemma getChildSequence_range (s child : Sequence T K) (j : Z) :
  getChildSequence s j = Some (Some child) ->
  exists items mt,
    s = MetaSequence items /\ 0 <= j < len items /\
    nth_error items (Z.to_nat j) = Some mt /\ mt_child mt = child.
Proof.
  destruct s as [items|items]; simpl; [discriminate|].
  destruct (item_at items j) as [mt|] eqn:E; [|discriminate].
  intros H. injection H as <-. exists items, mt. split; [reflexivity|].
  split; [eapply item_at_range; eauto|]. split; [|reflexivity].
  unfold item_at in E. destruct (j <? 0); [discriminate | exact E].
Qed.

Lemma cursor_ok_shaped :
  forall (c : SequenceCursor T K) (n : nat), cursor_ok n c -> shaped n (sequence c).
Proof.
  fix IH 1. intros [par s i] n. cbn [cursor_ok parent sequence].
  destruct par as [p|]; [|auto].
  intros [Hchild Hp]. specialize (IH p (S n) Hp).
  destruct (getChildSequence_range _ _ Hchild) as (items & mt & Hs & Hj & Hnth & Hmt).
  rewrite Hs in IH. simpl in IH. destruct IH as (Hn & _ & Hall).
  rewrite Forall_forall in Hall. destruct (Hall mt (nth_error_In _ _ Hnth)) as [_ H].
  rewrite Hmt in H. exact H.
Qed.

Lemma cursor_ok_nonempty (c p : SequenceCursor T K) (n : nat) :
  cursor_ok n c -> parent c = Some p -> 0 < length c.
Proof.
  destruct c as [par s i]. cbn [cursor_ok parent sequence]. intros H ->.
  destruct H as [Hchild Hp]. pose proof (cursor_ok_shaped _ _ Hp) as Hs.
  destruct (getChildSequence_range _ _ Hchild) as (items & mt & Es & Hj & Hnth & Hmt).
  rewrite Es in Hs. simpl in Hs. destruct Hs as (_ & _ & Hall).
  rewrite Forall_forall in Hall. destruct (Hall mt (nth_error_In _ _ Hnth)) as [H _].
  unfold length. cbn [sequence]. rewrite <- Hmt. exact H.
Qed.

Lemma leaves_from_end (s : Sequence T K) (i : Z) :
  seq_length s <= i -> leaves_from s i = [].
Proof.
  destruct s as [items|items]; simpl; unfold len; intros H;
    rewrite skipn_all2 by lia; reflexivity.
Qed.

Lemma leaves_from_child (s child : Sequence T K) (j : Z) :
  getChildSequence s j = Some (Some child) ->
  leaves_from s j = leaves child ++ leaves_from s (j + 1).
Proof.
  intros H. destruct (getChildSequence_range _ _ H) as (items & mt & -> & Hj & Hnth & <-).
  simpl. destruct (@skipn_next _ items (Z.to_nat j)) as [x Hx]; [unfold len in Hj; lia|].
  rewrite Hx. replace (Z.to_nat (j + 1)) with (S (Z.to_nat j)) by lia.
  rewrite <- (Nat.add_0_r (Z.to_nat j)) in Hnth.
  rewrite <- nth_error_after_skipn, Hx in Hnth. simpl in Hnth. injection Hnth as ->.
  reflexivity.
Qed.

Lemma leaves_from_item (items : list T) (i : Z) (x : T) :
  item_at items i = Some x ->
  leaves_from (LeafSequence items) i = x :: leaves_from (LeafSequence items) (i + 1).
Proof.
  intros H. pose proof (item_at_range _ _ H) as Hi. simpl.
  destruct (@skipn_next _ items (Z.to_nat i)) as [y Hy]; [unfold len in Hi; lia|].
  rewrite Hy. replace (Z.to_nat (i + 1)) with (S (Z.to_nat i)) by lia.
  unfold item_at in H. destruct (i <? 0); [discriminate|].
  rewrite <- (Nat.add_0_r (Z.to_nat i)) in H.
  rewrite <- nth_error_after_skipn, Hy in H. simpl in H. injection H as ->. reflexivity.
Qed.

(** One step of [_advanceMaybeAllowPastEnd] from a valid position: the
    cursor moves to the next item of the tree, across chunks, or reports
    that there is none. *)
Lemma advance_steps :
  forall (c : SequenceCursor T K) (n : nat) (a : bool),
    cursor_ok n c -> 0 <= idx c < length c ->
    exists (b : bool) (c' : SequenceCursor T K),
      _advanceMaybeAllowPastEnd a c = Some (b, c') /\
      cursor_ok n c' /\
      (b = true -> 0 <= idx c' < length c' /\ remaining c' = following c) /\
      (b = false -> following c = [] /\ c' = if a then set_idx c (idx c + 1) else c).
Proof.
  fix IH 1. intros [par s i] n a Hok Hi.
  unfold length in Hi. cbn [idx sequence] in Hi.
  cbn [_advanceMaybeAllowPastEnd].
  replace (i =? seq_length s) with false by (symmetry; apply Z.eqb_neq; lia).
  unfold advanceLocal, length, set_idx. cbn [idx sequence parent].
  replace (i =? seq_length s) with false by (symmetry; apply Z.eqb_neq; lia).
  destruct (i <? seq_length s - 1) eqn:Elocal.
  { apply Z.ltb_lt in Elocal.
    exists true, (mkCursor par s (i + 1)). split; [reflexivity|].
    split; [exact Hok|]. split; [|discriminate]. intros _.
    unfold length. cbn [idx sequence]. split; [lia | reflexivity]. }
  apply Z.ltb_ge in Elocal. assert (Ei : i = seq_length s - 1) by lia.
  assert (Hend : leaves_from s (i + 1) = []) by (apply leaves_from_end; lia).
  assert (Hrest : forall i1 : Z, i1 = (if a then i + 1 else i) ->
    exists (b : bool) (c' : SequenceCursor T K),
      match par with
      | Some p =>
          match _advanceMaybeAllowPastEnd false p with
          | Some (true, p') =>
              match sync (mkCursor (Some p') s i1) with
              | Some c3 => Some (true, mkCursor (parent c3) (sequence c3) 0)
              | None => None
              end
          | Some (false, p') => Some (false, mkCursor (Some p') s i1)
          | None => None
          end
      | None => Some (false, mkCursor par s i1)
      end = Some (b, c') /\
      cursor_ok n c' /\
      (b = true -> 0 <= idx c' < length c' /\
                   remaining c' = following (mkCursor par s i)) /\
      (b = false -> following (mkCursor par s i) = [] /\ c' = mkCursor par s i1)).
  { intros i1 Hi1. unfold following. cbn [sequence idx outside parent]. rewrite Hend.
    destruct par as [p|].
    2:{ exists false, (mkCursor None s i1). split; [reflexivity|].
        split; [exact Hok|]. split; [discriminate|]. auto. }
    cbn [cursor_ok parent sequence] in Hok. destruct Hok as [Hchild Hp].
    destruct (getChildSequence_range _ _ Hchild) as (items & mt & Es & Hj & Hnth & Hmt).
    assert (Hpi : 0 <= idx p < length p).
    { unfold length. unfold cursor_getChildSequence in Hchild. rewrite Es. exact Hj. }
    destruct (IH p (S n) false Hp Hpi) as (bp & p' & Hadv & Hok' & Htrue & Hfalse).
    rewrite Hadv. destruct bp.
    - destruct (Htrue eq_refl) as [Hpi' Hrem].
      pose proof (cursor_ok_shaped _ _ Hok') as Hs'.
      pose proof (shaped_pos _ _ (cursor_ok_shaped _ _ (conj Hchild Hp
                    : cursor_ok n (mkCursor (Some p) s i)))) as Hn.
      destruct (@shaped_child n (sequence p') (idx p') Hs' Hn) as (child & Hc & Hcs & Hcl);
        [unfold length in Hpi'; lia|].
      unfold sync, cursor_getChildSequence. cbn [parent sequence idx]. rewrite Hc.
      cbn [parent sequence].
      exists true, (mkCursor (Some p') child 0). split; [reflexivity|].
      split; [cbn [cursor_ok parent sequence]; split; [exact Hc | exact Hok']|].
      split; [|discriminate]. intros _. unfold length. cbn [idx sequence].
      split; [lia|].
      unfold remaining. cbn [sequence idx outside parent].
      unfold remaining in Hrem. unfold following in Hrem.
      rewrite (leaves_from_child _ _ Hc) in Hrem.
      assert (E0 : leaves_from child 0 = leaves child).
      { destruct child as [l|l]; simpl; [reflexivity | symmetry; apply leaves_meta]. }
      rewrite E0. cbn [app]. rewrite <- app_assoc in Hrem. exact Hrem.
    - destruct (Hfalse eq_refl) as [Hnil Hp'].
      cbv iota in Hp'. subst p'.
      exists false, (mkCursor (Some p) s i1). split; [reflexivity|].
      split; [cbn [cursor_ok parent sequence]; split; assumption|].
      split; [discriminate|]. intros _. split; [exact Hnil | reflexivity]. }
  destruct a.
  - destruct (Hrest (i + 1) eq_refl) as (b & c' & H1 & H2 & H3 & H4).
    exists b, c'. repeat split; auto; try apply H3; auto; apply H4; auto.
  - destruct (Hrest i eq_refl) as (b & c' & H1 & H2 & H3 & H4).
    exists b, c'. repeat split; auto; try apply H3; auto; apply H4; auto.
Qed.

Lemma valid_range (c : SequenceCursor T K) : valid c = true <-> 0 <= idx c < length c.
Proof.
  unfold valid. rewrite andb_true_iff, Z.leb_le, Z.ltb_lt. tauto.
Qed.

Lemma leaves_from_0 (s : Sequence T K) : leaves_from s 0 = leaves s.
Proof. destruct s as [l|l]; simpl; [reflexivity | symmetry; apply leaves_meta]. Qed.

Lemma leaves_upto_0 (s : Sequence T K) : leaves_upto s 0 = [].
Proof. destruct s; reflexivity. Qed.

(** A [_retreatMaybeAllowBeforeStart(false)] that returns false has not
    touched the cursor. *)
Lemma retreat_false_unchanged :
  forall (c c' : SequenceCursor T K),
    _retreatMaybeAllowBeforeStart false c = Some (false, c') -> c' = c.
Proof.
  fix IH 1. intros [par s i] c'. cbn [_retreatMaybeAllowBeforeStart].
  destruct (0 <? i); [discriminate|].
  destruct (i =? -1); [intros H; injection H as <-; reflexivity|].
  destruct (negb (i =? 0)); [discriminate|].
  destruct par as [p|]; [|intros H; injection H as <-; reflexivity].
  destruct (_retreatMaybeAllowBeforeStart false p) as [[[|] p']|] eqn:E; [| |discriminate].
  - destruct (sync _); discriminate.
  - intros H. injection H as <-. rewrite (IH p p' E). reflexivity.
Qed.

(** One step of [_retreatMaybeAllowBeforeStart] from a valid position: the
    cursor moves to the item before, across chunks, or reports that there
    is none. *)
Lemma retreat_steps :
  forall (c : SequenceCursor T K) (n : nat) (a : bool),
    cursor_ok n c -> 0 <= idx c < length c ->
    exists (b : bool) (c' : SequenceCursor T K),
      _retreatMaybeAllowBeforeStart a c = Some (b, c') /\
      cursor_ok n c' /\
      (b = true -> 0 <= idx c' < length c' /\ following c' = remaining c) /\
      (b = false -> preceding c = [] /\ c' = if a then set_idx c (-1) else c).
Proof.
  fix IH 1. intros [par s i] n a Hok Hi.
  unfold length in Hi. cbn [idx sequence] in Hi.
  cbn [_retreatMaybeAllowBeforeStart].
  destruct (0 <? i) eqn:Epos.
  { apply Z.ltb_lt in Epos. exists true, (mkCursor par s (i - 1)).
    split; [reflexivity|]. split; [exact Hok|]. split; [|discriminate]. intros _.
    unfold length, following, remaining. cbn [idx sequence outside parent].
    split; [lia|]. replace (i - 1 + 1) with i by lia. reflexivity. }
  apply Z.ltb_ge in Epos. assert (i = 0) as -> by lia. cbn [Z.eqb negb].
  unfold set_idx. cbn [parent sequence idx Z.sub Z.add Z.opp Z.pos_sub].
  destruct par as [p|].
  { cbn [cursor_ok parent sequence] in Hok. destruct Hok as [Hchild Hp].
    destruct (getChildSequence_range _ _ Hchild) as (items & mt & Es & Hj & Hnth & Hmt).
    assert (Hpi : 0 <= idx p < length p).
    { unfold length. rewrite Es. exact Hj. }
    destruct (IH p (S n) false Hp Hpi) as (bp & p' & Hret & Hok' & Htrue & Hfalse).
    rewrite Hret. destruct bp.
    - destruct (Htrue eq_refl) as [Hpi' Hfol].
      pose proof (cursor_ok_shaped _ _ Hok') as Hs'.
      pose proof (shaped_pos _ _ (cursor_ok_shaped _ _ (conj Hchild Hp
                    : cursor_ok n (mkCursor (Some p) s 0)))) as Hn.
      destruct (@shaped_child n (sequence p') (idx p') Hs' Hn) as (child & Hc & Hcs & Hcl);
        [unfold length in Hpi'; lia|].
      unfold sync, cursor_getChildSequence. cbn [parent sequence idx]. rewrite Hc.
      unfold set_idx, length. cbn [parent sequence idx].
      exists true, (mkCursor (Some p') child (seq_length child - 1)).
      split; [reflexivity|].
      split; [cbn [cursor_ok parent sequence]; split; [exact Hc | exact Hok']|].
      split; [|discriminate]. intros _. cbn [idx sequence]. split; [lia|].
      unfold following, remaining. cbn [sequence idx outside parent].
      rewrite leaves_from_end by lia. cbn [app].
      unfold following, remaining in Hfol. rewrite Hfol.
      rewrite (leaves_from_child _ _ Hchild), leaves_from_0, <- app_assoc. reflexivity.
    - destruct (Hfalse eq_refl) as [Hnil Hp'].
      cbv iota in Hp'. subst p'.
      exists false, (if a then mkCursor (Some p) s (-1) else mkCursor (Some p) s 0).
      split; [destruct a; reflexivity|].
      split; [destruct a; cbn [cursor_ok parent sequence]; split; assumption|].
      split; [discriminate|]. intros _. split; [|reflexivity].
      unfold preceding. cbn [before_chunk parent sequence idx].
      unfold preceding in Hnil. rewrite Hnil, leaves_upto_0. reflexivity. }
  exists false, (if a then mkCursor None s (-1) else mkCursor None s 0).
  split; [destruct a; reflexivity|].
  split; [destruct a; exact Hok|].
  split; [discriminate|]. intros _. split; [|reflexivity].
  unfold preceding. cbn [before_chunk parent sequence idx]. apply leaves_upto_0.
Qed.

(** A successful advance is undone by a retreat. *)
Lemma retreat_undoes_advance :
  forall (c : SequenceCursor T K) (n : nat) (a : bool),
    cursor_ok n c -> 0 <= idx c < length c ->
    forall c' : SequenceCursor T K,
      _advanceMaybeAllowPastEnd a c = Some (true, c') ->
      forall a' : bool, _retreatMaybeAllowBeforeStart a' c' = Some (true, c).
Proof.
  fix IH 1. intros [par s i] n a Hok Hi c'.
  unfold length in Hi. cbn [idx sequence] in Hi.
  cbn [_advanceMaybeAllowPastEnd].
  replace (i =? seq_length s) with false by (symmetry; apply Z.eqb_neq; lia).
  unfold advanceLocal, length, set_idx. cbn [idx sequence parent].
  replace (i =? seq_length s) with false by (symmetry; apply Z.eqb_neq; lia).
  destruct (i <? seq_length s - 1) eqn:Elocal.
  { intros H a'. injection H as <-. cbn [_retreatMaybeAllowBeforeStart].
    replace (0 <? i + 1) with true by (symmetry; apply Z.ltb_lt; lia).
    replace (i + 1 - 1) with i by lia. reflexivity. }
  apply Z.ltb_ge in Elocal. assert (Ei : i = seq_length s - 1) by lia.
  assert (Hrest : forall i1 : Z,
    match par with
    | Some p =>
        match _advanceMaybeAllowPastEnd false p with
        | Some (true, p') =>
            match sync (mkCursor (Some p') s i1) with
            | Some c3 => Some (true, mkCursor (parent c3) (sequence c3) 0)
            | None => None
            end
        | Some (false, p') => Some (false, mkCursor (Some p') s i1)
        | None => None
        end
    | None => Some (false, mkCursor par s i1)
    end = Some (true, c') ->
    forall a' : bool, _retreatMaybeAllowBeforeStart a' c' = Some (true, mkCursor par s i)).
  { intros i1. destruct par as [p|]; [|discriminate].
    cbn [cursor_ok parent sequence] in Hok. destruct Hok as [Hchild Hp].
    destruct (getChildSequence_range _ _ Hchild) as (items & mt & Es & Hj & Hnth & Hmt).
    assert (Hpi : 0 <= idx p < length p).
    { unfold length. rewrite Es. exact Hj. }
    destruct (_advanceMaybeAllowPastEnd false p) as [[[|] p']|] eqn:Hadv;
      [|discriminate|discriminate].
    pose proof (IH p (S n) false Hp Hpi p' Hadv false) as Hback.
    unfold sync, cursor_getChildSequence. cbn [parent sequence idx].
    destruct (getChildSequence (sequence p') (idx p')) as [[child|]|]; try discriminate.
    cbn [parent sequence]. intros H a'. injection H as <-.
    cbn [_retreatMaybeAllowBeforeStart Z.ltb Z.compare Z.eqb negb].
    rewrite Hback. unfold sync, cursor_getChildSequence. cbn [parent sequence idx].
    unfold cursor_getChildSequence in Hchild. rewrite Hchild.
    unfold set_idx, length. cbn [parent sequence idx]. rewrite Ei. reflexivity. }
  destruct a; apply Hrest.
Qed.

(** A successful retreat is undone by an advance. *)
Lemma advance_undoes_retreat :
  forall (c : SequenceCursor T K) (n : nat) (a : bool),
    cursor_ok n c -> 0 <= idx c < length c ->
    forall c' : SequenceCursor T K,
      _retreatMaybeAllowBeforeStart a c = Some (true, c') ->
      forall a' : bool, _advanceMaybeAllowPastEnd a' c' = Some (true, c).
Proof.
  fix IH 1. intros [par s i] n a Hok Hi c'.
  unfold length in Hi. cbn [idx sequence] in Hi.
  cbn [_retreatMaybeAllowBeforeStart].
  destruct (0 <? i) eqn:Epos.
  { apply Z.ltb_lt in Epos. intros H a'. injection H as <-.
    cbn [_advanceMaybeAllowPastEnd].
    replace (i - 1 =? seq_length s) with false by (symmetry; apply Z.eqb_neq; lia).
    unfold advanceLocal, length, set_idx. cbn [idx sequence parent].
    replace (i - 1 =? seq_length s) with false by (symmetry; apply Z.eqb_neq; lia).
    replace (i - 1 <? seq_length s - 1) with true by (symmetry; apply Z.ltb_lt; lia).
    replace (i - 1 + 1) with i by lia. reflexivity. }
  apply Z.ltb_ge in Epos. assert (i = 0) as -> by lia. cbn [Z.eqb negb].
  destruct par as [p|]; [|destruct a; discriminate].
  cbn [cursor_ok parent sequence] in Hok. destruct Hok as [Hchild Hp].
  destruct (getChildSequence_range _ _ Hchild) as (items & mt & Es & Hj & Hnth & Hmt).
  assert (Hpi : 0 <= idx p < length p).
  { unfold length. rewrite Es. exact Hj. }
  destruct (_retreatMaybeAllowBeforeStart false p) as [[[|] p']|] eqn:Hret;
    [|destruct a; discriminate|discriminate].
  pose proof (IH p (S n) false Hp Hpi p' Hret false) as Hforth.
  destruct (retreat_steps p (S n) false Hp Hpi) as (bp & p'' & Hret' & Hok' & Htrue & _).
  rewrite Hret in Hret'. injection Hret' as <- <-.
  destruct (Htrue eq_refl) as [Hpi' _].
  pose proof (cursor_ok_shaped _ _ Hok') as Hs'.
  pose proof (shaped_pos _ _ (cursor_ok_shaped _ _ (conj Hchild Hp
                : cursor_ok n (mkCursor (Some p) s 0)))) as Hn.
  destruct (@shaped_child n (sequence p') (idx p') Hs' Hn) as (child & Hc & Hcs & Hcl);
    [unfold length in Hpi'; lia|].
  unfold sync, cursor_getChildSequence. cbn [parent sequence idx]. rewrite Hc.
  unfold set_idx, length. cbn [parent sequence idx].
  intros H a'. injection H as <-.
  cbn [_advanceMaybeAllowPastEnd].
  replace (seq_length child - 1 =? seq_length child) with false
    by (symmetry; apply Z.eqb_neq; lia).
  unfold advanceLocal, length, set_idx. cbn [idx sequence parent].
  replace (seq_length child - 1 =? seq_length child) with false
    by (symmetry; apply Z.eqb_neq; lia).
  rewrite Z.ltb_irrefl.
  assert (Hsync : forall i1 : Z,
            match sync (mkCursor (Some p) child i1) with
            | Some c2 => Some (true, mkCursor (parent c2) (sequence c2) 0)
            | None => None
            end = Some (true, mkCursor (Some p) s 0)).
  { intros i1. unfold sync, cursor_getChildSequence. cbn [parent sequence idx].
    unfold cursor_getChildSequence in Hchild. rewrite Hchild. reflexivity. }
  destruct a'; cbn [idx sequence parent]; rewrite Hforth; apply Hsync.
Qed.

Lemma cursor_ok_leaf (c : SequenceCursor T K) :
  cursor_ok 1 c -> exists items, sequence c = LeafSequence items.
Proof.
  intros Hok. pose proof (cursor_ok_shaped _ _ Hok) as Hs. simpl in Hs.
  destruct (sequence c) as [items|items]; [eauto | destruct Hs as [H _]; congruence].
Qed.

Lemma current_of_valid (c : SequenceCursor T K) :
  cursor_ok 1 c -> valid c = true ->
  exists x, getCurrent c = Some x /\ remaining c = x :: following c.
Proof.
  intros Hok Hv. destruct (cursor_ok_leaf _ Hok) as [items Hs].
  pose proof (proj1 (valid_range c) Hv) as Hi. unfold length in Hi. rewrite Hs in Hi.
  destruct (item_at_Some items Hi) as [x Hx]. exists x.
  unfold getCurrent, remaining, following. rewrite Hv, Hs. split; [exact Hx|].
  rewrite (leaves_from_item _ _ Hx). reflexivity.
Qed.

(** [advance()] on a valid leaf position. *)
Lemma advance_leaf (c : SequenceCursor T K) :
  cursor_ok 1 c -> valid c = true ->
  exists (b : bool) (c' : SequenceCursor T K),
    advance c = Some (b, c') /\ cursor_ok 1 c' /\
    remaining c' = following c /\ b = valid c' /\
    (valid c' = true \/ remaining c' = []).
Proof.
  intros Hok Hv. pose proof (proj1 (valid_range c) Hv) as Hi.
  destruct (advance_steps c 1 true Hok Hi) as (b & c' & Hadv & Hok' & Htrue & Hfalse).
  exists b, c'. split; [exact Hadv|]. split; [exact Hok'|].
  destruct b.
  - destruct (Htrue eq_refl) as [Hi' Hrem].
    pose proof (proj2 (valid_range c') Hi') as Hv'. rewrite Hv'. auto.
  - destruct (Hfalse eq_refl) as [Hnil ->].
    assert (Hrem : remaining (set_idx c (idx c + 1)) = following c)
      by (destruct c; reflexivity).
    rewrite Hrem, Hnil. split; [reflexivity|]. split; [|right; reflexivity].
    destruct (cursor_ok_leaf _ Hok) as [items Hs].
    unfold following in Hnil. apply app_eq_nil in Hnil as [Hnil _].
    rewrite Hs in Hnil. simpl in Hnil.
    apply (f_equal (@Datatypes.length _)) in Hnil. rewrite length_skipn in Hnil.
    simpl in Hnil. unfold valid, set_idx, length. cbn [idx sequence]. rewrite Hs.
    simpl. symmetry. apply andb_false_iff. right. apply Z.ltb_ge. unfold len. lia.
Qed.

(** X1.  On a valid position of a tree without empty chunks, [advance()]
    moves the cursor to the next item of the tree in order, also when that
    item is the first of the next chunk, and returns true; on the last item
    of the tree it returns false and leaves the cursor past the end.  The
    item under the cursor and the items after it are the items of the tree
    from the position of the cursor on. *)
Theorem advance_moves_to_next_item (c : SequenceCursor T K) :
  cursor_ok 1 c -> valid c = true ->
  exists (x : T) (b : bool) (c' : SequenceCursor T K),
    getCurrent c = Some x /\ remaining c = x :: remaining c' /\
    advance c = Some (b, c') /\ cursor_ok 1 c' /\
    b = valid c' /\
    (b = true -> exists y, getCurrent c' = Some y) /\
    (b = false -> remaining c' = []).
Proof.
  intros Hok Hv.
  destruct (current_of_valid c Hok Hv) as (x & Hx & Hrem).
  destruct (advance_leaf c Hok Hv) as (b & c' & Hadv & Hok' & Hrem' & Hb & Hor).
  exists x, b, c'. rewrite Hrem'. repeat split; auto.
  - intros ->. symmetry in Hb.
    destruct (current_of_valid c' Hok' Hb) as (y & Hy & _). eauto.
  - intros ->. destruct Hor as [H|H]; [congruence | rewrite <- Hrem'; exact H].
Qed.

(** X2.  On a valid position [retreat()] moves the cursor to the item
    before, also when that item is the last of the chunk before, and
    returns true; on the first item of the tree it returns false and leaves
    the cursor before the start. *)
Theorem retreat_moves_to_previous_item (c : SequenceCursor T K) :
  cursor_ok 1 c -> valid c = true ->
  exists (b : bool) (c' : SequenceCursor T K),
    retreat c = Some (b, c') /\ cursor_ok 1 c' /\
    (b = true ->
       exists y, getCurrent c' = Some y /\ remaining c' = y :: remaining c) /\
    (b = false -> preceding c = [] /\ c' = set_idx c (-1)).
Proof.
  intros Hok Hv. pose proof (proj1 (valid_range c) Hv) as Hi.
  destruct (retreat_steps c 1 true Hok Hi) as (b & c' & Hret & Hok' & Htrue & Hfalse).
  exists b, c'. split; [exact Hret|]. split; [exact Hok'|]. split; [|exact Hfalse].
  intros Hb. destruct (Htrue Hb) as [Hi' Hfol].
  destruct (current_of_valid c' Hok' (proj2 (valid_range c') Hi')) as (y & Hy & Hrem).
  exists y. split; [exact Hy|]. rewrite Hrem, Hfol. reflexivity.
Qed.

(** X3.  On a valid position [advance()] and [retreat()] undo each other:
    whatever [advance()] returns, a [retreat()] after it returns true and
    restores the cursor, parents included; and the other way round. *)
Theorem advance_and_retreat_are_inverse (n : nat) (c : SequenceCursor T K) :
  cursor_ok n c -> valid c = true ->
  (exists (b : bool) (c' : SequenceCursor T K),
     advance c = Some (b, c') /\ retreat c' = Some (true, c)) /\
  (exists (b : bool) (c' : SequenceCursor T K),
     retreat c = Some (b, c') /\ advance c' = Some (true, c)).
Proof.
  intros Hok Hv. pose proof (proj1 (valid_range c) Hv) as Hi. split.
  - destruct (advance_steps c n true Hok Hi) as (b & c' & Hadv & _ & _ & Hfalse).
    exists b, c'. split; [exact Hadv|]. destruct b.
    + exact (@retreat_undoes_advance c n true Hok Hi c' Hadv true).
    + destruct (Hfalse eq_refl) as [_ ->]. destruct c as [par s i].
      unfold retreat, set_idx. cbn [_retreatMaybeAllowBeforeStart idx sequence parent].
      cbn [idx] in Hi.
      replace (0 <? i + 1) with true by (symmetry; apply Z.ltb_lt; lia).
      replace (i + 1 - 1) with i by lia. reflexivity.
  - destruct (retreat_steps c n true Hok Hi) as (b & c' & Hret & _ & _ & Hfalse).
    exists b, c'. split; [exact Hret|]. destruct b.
    + exact (@advance_undoes_retreat c n true Hok Hi c' Hret true).
    + destruct (Hfalse eq_refl) as [_ ->]. destruct c as [par s i].
      unfold advance, set_idx. cbn [_advanceMaybeAllowPastEnd idx sequence parent].
      unfold length in Hi. cbn [idx sequence] in Hi.
      replace (-1 =? seq_length s) with false by (symmetry; apply Z.eqb_neq; lia).
      unfold advanceLocal, length, set_idx. cbn [idx sequence parent].
      replace (-1 =? seq_length s) with false by (symmetry; apply Z.eqb_neq; lia).
      replace (-1 <? seq_length s - 1) with true by (symmetry; apply Z.ltb_lt; lia).
      assert (i = 0) as ->; [|reflexivity].
      destruct (retreat_steps (mkCursor par s i) n true Hok Hi)
        as (b & c' & Hr & _ & Htrue & _).
      rewrite Hret in Hr. injection Hr as <- <-.
      clear Htrue. revert Hret. unfold retreat. cbn [_retreatMaybeAllowBeforeStart].
      destruct (0 <? i) eqn:E; [discriminate|]. apply Z.ltb_ge in E. lia.
Qed.

(** [iter(cb)] calls the callback on the items of the tree from the
    cursor on, in order, with the indices [i, i+1, ...], and stops after
    the item for which the callback returns true; chunk boundaries do not
    show.  The cursor is on a valid position, or nothing is left. *)
Lemma iter_walks_the_rest {St : Type} (cb : St -> T -> Z -> St * bool) :
  forall (fuel : nat) (c : SequenceCursor T K) (i : Z) (st : St),
    cursor_ok 1 c ->
    valid c = true \/ remaining c = [] ->
    (Datatypes.length (remaining c) < fuel)%nat ->
    exists c', iter fuel cb c i st = Some (c', visit cb (remaining c) i st).
Proof.
  induction fuel as [|fuel IH]; intros c i st Hok Hor Hfuel; [lia|].
  cbn [iter]. destruct (valid c) eqn:Hv.
  2:{ destruct Hor as [H|H]; [discriminate|]. rewrite H. eexists. reflexivity. }
  destruct (cursor_ok_leaf _ Hok) as [items Hs].
  destruct (current_of_valid c Hok Hv) as (x & Hx & Hrem).
  unfold getCurrent in Hx. rewrite Hv, Hs in Hx. rewrite Hs, Hx, Hrem.
  cbn [visit]. destruct (cb st x i) as [st1 stop]. destruct stop; [eexists; reflexivity|].
  destruct (advance_leaf c Hok Hv) as (b & c' & Hadv & Hok' & Hrem' & Hb & Hor').
  rewrite Hrem in Hfuel. simpl in Hfuel.
  assert (Hstep : (let (moved, c1) := advanceLocal false c in
                   if moved then iter fuel cb c1 (i + 1) st1
                   else match advance c1 with
                        | Some (_, c2) => iter fuel cb c2 (i + 1) st1
                        | None => None
                        end) = iter fuel cb c' (i + 1) st1).
  { unfold advanceLocal. pose proof (proj1 (valid_range c) Hv) as Hi.
    replace (idx c =? length c) with false by (symmetry; apply Z.eqb_neq; lia).
    destruct (idx c <? length c - 1) eqn:E.
    - revert Hadv. unfold advance. destruct c as [par s j].
      cbn [_advanceMaybeAllowPastEnd]. unfold advanceLocal, length.
      cbn [idx sequence] in *. unfold length in E, Hi. cbn [sequence] in E, Hi.
      replace (j =? seq_length s) with false by (symmetry; apply Z.eqb_neq; lia).
      rewrite E. intros H. injection H as _ <-. reflexivity.
    - rewrite Hadv. reflexivity. }
  rewrite Hstep. rewrite <- Hrem'. apply IH; [exact Hok' | exact Hor' | rewrite Hrem'; lia].
Qed.

(** X4.  [iter(cb)] calls the callback on the items of the tree from the
    cursor on, in order, with the indices [i, i+1, ...], and stops after
    the item for which the callback returns true; chunk boundaries do not
    show.  The cursor is on a valid position, or nothing is left. *)
Theorem iter_visits_remaining {St : Type} (cb : St -> T -> Z -> St * bool) :
  forall (fuel : nat) (c : SequenceCursor T K) (i : Z) (st : St),
    cursor_ok 1 c ->
    valid c = true \/ remaining c = [] ->
    (Datatypes.length (remaining c) < fuel)%nat ->
    exists c', iter fuel cb c i st = Some (c', visit cb (remaining c) i st).
Proof. exact (iter_walks_the_rest cb). Qed.

End Traversal.

(** The cursor of the cursor tests on [101], the last item of the first
    chunk of [test_tree]. *)
Definition cursor_101 : SequenceCursor Z Z :=
  mkCursor (Some (mkCursor None test_tree 0)) (LeafSequence [100; 101]) 1.

Lemma cursor_101_ok : cursor_ok 1 cursor_101.
Proof.
  simpl. split; [reflexivity|]. split; [discriminate|]. split; [discriminate|].
  repeat constructor.
Defined.

Example cursor_101_walk :
  remaining cursor_101 = [101; 102] /\ preceding cursor_101 = [100] /\
  advance cursor_101 =
    Some (true, mkCursor (Some (mkCursor None test_tree 1)) (LeafSequence [102]) 0) /\
  iter 3 (fun (st : list (Z * Z)) x i => (st ++ [(i, x)], false)) cursor_101 0 [] =
    Some (mkCursor (Some (mkCursor None test_tree 1)) (LeafSequence [102]) 1,
          [(0, 101); (1, 102)]).
Proof. repeat split. Qed.

Lemma advance_moves_to_next_item_witness :
  exists (x : Z) (b : bool) (c' : SequenceCursor Z Z),
    getCurrent cursor_101 = Some x /\ remaining cursor_101 = x :: remaining c' /\
    advance cursor_101 = Some (b, c') /\ cursor_ok 1 c' /\
    b = valid c' /\
    (b = true -> exists y, getCurrent c' = Some y) /\
    (b = false -> remaining c' = []).
Proof. exact (@advance_moves_to_next_item Z Z _ cursor_101 cursor_101_ok eq_refl). Defined.

Lemma retreat_moves_to_previous_item_witness :
  exists (b : bool) (c' : SequenceCursor Z Z),
    retreat cursor_101 = Some (b, c') /\ cursor_ok 1 c' /\
    (b = true ->
       exists y, getCurrent c' = Some y /\ remaining c' = y :: remaining cursor_101) /\
    (b = false -> preceding cursor_101 = [] /\ c' = set_idx cursor_101 (-1)).
Proof. exact (@retreat_moves_to_previous_item Z Z _ cursor_101 cursor_101_ok eq_refl). Defined.

Lemma advance_and_retreat_are_inverse_witness :
  (exists (b : bool) (c' : SequenceCursor Z Z),
     advance cursor_101 = Some (b, c') /\ retreat c' = Some (true, cursor_101)) /\
  (exists (b : bool) (c' : SequenceCursor Z Z),
     retreat cursor_101 = Some (b, c') /\ advance c' = Some (true, cursor_101)).
Proof.
  exact (@advance_and_retreat_are_inverse Z Z _ 1 cursor_101 cursor_101_ok eq_refl).
Defined.

Lemma iter_visits_remaining_witness :
  exists c',
    iter 3 (fun (st : list Z) (x _ : Z) => (x :: st, false)) cursor_101 0 [] =
    Some (c', visit (fun (st : list Z) (x _ : Z) => (x :: st, false))
                (remaining cursor_101) 0 []).
Proof.
  apply (@iter_visits_remaining Z Z _ (list Z) (fun st x _ => (x :: st, false))
           3%nat cursor_101 0 [] cursor_101_ok).
  - left. reflexivity.
  - simpl. lia.
Defined.

(** * The cursor of a key in an ordered tree (ordered-sequence.js) *)

Section KeySplit.

Context {T K : Type} {ops : ValueOps K} {laws : ValueLaws K}.
Variable leafKey : T -> OrderedKey K.

Lemma sorted_app {A : Type} (R : A -> A -> Prop) (a b : list A) :
  StronglySorted R a -> StronglySorted R b ->
  (forall x y, In x a -> In y b -> R x y) -> StronglySorted R (a ++ b).
Proof.
  intros Ha Hb Hab. induction Ha as [|x a Ha IH Hall]; [exact Hb|].
  simpl. constructor.
  - apply IH. intros; apply Hab; [right|]; assumption.
  - apply Forall_app. split; [exact Hall|]. apply Forall_forall.
    intros y Hy. apply Hab; [left; reflexivity | exact Hy].
Qed.

Lemma sorted_app_r {A : Type} (R : A -> A -> Prop) (a b : list A) :
  StronglySorted R (a ++ b) -> StronglySorted R b.
Proof.
  induction a as [|x a IH]; simpl; [auto|]. intros H. inversion H; subst. auto.
Qed.

Lemma key_lt_le_trans (a b c : OrderedKey K) : key_lt a b -> key_le b c -> key_lt a c.
Proof. apply (cmp_lt_le_trans OrderedKey_compare_consistent). Qed.

Lemma key_le_lt_trans (a b c : OrderedKey K) : key_le a b -> key_lt b c -> key_lt a c.
Proof. apply (cmp_le_lt_trans OrderedKey_compare_consistent). Qed.

Lemma key_lt_le (a b : OrderedKey K) : key_lt a b -> key_le a b.
Proof. unfold key_lt, key_le. lia. Qed.

Lemma key_lt_irrefl (a : OrderedKey K) : ~ key_lt a a.
Proof. unfold key_lt. rewrite OrderedKey_compare_refl. lia. Qed.

(** The leaves of the children of an ordered meta sequence are in strict
    order. *)
Lemma tuples_leaves_sorted (items : list (MetaTuple K (Sequence T K))) :
  (forall (j : nat) (mt : MetaTuple K (Sequence T K)),
     nth_error items j = Some mt ->
     StronglySorted key_lt (map leafKey (leaves (mt_child mt))) /\
     (forall x, In x (leaves (mt_child mt)) -> key_le (leafKey x) (mt_key mt)) /\
     (forall (j' : nat) (mt' : MetaTuple K (Sequence T K)),
        (j' < j)%nat -> nth_error items j' = Some mt' ->
        forall x, In x (leaves (mt_child mt)) -> key_lt (mt_key mt') (leafKey x))) ->
  StronglySorted key_lt (map leafKey (leaves_of_tuples items)).
Proof.
  induction items as [|mt rest IH]; intros H; [constructor|].
  unfold leaves_of_tuples. cbn [flat_map]. rewrite map_app. apply sorted_app.
  - apply (H 0%nat mt eq_refl).
  - apply IH. intros j mt' Hj. destruct (H (S j) mt' Hj) as (Hs & Hu & Hl).
    split; [exact Hs|]. split; [exact Hu|].
    intros j' mt'' Hlt Hj'. apply (Hl (S j') mt''); [lia | exact Hj'].
  - intros kx ky Hx Hy. apply in_map_iff in Hx, Hy.
    destruct Hx as (x & <- & Hx). destruct Hy as (y & <- & Hy).
    apply In_leaves_of_tuples in Hy. destruct Hy as (j & mt' & Hj & Hy).
    destruct (H 0%nat mt eq_refl) as (_ & Hu & _).
    destruct (H (S j) mt' Hj) as (_ & _ & Hl).
    apply key_le_lt_trans with (b := mt_key mt); [apply Hu; exact Hx|].
    apply (Hl 0%nat mt); [lia | reflexivity | exact Hy].
Qed.

(** The leaves of an ordered tree are in strict key order. *)
Lemma otree_leaves_sorted :
  forall (n : nat) (s : Sequence T K),
    otree_wf leafKey n s -> StronglySorted key_lt (map leafKey (leaves s)).
Proof.
  induction n as [|n IH]; intros s Hwf; [destruct Hwf|].
  destruct s as [items|items].
  - destruct Hwf as [_ Hs]. exact Hs.
  - destruct Hwf as (_ & _ & _ & Hchildren). rewrite leaves_meta.
    apply tuples_leaves_sorted. intros j mt Hj.
    destruct (Hchildren j mt Hj) as (Hc & Hu & Hl). split; [apply IH; exact Hc|]. auto.
Qed.

Lemma leaves_upto_from (s : Sequence T K) (i : Z) :
  leaves s = leaves_upto s i ++ leaves_from s i.
Proof.
  destruct s as [items|items].
  - simpl. symmetry. apply firstn_skipn.
  - rewrite leaves_meta. unfold leaves_upto, leaves_from, leaves_of_tuples.
    rewrite <- flat_map_app, firstn_skipn. reflexivity.
Qed.

Lemma leaves_upto_end (s : Sequence T K) (i : Z) :
  seq_length s <= i -> leaves_upto s i = leaves s.
Proof.
  intros H. rewrite (leaves_upto_from s i), (leaves_from_end s H), app_nil_r.
  reflexivity.
Qed.

Lemma key_below (s : Sequence T K) (key k : OrderedKey K) (i : Z) :
  getKey leafKey s i = Some k -> key_at_least leafKey s key i = false -> key_lt k key.
Proof.
  intros H. rewrite (key_at_least_iff leafKey s key i H). intros E.
  apply Z.leb_gt in E. exact E.
Qed.

Lemma key_above (s : Sequence T K) (key k : OrderedKey K) (i : Z) :
  getKey leafKey s i = Some k -> key_at_least leafKey s key i = true -> key_le key k.
Proof.
  intros H. rewrite (key_at_least_iff leafKey s key i H). intros E.
  apply Z.leb_le in E. apply OrderedKey_compare_ge_le. exact E.
Qed.

Lemma nth_error_firstn_Some {A : Type} (l : list A) (r j : nat) (x : A) :
  nth_error (firstn r l) j = Some x -> (j < r)%nat /\ nth_error l j = Some x.
Proof.
  rewrite nth_error_firstn. destruct (j <? r)%nat eqn:E; [|discriminate].
  apply Nat.ltb_lt in E. auto.
Qed.

(** The leaves before position [r] are below the key when the keys before
    [r] are. *)
Lemma upto_below (n : nat) (s : Sequence T K) (key : OrderedKey K) (r : Z) :
  otree_wf leafKey n s ->
  (forall j, 0 <= j < r -> key_at_least leafKey s key j = false) ->
  Forall (fun x => key_lt (leafKey x) key) (leaves_upto s r).
Proof.
  intros Hwf Hbelow. destruct n as [|n]; [destruct Hwf|].
  apply Forall_forall. intros x Hx. destruct s as [items|items].
  - simpl in Hx. destruct (In_nth_error _ _ Hx) as [j Hj].
    apply nth_error_firstn_Some in Hj. destruct Hj as [Hlt Hj].
    apply key_below with (s := LeafSequence items) (i := Z.of_nat j).
    + simpl. rewrite item_at_nth, Hj. reflexivity.
    + apply Hbelow. lia.
  - unfold leaves_upto in Hx. apply In_leaves_of_tuples in Hx.
    destruct Hx as (j & mt & Hj & Hx).
    apply nth_error_firstn_Some in Hj. destruct Hj as [Hlt Hj].
    destruct Hwf as (_ & _ & _ & Hchildren).
    destruct (Hchildren j mt Hj) as (_ & Hu & _).
    apply key_le_lt_trans with (b := mt_key mt); [apply Hu; exact Hx|].
    apply key_below with (s := MetaSequence items) (i := Z.of_nat j).
    + simpl. rewrite item_at_nth, Hj. reflexivity.
    + apply Hbelow. lia.
Qed.

(** The items of a leaf from the first position at least the key on are at
    least the key. *)
Lemma leaf_from_above (items : list T) (key : OrderedKey K) (r : Z) :
  keys_ordered leafKey (LeafSequence items) -> 0 <= r ->
  (r < len items -> key_at_least leafKey (LeafSequence items) key r = true) ->
  Forall (fun x => key_le key (leafKey x)) (leaves_from (LeafSequence items) r).
Proof.
  intros Hord Hr Hat. apply Forall_forall. intros x Hx. simpl in Hx.
  destruct (In_nth_error _ _ Hx) as [j Hj]. rewrite nth_error_skipn in Hj.
  assert (Hlen : (Z.to_nat r + j < Datatypes.length items)%nat)
    by (apply nth_error_Some; congruence).
  apply key_above with (s := LeafSequence items) (i := Z.of_nat (Z.to_nat r + j)).
  - simpl. rewrite item_at_nth, Hj. reflexivity.
  - apply (key_at_least_monotone key Hord (i := r)); simpl; unfold len in *; try lia.
    apply Hat. lia.
Qed.

(** The leaves below the tuples after [r] are above a key that the key of
    tuple [r] is at least. *)
Lemma meta_from_above (n : nat) (items : list (MetaTuple K (Sequence T K)))
    (key : OrderedKey K) (r : Z) (mt : MetaTuple K (Sequence T K)) :
  otree_wf leafKey n (MetaSequence items) -> 0 <= r ->
  nth_error items (Z.to_nat r) = Some mt -> key_le key (mt_key mt) ->
  Forall (fun x => key_lt key (leafKey x)) (leaves_from (MetaSequence items) (r + 1)).
Proof.
  intros Hwf Hr Hmt Hle. destruct n as [|n]; [destruct Hwf|].
  destruct Hwf as (_ & _ & _ & Hchildren).
  apply Forall_forall. intros x Hx. unfold leaves_from in Hx.
  apply In_leaves_of_tuples in Hx. destruct Hx as (j & mt' & Hj & Hx).
  rewrite nth_error_skipn in Hj.
  destruct (Hchildren _ _ Hj) as (_ & _ & Hl).
  apply key_le_lt_trans with (b := mt_key mt); [exact Hle|].
  apply (Hl (Z.to_nat r) mt); [lia | exact Hmt | exact Hx].
Qed.

Lemma hd_error_app_Some {A : Type} (a b : list A) (x : A) :
  hd_error a = Some x -> hd_error (a ++ b) = Some x.
Proof. destruct a; [discriminate | auto]. Qed.

(** The descent of [newCursorAtKey] splits the leaves at the key: what is
    before the cursor is below the key, what is at and after it is at least
    the key; a valid cursor stands on the first of these, and past an
    invalid one everything is above the key. *)
Lemma newCursorAtKey_loop_splits :
  forall (n fuel : nat) (s : Sequence T K) (par : option (SequenceCursor T K))
         (key : OrderedKey K) (fi : bool),
    (n <= fuel)%nat -> otree_wf leafKey n s ->
    exists (c : SequenceCursor T K) (pre post : list T),
      newCursorAtKey_loop leafKey fuel par s (Some key) fi false = Some c /\
      leaves s = pre ++ post /\
      Forall (fun x => key_lt (leafKey x) key) pre /\
      Forall (fun x => key_le key (leafKey x)) post /\
      preceding c = before_chunk (mkCursor par s 0) ++ pre /\
      remaining c = post ++ outside (mkCursor par s 0) /\
      (fi = true -> isMeta (sequence c) = false) /\
      (valid c = true -> exists x, getCurrent c = Some x /\ hd_error post = Some x) /\
      (valid c = false -> Forall (fun x => key_lt key (leafKey x)) post).
Proof.
  induction n as [|n IH]; intros fuel s par key fi Hfuel Hwf; [destruct Hwf|].
  destruct fuel as [|fuel]; [lia|].
  pose proof (otree_keys_ordered leafKey _ _ Hwf) as Hord.
  destruct (BinarySearch.search_spec (seq_length_nonneg s)
              (key_at_least_monotone key Hord)) as (Hr & Hbelow & Hat).
  cbn [newCursorAtKey_loop]. unfold newSequenceCursor. cbn [Z.ltb Z.compare].
  unfold seekTo, length. cbn [sequence].
  set (r := BinarySearch.search (seq_length s) (key_at_least leafKey s key)) in *.
  destruct s as [items|items].
  - (* a leaf: the cursor stops at [r] *)
    cbn [isMeta]. rewrite !andb_false_r.
    match goal with
    | |- context [if ?b then ?x else ?y] =>
        replace (if b then x else y) with (Some (mkCursor par (LeafSequence items) r))
          by (destruct b; reflexivity)
    end.
    exists (mkCursor par (LeafSequence items) r),
           (leaves_upto (LeafSequence items) r), (leaves_from (LeafSequence items) r).
    split; [reflexivity|]. split; [apply leaves_upto_from|].
    split; [eapply upto_below; eauto|].
    split; [apply leaf_from_above; auto; lia|].
    split; [reflexivity|]. split; [reflexivity|]. split; [reflexivity|]. split.
    + intros Hv. apply valid_range in Hv. unfold length in Hv. cbn [idx sequence] in Hv.
      destruct (@item_at_Some _ items r Hv) as [x Hx]. exists x.
      unfold getCurrent. rewrite (proj2 (valid_range _)) by exact Hv.
      cbn [sequence idx]. split; [exact Hx|].
      rewrite (leaves_from_item items r Hx). reflexivity.
    + intros Hv. rewrite leaves_from_end; [constructor|].
      destruct (Z_lt_le_dec r (seq_length (LeafSequence items))) as [Hlt|Hge]; [|exact Hge].
      rewrite (proj2 (valid_range (mkCursor par (LeafSequence items) r))) in Hv;
        [discriminate | unfold length; cbn [idx sequence]; lia].
  - (* a meta sequence *)
    cbn [isMeta]. rewrite andb_true_r.
    pose proof Hwf as (Hn & Hne & _ & Hchildren).
    assert (Hpos : 0 < len items).
    { unfold len. destruct items; [congruence | simpl; lia]. }
    cbn [seq_length] in *.
    (* the descent into the child at [j] *)
    assert (Hdesc : forall j,
      0 <= j < len items ->
      (forall i, 0 <= i < j -> key_at_least leafKey (MetaSequence items) key i = false) ->
      Forall (fun x => key_lt key (leafKey x)) (leaves_from (MetaSequence items) (j + 1)) ->
      exists (c : SequenceCursor T K) (pre post : list T),
        match cursor_getChildSequence (set_idx (mkCursor par (MetaSequence items) 0) j) with
        | None => None
        | Some None => Some (set_idx (mkCursor par (MetaSequence items) 0) j)
        | Some (Some child) =>
            newCursorAtKey_loop leafKey fuel
              (Some (set_idx (mkCursor par (MetaSequence items) 0) j)) child (Some key)
              fi false
        end = Some c /\
        leaves (MetaSequence items) = pre ++ post /\
        Forall (fun x => key_lt (leafKey x) key) pre /\
        Forall (fun x => key_le key (leafKey x)) post /\
        preceding c = before_chunk (mkCursor par (MetaSequence items) 0) ++ pre /\
        remaining c = post ++ outside (mkCursor par (MetaSequence items) 0) /\
        (fi = true -> isMeta (sequence c) = false) /\
        (valid c = true -> exists x, getCurrent c = Some x /\ hd_error post = Some x) /\
        (valid c = false -> Forall (fun x => key_lt key (leafKey x)) post)).
    { intros j Hj Hlow Hhigh.
      destruct (@item_at_Some _ items j Hj) as [mt Hmt].
      assert (Hnth : nth_error items (Z.to_nat j) = Some mt).
      { unfold item_at in Hmt. destruct (j <? 0); [discriminate | exact Hmt]. }
      destruct (Hchildren _ _ Hnth) as (Hcwf & _).
      unfold cursor_getChildSequence, set_idx. cbn [sequence idx parent getChildSequence].
      rewrite Hmt.
      destruct (IH fuel (mt_child mt) (Some (mkCursor par (MetaSequence items) j)) key fi)
        as (c & pre & post & Hc & Hsplit & Hpre & Hpost & Hbefore & Hafter & Hfi & Hv & Hnv);
        [lia | exact Hcwf |].
      exists c, (leaves_upto (MetaSequence items) j ++ pre),
             (post ++ leaves_from (MetaSequence items) (j + 1)).
      split; [exact Hc|]. split.
      { rewrite (leaves_upto_from (MetaSequence items) j).
        rewrite (@leaves_from_child _ _ _ (MetaSequence items) (mt_child mt) j)
          by (simpl; rewrite Hmt; reflexivity).
        rewrite Hsplit, <- !app_assoc. reflexivity. }
      split.
      { apply Forall_app. split; [|exact Hpre]. eapply upto_below; eauto. }
      split.
      { apply Forall_app. split; [exact Hpost|].
        eapply Forall_impl; [|exact Hhigh]. intros x. apply key_lt_le. }
      split.
      { rewrite Hbefore. cbn [before_chunk parent sequence idx].
        rewrite <- app_assoc. reflexivity. }
      split.
      { rewrite Hafter. cbn [outside parent sequence idx].
        rewrite <- app_assoc. reflexivity. }
      split; [exact Hfi|]. split.
      { intros Hvalid. destruct (Hv Hvalid) as (x & Hx & Hhd). exists x.
        split; [exact Hx | apply hd_error_app_Some; exact Hhd]. }
      { intros Hvalid. apply Forall_app. split; [apply Hnv; exact Hvalid | exact Hhigh]. } }
    destruct ((r =? len items) && fi) eqn:E.
    + (* nothing at least the key, for insertion: the last child *)
      apply andb_true_iff in E. destruct E as [E ->]. apply Z.eqb_eq in E.
      replace (0 <? r) with true by (symmetry; apply Z.ltb_lt; lia).
      replace (r - 1 <? len items) with true by (symmetry; apply Z.ltb_lt; lia).
      apply Hdesc; [lia | intros i Hi; apply Hbelow; lia |].
      rewrite leaves_from_end; [constructor | simpl; lia].
    + destruct (r <? len items) eqn:Er.
      * (* the first child whose key is at least the key *)
        apply Z.ltb_lt in Er.
        destruct (@item_at_Some _ items r) as [mt Hmt]; [lia|].
        assert (Hnth : nth_error items (Z.to_nat r) = Some mt).
        { unfold item_at in Hmt. destruct (r <? 0); [discriminate | exact Hmt]. }
        apply Hdesc; [lia | intros i Hi; apply Hbelow; lia |].
        apply (@meta_from_above (S n) items key r mt Hwf); [lia | exact Hnth |].
        apply key_above with (s := MetaSequence items) (i := r).
        -- simpl. rewrite Hmt. reflexivity.
        -- apply Hat. exact Er.
      * (* nothing at least the key, for a lookup: the cursor stays here *)
        apply Z.ltb_ge in Er. assert (r = len items) as Hrlen by lia.
        assert (fi = false) as ->.
        { destruct fi; [|reflexivity]. rewrite andb_true_r in E.
          apply Z.eqb_neq in E. lia. }
        exists (mkCursor par (MetaSequence items) r), (leaves (MetaSequence items)), [].
        split; [reflexivity|]. split; [rewrite app_nil_r; reflexivity|].
        split.
        { rewrite <- (@leaves_upto_end (MetaSequence items) r) by (simpl; lia).
          eapply upto_below; eauto. }
        split; [constructor|].
        split.
        { unfold preceding. cbn [before_chunk parent sequence idx].
          rewrite leaves_upto_end by (simpl; lia). reflexivity. }
        split.
        { unfold remaining. cbn [outside parent sequence idx].
          rewrite leaves_from_end by (simpl; lia). reflexivity. }
        split; [discriminate|]. split; [|constructor].
        intros Hv. apply valid_range in Hv. unfold length in Hv.
        cbn [idx sequence seq_length] in Hv. lia.
Qed.

End KeySplit.

(** ** What the cursor of [has], [get], [set], [add] and [delete] stands on *)

Section ValueCursor.

Context {T K : Type} {ops : ValueOps K} {laws : ValueLaws K}.
Variable leafKey : T -> OrderedKey K.
Variable keyOf : T -> K.
Hypothesis leafKey_keyOf : forall y, leafKey y = newOrderedKey (keyOf y).

(** The outcome of [newCursorAtValue(seq, k, forInsertion)] with the test
    [cursor.valid && equals(cursor.getCurrentKey().value(), k)]: the cursor
    divides the leaves; the test succeeds on the item that carries [k],
    and when it fails nothing from the cursor on carries [k]. *)
Lemma cursor_at_value_splits (n : nat) (s : Sequence T K) (k : K) (fi : bool) :
  otree_wf leafKey n s ->
  exists c : SequenceCursor T K,
    newCursorAtValue leafKey s (Some k) fi false = Some c /\
    leaves s = preceding c ++ remaining c /\
    Forall (fun y => key_lt (leafKey y) (newOrderedKey k)) (preceding c) /\
    (fi = true -> isMeta (sequence c) = false) /\
    ((exists (x : T) (rest : list T),
        current_key_is leafKey c k = Some true /\ valid c = true /\
        getCurrent c = Some x /\ keyOf x = k /\ remaining c = x :: rest /\
        Forall (fun y => key_lt (newOrderedKey k) (leafKey y)) rest) \/
     (current_key_is leafKey c k = Some false /\
      Forall (fun y => key_lt (newOrderedKey k) (leafKey y)) (remaining c) /\
      (valid c = false \/
       valid c = true /\ exists x, getCurrent c = Some x /\ equals (keyOf x) k = false))).
Proof.
  intros Hwf. unfold newCursorAtValue, newCursorAtKey. cbn [option_map].
  rewrite (otree_wf_depth _ _ _ Hwf).
  destruct (@newCursorAtKey_loop_splits _ _ _ laws leafKey n n s None (newOrderedKey k) fi
              (le_n n) Hwf)
    as (c & pre & post & Hc & Hsplit & Hpre & Hpost & Hbefore & Hafter & Hfi & Hv & Hnv).
  cbn [before_chunk outside parent] in Hbefore, Hafter.
  rewrite app_nil_r in Hafter. cbn [app] in Hbefore.
  exists c. split; [exact Hc|]. rewrite Hbefore, Hafter.
  split; [exact Hsplit|]. split; [exact Hpre|]. split; [exact Hfi|].
  pose proof (otree_leaves_sorted leafKey _ _ Hwf) as Hsorted.
  rewrite Hsplit, map_app in Hsorted. apply sorted_app_r in Hsorted.
  destruct (valid c) eqn:Hvalid.
  - destruct (Hv eq_refl) as (x & Hx & Hhd).
    destruct post as [|x' rest]; [discriminate|]. injection Hhd as ->.
    assert (Hcur : current_key_is leafKey c k = Some (equals (keyOf x) k)).
    { pose proof Hx as Hx'. unfold getCurrent in Hx'. rewrite Hvalid in Hx'.
      destruct (sequence c) as [items|items] eqn:Hs; [|discriminate].
      apply (@current_key_is_found _ _ _ leafKey keyOf c items x k); auto. }
    simpl in Hsorted. apply StronglySorted_inv in Hsorted. destruct Hsorted as [_ Hall].
    rewrite Forall_map in Hall.
    apply Forall_inv in Hpost.
    destruct (equals (keyOf x) k) eqn:E.
    + left. exists x, rest. apply equals_eq in E.
      repeat split; auto.
      eapply Forall_impl; [|exact Hall]. intros y Hy. cbn beta in Hy.
      rewrite leafKey_keyOf, E in Hy. exact Hy.
    + right. split; [exact Hcur|]. split; [|right; split; [reflexivity | eauto]].
      assert (Hlt : key_lt (newOrderedKey k) (leafKey x)).
      { unfold key_lt. unfold key_le in Hpost.
        destruct (Z.eq_dec (OrderedKey_compare (newOrderedKey k) (leafKey x)) 0) as [Z0|NZ];
          [|lia].
        rewrite leafKey_keyOf in Z0. apply newOrderedKey_compare_zero in Z0.
        subst k. rewrite equals_refl in E. discriminate. }
      constructor; [exact Hlt|].
      eapply Forall_impl; [|exact Hall]. intros y Hy. cbn beta in Hy.
      apply key_lt_le_trans with (b := leafKey x); [exact Hlt | apply key_lt_le; exact Hy].
  - right. split; [unfold current_key_is; rewrite Hvalid; reflexivity|].
    split; [apply Hnv; reflexivity | left; reflexivity].
Qed.

(** In an ordered tree an item is known by its key. *)
Lemma key_determines_item (n : nat) (s : Sequence T K) (x y : T) :
  otree_wf leafKey n s -> In x (leaves s) -> In y (leaves s) -> keyOf x = keyOf y -> x = y.
Proof.
  intros Hwf Hx Hy Hk. pose proof (otree_leaves_sorted leafKey _ _ Hwf) as Hs.
  destruct (In_nth_error _ _ Hx) as [i Hi]. destruct (In_nth_error _ _ Hy) as [j Hj].
  assert (Hlt : forall a b p q,
            nth_error (leaves s) p = Some a -> nth_error (leaves s) q = Some b ->
            (p < q)%nat -> keyOf a = keyOf b -> False).
  { intros a b p q Hp Hq Hpq Hab.
    pose proof (@StronglySorted_nth _ _ _ Hs p q (leafKey a) (leafKey b)) as H.
    rewrite !nth_error_map, Hp, Hq in H. specialize (H eq_refl eq_refl Hpq).
    rewrite !leafKey_keyOf, Hab in H. exact (key_lt_irrefl H). }
  destruct (Nat.lt_trichotomy i j) as [H|[H|H]].
  - exfalso. exact (Hlt x y i j Hi Hj H Hk).
  - subst j. congruence.
  - exfalso. exact (Hlt y x j i Hj Hi H (eq_sym Hk)).
Qed.

End ValueCursor.

(** ** Lookups and mutations of maps and sets (map.js, set.js) *)

Section KeyedCollections.

Context {K V : Type} {ops : ValueOps K} {laws : ValueLaws K}.
Variable equalsV : V -> V -> bool.

(** No entry with the key [k] is among entries that are all below or all
    above [k]. *)
Lemma not_among_others {T : Type} (leafKey : T -> OrderedKey K) (k : K)
    (pre post : list T) (x : T) :
  leafKey x = newOrderedKey k ->
  Forall (fun y => key_lt (leafKey y) (newOrderedKey k)) pre ->
  Forall (fun y => key_lt (newOrderedKey k) (leafKey y)) post ->
  ~ In x (pre ++ post).
Proof.
  intros Hx Hpre Hpost Hin. rewrite Forall_forall in Hpre, Hpost.
  apply in_app_or in Hin. destruct Hin as [H|H].
  - specialize (Hpre x H). cbn beta in Hpre. rewrite Hx in Hpre.
    exact (key_lt_irrefl Hpre).
  - specialize (Hpost x H). cbn beta in Hpost. rewrite Hx in Hpost.
    exact (key_lt_irrefl Hpost).
Qed.

(** X5.  On a well-formed Map, [has(k)] is true and [get(k)] is the value
    stored under [k] when [k] is a key of the map; [has(k)] is false and
    [get(k)] is [undefined] when it is not.  Neither call throws. *)
Theorem Map_get_returns_the_value
    (n : nat) (m : Sequence (MapEntry (K := K) (V := V)) K) (k : K) :
  otree_wf mapLeafKey n m ->
  (forall v, In (k, v) (leaves m) ->
     Map_has m k = Some true /\ Map_get m k = Some (Some v)) /\
  ((forall v, ~ In (k, v) (leaves m)) ->
     Map_has m k = Some false /\ Map_get m k = Some None).
Proof.
  intros Hwf.
  destruct (@cursor_at_value_splits _ _ _ laws mapLeafKey fst (fun _ => eq_refl)
              n m k false Hwf)
    as (c & Hc & Hsplit & Hpre & _ & Hcase).
  unfold Map_has, Map_get. rewrite Hc.
  destruct Hcase as [(x & rest & Hcur & Hvalid & Hx & Hk & Hrem & Hrest)
                    |(Hcur & Hrem & Hv)].
  - assert (Hin : In x (leaves m)).
    { rewrite Hsplit, Hrem. apply in_or_app. right. left. reflexivity. }
    split.
    + intros v Hv.
      assert (x = (k, v)) as ->.
      { apply (@key_determines_item _ _ _ laws mapLeafKey fst (fun _ => eq_refl) n m);
          auto. }
      rewrite Hcur, Hvalid, Hx. cbn [fst snd]. rewrite equals_refl. auto.
    + intros Habs. exfalso. apply (Habs (snd x)). rewrite <- Hk.
      rewrite <- surjective_pairing. exact Hin.
  - split.
    + intros v Hin. exfalso. rewrite Hsplit in Hin. revert Hin.
      apply (@not_among_others _ mapLeafKey k); auto.
    + intros _. split; [exact Hcur|].
      destruct Hv as [Hv|(Hv & x & Hx & E)]; rewrite Hv; [reflexivity|].
      rewrite Hx, E. reflexivity.
Qed.

(** X6.  On a well-formed Set, [has(v)] never throws and is true exactly
    when [v] is an element of the set. *)
Theorem Set_has_is_membership (n : nat) (s : Sequence K K) (v : K) :
  otree_wf setLeafKey n s ->
  exists b : bool, Set_has s v = Some b /\ (b = true <-> In v (leaves s)).
Proof.
  intros Hwf.
  destruct (@cursor_at_value_splits _ _ _ laws setLeafKey (fun x => x) (fun _ => eq_refl)
              n s v false Hwf)
    as (c & Hc & Hsplit & Hpre & _ & Hcase).
  unfold Set_has. rewrite Hc.
  destruct Hcase as [(x & rest & Hcur & Hvalid & Hx & Hk & Hrem & Hrest)
                    |(Hcur & Hrem & Hv)].
  - exists true. split; [exact Hcur|]. split; [intros _|reflexivity].
    rewrite Hsplit, Hrem, <- Hk. apply in_or_app. right. left. reflexivity.
  - exists false. split; [exact Hcur|]. split; [discriminate|].
    intros Hin. exfalso. rewrite Hsplit in Hin. revert Hin.
    apply (@not_among_others _ setLeafKey v); auto.
Qed.

(** X7.  On a well-formed Map, [set(k, v)] either returns the map itself,
    when [k] is stored with a value that equals [v], or splices [[k, v]] in
    at a cursor of a leaf that divides the entries by key: the entries
    before the cursor have smaller keys, the [remove] entries at the cursor
    are the old entry of [k] (one if there is one, none otherwise) and the
    entries after them have larger keys. *)
Theorem Map_set_splices_at_the_key
    (n : nat) (m : Sequence (MapEntry (K := K) (V := V)) K) (k : K) (v : V) :
  otree_wf mapLeafKey n m ->
  (exists v0, In (k, v0) (leaves m) /\ equalsV v0 v = true /\
              Map_set equalsV m k v = Some ReturnThis) \/
  (exists (c : SequenceCursor (MapEntry (K := K) (V := V)) K) (r : Z),
     Map_set equalsV m k v = Some (Splice c [(k, v)] r) /\
     isMeta (sequence c) = false /\
     leaves m = preceding c ++ remaining c /\
     Forall (fun e => key_lt (mapLeafKey e) (newOrderedKey k)) (preceding c) /\
     ((r = 0 /\
       Forall (fun e => key_lt (newOrderedKey k) (mapLeafKey e)) (remaining c)) \/
      (r = 1 /\
       exists v0 rest,
         remaining c = (k, v0) :: rest /\ equalsV v0 v = false /\
         Forall (fun e => key_lt (newOrderedKey k) (mapLeafKey e)) rest))).
Proof.
  intros Hwf.
  destruct (@cursor_at_value_splits _ _ _ laws mapLeafKey fst (fun _ => eq_refl)
              n m k true Hwf)
    as (c & Hc & Hsplit & Hpre & Hleaf & Hcase).
  unfold Map_set. rewrite Hc.
  destruct Hcase as [(x & rest & Hcur & Hvalid & Hx & Hk & Hrem & Hrest)
                    |(Hcur & Hrem & Hv)].
  - rewrite Hcur, Hx. destruct x as [k' v0]. cbn [fst snd] in *. subst k'.
    destruct (equalsV v0 v) eqn:E.
    + left. exists v0. split; [|auto].
      rewrite Hsplit, Hrem. apply in_or_app. right. left. reflexivity.
    + right. exists c, 1. split; [reflexivity|]. split; [auto|].
      split; [exact Hsplit|]. split; [exact Hpre|]. right. split; [reflexivity|].
      exists v0, rest. auto.
  - rewrite Hcur. right. exists c, 0. split; [reflexivity|]. split; [auto|].
    split; [exact Hsplit|]. split; [exact Hpre|]. left. auto.
Qed.

(** X8.  On a well-formed Map, [delete(k)] returns the map itself when [k]
    is not a key, and otherwise removes one entry at a cursor that stands on
    the entry of [k]: the entries before it have smaller keys and the
    entries after it larger ones. *)
Theorem Map_delete_removes_the_entry
    (n : nat) (m : Sequence (MapEntry (K := K) (V := V)) K) (k : K) :
  otree_wf mapLeafKey n m ->
  ((forall v, ~ In (k, v) (leaves m)) /\ Map_delete m k = Some ReturnThis) \/
  (exists (c : SequenceCursor (MapEntry (K := K) (V := V)) K) (v0 : V)
          (rest : list (MapEntry (K := K) (V := V))),
     Map_delete m k = Some (Splice c [] 1) /\
     getCurrent c = Some (k, v0) /\
     remaining c = (k, v0) :: rest /\
     leaves m = preceding c ++ (k, v0) :: rest /\
     Forall (fun e => key_lt (mapLeafKey e) (newOrderedKey k)) (preceding c) /\
     Forall (fun e => key_lt (newOrderedKey k) (mapLeafKey e)) rest).
Proof.
  intros Hwf.
  destruct (@cursor_at_value_splits _ _ _ laws mapLeafKey fst (fun _ => eq_refl)
              n m k false Hwf)
    as (c & Hc & Hsplit & Hpre & _ & Hcase).
  unfold Map_delete. rewrite Hc.
  destruct Hcase as [(x & rest & Hcur & Hvalid & Hx & Hk & Hrem & Hrest)
                    |(Hcur & Hrem & Hv)].
  - rewrite Hcur. right. destruct x as [k' v0]. cbn [fst] in Hk. subst k'.
    exists c, v0, rest. repeat split; auto. rewrite Hsplit, Hrem. reflexivity.
  - rewrite Hcur. left. split; [|reflexivity].
    intros v Hin. rewrite Hsplit in Hin. revert Hin.
    apply (@not_among_others _ mapLeafKey k); auto.
Qed.

(** X9.  On a well-formed Set, [add(v)] returns the set itself when [v] is
    an element, and otherwise splices [v] in, removing nothing, at a cursor
    of a leaf with the smaller elements before it and the larger ones from
    it on. *)
Theorem Set_add_splices_in_order (n : nat) (s : Sequence K K) (v : K) :
  otree_wf setLeafKey n s ->
  (In v (leaves s) /\ Set_add s v = Some ReturnThis) \/
  (exists c : SequenceCursor K K,
     Set_add s v = Some (Splice c [v] 0) /\
     isMeta (sequence c) = false /\
     leaves s = preceding c ++ remaining c /\
     Forall (fun e => key_lt (setLeafKey e) (newOrderedKey v)) (preceding c) /\
     Forall (fun e => key_lt (newOrderedKey v) (setLeafKey e)) (remaining c)).
Proof.
  intros Hwf.
  destruct (@cursor_at_value_splits _ _ _ laws setLeafKey (fun x => x) (fun _ => eq_refl)
              n s v true Hwf)
    as (c & Hc & Hsplit & Hpre & Hleaf & Hcase).
  unfold Set_add. rewrite Hc.
  destruct Hcase as [(x & rest & Hcur & Hvalid & Hx & Hk & Hrem & Hrest)
                    |(Hcur & Hrem & Hv)].
  - rewrite Hcur. left. split; [|reflexivity].
    rewrite Hsplit, Hrem, <- Hk. apply in_or_app. right. left. reflexivity.
  - rewrite Hcur. right. exists c. auto 10.
Qed.

(** X10.  On a well-formed Set, [delete(v)] returns the set itself when [v]
    is not an element, and otherwise removes one item at a cursor that
    stands on [v], with the smaller elements before it and the larger ones
    after it. *)
Theorem Set_delete_removes_the_element (n : nat) (s : Sequence K K) (v : K) :
  otree_wf setLeafKey n s ->
  (~ In v (leaves s) /\ Set_delete s v = Some ReturnThis) \/
  (exists (c : SequenceCursor K K) (rest : list K),
     Set_delete s v = Some (Splice c [] 1) /\
     getCurrent c = Some v /\
     remaining c = v :: rest /\
     leaves s = preceding c ++ v :: rest /\
     Forall (fun e => key_lt (setLeafKey e) (newOrderedKey v)) (preceding c) /\
     Forall (fun e => key_lt (newOrderedKey v) (setLeafKey e)) rest).
Proof.
  intros Hwf.
  destruct (@cursor_at_value_splits _ _ _ laws setLeafKey (fun x => x) (fun _ => eq_refl)
              n s v false Hwf)
    as (c & Hc & Hsplit & Hpre & _ & Hcase).
  unfold Set_delete. rewrite Hc.
  destruct Hcase as [(x & rest & Hcur & Hvalid & Hx & Hk & Hrem & Hrest)
                    |(Hcur & Hrem & Hv)].
  - rewrite Hcur. right. subst x. exists c, rest. repeat split; auto.
    rewrite Hsplit, Hrem. reflexivity.
  - rewrite Hcur. left. split; [|reflexivity].
    intros Hin. rewrite Hsplit in Hin. revert Hin.
    apply (@not_among_others _ setLeafKey v); auto.
Qed.

End KeyedCollections.

(** ** The ends of a tree and a walk over all of it (ordered-sequence.js, map.js, set.js) *)

Section NullKeyCursor.

Context {T K : Type} {ops : ValueOps K}.
Variable leafKey : T -> OrderedKey K.

Lemma shaped_depth :
  forall (n : nat) (s : Sequence T K), shaped n s -> depth_of s = n.
Proof.
  induction n as [|n IH]; intros s Hs; [destruct Hs|].
  destruct s as [items|items]; simpl in Hs.
  - subst n. reflexivity.
  - destruct Hs as (Hn & Hne & Hall). simpl. f_equal.
    rewrite Forall_forall in Hall.
    assert (Hd : forall mt, In mt items -> depth_of (mt_child mt) = n).
    { intros mt Hmt. apply IH. apply (Hall mt Hmt). }
    clear Hall. induction items as [|mt rest IHr]; [congruence|].
    rewrite (Hd mt (or_introl eq_refl)).
    destruct rest as [|mt' rest']; [apply Nat.max_0_r|].
    rewrite IHr; [apply Nat.max_id | discriminate | intros; apply Hd; right; assumption].
Qed.

(** Without a key the descent takes the first child at every level: the
    cursor stands on the first leaf of the tree. *)
Lemma newCursorAtKey_loop_first :
  forall (n fuel : nat) (s : Sequence T K) (par : option (SequenceCursor T K)) (fi : bool),
    (n <= fuel)%nat ->
    cursor_ok n (mkCursor par s 0) ->
    exists c : SequenceCursor T K,
      newCursorAtKey_loop leafKey fuel par s None fi false = Some c /\
      cursor_ok 1 c /\
      remaining c = leaves s ++ outside (mkCursor par s 0) /\
      (0 < seq_length s -> valid c = true) /\
      (seq_length s = 0 -> valid c = false /\ leaves s = []).
Proof.
  induction n as [|n IH]; intros fuel s par fi Hfuel Hok.
  { apply cursor_ok_shaped in Hok. destruct Hok. }
  destruct fuel as [|fuel]; [lia|].
  pose proof (cursor_ok_shaped _ _ Hok) as Hs. cbn [sequence] in Hs.
  cbn [newCursorAtKey_loop]. unfold newSequenceCursor. cbn [Z.ltb Z.compare].
  unfold cursor_getChildSequence. cbn [sequence idx].
  destruct s as [items|items].
  - simpl in Hs. subst n. cbn [getChildSequence].
    exists (mkCursor par (LeafSequence items) 0).
    split; [reflexivity|]. split; [exact Hok|]. split; [reflexivity|].
    unfold valid, length. cbn [idx sequence seq_length]. split.
    + intros H. apply andb_true_iff. split; [reflexivity | apply Z.ltb_lt; exact H].
    + intros H. split.
      * rewrite H. reflexivity.
      * destruct items; [reflexivity | unfold len in H; simpl in H; lia].
  - pose proof Hs as (Hn & Hne & Hall).
    destruct items as [|mt rest]; [congruence|].
    cbn [getChildSequence item_at Z.ltb Z.compare Z.to_nat nth_error].
    apply Forall_inv in Hall. destruct Hall as [Hlen Hchild].
    destruct (IH fuel (mt_child mt) (Some (mkCursor par (MetaSequence (mt :: rest)) 0)) fi)
      as (c & Hc & Hokc & Hrem & Hvalid & _); [lia | split; [reflexivity | exact Hok] |].
    exists c. split; [exact Hc|]. split; [exact Hokc|]. split.
    + rewrite Hrem. cbn [outside parent sequence idx].
      rewrite <- (leaves_from_0 (MetaSequence (mt :: rest))).
      rewrite (@leaves_from_child _ _ _ (MetaSequence (mt :: rest)) (mt_child mt) 0 eq_refl).
      rewrite <- !app_assoc. reflexivity.
    + split; [intros _; apply Hvalid; exact Hlen|].
      intros H. exfalso. cbn [seq_length] in H. unfold len in H. simpl in H. lia.
Qed.

Lemma hd_error_rev {A : Type} (l : list A) :
  hd_error (rev l) = item_at l (len l - 1).
Proof.
  destruct l as [|a0 l0]; [reflexivity|].
  destruct (@exists_last _ (a0 :: l0)) as [l' [a E]]; [discriminate|]. rewrite E.
  rewrite rev_app_distr. simpl. unfold item_at, len. rewrite length_app. simpl.
    replace (Z.of_nat (Datatypes.length l' + 1) - 1 <? 0) with false
      by (symmetry; apply Z.ltb_ge; lia).
    replace (Z.to_nat (Z.of_nat (Datatypes.length l' + 1) - 1))
      with (Datatypes.length l' + 0)%nat by lia.
  rewrite nth_error_app2 by lia.
  replace (Datatypes.length l' + 0 - Datatypes.length l')%nat with 0%nat by lia.
  reflexivity.
Qed.

(** With [last] the descent takes the last child at every level: the
    cursor stands on the last leaf of the tree. *)
Lemma newCursorAtKey_loop_last :
  forall (n fuel : nat) (s : Sequence T K) (par : option (SequenceCursor T K)) (fi : bool),
    (n <= fuel)%nat ->
    shaped n s ->
    exists c : SequenceCursor T K,
      newCursorAtKey_loop leafKey fuel par s None fi true = Some c /\
      ((valid c = true /\ 0 < seq_length s /\
        exists x, getCurrent c = Some x /\ hd_error (rev (leaves s)) = Some x) \/
       (valid c = false /\ seq_length s = 0 /\ leaves s = [])).
Proof.
  induction n as [|n IH]; intros fuel s par fi Hfuel Hs; [destruct Hs|].
  destruct fuel as [|fuel]; [lia|].
  cbn [newCursorAtKey_loop]. unfold newSequenceCursor. cbn [Z.ltb Z.compare].
  unfold cursor_getChildSequence. cbn [sequence idx].
  destruct s as [items|items].
  - cbn [getChildSequence seq_length]. eexists. split; [reflexivity|].
    unfold valid, getCurrent, valid, length. cbn [idx sequence seq_length leaves].
    destruct items as [|a rest].
    + right. repeat split.
    + left. set (items := a :: rest).
      assert (Hlen : 0 < len items) by (unfold len, items; simpl; lia).
      replace (Z.max 0 (len items + -1)) with (len items - 1) by lia.
      replace (0 <=? len items - 1) with true by (symmetry; apply Z.leb_le; lia).
      replace (len items - 1 <? len items) with true by (symmetry; apply Z.ltb_lt; lia).
      split; [reflexivity|]. split; [exact Hlen|].
      destruct (@item_at_Some _ items (len items - 1)) as [x Hx]; [lia|].
      exists x. cbn [andb]. split; [exact Hx|]. rewrite hd_error_rev. exact Hx.
  - pose proof Hs as (Hn & Hne & Hall). cbn [seq_length].
    assert (Hlen : 0 < len items).
    { unfold len. destruct items; [congruence | simpl; lia]. }
    replace (Z.max 0 (len items + -1)) with (len items - 1) by lia.
    destruct (@shaped_child _ _ _ n (MetaSequence items) (len items - 1) Hs)
      as (child & Hchild & Hshape & Hpos); [lia | simpl; lia |].
    rewrite Hchild.
    destruct (IH fuel child (Some (mkCursor par (MetaSequence items) (len items - 1))) fi)
      as (c & Hc & Hcase); [lia | exact Hshape |].
    exists c. split; [exact Hc|]. left.
    destruct Hcase as [(Hv & _ & x & Hx & Hhd)|(_ & H0 & _)]; [|lia].
    split; [exact Hv|]. split; [exact Hlen|]. exists x. split; [exact Hx|].
    rewrite (leaves_upto_from (MetaSequence items) (len items - 1)).
    rewrite (leaves_from_child (MetaSequence items) (len items - 1) Hchild).
    rewrite (@leaves_from_end _ _ _ (MetaSequence items) (len items - 1 + 1))
      by (simpl; lia).
    rewrite app_nil_r, rev_app_distr. apply hd_error_app_Some. exact Hhd.
Qed.

Lemma visit_all {St : Type} (cb : St -> T -> Z -> St * bool) (f : St -> T -> St) :
  (forall st x i, cb st x i = (f st x, false)) ->
  forall (l : list T) (i : Z) (st : St), visit cb l i st = fold_left f l st.
Proof.
  intros Hcb. induction l as [|x l IH]; intros i st; [reflexivity|].
  cbn [visit fold_left]. rewrite Hcb. apply IH.
Qed.

(** A walk with [iter] from the cursor of the null key covers the tree. *)
Lemma iter_from_the_start {St : Type} (cb : St -> T -> Z -> St * bool) (n fuel : nat)
    (s : Sequence T K) (st : St) :
  shaped n s -> (Datatypes.length (leaves s) < fuel)%nat ->
  exists c c',
    newCursorAtKey leafKey s None false false = Some c /\
    iter fuel cb c 0 st = Some (c', visit cb (leaves s) 0 st).
Proof.
  intros Hs Hfuel. unfold newCursorAtKey. rewrite (shaped_depth _ _ Hs).
  destruct (@newCursorAtKey_loop_first n n s None false (le_n n) Hs)
    as (c & Hc & Hok & Hrem & Hvalid & Hempty).
  cbn [outside parent] in Hrem. rewrite app_nil_r in Hrem.
  exists c. rewrite <- Hrem.
  destruct (@iter_walks_the_rest _ _ _ St cb fuel c 0 st Hok) as [c' Hc'].
  - destruct (Z.eq_dec (seq_length s) 0) as [E|E].
    + right. rewrite Hrem. apply Hempty. exact E.
    + left. apply Hvalid. pose proof (seq_length_nonneg s). lia.
  - rewrite Hrem. exact Hfuel.
  - exists c'. auto.
Qed.

(** The same, as the methods of the collections call it. *)
Lemma walk_from_the_start {St : Type} (cb : St -> T -> Z -> St * bool) (n fuel : nat)
    (s : Sequence T K) (st : St) :
  shaped n s -> (Datatypes.length (leaves s) < fuel)%nat ->
  match newCursorAtKey leafKey s None false false with
  | None => None
  | Some cursor => option_map snd (iter fuel cb cursor 0 st)
  end = Some (visit cb (leaves s) 0 st).
Proof.
  intros Hs Hfuel.
  destruct (@iter_from_the_start St cb n fuel s st Hs Hfuel) as (c & c' & -> & ->).
  reflexivity.
Qed.

End NullKeyCursor.

Section EndsAndWalks.

Context {K V : Type} {ops : ValueOps K}.

(** [Map._firstOrLast(last)]: [undefined] (here [Some None]) when the
    cursor is not valid. *)
Definition Map_firstOrLast (m : Sequence (MapEntry (K := K) (V := V)) K) (last : bool)
    : option (option (MapEntry (K := K) (V := V))) :=
  match newCursorAtKey mapLeafKey m None false last with
  | None => None
  | Some cursor =>
      if valid cursor then
        match getCurrent cursor with
        | Some entry => Some (Some entry)
        | None => None
        end
      else Some None
  end.

(** [Map.first()] and [Map.last()] *)
Definition Map_first (m : Sequence (MapEntry (K := K) (V := V)) K) := Map_firstOrLast m false.
Definition Map_last (m : Sequence (MapEntry (K := K) (V := V)) K) := Map_firstOrLast m true.

(** [Set._firstOrLast(last)]: [null] (here [Some None]) when the cursor is
    not valid. *)
Definition Set_firstOrLast (s : Sequence K K) (last : bool) : option (option K) :=
  match newCursorAtKey setLeafKey s None false last with
  | None => None
  | Some cursor =>
      if valid cursor then
        match getCurrent cursor with
        | Some v => Some (Some v)
        | None => None
        end
      else Some None
  end.

(** [Set.first()] and [Set.last()] *)
Definition Set_first (s : Sequence K K) := Set_firstOrLast s false.
Definition Set_last (s : Sequence K K) := Set_firstOrLast s true.

(** [Map.forEach(cb)]: the callback of [iter] calls
    [cb(entry[VALUE], entry[KEY])] and returns false.  The effect of [cb] is
    a state it threads; [fuel] bounds the turns of the loop of [iter]. *)
Definition Map_forEach {St : Type} (fuel : nat) (cb : St -> V -> K -> St)
    (m : Sequence (MapEntry (K := K) (V := V)) K) (st : St) : option St :=
  match newCursorAtKey mapLeafKey m None false false with
  | None => None
  | Some cursor =>
      option_map snd
        (iter fuel (fun st entry (_ : Z) => (cb st (snd entry) (fst entry), false))
           cursor 0 st)
  end.

(** [Set.forEach(cb)] *)
Definition Set_forEach {St : Type} (fuel : nat) (cb : St -> K -> St)
    (s : Sequence K K) (st : St) : option St :=
  match newCursorAtKey setLeafKey s None false false with
  | None => None
  | Some cursor =>
      option_map snd (iter fuel (fun st v (_ : Z) => (cb st v, false)) cursor 0 st)
  end.

(** [Set.map(cb)]: [values.push(cb(v))] for every element, then the array
    of the results. *)
Definition Set_map {R : Type} (fuel : nat) (cb : K -> R) (s : Sequence K K)
    : option (list R) :=
  match newCursorAtKey setLeafKey s None false false with
  | None => None
  | Some cursor =>
      option_map snd
        (iter fuel (fun values v (_ : Z) => (values ++ [cb v], false)) cursor 0 [])
  end.

End EndsAndWalks.

Section EndsAndWalksSpec.

Context {K V : Type} {ops : ValueOps K} {laws : ValueLaws K}.

Lemma sorted_app_cross {A : Type} (R : A -> A -> Prop) (a b : list A) :
  StronglySorted R (a ++ b) -> forall x y, In x a -> In y b -> R x y.
Proof.
  induction a as [|z a IH]; intros Hs x y Hx Hy; [destruct Hx|].
  simpl in Hs. apply StronglySorted_inv in Hs. destruct Hs as [Hs Hall].
  destruct Hx as [->|Hx]; [|apply IH; auto].
  rewrite Forall_forall in Hall. apply Hall. apply in_or_app. right. exact Hy.
Qed.

(** The first leaf of an ordered tree has the least key and the last leaf
    the greatest. *)
Lemma ends_are_extremes {T : Type} (leafKey : T -> OrderedKey K) (n : nat)
    (s : Sequence T K) (lo hi e : T) :
  otree_wf leafKey n s ->
  hd_error (leaves s) = Some lo -> hd_error (rev (leaves s)) = Some hi ->
  In e (leaves s) ->
  key_le (leafKey lo) (leafKey e) /\ key_le (leafKey e) (leafKey hi).
Proof.
  intros Hwf Hlo Hhi He.
  pose proof (@otree_leaves_sorted _ _ _ laws leafKey n s Hwf) as Hs. split.
  - destruct (leaves s) as [|x rest]; [discriminate|]. injection Hlo as ->.
    simpl in Hs. apply StronglySorted_inv in Hs. destruct Hs as [_ Hall].
    destruct He as [->|He].
    + unfold key_le. rewrite OrderedKey_compare_refl. lia.
    + rewrite Forall_forall in Hall. apply key_lt_le. apply Hall.
      apply in_map. exact He.
  - assert (Hl : leaves s = rev (rev (leaves s))) by (symmetry; apply rev_involutive).
    destruct (rev (leaves s)) as [|x t]; [discriminate|]. injection Hhi as ->.
    simpl in Hl. rewrite Hl in Hs, He. rewrite map_app in Hs.
    apply in_app_or in He. destruct He as [He|[->|[]]].
    + apply key_lt_le. apply (@sorted_app_cross _ _ _ _ Hs); [apply in_map; exact He | left; reflexivity].
    + unfold key_le. rewrite OrderedKey_compare_refl. lia.
Qed.

(** What [_firstOrLast] returns on a tree without empty chunks. *)
Lemma firstOrLast_ends {T : Type} (leafKey : T -> OrderedKey K) (n : nat)
    (s : Sequence T K) :
  shaped n s ->
  (exists c, newCursorAtKey leafKey s None false false = Some c /\
     (if valid c then match getCurrent c with Some x => Some (Some x) | None => None end
      else Some None) = Some (hd_error (leaves s))) /\
  (exists c, newCursorAtKey leafKey s None false true = Some c /\
     (if valid c then match getCurrent c with Some x => Some (Some x) | None => None end
      else Some None) = Some (hd_error (rev (leaves s)))).
Proof.
  intros Hs. unfold newCursorAtKey. rewrite (shaped_depth _ _ Hs). split.
  - destruct (@newCursorAtKey_loop_first _ _ _ leafKey n n s None false (le_n n) Hs)
      as (c & Hc & Hok & Hrem & Hvalid & Hempty).
    cbn [outside parent] in Hrem. rewrite app_nil_r in Hrem.
    exists c. split; [exact Hc|].
    destruct (Z.eq_dec (seq_length s) 0) as [E|E].
    + destruct (Hempty E) as [-> ->]. reflexivity.
    + pose proof (seq_length_nonneg s).
      assert (Hv : valid c = true) by (apply Hvalid; lia). rewrite Hv.
      destruct (current_of_valid c Hok Hv) as (x & -> & Hx).
      rewrite <- Hrem, Hx. reflexivity.
  - destruct (@newCursorAtKey_loop_last _ _ _ leafKey n n s None false (le_n n) Hs)
      as (c & Hc & Hcase).
    exists c. split; [exact Hc|].
    destruct Hcase as [(-> & _ & x & -> & ->)|(-> & _ & ->)]; reflexivity.
Qed.

Lemma ends_of_a_tree {T : Type} (l : list T) :
  l = [] \/ exists lo hi, hd_error l = Some lo /\ hd_error (rev l) = Some hi /\
                          In lo l /\ In hi l.
Proof.
  destruct l as [|x rest]; [left; reflexivity|]. right.
  destruct (rev (x :: rest)) as [|y t] eqn:E.
  - apply (f_equal (@Datatypes.length T)) in E. rewrite length_rev in E. discriminate.
  - exists x, y. split; [reflexivity|]. split; [reflexivity|]. split; [left; reflexivity|].
    apply in_rev. rewrite E. left. reflexivity.
Qed.

(** X11.  On a well-formed Map without empty chunks, [first()] and [last()]
    are [undefined] when the map is empty; otherwise they are entries of
    the map, [first()] has the least key and [last()] the greatest. *)
Theorem Map_first_and_last_are_the_extremes
    (n : nat) (m : Sequence (MapEntry (K := K) (V := V)) K) :
  shaped n m -> otree_wf mapLeafKey n m ->
  (leaves m = [] /\ Map_first m = Some None /\ Map_last m = Some None) \/
  (exists lo hi : MapEntry (K := K) (V := V),
     Map_first m = Some (Some lo) /\ Map_last m = Some (Some hi) /\
     In lo (leaves m) /\ In hi (leaves m) /\
     forall e, In e (leaves m) ->
       key_le (mapLeafKey lo) (mapLeafKey e) /\ key_le (mapLeafKey e) (mapLeafKey hi)).
Proof.
  intros Hs Hwf.
  destruct (firstOrLast_ends mapLeafKey n m Hs) as [(c1 & Hc1 & H1) (c2 & Hc2 & H2)].
  unfold Map_first, Map_last, Map_firstOrLast. rewrite Hc1, Hc2, H1, H2.
  destruct (ends_of_a_tree (leaves m)) as [E|(lo & hi & Hlo & Hhi & Ilo & Ihi)].
  - left. rewrite E. auto.
  - right. exists lo, hi. rewrite Hlo, Hhi.
    split; [reflexivity|]. split; [reflexivity|]. split; [exact Ilo|]. split; [exact Ihi|].
    intros e He. eapply (@ends_are_extremes _ mapLeafKey); eassumption.
Qed.

(** X12.  On a well-formed Set without empty chunks, [first()] and [last()]
    are [null] when the set is empty; otherwise they are the least and the
    greatest element. *)
Theorem Set_first_and_last_are_the_extremes (n : nat) (s : Sequence K K) :
  shaped n s -> otree_wf setLeafKey n s ->
  (leaves s = [] /\ Set_first s = Some None /\ Set_last s = Some None) \/
  (exists lo hi : K,
     Set_first s = Some (Some lo) /\ Set_last s = Some (Some hi) /\
     In lo (leaves s) /\ In hi (leaves s) /\
     forall e, In e (leaves s) ->
       key_le (setLeafKey lo) (setLeafKey e) /\ key_le (setLeafKey e) (setLeafKey hi)).
Proof.
  intros Hs Hwf.
  destruct (firstOrLast_ends setLeafKey n s Hs) as [(c1 & Hc1 & H1) (c2 & Hc2 & H2)].
  unfold Set_first, Set_last, Set_firstOrLast. rewrite Hc1, Hc2, H1, H2.
  destruct (ends_of_a_tree (leaves s)) as [E|(lo & hi & Hlo & Hhi & Ilo & Ihi)].
  - left. rewrite E. auto.
  - right. exists lo, hi. rewrite Hlo, Hhi.
    split; [reflexivity|]. split; [reflexivity|]. split; [exact Ilo|]. split; [exact Ihi|].
    intros e He. eapply (@ends_are_extremes _ setLeafKey); eassumption.
Qed.

(** X13.  [Map.forEach(cb)] calls [cb(value, key)] once for every entry of
    the map, in the order of the leaves, whatever the chunking. *)
Theorem Map_forEach_visits_every_entry {St : Type} (cb : St -> V -> K -> St)
    (n fuel : nat) (m : Sequence (MapEntry (K := K) (V := V)) K) (st : St) :
  shaped n m -> (Datatypes.length (leaves m) < fuel)%nat ->
  Map_forEach fuel cb m st =
  Some (fold_left (fun st entry => cb st (snd entry) (fst entry)) (leaves m) st).
Proof.
  intros Hs Hfuel.
  unfold Map_forEach.
  etransitivity; [apply (@walk_from_the_start _ _ _ mapLeafKey) with (n := n); assumption|].
  f_equal.
  apply visit_all. reflexivity.
Qed.

(** X14.  [Set.forEach(cb)] calls [cb] once for every element of the set,
    in the order of the leaves. *)
Theorem Set_forEach_visits_every_element {St : Type} (cb : St -> K -> St)
    (n fuel : nat) (s : Sequence K K) (st : St) :
  shaped n s -> (Datatypes.length (leaves s) < fuel)%nat ->
  Set_forEach fuel cb s st = Some (fold_left cb (leaves s) st).
Proof.
  intros Hs Hfuel.
  unfold Set_forEach.
  etransitivity; [apply (@walk_from_the_start _ _ _ setLeafKey) with (n := n); assumption|].
  f_equal.
  apply visit_all. reflexivity.
Qed.

Lemma fold_left_push {A R : Type} (f : A -> R) (l : list A) (acc : list R) :
  fold_left (fun values v => values ++ [f v]) l acc = acc ++ map f l.
Proof.
  revert acc. induction l as [|x l IH]; intros acc; simpl.
  - rewrite app_nil_r. reflexivity.
  - rewrite IH, <- app_assoc. reflexivity.
Qed.

(** X15.  [Set.map(cb)] is the array of the results of [cb] on the
    elements of the set, in the order of the leaves. *)
Theorem Set_map_maps_the_elements {R : Type} (cb : K -> R)
    (n fuel : nat) (s : Sequence K K) :
  shaped n s -> (Datatypes.length (leaves s) < fuel)%nat ->
  Set_map fuel cb s = Some (map cb (leaves s)).
Proof.
  intros Hs Hfuel.
  unfold Set_map.
  etransitivity; [apply (@walk_from_the_start _ _ _ setLeafKey) with (n := n); assumption|].
  f_equal.
  etransitivity;
    [apply visit_all with (f := fun values v => values ++ [cb v]); reflexivity|].
  exact (fold_left_push cb (leaves s) []).
Qed.

End EndsAndWalksSpec.

(** *** The calls on the Map and the Set of the examples *)

Lemma map_tree_shaped : shaped 2 map_tree.
Proof.
  simpl. split; [discriminate|]. split; [discriminate|]. repeat constructor.
Defined.

Lemma set_tree_shaped : shaped 2 set_tree.
Proof.
  simpl. split; [discriminate|]. split; [discriminate|]. repeat constructor.
Defined.

Example lookups_evaluated :
  Map_get map_tree 5 = Some (Some 50) /\ Map_get map_tree 3 = Some None /\
  Map_get map_tree 9 = Some None /\
  Set_has set_tree 40 = Some true /\ Set_has set_tree 30 = Some false /\
  Map_first map_tree = Some (Some (1, 10)) /\ Map_last map_tree = Some (Some (5, 50)) /\
  Set_first set_tree = Some (Some 10) /\ Set_last set_tree = Some (Some 50) /\
  Map_first (V := Z) (LeafSequence []) = Some None /\
  Set_last (K := Z) (LeafSequence []) = Some None /\
  Map_forEach 5 (fun st v k => st ++ [(k, v)]) map_tree [] =
    Some [(1, 10); (2, 20); (4, 40); (5, 50)] /\
  Set_map 5 (fun v => v + 1) set_tree = Some [11; 21; 41; 51].
Proof. vm_compute. repeat split. Qed.

Lemma Map_get_returns_the_value_witness :
  (Map_has map_tree 4 = Some true /\ Map_get map_tree 4 = Some (Some 40)) /\
  (Map_has map_tree 3 = Some false /\ Map_get map_tree 3 = Some None).
Proof.
  split.
  - apply (proj1 (@Map_get_returns_the_value Z Z NumberOps NumberLaws 2 map_tree 4
                    map_tree_wf) 40).
    simpl. tauto.
  - apply (proj2 (@Map_get_returns_the_value Z Z NumberOps NumberLaws 2 map_tree 3
                    map_tree_wf)).
    intros v Hin. simpl in Hin.
    repeat (destruct Hin as [Hin|Hin]; [discriminate Hin|]). exact Hin.
Defined.

Lemma Set_has_is_membership_witness :
  exists b : bool, Set_has set_tree 40 = Some b /\ (b = true <-> In 40 (leaves set_tree)).
Proof. exact (@Set_has_is_membership Z NumberOps NumberLaws 2 set_tree 40 set_tree_wf). Defined.

Lemma Map_set_splices_at_the_key_witness :
  (exists v0, In (3, v0) (leaves map_tree) /\ Z.eqb v0 30 = true /\
              Map_set Z.eqb map_tree 3 30 = Some ReturnThis) \/
  (exists (c : SequenceCursor (MapEntry (K := Z) (V := Z)) Z) (r : Z),
     Map_set Z.eqb map_tree 3 30 = Some (Splice c [(3, 30)] r) /\
     isMeta (sequence c) = false /\
     leaves map_tree = preceding c ++ remaining c /\
     Forall (fun e => key_lt (mapLeafKey e) (newOrderedKey 3)) (preceding c) /\
     ((r = 0 /\
       Forall (fun e => key_lt (newOrderedKey 3) (mapLeafKey e)) (remaining c)) \/
      (r = 1 /\
       exists v0 rest,
         remaining c = (3, v0) :: rest /\ Z.eqb v0 30 = false /\
         Forall (fun e => key_lt (newOrderedKey 3) (mapLeafKey e)) rest))).
Proof.
  exact (@Map_set_splices_at_the_key Z Z NumberOps NumberLaws Z.eqb 2 map_tree 3 30
           map_tree_wf).
Defined.

Lemma Map_delete_removes_the_entry_witness :
  ((forall v, ~ In (4, v) (leaves map_tree)) /\ Map_delete map_tree 4 = Some ReturnThis) \/
  (exists (c : SequenceCursor (MapEntry (K := Z) (V := Z)) Z) (v0 : Z)
          (rest : list (MapEntry (K := Z) (V := Z))),
     Map_delete map_tree 4 = Some (Splice c [] 1) /\
     getCurrent c = Some (4, v0) /\
     remaining c = (4, v0) :: rest /\
     leaves map_tree = preceding c ++ (4, v0) :: rest /\
     Forall (fun e => key_lt (mapLeafKey e) (newOrderedKey 4)) (preceding c) /\
     Forall (fun e => key_lt (newOrderedKey 4) (mapLeafKey e)) rest).
Proof.
  exact (@Map_delete_removes_the_entry Z Z NumberOps NumberLaws 2 map_tree 4 map_tree_wf).
Defined.

Lemma Set_add_splices_in_order_witness :
  (In 30 (leaves set_tree) /\ Set_add set_tree 30 = Some ReturnThis) \/
  (exists c : SequenceCursor Z Z,
     Set_add set_tree 30 = Some (Splice c [30] 0) /\
     isMeta (sequence c) = false /\
     leaves set_tree = preceding c ++ remaining c /\
     Forall (fun e => key_lt (setLeafKey e) (newOrderedKey 30)) (preceding c) /\
     Forall (fun e => key_lt (newOrderedKey 30) (setLeafKey e)) (remaining c)).
Proof.
  exact (@Set_add_splices_in_order Z NumberOps NumberLaws 2 set_tree 30 set_tree_wf).
Defined.

Lemma Set_delete_removes_the_element_witness :
  (~ In 20 (leaves set_tree) /\ Set_delete set_tree 20 = Some ReturnThis) \/
  (exists (c : SequenceCursor Z Z) (rest : list Z),
     Set_delete set_tree 20 = Some (Splice c [] 1) /\
     getCurrent c = Some 20 /\
     remaining c = 20 :: rest /\
     leaves set_tree = preceding c ++ 20 :: rest /\
     Forall (fun e => key_lt (setLeafKey e) (newOrderedKey 20)) (preceding c) /\
     Forall (fun e => key_lt (newOrderedKey 20) (setLeafKey e)) rest).
Proof.
  exact (@Set_delete_removes_the_element Z NumberOps NumberLaws 2 set_tree 20 set_tree_wf).
Defined.

Lemma Map_first_and_last_are_the_extremes_witness :
  (leaves map_tree = [] /\ Map_first map_tree = Some None /\
   Map_last map_tree = Some None) \/
  (exists lo hi : MapEntry (K := Z) (V := Z),
     Map_first map_tree = Some (Some lo) /\ Map_last map_tree = Some (Some hi) /\
     In lo (leaves map_tree) /\ In hi (leaves map_tree) /\
     forall e, In e (leaves map_tree) ->
       key_le (mapLeafKey lo) (mapLeafKey e) /\ key_le (mapLeafKey e) (mapLeafKey hi)).
Proof.
  exact (@Map_first_and_last_are_the_extremes Z Z NumberOps NumberLaws 2 map_tree
           map_tree_shaped map_tree_wf).
Defined.

Lemma Set_first_and_last_are_the_extremes_witness :
  (leaves set_tree = [] /\ Set_first set_tree = Some None /\
   Set_last set_tree = Some None) \/
  (exists lo hi : Z,
     Set_first set_tree = Some (Some lo) /\ Set_last set_tree = Some (Some hi) /\
     In lo (leaves set_tree) /\ In hi (leaves set_tree) /\
     forall e, In e (leaves set_tree) ->
       key_le (setLeafKey lo) (setLeafKey e) /\ key_le (setLeafKey e) (setLeafKey hi)).
Proof.
  exact (@Set_first_and_last_are_the_extremes Z NumberOps NumberLaws 2 set_tree
           set_tree_shaped set_tree_wf).
Defined.

Lemma Map_forEach_visits_every_entry_witness :
  Map_forEach 5 (fun (st : list (Z * Z)) v k => st ++ [(k, v)]) map_tree [] =
  Some (fold_left (fun (st : list (Z * Z)) entry => st ++ [(fst entry, snd entry)])
          (leaves map_tree) []).
Proof.
  apply (@Map_forEach_visits_every_entry Z Z NumberOps (list (Z * Z))
           (fun st v k => st ++ [(k, v)]) 2 5 map_tree [] map_tree_shaped).
  simpl. lia.
Defined.

Lemma Set_forEach_visits_every_element_witness :
  Set_forEach 5 (fun (st : Z) v => st + v) set_tree 0 =
  Some (fold_left (fun (st : Z) v => st + v) (leaves set_tree) 0).
Proof.
  apply (@Set_forEach_visits_every_element Z NumberOps Z (fun st v => st + v) 2 5
           set_tree 0 set_tree_shaped).
  simpl. lia.
Defined.

Lemma Set_map_maps_the_elements_witness :
  Set_map 5 (fun v => v + 1) set_tree = Some (map (fun v => v + 1) (leaves set_tree)).
Proof.
  apply (@Set_map_maps_the_elements Z NumberOps Z (fun v => v + 1) 2 5 set_tree
           set_tree_shaped).
  simpl. lia.
Defined.

(** * The size of a collection and the slices of a list (collection.js, list.js, meta-sequence.js, leaf-sequence.js) *)

Section Counting.

Context {T K : Type} {ops : ValueOps K}.

(** [Collection.isEmpty()]: [!this.sequence.isMeta && this.sequence.items.length === 0]. *)
Definition isEmpty (s : Sequence T K) : bool :=
  negb (isMeta s) && (seq_length s =? 0).

Lemma shaped_leaves_nonempty :
  forall (n : nat) (s : Sequence T K),
    shaped n s -> 0 < seq_length s -> leaves s <> [].
Proof.
  induction n as [|n IH]; intros s Hs Hlen; [destruct Hs|].
  destruct s as [items|items]; simpl in Hs.
  - simpl in *. destruct items; [unfold len in Hlen; simpl in Hlen; lia | discriminate].
  - destruct Hs as (Hn & Hne & Hall). destruct items as [|mt rest]; [congruence|].
    apply Forall_inv in Hall. destruct Hall as [Hpos Hchild].
    rewrite leaves_meta. unfold leaves_of_tuples. cbn [flat_map].
    intros H. apply app_eq_nil in H. destruct H as [H _].
    exact (IH _ Hchild Hpos H).
Qed.

(** X16.  On a tree whose tuples count the leaves below them, [size] of a
    Map or Set ([length] of a List or Blob) is the number of leaves; when
    moreover no chunk below the root is empty, [isEmpty()] is true exactly
    when there is no leaf. *)
Theorem size_counts_the_leaves (n : nat) (s : Sequence T K) :
  tree_wf n s ->
  size s = Some (len (leaves s)) /\
  (shaped n s -> (isEmpty s = true <-> leaves s = [])).
Proof.
  intros Hwf. split; [exact (numLeaves_wf _ _ Hwf)|].
  intros Hs. unfold isEmpty. destruct s as [items|items]; cbn [isMeta negb andb].
  - simpl. unfold len. destruct items; simpl; split; congruence || reflexivity || lia.
  - split; [discriminate|]. intros H. exfalso.
    refine (shaped_leaves_nonempty _ _ Hs _ H).
    destruct n as [|n]; [destruct Hs|]. destruct Hs as (_ & Hne & _).
    simpl. unfold len. destruct items; [congruence | simpl; lia].
Qed.

End Counting.

Section Ranges.

Context {T K : Type} {ops : ValueOps K}.

(** The test [typeof v === 'number'] with the number it finds: the keys of
    the meta tuples of lists and blobs are numbers. *)
Variable asNumber : K -> option Z.

(** [OrderedKey.numberValue()]: [invariant(typeof this.v === 'number')].
    A hash-ordered key holds a [ValueBase] or [null], never a number. *)
Definition numberValue (k : OrderedKey K) : option Z :=
  match k with
  | ByValue v => asNumber v
  | ByHash _ _ => None
  end.

(** [items.slice(start, end)] for [0 <= start] and [0 <= end]. *)
Definition slice {A : Type} (l : list A) (start end_ : Z) : list A :=
  firstn (Z.to_nat (end_ - start)) (skipn (Z.to_nat start) l).

(** The loop of [MetaSequence.range]: [todo] tuples are left from index
    [i]; [child_range] is [range] of a child.  The ranges of the children
    are concatenated in order; a child range that fails fails the whole. *)
Fixpoint range_children (child_range : Sequence T K -> Z -> Z -> option (list T))
    (items : list (MetaTuple K (Sequence T K))) (todo : nat) (i start end_ : Z)
    : option (list T) :=
  match todo with
  | O => Some []
  | S todo' =>
      if start <? end_ then
        match cumulativeNumberOfLeaves (MetaSequence items) i, item_at items i with
        | Some cum, Some mt =>
            match numberValue (mt_key mt) with
            | None => None
            | Some seqLength =>
                if start <? cum then
                  let seqStart := cum - seqLength in
                  let childStart := start - seqStart in
                  let childEnd := Z.min seqLength (end_ - seqStart) in
                  match child_range (mt_child mt) childStart childEnd,
                        range_children child_range items todo' (i + 1)
                          (start + (childEnd - childStart)) end_ with
                  | Some r, Some rest => Some (r ++ rest)
                  | _, _ => None
                  end
                else range_children child_range items todo' (i + 1) start end_
            end
        | _, _ => None
        end
      else Some []
  end.

(** [range(start, end)]: of a leaf ([leaf-sequence.js]),
    [invariant(start >= 0 && end >= 0 && end <= this._items.length)] and the
    slice; of a meta sequence,
    [invariant(start >= 0 && end >= 0 && end >= start)] and the loop over
    the tuples.  [fuel] bounds the number of levels. *)
Fixpoint range (fuel : nat) (s : Sequence T K) (start end_ : Z) : option (list T) :=
  match fuel with
  | O => None
  | S fuel' =>
      match s with
      | LeafSequence items =>
          if (0 <=? start) && (0 <=? end_) && (end_ <=? len items)
          then Some (slice items start end_) else None
      | MetaSequence items =>
          if (0 <=? start) && (0 <=? end_) && (start <=? end_)
          then range_children (range fuel') items (Datatypes.length items) 0 start end_
          else None
      end
  end.

(** [clampIndex(idx, length)] *)
Definition clampIndex (idx length : Z) : Z :=
  if length <? idx then length
  else if idx <? 0 then Z.max 0 (length + idx) else idx.

(** [List.toJS(start = 0, end = this.length)]; [None] for an argument is
    the default.  [length] is undefined only for an empty meta sequence,
    where the model gives no result. *)
Definition List_toJS (l : Sequence T K) (start end_ : option Z) : option (list T) :=
  match List_length l with
  | None => None
  | Some n =>
      let start := clampIndex (match start with Some i => i | None => 0 end) n in
      let end_ := clampIndex (match end_ with Some i => i | None => n end) n in
      if end_ <=? start then Some [] else range (depth_of l) l start end_
  end.

(** An indexed tree of [n] levels as the chunk functions of List and Blob
    build it: the key of a tuple is the number of leaves below it, as is
    its [numLeaves]. *)
Fixpoint indexed_wf (n : nat) (s : Sequence T K) : Prop :=
  match n with
  | O => False
  | S m =>
      match s with
      | LeafSequence _ => m = O
      | MetaSequence items =>
          m <> O /\ items <> [] /\
          Forall (fun mt => mt_numLeaves mt = len (leaves (mt_child mt)) /\
                            numberValue (mt_key mt) = Some (mt_numLeaves mt) /\
                            indexed_wf m (mt_child mt)) items
      end
  end.

Lemma indexed_wf_tree_wf :
  forall (n : nat) (s : Sequence T K), indexed_wf n s -> tree_wf n s.
Proof.
  induction n as [|n IH]; intros s Hwf; [destruct Hwf|].
  destruct s as [items|items]; [exact Hwf|].
  destruct Hwf as (Hn & Hne & Hall). split; [exact Hn|]. split; [exact Hne|].
  eapply Forall_impl; [|exact Hall]. intros mt (H1 & _ & H3). auto.
Qed.

Lemma slice_nil {A : Type} (a b : Z) : slice (@nil A) a b = [].
Proof. unfold slice. rewrite skipn_nil, firstn_nil. reflexivity. Qed.

Lemma slice_empty {A : Type} (l : list A) (a b : Z) : b <= a -> slice l a b = [].
Proof. intros H. unfold slice. replace (Z.to_nat (b - a)) with 0%nat by lia. reflexivity. Qed.

Lemma slice_all {A : Type} (l : list A) : slice l 0 (len l) = l.
Proof.
  unfold slice, len. simpl. rewrite Z.sub_0_r, Nat2Z.id. apply firstn_all.
Qed.

Lemma slice_app_skip {A : Type} (x y : list A) (a e : Z) :
  len x <= a -> slice (x ++ y) a e = slice y (a - len x) (e - len x).
Proof.
  intros H. unfold slice, len in *. rewrite skipn_app.
  rewrite skipn_all2 by lia. cbn [app]. f_equal; [lia|]. f_equal. lia.
Qed.

Lemma slice_app_left {A : Type} (x y : list A) (a e : Z) :
  0 <= a -> e <= len x -> slice (x ++ y) a e = slice x a e.
Proof.
  intros Ha He. unfold slice, len in *. rewrite skipn_app, firstn_app.
  rewrite length_skipn.
  replace (Z.to_nat (e - a) - (Datatypes.length x - Z.to_nat a))%nat with 0%nat by lia.
  cbn [firstn]. apply app_nil_r.
Qed.

Lemma slice_app_split {A : Type} (x y : list A) (a e : Z) :
  0 <= a <= len x -> len x <= e ->
  slice (x ++ y) a e = slice x a (len x) ++ slice y 0 (e - len x).
Proof.
  intros Ha He. unfold slice, len in *. rewrite skipn_app, firstn_app.
  rewrite length_skipn. f_equal.
  - rewrite !firstn_all2; [reflexivity | |]; rewrite length_skipn; lia.
  - replace (Z.to_nat a - Datatypes.length x)%nat with 0%nat by lia.
    cbn [skipn Z.to_nat]. f_equal. lia.
Qed.

Lemma range_children_done (cr : Sequence T K -> Z -> Z -> option (list T))
    (items : list (MetaTuple K (Sequence T K))) (todo : nat) (i start end_ : Z) :
  end_ <= start -> range_children cr items todo i start end_ = Some [].
Proof.
  intros H. destruct todo; [reflexivity|]. cbn [range_children].
  replace (start <? end_) with false by (symmetry; apply Z.ltb_ge; lia). reflexivity.
Qed.

(** The loop of [MetaSequence.range] returns the slice of the leaves below
    the tuples it has left. *)
Lemma range_children_spec (cr : Sequence T K -> Z -> Z -> option (list T))
    (items : list (MetaTuple K (Sequence T K))) :
  Forall (fun mt =>
            mt_numLeaves mt = len (leaves (mt_child mt)) /\
            numberValue (mt_key mt) = Some (mt_numLeaves mt) /\
            forall a b, 0 <= a -> a <= b -> b <= len (leaves (mt_child mt)) ->
                        cr (mt_child mt) a b = Some (slice (leaves (mt_child mt)) a b))
         items ->
  forall (todo : nat) (i start end_ : Z),
    0 <= i -> Z.of_nat todo = len items - i ->
    count_upto items (Z.to_nat i) <= start -> start <= end_ ->
    range_children cr items todo i start end_ =
    Some (slice (leaves_of_tuples (skipn (Z.to_nat i) items))
            (start - count_upto items (Z.to_nat i))
            (end_ - count_upto items (Z.to_nat i))).
Proof.
  intros Hall. induction todo as [|todo IH]; intros i start end_ Hi Htodo Hbase Hle.
  - cbn [range_children]. rewrite skipn_all2 by (unfold len in Htodo; lia).
    unfold leaves_of_tuples. cbn [flat_map]. rewrite slice_nil. reflexivity.
  - cbn [range_children]. destruct (start <? end_) eqn:E.
    2:{ apply Z.ltb_ge in E. rewrite slice_empty by lia. reflexivity. }
    apply Z.ltb_lt in E.
    assert (Hrange : 0 <= i < len items) by lia.
    rewrite (cumulative_meta items Hrange).
    destruct (@item_at_Some _ items i Hrange) as [mt Hmt]. rewrite Hmt.
    assert (Hnth : nth_error items (Z.to_nat i) = Some mt).
    { unfold item_at in Hmt. destruct (i <? 0); [discriminate | exact Hmt]. }
    rewrite Forall_forall in Hall.
    destruct (Hall mt (nth_error_In _ _ Hnth)) as (Hnum & Hkey & Hcr).
    rewrite Hkey. rewrite (@count_upto_step _ _ _ items (Z.to_nat i) mt Hnth).
    set (base := count_upto items (Z.to_nat i)) in *.
    pose proof (len_nonneg (leaves (mt_child mt))) as Hnn.
    assert (Hskip : skipn (Z.to_nat i) items = mt :: skipn (Z.to_nat (i + 1)) items).
    { destruct (@skipn_next _ items (Z.to_nat i)) as [x Hx]; [unfold len in Hrange; lia|].
      rewrite Hx. replace (Z.to_nat (i + 1)) with (S (Z.to_nat i)) by lia.
      rewrite <- (Nat.add_0_r (Z.to_nat i)) in Hnth.
      rewrite <- nth_error_after_skipn, Hx in Hnth. simpl in Hnth.
      injection Hnth as ->. reflexivity. }
    rewrite Hskip. unfold leaves_of_tuples. cbn [flat_map].
    fold (leaves_of_tuples (skipn (Z.to_nat (i + 1)) items)).
    assert (Hnext : count_upto items (Z.to_nat (i + 1)) = base + mt_numLeaves mt).
    { replace (Z.to_nat (i + 1)) with (S (Z.to_nat i)) by lia.
      apply count_upto_step. exact Hnth. }
    destruct (start <? base + mt_numLeaves mt) eqn:Ecum.
    + apply Z.ltb_lt in Ecum. cbv zeta.
      replace (base + mt_numLeaves mt - mt_numLeaves mt) with base by lia.
      rewrite Hcr by lia.
      destruct (Z_le_gt_dec (base + mt_numLeaves mt) end_) as [Hfar|Hnear].
      * (* the range goes on after this child *)
        replace (Z.min (mt_numLeaves mt) (end_ - base)) with (mt_numLeaves mt) by lia.
        rewrite IH by lia. rewrite Hnext.
        replace (start + (mt_numLeaves mt - (start - base)) - (base + mt_numLeaves mt))
          with 0 by lia.
        rewrite slice_app_split by lia. rewrite Hnum.
        f_equal. f_equal. f_equal. lia.
      * (* the range ends in this child *)
        replace (Z.min (mt_numLeaves mt) (end_ - base)) with (end_ - base) by lia.
        rewrite range_children_done by lia.
        rewrite app_nil_r. rewrite slice_app_left by lia. reflexivity.
    + apply Z.ltb_ge in Ecum.
      rewrite IH by lia. rewrite Hnext.
      rewrite (@slice_app_skip _ (leaves (mt_child mt))) by lia.
      rewrite <- Hnum. f_equal. f_equal; lia.
Qed.

(** [range(start, end)] of a well-formed indexed tree is the slice of its
    leaves. *)
Lemma range_spec :
  forall (n fuel : nat) (s : Sequence T K) (a b : Z),
    (n <= fuel)%nat -> indexed_wf n s ->
    0 <= a -> a <= b -> b <= len (leaves s) ->
    range fuel s a b = Some (slice (leaves s) a b).
Proof.
  induction n as [|n IH]; intros fuel s a b Hfuel Hwf Ha Hab Hb; [destruct Hwf|].
  destruct fuel as [|fuel]; [lia|]. cbn [range]. destruct s as [items|items].
  - simpl in Hb.
    replace ((0 <=? a) && (0 <=? b) && (b <=? len items)) with true; [reflexivity|].
    symmetry. rewrite !andb_true_iff, !Z.leb_le. lia.
  - destruct Hwf as (Hn & Hne & Hall).
    replace ((0 <=? a) && (0 <=? b) && (a <=? b)) with true
      by (symmetry; rewrite !andb_true_iff, !Z.leb_le; lia).
    rewrite (@range_children_spec (range fuel) items) with (i := 0);
      try lia; try (unfold count_upto; simpl; lia).
    + cbn [Z.to_nat skipn]. unfold count_upto. cbn [firstn fold_right].
      rewrite !Z.sub_0_r, leaves_meta. reflexivity.
    + eapply Forall_impl; [|exact Hall]. intros mt (H1 & H2 & H3).
      split; [exact H1|]. split; [exact H2|].
      intros x y Hx Hxy Hy. apply IH; auto. lia.
    + unfold len. lia.
Qed.

Lemma clampIndex_range (idx n : Z) : 0 <= n -> 0 <= clampIndex idx n <= n.
Proof.
  intros Hn. unfold clampIndex.
  destruct (n <? idx) eqn:E1; [lia|]. apply Z.ltb_ge in E1.
  destruct (idx <? 0) eqn:E2; [lia|]. apply Z.ltb_ge in E2. lia.
Qed.

(** X17.  On a well-formed List, [toJS(start, end)] is the slice of the
    elements from [start] to [end], both clamped to the length and a
    negative one counted from the end; [toJS()] is all the elements in
    order. *)
Theorem List_toJS_is_the_slice (n : nat) (l : Sequence T K) (start end_ : option Z) :
  indexed_wf n l ->
  List_toJS l start end_ =
    Some (slice (leaves l)
            (clampIndex (match start with Some i => i | None => 0 end) (len (leaves l)))
            (clampIndex (match end_ with Some i => i | None => len (leaves l) end)
               (len (leaves l)))) /\
  List_toJS l None None = Some (leaves l).
Proof.
  intros Hwf. pose proof (indexed_wf_tree_wf _ _ Hwf) as Htree.
  assert (Hgen : forall st en,
    List_toJS l st en =
    Some (slice (leaves l)
            (clampIndex (match st with Some i => i | None => 0 end) (len (leaves l)))
            (clampIndex (match en with Some i => i | None => len (leaves l) end)
               (len (leaves l))))).
  { intros st en. unfold List_toJS, List_length. rewrite (numLeaves_wf _ _ Htree).
    pose proof (len_nonneg (leaves l)) as Hnn.
    pose proof (clampIndex_range (match st with Some i => i | None => 0 end) Hnn) as Hs.
    pose proof (clampIndex_range (match en with Some i => i | None => len (leaves l) end)
                  Hnn) as He.
    destruct (_ <=? _) eqn:E.
    - apply Z.leb_le in E. rewrite slice_empty by exact E. reflexivity.
    - apply Z.leb_gt in E. rewrite (tree_wf_depth _ _ Htree).
      apply range_spec with (n := n); auto; lia. }
  split; [apply Hgen|]. rewrite Hgen. f_equal.
  pose proof (len_nonneg (leaves l)) as Hnn.
  assert (H0 : clampIndex 0 (len (leaves l)) = 0).
  { unfold clampIndex.
    replace (len (leaves l) <? 0) with false by (symmetry; apply Z.ltb_ge; lia).
    reflexivity. }
  assert (Hn : clampIndex (len (leaves l)) (len (leaves l)) = len (leaves l)).
  { unfold clampIndex. rewrite Z.ltb_irrefl.
    replace (len (leaves l) <? 0) with false by (symmetry; apply Z.ltb_ge; lia).
    reflexivity. }
  rewrite H0, Hn. apply slice_all.
Qed.

End Ranges.

Section KeyOrder.

Context {K : Type} {ops : ValueOps K} {laws : ValueLaws K}.

(** X18.  [OrderedKey.compare] is a total order: it is reflexive,
    antisymmetric and transitive, every value-ordered key comes before
    every hash-ordered key, and two keys made from values compare equal
    only when the values are equal. *)
Theorem OrderedKey_compare_is_a_total_order (a b c : OrderedKey K) :
  OrderedKey_compare a a = 0 /\
  (OrderedKey_compare a b < 0 <-> 0 < OrderedKey_compare b a) /\
  (OrderedKey_compare a b <= 0 -> OrderedKey_compare b c <= 0 ->
   OrderedKey_compare a c <= 0) /\
  (isOrderedByValue a = true -> isOrderedByValue b = false ->
   OrderedKey_compare a b < 0) /\
  (forall x y : K,
     OrderedKey_compare (newOrderedKey x) (newOrderedKey y) = 0 <-> x = y).
Proof.
  split; [apply OrderedKey_compare_refl|].
  split; [apply OrderedKey_compare_antisym|].
  split; [apply OrderedKey_compare_le_trans|].
  split.
  - destruct a, b; simpl; try discriminate. intros _ _. lia.
  - intros x y. split; [apply newOrderedKey_compare_zero|].
    intros ->. apply OrderedKey_compare_refl.
Qed.

End KeyOrder.

(** The List [[10, 11, 12, 13, 14]] in two chunks. *)
Definition list_two_chunks : Sequence Z Z :=
  MetaSequence
    [ mkMetaTuple 1 (ByValue 2) 2 (LeafSequence [10; 11]);
      mkMetaTuple 2 (ByValue 3) 3 (LeafSequence [12; 13; 14]) ].

Lemma list_two_chunks_wf : indexed_wf (fun v => Some v) 2 list_two_chunks.
Proof.
  simpl. split; [discriminate|]. split; [discriminate|]. repeat constructor.
Defined.

Example toJS_evaluated :
  List_toJS (fun v => Some v) list_two_chunks None None = Some [10; 11; 12; 13; 14] /\
  List_toJS (fun v => Some v) list_two_chunks (Some 1) (Some 4) = Some [11; 12; 13] /\
  List_toJS (fun v => Some v) list_two_chunks (Some (-2)) None = Some [13; 14] /\
  List_toJS (fun v => Some v) list_two_chunks (Some 3) (Some 99) = Some [13; 14] /\
  List_toJS (fun v => Some v) list_two_chunks (Some 4) (Some 2) = Some [] /\
  range (fun v => Some v) 2 list_two_chunks 2 1 = None /\
  range (fun v => Some v) 1 (LeafSequence [10; 11]) 0 3 = None /\
  size list_two_chunks = Some 5 /\ isEmpty list_two_chunks = false /\
  isEmpty (T := Z) (K := Z) (LeafSequence []) = true.
Proof. vm_compute. repeat split. Qed.

Lemma size_counts_the_leaves_witness :
  size list_two_chunks = Some (len (leaves list_two_chunks)) /\
  (shaped 2 list_two_chunks ->
   (isEmpty list_two_chunks = true <-> leaves list_two_chunks = [])).
Proof.
  apply (@size_counts_the_leaves Z Z NumberOps 2 list_two_chunks).
  apply (indexed_wf_tree_wf (fun v => Some v) _ _ list_two_chunks_wf).
Defined.

Lemma List_toJS_is_the_slice_witness :
  List_toJS (fun v => Some v) list_two_chunks (Some 1) (Some (-1)) =
    Some (slice (leaves list_two_chunks)
            (clampIndex 1 (len (leaves list_two_chunks)))
            (clampIndex (-1) (len (leaves list_two_chunks)))) /\
  List_toJS (fun v => Some v) list_two_chunks None None = Some (leaves list_two_chunks).
Proof.
  exact (@List_toJS_is_the_slice Z Z NumberOps (fun v => Some v) 2 list_two_chunks
           (Some 1) (Some (-1)) list_two_chunks_wf).
Defined.

Lemma OrderedKey_compare_is_a_total_order_witness :
  OrderedKey_compare (ByValue 1) (ByValue 1) = 0 /\
  (OrderedKey_compare (ByValue 1) (ByHash None 7) < 0 <->
   0 < OrderedKey_compare (ByHash None 7) (ByValue 1)) /\
  (OrderedKey_compare (ByValue 1) (ByHash None 7) <= 0 ->
   OrderedKey_compare (ByHash None 7) (ByHash None 9) <= 0 ->
   OrderedKey_compare (ByValue 1) (ByHash None 9) <= 0) /\
  (isOrderedByValue (ByValue 1) = true -> isOrderedByValue (ByHash None 7) = false ->
   OrderedKey_compare (ByValue 1) (ByHash None 7) < 0) /\
  (forall x y : Z,
     OrderedKey_compare (newOrderedKey x) (newOrderedKey y) = 0 <-> x = y).
Proof.
  exact (@OrderedKey_compare_is_a_total_order Z NumberOps NumberLaws
           (ByValue 1) (ByHash None 7) (ByHash None 9)).
Defined.

(** * What every run of the chunker keeps (sequence_chunker.go) *)

Module ChunkerFacts.

Import Chunker.

Section DoneOnce.

Context {Value K : Type} {ops : ValueOps K} {env : Env Value K}.

Lemma bind_Returned {A B : Type} (m : M A) (k : A -> M B) (w w' : World) (b : B) :
  bind m k w = Returned b w' ->
  exists (a : A) (w1 : World), m w = Returned a w1 /\ k a w1 = Returned b w'.
Proof.
  unfold bind. destruct (m w) as [a w1| |]; [eauto | discriminate | discriminate].
Qed.

Lemma ret_Returned {A : Type} (a b : A) (w w' : World) :
  ret a w = Returned b w' -> a = b /\ w = w'.
Proof. unfold ret. intros H. injection H as -> ->. auto. Qed.

(** Splits a hypothesis on a run of binds into its steps. *)
Ltac run_steps H :=
  repeat match type of H with
         | bind _ _ _ = Returned _ _ =>
             let a := fresh "a" in
             let w := fresh "w" in
             let H1 := fresh "Hstep" in
             apply bind_Returned in H; destruct H as (a & w & H1 & H)
         | ret _ _ = Returned _ _ =>
             apply ret_Returned in H; destruct H as [? ?]; subst
         | panic _ = Returned _ _ => discriminate H
         | out_of_fuel _ = Returned _ _ => discriminate H
         end.

Lemma createParent_done (P : Ops) (sc sc' : sequenceChunker) (w w' : World) :
  createParent P sc w = Returned sc' w' -> done sc' = done sc.
Proof.
  unfold createParent. destruct (parent sc); [discriminate|].
  intros H. run_steps H.
  destruct (unwrittenCol _) in H; run_steps H; reflexivity.
Qed.

Lemma createSequence_done (write : bool) (sc sc' : sequenceChunker)
    (s : Sequence Value K) (mt : metaTuple Value K) (w w' : World) :
  createSequence write sc w = Returned (sc', s, mt) w' -> done sc' = done sc.
Proof.
  unfold createSequence. destruct (makeChunk sc (level sc) (current sc)) as [[col key] nl].
  destruct write; intros H; run_steps H.
  - match goal with E : (_, _, _) = (_, _, _) |- _ => injection E as <- _ _ end. reflexivity.
  - match goal with E : (_, _, _) = (_, _, _) |- _ => injection E as <- _ _ end. reflexivity.
Qed.

Lemma handleChunkBoundary_done (P : Ops) (sc sc' : sequenceChunker) (w w' : World) :
  handleChunkBoundary P sc w = Returned sc' w' -> done sc' = done sc.
Proof.
  unfold handleChunkBoundary. destruct (current sc) as [|e0 rest0]; [discriminate|].
  intros H. run_steps H.
  destruct a0 as [[sc3 s3] mt3].
  assert (H2 : done a = done sc).
  { destruct (parent (set_rv sc (Reset (rv sc)))) in Hstep.
    - run_steps Hstep. reflexivity.
    - apply createParent_done in Hstep. exact Hstep. }
  apply createSequence_done in Hstep0.
  destruct (parent sc3); [|discriminate]. run_steps H. cbn [done set_parent]. congruence.
Qed.

Lemma consumeLastEntry_done (P : Ops) (sc sc' : sequenceChunker) (b : bool) (w w' : World) :
  consumeLastEntry P sc w = Returned (sc', b) w' -> done sc' = done sc.
Proof.
  unfold consumeLastEntry. destruct (last_entry (current sc)); [|discriminate].
  destruct (crossedBoundary _); intros H; run_steps H.
  - match goal with E : (_, _) = (_, _) |- _ => injection E as <- _ end.
    apply handleChunkBoundary_done in Hstep. exact Hstep.
  - match goal with E : (_, _) = (_, _) |- _ => injection E as <- _ end. reflexivity.
Qed.

Lemma appendEntry_done (P : Ops) (sc sc' : sequenceChunker) (e : sequenceEntry Value K)
    (b : bool) (w w' : World) :
  appendEntry P sc e w = Returned (sc', b) w' -> done sc' = done sc.
Proof. unfold appendEntry. intros H. apply consumeLastEntry_done in H. exact H. Qed.

Lemma finalize_loop_done (P : Ops) :
  forall (n : nat) (sc sc' : sequenceChunker) (c : Cursor) (w w' : World),
    finalize_loop n P sc c w = Returned sc' w' -> done sc' = done sc.
Proof.
  induction n as [|n IH]; intros sc sc' c w w' H; [discriminate|].
  cbn [finalize_loop] in H. run_steps H.
  destruct a.
  - run_steps H. destruct a0 as [sc1 crossed]. cbn [fst snd] in *.
    apply appendEntry_done in Hstep1.
    destruct a1.
    + run_steps H. congruence.
    + run_steps H. apply IH in H. congruence.
  - run_steps H. reflexivity.
Qed.

Lemma finalizeCursor_done (P : Ops) (n : nat) (sc sc' : sequenceChunker) (w w' : World) :
  finalizeCursor P n sc w = Returned sc' w' -> done sc' = done sc.
Proof.
  unfold finalizeCursor. destruct (cur sc) as [c|]; [|discriminate].
  intros H. run_steps H. apply finalize_loop_done in Hstep.
  destruct a0.
  - run_steps H. injection H as <- _. exact Hstep.
  - run_steps H. exact Hstep.
Qed.

Lemma Done_root_done (sc sc' : sequenceChunker) (s : Sequence Value K) (w w' : World) :
  Done_root sc w = Returned (s, sc') w' -> done sc' = done sc.
Proof.
  unfold Done_root. destruct (isLeaf sc || (1 <? len (current sc))).
  - intros H. run_steps H. destruct a as [[sc1 seq] mt]. run_steps H.
    match goal with E : (_, _) = (_, _) |- _ => injection E as _ <- end.
    apply createSequence_done in Hstep. exact Hstep.
  - destruct (current sc) as [|e [|e' rest]]; try discriminate.
    destruct (item e) as [v|mt]; [discriminate|].
    destruct (canonical_root (mt_child mt)); [|discriminate].
    intros H. run_steps H.
    match goal with E : (_, _) = (_, _) |- _ => injection E as _ <- end. reflexivity.
Qed.

(** X19.  [Done] can be called once: whenever a call of [Done] returns, the
    chunker it leaves is marked done, and any further [Done] on it panics,
    whatever the state of the store and of the cursors. *)
Theorem Done_twice_panics (fuel fuel' : nat) (sc sc' : sequenceChunker)
    (root : Sequence Value K) (w w' w'' : World) :
  Done fuel sc w = Returned (root, sc') w' ->
  done sc' = true /\ Done fuel' sc' w'' = Panicked.
Proof.
  intros H.
  assert (Hdone : done sc' = true).
  { unfold Done in H. cbn [ops_at op_Done] in H. unfold Done_at in H.
    run_steps H.
    assert (Ha : done a = true).
    { unfold Done_finalize in Hstep. destruct (done sc); [discriminate|].
      destruct (cur (set_done sc true)).
      - apply finalizeCursor_done in Hstep. exact Hstep.
      - run_steps Hstep. reflexivity. }
    destruct (parent a) as [p|].
    - destruct (anyPending p).
      + run_steps H.
        assert (H0 : done a0 = true).
        { destruct (current a).
          - run_steps Hstep0. exact Ha.
          - apply handleChunkBoundary_done in Hstep0. congruence. }
        destruct (parent a0); [|discriminate]. run_steps H.
        match goal with E : (_, _) = (_, _) |- _ => injection E as _ <- end. exact H0.
      + apply Done_root_done in H. congruence.
    - apply Done_root_done in H. congruence. }
  split; [exact Hdone|].
  unfold Done. cbn [ops_at op_Done]. unfold Done_at, bind, Done_finalize.
  rewrite Hdone. reflexivity.
Qed.

End DoneOnce.

(** ** The items of a collection built in bulk *)

Section Build.

Context {Value K : Type} {ops : ValueOps K} {env : Env Value K}.

(** The kind of the collection, its chunk functions and the hash function
    of its leaf chunker. *)
Variable kind_ : NomsKind.
Variables mk pmk : makeChunkFn Value K.
Variable hv : hashValueBytesFn.

(** The entries [Append] makes of the items of a collection that is not a
    List: [sequenceEntry{1, item}]. *)
Definition entry_of_value (v : Value) : sequenceEntry Value K := mkEntry 1 (valueItem v).
Definition entry_of_tuple (mt : metaTuple Value K) : sequenceEntry Value K :=
  mkEntry 1 (tupleItem mt).

(** The loop of a constructor: [Append] on every item, in order. *)
Fixpoint append_values (fuel : nat) (sc : sequenceChunker) (items : list Value)
    : M sequenceChunker :=
  match items with
  | [] => ret sc
  | v :: rest => sc1 <- Append fuel sc (valueItem v) ;; append_values fuel sc1 rest
  end.

(** Bulk construction, in any environment: a new chunker, every item
    appended, [Done]. *)
Definition build_values (fuel : nat) (items : list Value)
    : M (Sequence Value K * sequenceChunker) :=
  sc <- newEmptySequenceChunker fuel kind_ mk pmk hv ;;
  sc1 <- append_values fuel sc items ;;
  Done fuel sc1.

(** The [level] field of the chunker [l] levels above the leaves. *)
Definition level_of (l : nat) : Z := Nat.iter l (fun z => uint64 (z + 1)) 0.

(** The hash function of the chunker of level [l]. *)
Definition hash_at (l : nat) : hashValueBytesFn :=
  match l with
  | O => hv
  | S _ => metaHashValueBytes
  end.

(** The leaves an item, and a buffer of entries, stand for. *)
Definition item_leaves (it : sequenceItem Value K) : list Value :=
  match it with
  | valueItem v => [v]
  | tupleItem mt => leaves (mt_child mt)
  end.

Definition entries_leaves (entries : list (sequenceEntry Value K)) : list Value :=
  flat_map (fun e => item_leaves (item e)) entries.

(** The leaves a chunker and its parents hold, the parents' first. *)
Fixpoint chain_leaves (sc : sequenceChunker) : list Value :=
  match parent sc with
  | Some p => chain_leaves p
  | None => []
  end ++ entries_leaves (current sc).

(** A sequence as the chunker builds them: no meta sequence is empty. *)
Inductive built : Sequence Value K -> Prop :=
| built_leaf (vs : list Value) : built (LeafSequence vs)
| built_meta (mts : list (metaTuple Value K)) :
    mts <> [] -> Forall (fun mt => built (mt_child mt)) mts -> built (MetaSequence mts).

(** The items a chunker of level [l] is given, and the buffer it holds. *)
Definition item_at_level (l : nat) (it : sequenceItem Value K) : Prop :=
  match l with
  | O => exists v, it = valueItem v
  | S _ => exists mt, it = tupleItem mt /\ built (mt_child mt)
  end.

Definition entries_at (l : nat) (entries : list (sequenceEntry Value K)) : Prop :=
  match l with
  | O => exists vs, entries = map entry_of_value vs
  | S _ => exists mts, entries = map entry_of_tuple mts /\
                       Forall (fun mt => built (mt_child mt)) mts
  end.

(** No level above [L] is ever created: the hasher of level [L] has hashed
    the buffer of its chunker since it was made. *)
Variable L : nat.

Definition rv_ok (l : nat) (sc : sequenceChunker) : Prop :=
  l = L ->
  rv sc = fold_left (fun h it => hash_at L it h) (map item (current sc))
            (newRollingValueHasher (level_of L mod 256)).

(** The chunkers of a bulk construction, [l] levels above the leaves. *)
Fixpoint chain_ok (l : nat) (sc : sequenceChunker) {struct sc} : Prop :=
  kind sc = kind_ /\ cur sc = None /\ level sc = level_of l /\
  isLeaf sc = match l with O => true | S _ => false end /\
  makeChunk sc = match l with O => mk | S _ => pmk end /\
  parentMakeChunk sc = pmk /\
  hashValueBytes sc = hash_at l /\
  entries_at l (current sc) /\
  (l <= L)%nat /\
  match parent sc with
  | None => True
  | Some p => done p = false /\ rv_ok (S l) p /\ chain_ok (S l) p
  end.

(** What is asked of the parameters: the kind is not List (whose [Append]
    counts repeats); the chunk functions make a leaf of the values and a
    meta sequence of the tuples they are given; and the hasher of level [L]
    never reports a boundary. *)
Hypothesis kind_not_list : isListKind kind_ = false.
Hypothesis mk_leaf :
  forall (lvl : Z) (vs : list Value),
    fst (fst (mk lvl (map entry_of_value vs))) = LeafSequence vs.
Hypothesis pmk_meta :
  forall (lvl : Z) (mts : list (metaTuple Value K)),
    fst (fst (pmk lvl (map entry_of_tuple mts))) = MetaSequence mts.
Hypothesis level_L_quiet :
  forall its : list (sequenceItem Value K),
    crossedBoundary (fold_left (fun h it => hash_at L it h) its
                       (newRollingValueHasher (level_of L mod 256))) = false.

(** Reduces the field updates and projections of a chunker record. *)
Ltac fields :=
  cbv beta iota delta
    [set_rv set_current set_parent set_isLeaf set_unwrittenCol set_done set_cur
     kind cur level parent current makeChunk parentMakeChunk isLeaf hashValueBytes
     rv done unwrittenCol].

Lemma last_entry_snoc (l : list (sequenceEntry Value K)) (e : sequenceEntry Value K) :
  last_entry (l ++ [e]) = Some e.
Proof.
  unfold last_entry, item_at, len. rewrite length_app. simpl.
  replace (Z.of_nat (Datatypes.length l + 1) - 1 <? 0) with false
    by (symmetry; apply Z.ltb_ge; lia).
  replace (Z.to_nat (Z.of_nat (Datatypes.length l + 1) - 1))
    with (Datatypes.length l + 0)%nat by lia.
  rewrite nth_error_app2 by lia.
  replace (Datatypes.length l + 0 - Datatypes.length l)%nat with 0%nat by lia.
  reflexivity.
Qed.

Lemma entries_leaves_app (a b : list (sequenceEntry Value K)) :
  entries_leaves (a ++ b) = entries_leaves a ++ entries_leaves b.
Proof. apply flat_map_app. Qed.

Lemma entries_leaves_values (vs : list Value) :
  entries_leaves (map entry_of_value vs) = vs.
Proof.
  induction vs as [|v vs IH]; [reflexivity|].
  unfold entries_leaves in *. simpl. rewrite IH. reflexivity.
Qed.

Lemma entries_leaves_tuples (mts : list (metaTuple Value K)) :
  entries_leaves (map entry_of_tuple mts) = leaves (MetaSequence mts).
Proof.
  rewrite leaves_meta. unfold leaves_of_tuples.
  induction mts as [|mt mts IH]; [reflexivity|].
  unfold entries_leaves in *. simpl. rewrite IH. reflexivity.
Qed.

(** The loop at the end of [Done] ends on a built sequence, on a root with
    the same leaves. *)
Lemma canonical_root_built :
  forall s : Sequence Value K,
    built s -> exists r, canonical_root s = Some r /\ leaves r = leaves s.
Proof.
  fix IH 1. intros s Hs. destruct s as [items|tuples].
  - exists (LeafSequence items). split; reflexivity.
  - assert (Hne : tuples <> []) by (inversion Hs; assumption).
    assert (Hall : Forall (fun mt => built (mt_child mt)) tuples)
      by (inversion Hs; assumption).
    destruct tuples as [|mt [|mt' rest]]; [congruence| |].
    + apply Forall_inv in Hall. destruct (IH (mt_child mt) Hall) as (r & Hr & Hl).
      exists r. split; [exact Hr|]. rewrite Hl, leaves_meta.
      unfold leaves_of_tuples. simpl. rewrite app_nil_r. reflexivity.
    + exists (MetaSequence (mt :: mt' :: rest)). split; reflexivity.
Qed.

Lemma not_pending_leaves :
  forall sc : sequenceChunker, anyPending sc = false -> chain_leaves sc = [].
Proof.
  fix IH 1. intros sc. destruct sc as [k c lv par cu m pm lf h r d u].
  cbn [anyPending chain_leaves current parent].
  destruct cu as [|e rest]; [|discriminate].
  destruct par as [p|]; [|reflexivity].
  intros H. rewrite (IH p H). reflexivity.
Qed.

(** The collection [createSequence] makes of the buffer of a chunker. *)
Lemma chunk_of_buffer (l : nat) (sc : sequenceChunker) :
  makeChunk sc = match l with O => mk | S _ => pmk end ->
  entries_at l (current sc) ->
  (l <> O -> current sc <> []) ->
  let col := fst (fst (makeChunk sc (level sc) (current sc))) in
  built col /\ leaves col = entries_leaves (current sc).
Proof.
  intros Hmk Hcur Hne col. subst col. rewrite Hmk. destruct l as [|l].
  - destruct Hcur as [vs ->]. rewrite mk_leaf, entries_leaves_values.
    split; [constructor | reflexivity].
  - destruct Hcur as (mts & E & Hall). rewrite E, pmk_meta, entries_leaves_tuples.
    split; [|reflexivity]. constructor; [|exact Hall].
    intros ->. apply Hne; [discriminate | exact E].
Qed.

Definition Append_spec (n : nat) : Prop :=
  forall (l : nat) (sc : sequenceChunker) (it : sequenceItem Value K) (w : World),
    chain_ok l sc -> rv_ok l sc -> (L - l <= n)%nat -> item_at_level l it ->
    exists (sc' : sequenceChunker) (w' : World),
      Append_at (ops_at n) sc it w = Returned sc' w' /\
      chain_ok l sc' /\ rv_ok l sc' /\
      chain_leaves sc' = chain_leaves sc ++ item_leaves it /\
      anyPending sc' = true /\ done sc' = done sc.

Definition handle_spec (n : nat) : Prop :=
  forall (l : nat) (sc : sequenceChunker) (w : World),
    chain_ok l sc -> (l < L)%nat -> (L - l <= n)%nat -> current sc <> [] ->
    exists (sc' : sequenceChunker) (w' : World),
      handleChunkBoundary (ops_at n) sc w = Returned sc' w' /\
      chain_ok l sc' /\ current sc' = [] /\
      chain_leaves sc' = chain_leaves sc /\
      anyPending sc' = true /\ done sc' = done sc.

Lemma entries_at_nil (l : nat) : entries_at l [].
Proof.
  destruct l; simpl; [exists []; reflexivity|].
  exists []. split; [reflexivity | constructor].
Qed.

Lemma entries_at_snoc (l : nat) (entries : list (sequenceEntry Value K))
    (it : sequenceItem Value K) :
  entries_at l entries -> item_at_level l it -> entries_at l (entries ++ [mkEntry 1 it]).
Proof.
  destruct l as [|l]; simpl.
  - intros [vs ->] [v ->]. exists (vs ++ [v]). rewrite map_app. reflexivity.
  - intros (mts & -> & Hall) (mt & -> & Hmt). exists (mts ++ [mt]).
    rewrite map_app. split; [reflexivity|]. apply Forall_app. split; [exact Hall|].
    constructor; [exact Hmt | constructor].
Qed.

Lemma level_of_S (l : nat) : level_of (S l) = uint64 (level_of l + 1).
Proof. reflexivity. Qed.

(** A chunk boundary at level [l] hands the buffer to the parent, which
    appends its tuple. *)
Lemma handle_step (n : nat) : Append_spec n -> handle_spec (S n).
Proof.
  intros HA l sc w Hok Hl Hn Hne.
  destruct sc as [k c lv par cu m pm lf hf r d u].
  cbn [chain_ok kind cur level isLeaf makeChunk parentMakeChunk hashValueBytes current
       parent] in Hok.
  destruct Hok as (-> & -> & -> & -> & Hm & -> & -> & Hcur & HlL & Hpar).
  cbn [current] in Hne.
  assert (Hcol : built (fst (fst (m (level_of l) cu))) /\
                 leaves (fst (fst (m (level_of l) cu))) = entries_leaves cu).
  { apply (@chunk_of_buffer l
             (mkChunker kind_ None (level_of l) par cu m pmk
                (match l with O => true | S _ => false end) (hash_at l) r d u));
      auto. }
  destruct (m (level_of l) cu) as [[col key] nl] eqn:Emk. cbn [fst] in Hcol.
  destruct Hcol as [Hbuilt Hleaves].
  set (mt := mkMetaTuple (refOf col) key nl col).
  (* the parent the tuple goes to, and the world it is appended in *)
  set (p0 := match par with
             | Some p => p
             | None => mkChunker kind_ None (level_of (S l)) None [] pmk pmk false
                         metaHashValueBytes
                         (newRollingValueHasher (level_of (S l) mod 256)) false None
             end).
  assert (Hp0 : done p0 = false /\ rv_ok (S l) p0 /\ chain_ok (S l) p0 /\
                chain_leaves p0 = match par with Some p => chain_leaves p | None => [] end).
  { unfold p0. destruct par as [p|].
    - destruct Hpar as (H1 & H2 & H3). auto.
    - split; [reflexivity|]. split; [intros <-; reflexivity|]. split; [|reflexivity].
      cbn. repeat split; auto. apply (entries_at_nil (S l)). }
  destruct Hp0 as (Hd0 & Hrv0 & Hok0 & Hleaves0).
  set (w1 := match par, u with
             | None, Some ucol => mkWorld (heap w) (col :: ucol :: written w)
             | _, _ => mkWorld (heap w) (col :: written w)
             end).
  destruct (HA (S l) p0 (tupleItem mt) w1 Hok0 Hrv0) as
    (p' & w' & Happ & Hok' & Hrv' & Hleaves' & Hpend' & Hdone'); [lia | |].
  { exists mt. split; [reflexivity | exact Hbuilt]. }
  exists (mkChunker kind_ None (level_of l) (Some p') [] m pmk
            (match l with O => true | S _ => false end) (hash_at l) (Reset r) d
            (match par with Some _ => u | None => None end)), w'.
  split.
  { unfold handleChunkBoundary. fields. destruct cu as [|e0 rest0]; [congruence|].
    destruct par as [p|].
    - unfold bind, ret, createSequence, WriteValue. fields. rewrite Emk.
      unfold bind, ret. fields. cbn [heap written ops_at op_Append].
      unfold p0, w1, mt in Happ. rewrite Happ. reflexivity.
    - unfold createParent, createSequence, WriteValue, bind, ret. fields.
      cbn [ops_at op_newSequenceChunker op_Append].
      unfold newSequenceChunker_at, ret. fields.
      change (uint64 (level_of l + 1)) with (level_of (S l)).
      unfold p0, w1, mt in Happ.
      destruct u as [ucol|]; fields; cbn [heap written]; rewrite Emk; fields;
        cbn [heap written]; rewrite Happ; reflexivity. }
  split.
  { cbn [chain_ok kind cur level isLeaf makeChunk parentMakeChunk hashValueBytes current
         parent].
    repeat split; auto; try apply entries_at_nil. congruence. }
  split; [reflexivity|]. split.
  { cbn [chain_leaves parent current]. unfold entries_leaves at 1. cbn [flat_map].
    rewrite app_nil_r, Hleaves', Hleaves0. cbn [item_leaves mt_child mt].
    rewrite Hleaves. reflexivity. }
  split; [|reflexivity].
  cbn [anyPending current parent]. exact Hpend'.
Qed.

Lemma handle_spec_0 : handle_spec 0.
Proof. intros l sc w _ Hl Hn. lia. Qed.

(** [Append] of an item at level [l]. *)
Lemma append_step (n : nat) : handle_spec n -> Append_spec n.
Proof.
  intros HH l sc it w Hok Hrv Hn Hit.
  pose proof Hok as Hok0.
  destruct sc as [k c lv par cu m pm lf hf r d u].
  cbn [chain_ok kind cur level isLeaf makeChunk parentMakeChunk hashValueBytes current
       parent] in Hok.
  destruct Hok as (-> & -> & -> & -> & Hm & -> & -> & Hcur & HlL & Hpar).
  unfold Append_at. fields. rewrite kind_not_list. cbn [negb].
  unfold appendEntry, consumeLastEntry. fields. rewrite last_entry_snoc.
  cbn [count item]. change (1 <? 1) with false. cbv iota.
  set (sc1 := mkChunker kind_ None (level_of l) par (cu ++ [mkEntry 1 it]) m pmk
                (match l with O => true | S _ => false end) (hash_at l)
                (hash_at l it r) d u).
  assert (Hok1 : chain_ok l sc1).
  { cbn [chain_ok sc1 kind cur level isLeaf makeChunk parentMakeChunk hashValueBytes
         current parent].
    repeat split; auto. apply entries_at_snoc; assumption. }
  assert (Hleaves1 : chain_leaves sc1 =
                     chain_leaves (mkChunker kind_ None (level_of l) par cu m pmk
                                     (match l with O => true | S _ => false end)
                                     (hash_at l) r d u) ++ item_leaves it).
  { cbn [chain_leaves sc1 parent current]. rewrite entries_leaves_app, app_assoc.
    f_equal. unfold entries_leaves. cbn [flat_map item]. apply app_nil_r. }
  assert (Hrv1 : rv_ok l sc1).
  { intros E. pose proof (Hrv E) as Hr. cbn [rv current] in Hr.
    cbn [sc1 rv current]. rewrite map_app, fold_left_app. cbn [map fold_left item].
    rewrite <- Hr. subst l. reflexivity. }
  destruct (crossedBoundary (hash_at l it r)) eqn:Ecross.
  - (* a boundary: only below level [L] *)
    assert (Hl : (l < L)%nat).
    { destruct (Nat.eq_dec l L) as [E|E]; [|lia]. exfalso.
      specialize (Hrv1 E). cbn [sc1 rv] in Hrv1. rewrite Hrv1, level_L_quiet in Ecross.
      discriminate. }
    destruct (HH l sc1 w Hok1 Hl Hn) as (sc' & w' & Hrun & Hok' & Hcur' & Hleaves' & Hpend' & Hdone').
    { cbn [sc1 current]. destruct cu; discriminate. }
    exists sc', w'. split.
    { unfold bind, ret. fold sc1. rewrite Hrun. reflexivity. }
    split; [exact Hok'|]. split; [intros E; lia|]. split; [congruence|].
    split; [exact Hpend' | exact Hdone'].
  - exists sc1, w. split; [reflexivity|]. split; [exact Hok1|]. split; [exact Hrv1|].
    split; [exact Hleaves1|]. split; [|reflexivity].
    cbn [anyPending sc1 current]. destruct cu; reflexivity.
Qed.

Lemma append_and_handle : forall n : nat, Append_spec n /\ handle_spec n.
Proof.
  induction n as [|n [IHA IHH]].
  - split; [apply append_step|]; apply handle_spec_0.
  - assert (H : handle_spec (S n)) by (apply handle_step; exact IHA).
    split; [apply append_step; exact H | exact H].
Qed.

(** The end of [Done] on the chunker that holds the top level. *)
Lemma Done_root_spec (l : nat) (sc : sequenceChunker) (w : World) :
  chain_ok l sc ->
  (l = O \/ current sc <> []) ->
  match parent sc with Some p => anyPending p = false | None => True end ->
  exists (root : Sequence Value K) (sc' : sequenceChunker) (w' : World),
    Done_root sc w = Returned (root, sc') w' /\ leaves root = chain_leaves sc.
Proof.
  intros Hok Hne Hpar.
  assert (Habove : chain_leaves sc = entries_leaves (current sc)).
  { destruct sc as [k c lv par cu m pm lf hf r d u]. cbn [chain_leaves parent current].
    cbn [parent] in Hpar. destruct par as [p|]; [|reflexivity].
    rewrite (not_pending_leaves p Hpar). reflexivity. }
  rewrite Habove. clear Habove Hpar.
  destruct sc as [k c lv par cu m pm lf hf r d u].
  cbn [chain_ok kind cur level isLeaf makeChunk parentMakeChunk hashValueBytes current
       parent] in Hok.
  destruct Hok as (-> & -> & -> & -> & Hm & -> & -> & Hcur & HlL & _).
  cbn [current] in Hne |- *.
  assert (Hchunk : (l <> O -> cu <> []) ->
                   built (fst (fst (m (level_of l) cu))) /\
                   leaves (fst (fst (m (level_of l) cu))) = entries_leaves cu).
  { intros H.
    apply (@chunk_of_buffer l
             (mkChunker kind_ None (level_of l) par cu m pmk
                (match l with O => true | S _ => false end) (hash_at l) r d u));
      auto. }
  unfold Done_root. fields. destruct l as [|l].
  - cbn [orb]. unfold createSequence, bind, ret. fields.
    destruct Hchunk as [_ Hleaves]; [intros H; exfalso; apply H; reflexivity|].
    destruct (m (level_of 0) cu) as [[col key] nl]. cbn [fst] in Hleaves.
    eexists; eexists; eexists. split; [reflexivity | exact Hleaves].
  - cbn [orb]. destruct Hne as [Hne|Hne]; [discriminate|].
    destruct Hchunk as [_ Hleaves]; [intros _; exact Hne|].
    destruct Hcur as (mts & E & Hall). subst cu.
    destruct mts as [|mt [|mt' rest]]; [exfalso; apply Hne; reflexivity| |].
    + cbn [map len Datatypes.length]. change (1 <? Z.of_nat 1) with false. cbv iota.
      cbn [entry_of_tuple item].
      apply Forall_inv in Hall.
      destruct (canonical_root_built Hall) as (root & Hroot & Hl).
      rewrite Hroot. unfold ret.
      eexists; eexists; eexists. split; [reflexivity|]. rewrite Hl.
      unfold entries_leaves. cbn [flat_map item item_leaves entry_of_tuple].
      rewrite app_nil_r. reflexivity.
    + replace (1 <? len (map entry_of_tuple (mt :: mt' :: rest))) with true
        by (symmetry; apply Z.ltb_lt; unfold len; simpl; lia).
      unfold createSequence, bind, ret. fields.
      destruct (m (level_of (S l)) (map entry_of_tuple (mt :: mt' :: rest)))
        as [[col key] nl]. cbn [fst] in Hleaves.
      eexists; eexists; eexists. split; [reflexivity | exact Hleaves].
Qed.

Definition Done_spec (n : nat) : Prop :=
  forall (l : nat) (sc : sequenceChunker) (w : World),
    chain_ok l sc -> rv_ok l sc -> done sc = false -> (L - l <= n)%nat ->
    (l = O \/ anyPending sc = true) ->
    exists (root : Sequence Value K) (sc' : sequenceChunker) (w' : World),
      Done_at (ops_at n) n sc w = Returned (root, sc') w' /\
      leaves root = chain_leaves sc.

(** [Done] at level [l]: the root it returns has the leaves the chunkers
    hold. *)
Lemma Done_holds : forall n : nat, Done_spec n.
Proof.
  induction n as [|n IH]; intros l sc w Hok Hrv Hdone Hn Hpend.
  - (* no fuel for a parent: the chunker is at level [L] and has none *)
    assert (l = L) as -> by (cbn [chain_ok] in Hok; destruct sc; cbn in Hok; lia).
    destruct sc as [k c lv par cu m pm lf hf r d u]. cbn [done] in Hdone. subst d.
    pose proof Hok as Hok0.
    cbn [chain_ok kind cur level isLeaf makeChunk parentMakeChunk hashValueBytes current
         parent] in Hok.
    destruct Hok as (-> & -> & -> & -> & Hm & -> & -> & Hcur & HlL & Hpar).
    destruct par as [p|].
    { destruct Hpar as (_ & _ & Hp). destruct p; cbn in Hp. lia. }
    unfold Done_at, Done_finalize, bind, ret. fields.
    set (sc1 := mkChunker kind_ None (level_of L) None cu m pmk
                  (match L with O => true | S _ => false end) (hash_at L) r true u).
    destruct (@Done_root_spec L sc1 w) as (root & sc' & w' & Hrun & Hleaves);
      [exact Hok0 | | exact I |].
    { cbn [sc1 current]. destruct Hpend as [->|Hp]; [left; reflexivity|].
      cbn [anyPending current parent] in Hp. destruct cu; [discriminate|].
      right. discriminate. }
    exists root, sc', w'. split; [exact Hrun | rewrite Hleaves; reflexivity].
  - destruct sc as [k c lv par cu m pm lf hf r d u]. cbn [done] in Hdone. subst d.
    pose proof Hok as Hok0.
    cbn [chain_ok kind cur level isLeaf makeChunk parentMakeChunk hashValueBytes current
         parent] in Hok.
    destruct Hok as (-> & -> & -> & -> & Hm & -> & -> & Hcur & HlL & Hpar).
    set (sc1 := mkChunker kind_ None (level_of l) par cu m pmk
                  (match l with O => true | S _ => false end) (hash_at l) r true u).
    assert (Hok1 : chain_ok l sc1) by exact Hok0.
    assert (Hroot : (match par with Some p => anyPending p = false | None => True end) ->
                    exists root sc' w',
                      Done_root sc1 w = Returned (root, sc') w' /\
                      leaves root =
                      chain_leaves (mkChunker kind_ None (level_of l) par cu m pmk
                                      (match l with O => true | S _ => false end)
                                      (hash_at l) r false u)).
    { intros Hq.
      destruct (@Done_root_spec l sc1 w) as (root & sc' & w' & Hrun & Hleaves);
        [exact Hok1 | | exact Hq |].
      - cbn [sc1 current]. destruct Hpend as [->|Hp]; [left; reflexivity|].
        cbn [anyPending current parent] in Hp. destruct cu; [|right; discriminate].
        destruct par as [p|]; [|discriminate]. congruence.
      - exists root, sc', w'. split; [exact Hrun | rewrite Hleaves; reflexivity]. }
    unfold Done_at, Done_finalize, bind, ret. fields. fold sc1.
    destruct par as [p|]; [|apply Hroot; exact I].
    destruct (anyPending p) eqn:Ep; [|apply Hroot; reflexivity].
    destruct Hpar as (Hdp & Hrvp & Hokp).
    assert (HSl : (S l <= L)%nat) by (destruct p; cbn in Hokp; lia).
    destruct cu as [|e rest].
    + (* nothing left at this level: the parent finishes *)
      cbn [sc1 parent]. cbn [ops_at op_Done].
      destruct (IH (S l) p w Hokp Hrvp Hdp) as (root & p' & w' & Hrun & Hleaves);
        [lia | right; exact Ep |].
      rewrite Hrun. cbn [fst snd].
      eexists; eexists; eexists. split; [reflexivity|].
      rewrite Hleaves. cbn [chain_leaves parent current]. unfold entries_leaves.
      cbn [flat_map]. rewrite app_nil_r. reflexivity.
    + (* the end of the input is a boundary *)
      destruct (proj2 (append_and_handle (S n)) l sc1 w Hok1) as
        (sc3 & w3 & Hrun & Hok3 & Hcur3 & Hleaves3 & Hpend3 & _); [lia | lia | discriminate |].
      rewrite Hrun.
      destruct sc3 as [k3 c3 lv3 par3 cu3 m3 pm3 lf3 hf3 r3 d3 u3].
      cbn [current] in Hcur3. subst cu3.
      cbn [anyPending current parent] in Hpend3.
      destruct par3 as [p3|]; [|discriminate].
      cbn [chain_ok parent] in Hok3.
      destruct Hok3 as (_ & _ & _ & _ & _ & _ & _ & _ & _ & Hdp3 & Hrvp3 & Hokp3).
      fields. cbn [ops_at op_Done].
      destruct (IH (S l) p3 w3 Hokp3 Hrvp3 Hdp3) as (root & p' & w' & Hrun' & Hleaves');
        [lia | right; exact Hpend3 |].
      rewrite Hrun'. cbn [fst snd].
      eexists; eexists; eexists. split; [reflexivity|].
      rewrite Hleaves'. transitivity (chain_leaves sc1); [|reflexivity].
      rewrite <- Hleaves3. cbn [chain_leaves parent current].
      unfold entries_leaves. cbn [flat_map]. rewrite app_nil_r. reflexivity.
Qed.

Lemma append_values_spec (fuel : nat) :
  (L <= fuel)%nat ->
  forall (items : list Value) (sc : sequenceChunker) (w : World),
    chain_ok 0 sc -> rv_ok 0 sc ->
    exists (sc' : sequenceChunker) (w' : World),
      append_values fuel sc items w = Returned sc' w' /\
      chain_ok 0 sc' /\ rv_ok 0 sc' /\
      chain_leaves sc' = chain_leaves sc ++ items /\ done sc' = done sc.
Proof.
  intros Hfuel. induction items as [|v rest IH]; intros sc w Hok Hrv.
  - exists sc, w. rewrite app_nil_r. auto.
  - destruct (proj1 (append_and_handle fuel) 0%nat sc (valueItem v) w Hok Hrv)
      as (sc1 & w1 & Hrun & Hok1 & Hrv1 & Hleaves1 & _ & Hdone1);
      [lia | exists v; reflexivity |].
    destruct (IH sc1 w1 Hok1 Hrv1) as (sc' & w' & Hrun' & Hok' & Hrv' & Hleaves' & Hdone').
    exists sc', w'. split.
    { cbn [append_values]. unfold bind, Append. cbn [ops_at op_Append].
      rewrite Hrun. exact Hrun'. }
    split; [exact Hok'|]. split; [exact Hrv'|]. split; [|congruence].
    rewrite Hleaves', Hleaves1, <- app_assoc. reflexivity.
Qed.

(** X20.  A collection that is not a List, built in bulk with a hasher that
    reports no boundary at some level [L] (so that the tree has at most
    [L + 1] levels), has exactly the appended items as its leaves, in
    order, however the levels below [L] are cut into chunks: the
    construction returns, with fuel for [L] levels, and loses, repeats or
    reorders nothing. *)
Theorem build_values_keeps_the_items (fuel : nat) (items : list Value) (w : World) :
  (L <= fuel)%nat ->
  exists (root : Sequence Value K) (sc : sequenceChunker) (w' : World),
    build_values fuel items w = Returned (root, sc) w' /\ leaves root = items.
Proof.
  intros Hfuel.
  set (sc0 := mkChunker kind_ None 0 None [] mk pmk true hv
                (newRollingValueHasher (0 mod 256)) false None).
  assert (Hok0 : chain_ok 0 sc0).
  { cbn. repeat split; auto; try lia. exists []. reflexivity. }
  assert (Hrv0 : rv_ok 0 sc0) by (intros <-; reflexivity).
  destruct (@append_values_spec fuel Hfuel items sc0 w Hok0 Hrv0)
    as (sc1 & w1 & Hrun1 & Hok1 & Hrv1 & Hleaves1 & Hdone1).
  destruct (@Done_holds fuel 0%nat sc1 w1 Hok1 Hrv1) as (root & sc' & w' & Hrun & Hleaves);
    [rewrite Hdone1; reflexivity | lia | left; reflexivity |].
  exists root, sc', w'. split.
  - unfold build_values, newEmptySequenceChunker, newSequenceChunker, bind.
    cbn [ops_at op_newSequenceChunker]. unfold newSequenceChunker_at, ret.
    fold sc0. rewrite Hrun1. unfold Done. cbn [ops_at op_Done]. exact Hrun.
  - rewrite Hleaves, Hleaves1. reflexivity.
Qed.

End Build.

(** *** A Set built in bulk *)

(** A hasher that cuts chunks at the two lowest levels only. *)
Definition low_boundary (salt : Z) (bytes : list Z) : bool :=
  (salt <? 2) && window_boundary salt bytes.

Lemma salt_of_hashed (its : list (sequenceItem Z Z)) :
  forall h : streamHasher,
    salt (fold_left (fun h it => stream_hashValueBytes it h) its h) = salt h.
Proof.
  induction its as [|it its IH]; intros h; [reflexivity|].
  cbn [fold_left]. rewrite IH. destruct it; reflexivity.
Qed.

Lemma setLeafChunk_leaf (lvl : Z) (vs : list Z) :
  fst (fst (setLeafChunk lvl (map (entry_of_value (K := Z)) vs))) = LeafSequence vs.
Proof.
  unfold setLeafChunk. cbn [fst]. f_equal.
  induction vs as [|v vs IH]; [reflexivity|]. cbn [map flat_map]. rewrite IH. reflexivity.
Qed.

Lemma orderedMetaChunk_meta (lvl : Z) (mts : list (metaTuple Z Z)) :
  fst (fst (orderedMetaChunk lvl (map (entry_of_tuple (Value := Z)) mts))) =
  MetaSequence mts.
Proof.
  unfold orderedMetaChunk. cbn [fst]. f_equal.
  induction mts as [|mt mts IH]; [reflexivity|]. cbn [map flat_map]. rewrite IH. reflexivity.
Qed.

(** The Set [{1, 2, 3, 5, 8, 9}]: three leaves under two meta sequences
    under the root, and the chunks written to the store. *)
Example build_values_evaluated :
  let run := build_values (env := streamEnv low_boundary) SetKind setLeafChunk
               orderedMetaChunk stream_hashValueBytes 2 [1; 2; 3; 5; 8; 9]
               (empty_world low_boundary) in
  option_map (fun s => (depth_of s, leaves s)) (root_of run) =
    Some (3%nat, [1; 2; 3; 5; 8; 9]) /\
  map (fun s => leaves s) (chunks_of run) = [[1; 2]; [3; 5]; [1; 2; 3; 5]; [8; 9]; [8; 9]] /\
  root_of (build_values (env := streamEnv low_boundary) SetKind setLeafChunk
             orderedMetaChunk stream_hashValueBytes 1 [1; 2; 3; 5; 8; 9]
             (empty_world low_boundary)) = None /\
  root_of (build_values (env := streamEnv low_boundary) SetKind setLeafChunk
             orderedMetaChunk stream_hashValueBytes 2 [] (empty_world low_boundary))
    = Some (LeafSequence []).
Proof. vm_compute. repeat split. Qed.

Lemma build_values_keeps_the_items_witness :
  exists (root : Sequence Z Z) (sc : sequenceChunker (env := streamEnv low_boundary))
         (w' : World (env := streamEnv low_boundary)),
    build_values (env := streamEnv low_boundary) SetKind setLeafChunk orderedMetaChunk
      stream_hashValueBytes 2 [1; 2; 3; 5; 8; 9] (empty_world low_boundary)
    = Returned (root, sc) w' /\
    leaves root = [1; 2; 3; 5; 8; 9].
Proof.
  apply (@build_values_keeps_the_items Z Z NumberOps (streamEnv low_boundary) SetKind
           setLeafChunk orderedMetaChunk stream_hashValueBytes 2%nat).
  - reflexivity.
  - exact setLeafChunk_leaf.
  - exact orderedMetaChunk_meta.
  - intros its. cbn [crossedBoundary streamEnv].
    rewrite (salt_of_hashed its). reflexivity.
  - lia.
Defined.

Lemma Done_twice_panics_witness :
  done (set_done chunker_of_one_tuple true) = true /\
  Done (env := streamEnv window_boundary) 4 (set_done chunker_of_one_tuple true)
    (empty_world window_boundary) = Panicked.
Proof.
  apply (@Done_twice_panics Z Z NumberOps (streamEnv window_boundary) 4 4
           chunker_of_one_tuple (set_done chunker_of_one_tuple true) (LeafSequence [1; 2])
           (empty_world window_boundary) (empty_world window_boundary)
           (empty_world window_boundary)).
  reflexivity.
Defined.

(** ** The runs of a List chunker *)

Section ListRuns.

Context {Value K : Type} {ops : ValueOps K} {env : Env Value K}.

(** The values an entry of a leaf chunker stands for: its item, [count]
    times. *)
Definition entry_run (e : sequenceEntry Value K) : list Value :=
  match item e with
  | valueItem v => repeat v (Z.to_nat (count e))
  | tupleItem _ => []
  end.

Definition expand (entries : list (sequenceEntry Value K)) : list Value :=
  flat_map entry_run entries.

(** Entries read from the last one back: each holds a value at least once,
    and no entry holds the value of the one before it. *)
Fixpoint runs_back (r : list (sequenceEntry Value K)) : Prop :=
  match r with
  | [] => True
  | e :: rest =>
      1 <= count e /\ (exists v : Value, item e = valueItem v) /\
      match rest with
      | [] => True
      | e' :: _ => item e' <> item e
      end /\
      runs_back rest
  end.

Definition runs_ok (entries : list (sequenceEntry Value K)) : Prop :=
  runs_back (rev entries).

Ltac run_all H :=
  repeat match type of H with
         | bind _ _ _ = Returned _ _ =>
             let a := fresh "a" in
             let w := fresh "w" in
             let H1 := fresh "Hstep" in
             apply bind_Returned in H; destruct H as (a & w & H1 & H)
         | ret _ _ = Returned _ _ =>
             apply ret_Returned in H; destruct H as [? ?]; subst
         | panic _ = Returned _ _ => discriminate H
         | out_of_fuel _ = Returned _ _ => discriminate H
         end.

Lemma createParent_kind (P : Ops) (sc sc' : sequenceChunker) (w w' : World) :
  createParent P sc w = Returned sc' w' -> kind sc' = kind sc.
Proof.
  unfold createParent. destruct (parent sc); [discriminate|].
  intros H. run_all H.
  destruct (unwrittenCol _) in H; run_all H; reflexivity.
Qed.

Lemma handleChunkBoundary_clears (P : Ops) (sc sc' : sequenceChunker) (w w' : World) :
  handleChunkBoundary P sc w = Returned sc' w' -> kind sc' = kind sc /\ current sc' = [].
Proof.
  unfold handleChunkBoundary. destruct (current sc); [discriminate|].
  intros H. run_all H.
  assert (Hk : kind a = kind sc).
  { cbn [parent set_rv] in Hstep. destruct (parent sc) in Hstep.
    - run_all Hstep. reflexivity.
    - apply createParent_kind in Hstep. exact Hstep. }
  unfold createSequence in Hstep0.
  destruct (makeChunk a (level a) (current a)) as [[col key] nl].
  run_all Hstep0. destruct (parent (set_current a [])); [|discriminate].
  run_all H. split; [exact Hk | reflexivity].
Qed.

Lemma consumeLastEntry_current (P : Ops) (sc sc' : sequenceChunker) (b : bool)
    (w w' : World) :
  consumeLastEntry P sc w = Returned (sc', b) w' ->
  kind sc' = kind sc /\ (current sc' = current sc \/ current sc' = []).
Proof.
  unfold consumeLastEntry. destruct (last_entry (current sc)) as [last|]; [|discriminate].
  match goal with |- context [crossedBoundary ?h] => destruct (crossedBoundary h) end;
    intros H; run_all H.
  - apply handleChunkBoundary_clears in Hstep. destruct Hstep as [Hk Hc].
    injection H as -> _. split; [exact Hk | right; exact Hc].
  - injection H as <- _. split; [reflexivity | left; reflexivity].
Qed.

Lemma expand_app (a b : list (sequenceEntry Value K)) : expand (a ++ b) = expand a ++ expand b.
Proof. unfold expand. apply flat_map_app. Qed.

Lemma expand_one (e : sequenceEntry Value K) : expand [e] = entry_run e.
Proof. unfold expand. simpl. apply app_nil_r. Qed.

Lemma runs_ok_snoc (front : list (sequenceEntry Value K)) (e : sequenceEntry Value K) :
  runs_ok (front ++ [e]) = runs_back (e :: rev front).
Proof. unfold runs_ok. rewrite rev_app_distr. reflexivity. Qed.

Lemma uint64_small (z : Z) : 0 <= z < 2 ^ 64 -> uint64 z = z.
Proof. intros H. unfold uint64. apply Z.mod_small. exact H. Qed.

(** Go's [==] on two values is their equality. *)
Hypothesis itemEq_values :
  forall a b : Value, itemEq (valueItem (K := K) a) (valueItem b) = true <-> a = b.

(** One [Append] to a List chunker. *)
Lemma Append_list_step (P : Ops) (sc sc' : sequenceChunker) (v : Value) (w w' : World) :
  kind sc = ListKind -> runs_ok (current sc) -> len (expand (current sc)) + 1 < 2 ^ 64 ->
  Append_at P sc (valueItem v) w = Returned sc' w' ->
  kind sc' = ListKind /\ runs_ok (current sc') /\
  (exists pre : list Value, expand (current sc) ++ [v] = pre ++ expand (current sc')) /\
  ((forall h : Hasher, crossedBoundary h = false) ->
   w' = w /\ expand (current sc') = expand (current sc) ++ [v]).
Proof.
  intros Hkind Hruns Hlen. unfold Append_at. rewrite Hkind. cbn [isListKind negb].
  destruct (current sc) as [|e0 l0] eqn:Ecur.
  - unfold last_entry, item_at. simpl. intros H. run_all H.
    split; [exact Hkind|]. cbn [current set_current]. simpl.
    split; [unfold runs_ok; simpl; split; [lia|]; split; [eauto|]; auto|].
    split; [exists []; reflexivity|]. intros _. split; reflexivity.
  - destruct (@exists_last _ (e0 :: l0)) as [front [last E]]; [discriminate|].
    rewrite E in *. clear E e0 l0.
    rewrite last_entry_snoc.
    rewrite runs_ok_snoc in Hruns. cbn [runs_back] in Hruns.
    destruct Hruns as (Hc & [u Hu] & Hnb & Hfront).
    rewrite expand_app, expand_one in Hlen |- *.
    assert (Hrun : entry_run last = repeat u (Z.to_nat (count last))).
    { unfold entry_run. rewrite Hu. reflexivity. }
    rewrite Hrun in Hlen |- *.
    assert (Hcount : count last + 1 < 2 ^ 64).
    { unfold len in Hlen. rewrite length_app, repeat_length in Hlen. lia. }
    rewrite Hu. destruct (itemEq (valueItem u) (valueItem v)) eqn:Eeq.
    + apply itemEq_values in Eeq. subst v. intros H. run_all H.
      split; [exact Hkind|]. cbn [current set_current]. rewrite removelast_last.
      rewrite uint64_small by lia.
      assert (Hexp : expand (front ++ [mkEntry (count last + 1) (valueItem (K := K) u)])
                     = (expand front ++ repeat u (Z.to_nat (count last))) ++ [u]).
      { rewrite expand_app, expand_one. unfold entry_run. cbn [item count].
        replace (Z.to_nat (count last + 1)) with (S (Z.to_nat (count last))) by lia.
        cbn [repeat]. rewrite repeat_cons, app_assoc. reflexivity. }
      split.
      { rewrite runs_ok_snoc. cbn [runs_back count item]. split; [lia|].
        split; [eauto|]. split; [|exact Hfront]. rewrite <- Hu. exact Hnb. }
      split; [exists []; rewrite Hexp; reflexivity|].
      intros _. split; [reflexivity | exact Hexp].
    + intros H. run_all H. destruct a as [sc1 b]. cbn [fst current set_current].
      assert (Hne : u <> v).
      { intros ->. rewrite (proj2 (itemEq_values v v) eq_refl) in Eeq. discriminate. }
      pose proof (consumeLastEntry_current _ _ _ Hstep) as [Hk Hcur].
      split; [cbn [kind set_current]; congruence|].
      assert (Hkeep : current sc1 = front ++ [last] ->
                runs_ok (current sc1 ++ [mkEntry 1 (valueItem v)]) /\
                expand (current sc1 ++ [mkEntry 1 (valueItem (K := K) v)])
                = (expand front ++ repeat u (Z.to_nat (count last))) ++ [v]).
      { intros ->. split.
        - rewrite runs_ok_snoc, rev_app_distr. cbn [rev app runs_back count item].
          split; [lia|]. split; [eauto|]. split; [rewrite Hu; congruence|].
          split; [exact Hc|]. split; [eauto|]. split; [exact Hnb | exact Hfront].
        - rewrite !expand_app, !expand_one, Hrun. reflexivity. }
      split; [|split].
      * rewrite Ecur in Hcur. destruct Hcur as [Hcur|Hcur].
        { apply Hkeep. exact Hcur. }
        rewrite Hcur. unfold runs_ok. simpl. split; [lia|]. split; [eauto|]. auto.
      * rewrite Ecur in Hcur. destruct Hcur as [Hcur|Hcur].
        { exists []. rewrite (proj2 (Hkeep Hcur)). reflexivity. }
        rewrite Hcur. exists (expand front ++ repeat u (Z.to_nat (count last))).
        reflexivity.
      * intros Hquiet. unfold consumeLastEntry in Hstep.
        rewrite Ecur, last_entry_snoc, Hquiet in Hstep.
        apply ret_Returned in Hstep. destruct Hstep as [Hpair Hw].
        injection Hpair as <- _. subst. split; [reflexivity|].
        cbn [current set_rv]. rewrite Ecur.
        rewrite !expand_app, !expand_one, Hrun. reflexivity.
Qed.

Lemma append_values_list (fuel : nat) (values : list Value) :
  forall (sc sc' : sequenceChunker) (w w' : World),
    kind sc = ListKind -> runs_ok (current sc) ->
    len (expand (current sc)) + len values < 2 ^ 64 ->
    append_values fuel sc values w = Returned sc' w' ->
    runs_ok (current sc') /\
    (exists pre : list Value, expand (current sc) ++ values = pre ++ expand (current sc')) /\
    ((forall h : Hasher, crossedBoundary h = false) ->
     w' = w /\ expand (current sc') = expand (current sc) ++ values).
Proof.
  induction values as [|v rest IH]; intros sc sc' w w' Hkind Hruns Hlen H.
  - cbn [append_values] in H. run_all H. split; [exact Hruns|].
    split; [exists []|intros _; split; [reflexivity|]]; rewrite app_nil_r; reflexivity.
  - cbn [append_values] in H. run_all H.
    assert (Hlen1 : len (expand (current sc)) + 1 < 2 ^ 64).
    { unfold len in *. cbn [Datatypes.length] in Hlen. lia. }
    destruct (@Append_list_step (ops_at fuel) sc a v w w0 Hkind Hruns Hlen1 Hstep)
      as (Hk1 & Hr1 & [pre1 Hp1] & Hq1).
    assert (Hlen2 : len (expand (current a)) + len rest < 2 ^ 64).
    { apply (f_equal (@Datatypes.length _)) in Hp1. rewrite !length_app in Hp1.
      unfold len in *. cbn [Datatypes.length] in Hlen, Hp1. lia. }
    destruct (IH _ _ _ _ Hk1 Hr1 Hlen2 H) as (Hr2 & [pre2 Hp2] & Hq2).
    split; [exact Hr2|]. split.
    + exists (pre1 ++ pre2).
      change (v :: rest) with ([v] ++ rest). rewrite app_assoc, Hp1, <- !app_assoc, Hp2.
      reflexivity.
    + intros Hquiet. destruct (Hq1 Hquiet) as [-> He1]. destruct (Hq2 Hquiet) as [-> He2].
      split; [reflexivity|]. rewrite He2, He1, <- app_assoc. reflexivity.
Qed.

Lemma Append_list_quiet (P : Ops) (sc : sequenceChunker) (v : Value) (w : World) :
  kind sc = ListKind -> (forall h : Hasher, crossedBoundary h = false) ->
  exists sc' : sequenceChunker, Append_at P sc (valueItem v) w = Returned sc' w.
Proof.
  intros Hkind Hquiet. unfold Append_at. rewrite Hkind. cbn [isListKind negb].
  destruct (last_entry (current sc)) as [last|] eqn:El; [|eexists; reflexivity].
  destruct (itemEq (item last) (valueItem v)); [eexists; reflexivity|].
  unfold consumeLastEntry. rewrite El, Hquiet. unfold bind, ret. eexists. reflexivity.
Qed.

(** X24.  A List chunker run-length encodes what is appended to it: after
    any number of [Append]s the entries it holds have counts of at least 1,
    no two neighbours hold the same value, and expanded they are the end of
    what was held and appended (the beginning has gone into chunks); when
    the rolling hash crosses no boundary every [Append] returns, the store
    is untouched, and the entries expand to everything held and
    appended. *)
Theorem List_Append_run_length_encodes (fuel : nat) (values : list Value)
    (sc : sequenceChunker) (w : World) :
  kind sc = ListKind -> runs_ok (current sc) ->
  len (expand (current sc)) + len values < 2 ^ 64 ->
  (forall (sc' : sequenceChunker) (w' : World),
     append_values fuel sc values w = Returned sc' w' ->
     runs_ok (current sc') /\
     exists pre : list Value, expand (current sc) ++ values = pre ++ expand (current sc')) /\
  ((forall h : Hasher, crossedBoundary h = false) ->
   exists sc' : sequenceChunker,
     append_values fuel sc values w = Returned sc' w /\
     runs_ok (current sc') /\
     expand (current sc') = expand (current sc) ++ values).
Proof.
  intros Hkind Hruns Hlen. split.
  - intros sc' w' H.
    destruct (@append_values_list fuel values sc sc' w w' Hkind Hruns Hlen H) as (Hr & Hp & _). auto.
  - intros Hquiet.
    assert (Hret : forall (vs : list Value) (sc0 : sequenceChunker),
              kind sc0 = ListKind -> runs_ok (current sc0) ->
              len (expand (current sc0)) + len vs < 2 ^ 64 ->
              exists sc', append_values fuel sc0 vs w = Returned sc' w).
    { induction vs as [|v rest IH]; intros sc0 Hk0 Hr0 Hl0; [eexists; reflexivity|].
      cbn [append_values]. unfold bind.
      destruct (@Append_list_quiet (ops_at fuel) sc0 v w Hk0 Hquiet) as [sc1 H1].
      change (Append fuel sc0 (valueItem v) w) with (Append_at (ops_at fuel) sc0 (valueItem v) w).
      rewrite H1.
      assert (Hlen1 : len (expand (current sc0)) + 1 < 2 ^ 64).
      { unfold len in *. cbn [Datatypes.length] in Hl0. lia. }
      destruct (@Append_list_step (ops_at fuel) sc0 sc1 v w w Hk0 Hr0 Hlen1 H1) as (Hk1 & Hr1 & _ & Hq1).
      destruct (Hq1 Hquiet) as [_ He1].
      apply IH; [exact Hk1 | exact Hr1|].
      rewrite He1. unfold len in *. rewrite length_app. cbn [Datatypes.length] in *. lia. }
    destruct (Hret values sc Hkind Hruns Hlen) as [sc' H].
    exists sc'. split; [exact H|].
    destruct (@append_values_list fuel values sc sc' w w Hkind Hruns Hlen H) as (Hr & _ & Hq).
    split; [exact Hr | apply Hq; exact Hquiet].
Qed.

End ListRuns.

(** A List chunker whose rolling hash crosses no boundary. *)
Definition no_boundary (salt : Z) (bytes : list Z) : bool := false.

Definition empty_list_chunker : sequenceChunker (env := streamEnv no_boundary) :=
  mkChunker (env := streamEnv no_boundary) ListKind None 0 None []
    listLeafChunk indexedMetaChunk true stream_hashValueBytes (stream_new 0) false None.

Example runs_evaluated :
  match append_values 0 empty_list_chunker [7; 7; 7; 8; 7] (empty_world no_boundary) with
  | Returned sc' _ =>
      current sc' = [mkEntry 3 (valueItem 7); mkEntry 1 (valueItem 8); mkEntry 1 (valueItem 7)]
  | _ => False
  end.
Proof. vm_compute. reflexivity. Qed.

Lemma List_Append_run_length_encodes_witness :
  exists sc' : sequenceChunker (env := streamEnv no_boundary),
    append_values 0 empty_list_chunker [7; 7; 7; 8; 7] (empty_world no_boundary)
    = Returned sc' (empty_world no_boundary) /\
    runs_ok (current sc') /\
    expand (current sc') = expand (current empty_list_chunker) ++ [7; 7; 7; 8; 7].
Proof.
  assert (Heq : forall a b : Z,
            itemEq (Env := streamEnv no_boundary) (valueItem a) (valueItem b) = true
            <-> a = b).
  { intros a b. apply Z.eqb_eq. }
  assert (Hlen : len (expand (current empty_list_chunker)) + len [7; 7; 7; 8; 7] < 2 ^ 64).
  { vm_compute. reflexivity. }
  apply (proj2 (@List_Append_run_length_encodes Z Z NumberOps (streamEnv no_boundary) Heq
                  0%nat [7; 7; 7; 8; 7] empty_list_chunker (empty_world no_boundary)
                  eq_refl I Hlen)).
  intros h. reflexivity.
Defined.

End ChunkerFacts.

(** * The chunks the chunk functions make (list.js, blob.js, map.js, set.js, meta-sequence.js) *)

Section Chunks.

Context {T K : Type} {ops : ValueOps K}.

(** The result of a [makeChunkFn]: [[collection, key, numLeaves]]. *)
Definition Chunk : Type := (Sequence T K * OrderedKey K * Z)%type.

(** What a meta tuple holds of the chunk it was made of. *)
Definition chunk_of_tuple (mt : MetaTuple K (Sequence T K)) : Chunk :=
  (mt_child mt, mt_key mt, mt_numLeaves mt).

(** [tuples.reduce((l, mt) => l + mt.numLeaves, 0)] *)
Definition sum_numLeaves (tuples : list (MetaTuple K (Sequence T K))) : Z :=
  fold_left (fun l mt => l + mt_numLeaves mt) tuples 0.

(** [newOrderedMetaSequenceChunkFn(kind, vr)], for the kinds Map and Set:
    the key is that of the last tuple; [last.key] throws when there is no
    tuple. *)
Definition newOrderedMetaSequenceChunkFn (tuples : list (MetaTuple K (Sequence T K)))
    : option Chunk :=
  match item_at tuples (len tuples - 1) with
  | Some last => Some (MetaSequence tuples, mt_key last, sum_numLeaves tuples)
  | None => None
  end.

Lemma sum_numLeaves_from (tuples : list (MetaTuple K (Sequence T K))) :
  forall acc : Z,
    fold_left (fun l mt => l + mt_numLeaves mt) tuples acc =
    acc + fold_right (fun mt l => mt_numLeaves mt + l) 0 tuples.
Proof.
  induction tuples as [|mt rest IH]; intros acc; simpl; [lia|].
  rewrite IH. lia.
Qed.

Lemma sum_numLeaves_leaves (tuples : list (MetaTuple K (Sequence T K))) :
  Forall (fun mt => mt_numLeaves mt = len (leaves (mt_child mt))) tuples ->
  sum_numLeaves tuples = len (leaves (MetaSequence tuples)).
Proof.
  intros Hall. unfold sum_numLeaves. rewrite sum_numLeaves_from, leaves_meta.
  unfold leaves_of_tuples. induction Hall as [|mt rest Hmt Hrest IH]; [reflexivity|].
  cbn [fold_right flat_map]. unfold len in *. rewrite length_app, Hmt. lia.
Qed.

Section Indexed.

(** The numbers among the values: the test [typeof v === 'number'] with the
    number it finds, and a number as a value. *)
Variable asNumber : K -> option Z.
Variable ofNumber : Z -> K.

(** [newListLeafChunkFn(vr)]:
    [[list, new OrderedKey(items.length), items.length]]. *)
Definition newListLeafChunkFn (items : list T) : Chunk :=
  (LeafSequence items, newOrderedKey (ofNumber (len items)), len items).

(** [newBlobLeafChunkFn(vr)]: the same for the bytes of a blob. *)
Definition newBlobLeafChunkFn (items : list T) : Chunk :=
  (LeafSequence items, newOrderedKey (ofNumber (len items)), len items).

(** The [reduce] of [newIndexedMetaSequenceChunkFn]:
    [invariant(nv === mt.numLeaves)] on every tuple. *)
Fixpoint indexed_sum (tuples : list (MetaTuple K (Sequence T K))) (l : Z) : option Z :=
  match tuples with
  | [] => Some l
  | mt :: rest =>
      match numberValue asNumber (mt_key mt) with
      | Some nv => if nv =? mt_numLeaves mt then indexed_sum rest (l + nv) else None
      | None => None
      end
  end.

(** [newIndexedMetaSequenceChunkFn(kind, vr)], for the kinds List and
    Blob. *)
Definition newIndexedMetaSequenceChunkFn (tuples : list (MetaTuple K (Sequence T K)))
    : option Chunk :=
  match indexed_sum tuples 0 with
  | Some sum => Some (MetaSequence tuples, newOrderedKey (ofNumber sum), sum)
  | None => None
  end.

(** A chunk over a well-formed indexed tree of [n] levels, with the number
    of its leaves for [numLeaves] and for key. *)
Definition indexed_chunk (n : nat) (c : Chunk) : Prop :=
  let '(col, key, numLeaves) := c in
  numLeaves = len (leaves col) /\
  numberValue asNumber key = Some numLeaves /\
  indexed_wf asNumber n col.

Hypothesis number_is_a_value :
  forall n : Z, isValueBase (ofNumber n) = false /\ asNumber (ofNumber n) = Some n.

Lemma numberValue_ofNumber (n : Z) : numberValue asNumber (newOrderedKey (ofNumber n)) = Some n.
Proof.
  unfold newOrderedKey. destruct (number_is_a_value n) as [-> H]. exact H.
Qed.

Lemma indexed_sum_spec (tuples : list (MetaTuple K (Sequence T K))) :
  forall l : Z,
    (Forall (fun mt => numberValue asNumber (mt_key mt) = Some (mt_numLeaves mt)) tuples ->
     indexed_sum tuples l = Some (fold_left (fun l mt => l + mt_numLeaves mt) tuples l)) /\
    (indexed_sum tuples l <> None ->
     Forall (fun mt => numberValue asNumber (mt_key mt) = Some (mt_numLeaves mt)) tuples).
Proof.
  induction tuples as [|mt rest IH]; intros l.
  - split; [reflexivity | constructor].
  - cbn [indexed_sum fold_left]. split.
    + intros Hall. inversion Hall as [|? ? Hmt Hrest]; subst.
      rewrite Hmt, Z.eqb_refl. apply IH. exact Hrest.
    + destruct (numberValue asNumber (mt_key mt)) as [nv|] eqn:En; [|congruence].
      destruct (nv =? mt_numLeaves mt) eqn:E; [|congruence].
      apply Z.eqb_eq in E. subst nv. intros H. constructor; [exact En|].
      apply (IH (l + mt_numLeaves mt)). exact H.
Qed.

(** X21.  The chunk functions of List and Blob build well-formed indexed
    trees: a leaf chunk, and a meta chunk made of the tuples of such chunks,
    has the number of leaves below it for [numLeaves] and for key; the
    leaves of a meta chunk are those of its tuples in order.  A meta chunk
    is made exactly when the key of every tuple is its [numLeaves];
    otherwise the chunk function throws. *)
Theorem indexed_chunks_are_well_formed :
  (forall items : list T,
     indexed_chunk 1 (newListLeafChunkFn items) /\
     indexed_chunk 1 (newBlobLeafChunkFn items)) /\
  (forall (n : nat) (tuples : list (MetaTuple K (Sequence T K))),
     (1 <= n)%nat -> tuples <> [] ->
     Forall (fun mt => indexed_chunk n (chunk_of_tuple mt)) tuples ->
     exists c : Chunk,
       newIndexedMetaSequenceChunkFn tuples = Some c /\
       indexed_chunk (S n) c /\
       leaves (fst (fst c)) = leaves_of_tuples tuples) /\
  (forall tuples : list (MetaTuple K (Sequence T K)),
     newIndexedMetaSequenceChunkFn tuples <> None <->
     Forall (fun mt => numberValue asNumber (mt_key mt) = Some (mt_numLeaves mt)) tuples).
Proof.
  split; [|split].
  - intros items. unfold indexed_chunk, newListLeafChunkFn, newBlobLeafChunkFn.
    cbn [leaves indexed_wf]. rewrite numberValue_ofNumber. auto 10.
  - intros n tuples Hn Hne Hall.
    assert (Hkeys : Forall (fun mt => numberValue asNumber (mt_key mt)
                                      = Some (mt_numLeaves mt)) tuples).
    { eapply Forall_impl; [|exact Hall]. intros mt (_ & H & _). exact H. }
    assert (Hcounts : Forall (fun mt => mt_numLeaves mt = len (leaves (mt_child mt))) tuples).
    { eapply Forall_impl; [|exact Hall]. intros mt (H & _). exact H. }
    unfold newIndexedMetaSequenceChunkFn.
    rewrite (proj1 (indexed_sum_spec tuples 0) Hkeys).
    fold (sum_numLeaves tuples).
    eexists. split; [reflexivity|]. cbn [fst]. split; [|apply leaves_meta].
    unfold indexed_chunk.
    rewrite numberValue_ofNumber. split; [apply sum_numLeaves_leaves; exact Hcounts|].
    split; [reflexivity|]. cbn [indexed_wf]. split; [lia|]. split; [exact Hne|].
    eapply Forall_impl; [|exact Hall]. intros mt H. exact H.
  - intros tuples. unfold newIndexedMetaSequenceChunkFn. split.
    + intros H. apply (proj2 (indexed_sum_spec tuples 0)).
      destruct (indexed_sum tuples 0); congruence.
    + intros H. rewrite (proj1 (indexed_sum_spec tuples 0) H). discriminate.
Qed.

End Indexed.

Section Ordered.

Context {laws : ValueLaws K}.
Variable leafKey : T -> OrderedKey K.

(** A chunk over a well-formed ordered tree of [n] levels that is not
    empty, with the number of its leaves for [numLeaves] and the key of its
    last leaf for key. *)
Definition ordered_chunk (n : nat) (c : Chunk) : Prop :=
  let '(col, key, numLeaves) := c in
  otree_wf leafKey n col /\
  numLeaves = len (leaves col) /\
  exists x : T, hd_error (rev (leaves col)) = Some x /\ key = leafKey x.

Lemma blocks_cross {A B : Type} (R : B -> B -> Prop) (f : A -> list B) (l : list A) :
  StronglySorted R (flat_map f l) ->
  forall (i j : nat) (a b : A),
    (i < j)%nat -> nth_error l i = Some a -> nth_error l j = Some b ->
    forall x y, In x (f a) -> In y (f b) -> R x y.
Proof.
  induction l as [|a0 l IH]; intros Hs i j a b Hij Hi Hj x y Hx Hy.
  - destruct i; discriminate.
  - destruct j as [|j]; [lia|]. cbn [flat_map] in Hs. simpl in Hj.
    destruct i as [|i]; simpl in Hi.
    + injection Hi as ->. apply (@sorted_app_cross _ R _ _ Hs); [exact Hx|].
      apply in_flat_map. exists b. split; [|exact Hy].
      eapply nth_error_In. exact Hj.
    + apply sorted_app_r in Hs. apply (IH Hs i j a b); auto. lia.
Qed.

Lemma sorted_of_pairs {A : Type} (R : A -> A -> Prop) (l : list A) :
  (forall (i j : nat) (a b : A),
     (i < j)%nat -> nth_error l i = Some a -> nth_error l j = Some b -> R a b) ->
  StronglySorted R l.
Proof.
  induction l as [|a0 l IH]; intros H; constructor.
  - apply IH. intros i j a b Hij Hi Hj. apply (H (S i) (S j) a b); auto. lia.
  - apply Forall_forall. intros b Hb. apply In_nth_error in Hb. destruct Hb as [j Hj].
    apply (H 0%nat (S j) a0 b); auto. lia.
Qed.

Lemma sorted_unmap {A B : Type} (R : B -> B -> Prop) (f : A -> B) (l : list A) :
  StronglySorted R (map f l) -> StronglySorted (fun x y => R (f x) (f y)) l.
Proof.
  induction l as [|a l IH]; intros H; [constructor|].
  simpl in H. apply StronglySorted_inv in H. destruct H as [Hs Hall]. constructor; [auto|].
  rewrite Forall_forall in *. intros x Hx. apply Hall. apply in_map. exact Hx.
Qed.

(** A chunk of a strictly sorted run of leaves. *)
Lemma leaf_chunk_ordered (key : T -> K) (falseValue : K) (items : list T) :
  (forall x, leafKey x = newOrderedKey (key x)) ->
  items <> [] -> StronglySorted key_lt (map leafKey items) ->
  ordered_chunk 1 (LeafSequence items, newOrderedKey (last (map key items) falseValue),
                   len items).
Proof.
  intros Hkey Hne Hs. unfold ordered_chunk. cbn [otree_wf leaves].
  split; [split; [reflexivity | exact Hs]|]. split; [reflexivity|].
  destruct (@exists_last _ items Hne) as [l' [x E]]. exists x. subst items.
  rewrite rev_app_distr, map_app. cbn [rev map app hd_error].
  rewrite last_last. split; [reflexivity|]. symmetry. apply Hkey.
Qed.

(** A meta chunk over the tuples of ordered chunks whose leaves, taken
    together, are a strictly sorted run. *)
Lemma meta_chunk_ordered (n : nat) (tuples : list (MetaTuple K (Sequence T K))) :
  tuples <> [] ->
  Forall (fun mt => ordered_chunk n (chunk_of_tuple mt)) tuples ->
  StronglySorted key_lt (map leafKey (leaves_of_tuples tuples)) ->
  exists c : Chunk,
    newOrderedMetaSequenceChunkFn tuples = Some c /\
    ordered_chunk (S n) c /\
    leaves (fst (fst c)) = leaves_of_tuples tuples.
Proof.
  intros Hne Hall Hs.
  apply sorted_unmap in Hs. unfold leaves_of_tuples in Hs.
  pose proof (@blocks_cross _ _ _ _ _ Hs) as Hcross. cbv beta in Hcross.
  rewrite Forall_forall in Hall.
  assert (Hat : forall j mt, nth_error tuples j = Some mt ->
                ordered_chunk n (chunk_of_tuple mt)).
  { intros j mt Hj. apply Hall. eapply nth_error_In. exact Hj. }
  unfold ordered_chunk, chunk_of_tuple in Hat.
  destruct (@exists_last _ tuples Hne) as [front [lastmt E]].
  assert (Hlast : item_at tuples (len tuples - 1) = Some lastmt).
  { rewrite <- hd_error_rev, E, rev_app_distr. reflexivity. }
  assert (Hlastj : nth_error tuples (List.length front) = Some lastmt).
  { rewrite E, nth_error_app2, Nat.sub_diag; [reflexivity | lia]. }
  unfold newOrderedMetaSequenceChunkFn. rewrite Hlast.
  eexists. split; [reflexivity|]. cbn [fst]. split; [|apply leaves_meta].
  unfold ordered_chunk. split; [|split].
  - cbn [otree_wf]. split.
    { destruct (Hat _ _ Hlastj) as (Hwf & _). apply otree_wf_pos in Hwf. lia. }
    split; [exact Hne|]. split.
    + apply sorted_of_pairs. intros i j a b Hij Hi Hj.
      rewrite nth_error_map in Hi, Hj.
      destruct (nth_error tuples i) as [mi|] eqn:Ei; [|discriminate].
      destruct (nth_error tuples j) as [mj|] eqn:Ej; [|discriminate].
      injection Hi as <-. injection Hj as <-.
      destruct (Hat _ _ Ei) as (_ & _ & xi & Hxi & ->).
      destruct (Hat _ _ Ej) as (_ & _ & xj & Hxj & ->).
      apply (Hcross i j mi mj Hij Ei Ej).
      * apply in_rev. destruct (rev (leaves (mt_child mi))); [discriminate|].
        injection Hxi as ->. left. reflexivity.
      * apply in_rev. destruct (rev (leaves (mt_child mj))); [discriminate|].
        injection Hxj as ->. left. reflexivity.
    + intros j mt Hj. destruct (Hat _ _ Hj) as (Hwf & _ & y & Hy & Hk).
      split; [exact Hwf|]. split.
      * intros x Hx. rewrite Hk.
        destruct (leaves (mt_child mt)) as [|lo rest] eqn:El; [destruct Hx|].
        rewrite <- El in Hx, Hy.
        refine (proj2 (@ends_are_extremes _ _ laws _ leafKey n (mt_child mt) lo y x
                         Hwf _ Hy Hx)).
        rewrite El. reflexivity.
      * intros j' mt' Hlt Hj' x Hx.
        destruct (Hat _ _ Hj') as (_ & _ & y' & Hy' & ->).
        apply (Hcross j' j mt' mt Hlt Hj' Hj); [|exact Hx].
        apply in_rev. destruct (rev (leaves (mt_child mt'))); [discriminate|].
        injection Hy' as ->. left. reflexivity.
  - apply sum_numLeaves_leaves. apply Forall_forall. intros mt Hmt.
    destruct (Hall mt Hmt) as (_ & H & _). exact H.
  - destruct (Hat _ _ Hlastj) as (_ & _ & x & Hx & Hk). exists x. split; [|exact Hk].
    rewrite leaves_meta. unfold leaves_of_tuples. rewrite E, flat_map_app, rev_app_distr.
    cbn [flat_map]. rewrite app_nil_r. apply hd_error_app_Some. exact Hx.
Qed.

End Ordered.

End Chunks.

Section MapAndSetChunks.

Context {K V : Type} {ops : ValueOps K} {laws : ValueLaws K}.

(** [false], the placeholder key of a chunk without items. *)
Variable falseValue : K.

(** [newMapLeafChunkFn(vr)]: the key is that of the last entry, or [false]
    when there is none. *)
Definition newMapLeafChunkFn (items : list (MapEntry (K := K) (V := V)))
    : Chunk (T := MapEntry (K := K) (V := V)) (K := K) :=
  (LeafSequence items,
   newOrderedKey (if 0 <? len items then last (map fst items) falseValue else falseValue),
   len items).

(** [newSetLeafChunkFn(vr)]: the key is the last item, or [false] when
    there is none. *)
Definition newSetLeafChunkFn (items : list K) : Chunk (T := K) (K := K) :=
  (LeafSequence items,
   newOrderedKey (if 0 <? len items then last items falseValue else falseValue),
   len items).

Lemma len_pos {A : Type} (l : list A) : l <> [] -> (0 <? len l) = true.
Proof.
  intros H. apply Z.ltb_lt. destruct l; [congruence|]. unfold len. simpl. lia.
Qed.

(** X22.  The chunk functions of Map and Set build well-formed ordered
    trees: a leaf chunk of a strictly sorted, non-empty run of items, and a
    meta chunk over the tuples of such chunks whose leaves together are
    strictly sorted, is a well-formed ordered tree with the number of its
    leaves for [numLeaves] and the key of its last leaf for key.  A leaf
    chunk without items has the key [false]; a meta chunk without tuples
    cannot be made. *)
Theorem ordered_chunks_are_well_formed :
  (forall items : list (MapEntry (K := K) (V := V)),
     items <> [] -> StronglySorted key_lt (map mapLeafKey items) ->
     ordered_chunk mapLeafKey 1 (newMapLeafChunkFn items)) /\
  (forall items : list K,
     items <> [] -> StronglySorted key_lt (map setLeafKey items) ->
     ordered_chunk setLeafKey 1 (newSetLeafChunkFn items)) /\
  (forall (T : Type) (leafKey : T -> OrderedKey K) (n : nat)
          (tuples : list (MetaTuple K (Sequence T K))),
     tuples <> [] ->
     Forall (fun mt => ordered_chunk leafKey n (chunk_of_tuple mt)) tuples ->
     StronglySorted key_lt (map leafKey (leaves_of_tuples tuples)) ->
     exists c : Chunk,
       newOrderedMetaSequenceChunkFn tuples = Some c /\
       ordered_chunk leafKey (S n) c /\
       leaves (fst (fst c)) = leaves_of_tuples tuples) /\
  newMapLeafChunkFn [] = (LeafSequence [], newOrderedKey falseValue, 0) /\
  newSetLeafChunkFn [] = (LeafSequence [], newOrderedKey falseValue, 0) /\
  (forall T : Type,
     newOrderedMetaSequenceChunkFn (T := T) (K := K) [] = None).
Proof.
  split; [|split; [|split; [|split; [|split]]]].
  - intros items Hne Hs. unfold newMapLeafChunkFn. rewrite (len_pos Hne).
    apply leaf_chunk_ordered; auto.
  - intros items Hne Hs. unfold newSetLeafChunkFn. rewrite (len_pos Hne).
    rewrite <- (map_id items) at 2.
    apply (@leaf_chunk_ordered _ _ _ setLeafKey (fun x => x)); auto.
  - intros T leafKey n tuples. apply meta_chunk_ordered.
  - reflexivity.
  - reflexivity.
  - reflexivity.
Qed.

End MapAndSetChunks.

(** The chunk functions on the chunks of the trees above. *)

Definition list_tuples : list (MetaTuple Z (Sequence Z Z)) :=
  [ mkMetaTuple 1 (ByValue 2) 2 (LeafSequence [10; 11]);
    mkMetaTuple 2 (ByValue 3) 3 (LeafSequence [12; 13; 14]) ].

Definition map_tuples : list (MetaTuple Z (Sequence (MapEntry (K := Z) (V := Z)) Z)) :=
  [ mkMetaTuple 1 (ByValue 2) 2 (LeafSequence [(1, 10); (2, 20)]);
    mkMetaTuple 2 (ByValue 5) 2 (LeafSequence [(4, 40); (5, 50)]) ].

Example chunk_functions_evaluated :
  newListLeafChunkFn (K := Z) (fun n => n) [10; 11] =
    (LeafSequence [10; 11], ByValue 2, 2) /\
  newIndexedMetaSequenceChunkFn (fun v => Some v) (fun n => n) list_tuples =
    Some (list_two_chunks, ByValue 5, 5) /\
  newIndexedMetaSequenceChunkFn (fun v => Some v) (fun n => n)
    [ mkMetaTuple 1 (ByValue 3) 2 (LeafSequence [10; 11]) ] = None /\
  newMapLeafChunkFn 0 [(1, 10); (2, 20)] =
    (LeafSequence [(1, 10); (2, 20)], ByValue 2, 2) /\
  newSetLeafChunkFn 0 [10; 20] = (LeafSequence [10; 20], ByValue 20, 2) /\
  newOrderedMetaSequenceChunkFn map_tuples = Some (map_tree, ByValue 5, 4).
Proof. vm_compute. repeat split. Qed.

Lemma indexed_chunks_are_well_formed_witness :
  exists c : Chunk (T := Z) (K := Z),
    newIndexedMetaSequenceChunkFn (fun v => Some v) (fun n => n) list_tuples = Some c /\
    indexed_chunk (fun v => Some v) 2 c /\
    leaves (fst (fst c)) = leaves_of_tuples list_tuples.
Proof.
  apply (proj1 (proj2 (@indexed_chunks_are_well_formed Z Z NumberOps (fun v => Some v)
                         (fun n => n) (fun n => conj eq_refl eq_refl)))
           1%nat list_tuples).
  - lia.
  - discriminate.
  - repeat constructor.
Defined.

Lemma ordered_chunks_are_well_formed_witness :
  ordered_chunk mapLeafKey 1 (newMapLeafChunkFn (V := Z) 0 [(1, 10); (2, 20)]) /\
  exists c : Chunk (T := MapEntry (K := Z) (V := Z)) (K := Z),
    newOrderedMetaSequenceChunkFn map_tuples = Some c /\
    ordered_chunk mapLeafKey 2 c /\
    leaves (fst (fst c)) = leaves_of_tuples map_tuples.
Proof.
  pose proof (@ordered_chunks_are_well_formed Z Z NumberOps NumberLaws 0) as H.
  assert (Hs1 : StronglySorted key_lt
                  (map (mapLeafKey (V := Z)) [(1, 10); (2, 20)])).
  { repeat constructor; solve_key_order. }
  assert (Hs2 : StronglySorted key_lt
                  (map (mapLeafKey (V := Z)) [(4, 40); (5, 50)])).
  { repeat constructor; solve_key_order. }
  split.
  - apply (proj1 H); [discriminate | exact Hs1].
  - apply (proj1 (proj2 (proj2 H)) _ mapLeafKey 1%nat map_tuples).
    + discriminate.
    + repeat constructor; simpl; auto; eexists; split; reflexivity.
    + repeat constructor; solve_key_order.
Defined.

(** * Building the data of a Map or Set twice (map.js, set.js) *)

Section BuildDataTwice.

Lemma keep_last_of_strict {A : Type} (cmp : A -> A -> Z) (l : list A) :
  StronglySorted (cmp_lt cmp) l -> keep_last_of_runs cmp l = l.
Proof.
  induction 1 as [|x rest Hs IH Hall]; [reflexivity|].
  cbn [keep_last_of_runs]. destruct rest as [|y rest']; [reflexivity|].
  inversion Hall as [|? ? Hxy _]; subst. unfold cmp_lt in Hxy.
  replace (cmp x y =? 0) with false by (symmetry; apply Z.eqb_neq; lia).
  rewrite IH. reflexivity.
Qed.

(** An ordered arrangement of strictly ordered elements is the strictly
    ordered one. *)
Lemma sorted_permutation_of_strict {A : Type} (cmp : A -> A -> Z) :
  consistent cmp ->
  forall l l' : list A,
    StronglySorted (cmp_lt cmp) l -> Permutation l' l -> StronglySorted (cmp_le cmp) l' ->
    l' = l.
Proof.
  intros Hcmp. induction l as [|x rest IH]; intros l' Hl Hperm Hl'.
  - apply Permutation_nil. apply Permutation_sym. exact Hperm.
  - destruct l' as [|y rest'].
    { apply Permutation_nil in Hperm. discriminate. }
    apply StronglySorted_inv in Hl. destruct Hl as [Hrest Hx].
    apply StronglySorted_inv in Hl'. destruct Hl' as [Hrest' Hy].
    rewrite Forall_forall in Hx, Hy.
    assert (Hyx : y = x).
    { assert (Hin : In y (x :: rest)) by (apply (Permutation_in _ Hperm); left; reflexivity).
      destruct Hin as [->|Hin]; [reflexivity|]. exfalso.
      pose proof (Hx y Hin) as Hlt. unfold cmp_lt in Hlt.
      assert (Hin' : In x (y :: rest'))
        by (apply (Permutation_in _ (Permutation_sym Hperm)); left; reflexivity).
      destruct Hin' as [->|Hin'].
      - rewrite (cmp_refl Hcmp) in Hlt. lia.
      - pose proof (Hy x Hin') as Hle. unfold cmp_le in Hle.
        pose proof (cmp_antisym Hcmp x y). lia. }
    subst y. f_equal. apply IH; [exact Hrest | | exact Hrest'].
    eapply Permutation_cons_inv. exact Hperm.
Qed.

Variable sort : ArraySort.
Hypothesis Hsort : stable_sort sort.

Lemma sorted_dedup_of_strict {A : Type} (cmp : A -> A -> Z) (l : list A) :
  consistent cmp -> StronglySorted (cmp_lt cmp) l ->
  removeDuplicateFromOrdered cmp (sort cmp l) = l.
Proof.
  intros Hcmp Hl. destruct (Hsort Hcmp l) as (Hperm & Hsorted & _).
  rewrite (sorted_permutation_of_strict Hcmp Hl Hperm Hsorted).
  rewrite removeDuplicateFromOrdered_spec. apply keep_last_of_strict. exact Hl.
Qed.

Context {K V : Type} {ops : ValueOps K} {laws : ValueLaws K}.

(** X23.  Data that is already in strictly increasing key order is what
    [buildMapData] and [buildSetData] return for it, whatever stable sort
    the platform has; so building the data of what was built changes
    nothing. *)
Theorem build_data_keeps_ordered_data :
  (forall kvs : list (MapEntry (K := K) (V := V)),
     StronglySorted (fun e1 e2 => compare (fst e1) (fst e2) < 0) kvs ->
     buildMapData sort kvs = kvs) /\
  (forall kvs : list (MapEntry (K := K) (V := V)),
     buildMapData sort (buildMapData sort kvs) = buildMapData sort kvs) /\
  (forall values : list K,
     StronglySorted (fun v1 v2 => compare v1 v2 < 0) values ->
     buildSetData sort values = values) /\
  (forall values : list K,
     buildSetData sort (buildSetData sort values) = buildSetData sort values).
Proof.
  assert (Hmap : forall kvs : list (MapEntry (K := K) (V := V)),
            StronglySorted (cmp_lt compareKeys) kvs -> buildMapData sort kvs = kvs).
  { intros kvs Hs. apply sorted_dedup_of_strict; [apply compareKeys_consistent | exact Hs]. }
  assert (Hset : forall values : list K,
            StronglySorted (cmp_lt compare) values -> buildSetData sort values = values).
  { intros values Hs. apply sorted_dedup_of_strict; [apply compare_consistent | exact Hs]. }
  split; [exact Hmap|]. split; [|split; [exact Hset|]].
  - intros kvs. apply Hmap.
    exact (proj1 (@sorted_dedup_spec sort Hsort _ compareKeys kvs
                    compareKeys_consistent)).
  - intros values. apply Hset.
    exact (proj1 (@sorted_dedup_spec sort Hsort _ compare values
                    compare_consistent)).
Qed.

End BuildDataTwice.

Lemma build_data_keeps_ordered_data_witness :
  buildMapData insertion_sort [(1, 10); (2, 20); (5, 50)] = [(1, 10); (2, 20); (5, 50)] /\
  buildSetData insertion_sort [10; 20; 40] = [10; 20; 40].
Proof.
  pose proof (@build_data_keeps_ordered_data insertion_sort insertion_sort_stable
                Z Z NumberOps NumberLaws) as H.
  split.
  - apply (proj1 H). repeat constructor; simpl; unfold number_compare; simpl; lia.
  - apply (proj1 (proj2 (proj2 H))). repeat constructor; simpl; unfold number_compare; simpl; lia.
Defined.

(** * Moving a cursor to the next chunk (sequence-cursor.js) *)

Section NextChunk.

Context {T K : Type} {ops : ValueOps K}.

(** X25.  On a valid position of a tree without empty chunks,
    [advanceChunk()] skips what is left of the chunk of the cursor: the
    items from the cursor on are the rest of its chunk followed by the items
    from the new position on, which are the items of the tree after the
    chunk.  It returns whether the new position is valid; when it is not,
    the chunk was the last one and the cursor is past the end. *)
Theorem advanceChunk_skips_the_chunk (c : SequenceCursor T K) :
  cursor_ok 1 c -> valid c = true ->
  exists (b : bool) (c' : SequenceCursor T K),
    advanceChunk c = Some (b, c') /\ cursor_ok 1 c' /\
    remaining c = leaves_from (sequence c) (idx c) ++ remaining c' /\
    remaining c' = outside c /\
    b = valid c' /\
    (b = false -> remaining c' = []).
Proof.
  intros Hok Hv. pose proof (proj1 (valid_range c) Hv) as Hi.
  set (c1 := set_idx c (length c - 1)).
  assert (Hok1 : cursor_ok 1 c1) by (destruct c; exact Hok).
  assert (Hv1 : valid c1 = true).
  { apply valid_range. destruct c as [par s i]. unfold c1, set_idx, length in *.
    cbn [idx sequence] in *. lia. }
  destruct (advance_leaf c1 Hok1 Hv1) as (b & c' & Hadv & Hok' & Hrem & Hb & Hor).
  assert (Hout : following c1 = outside c).
  { destruct c as [par s i]. unfold c1, following, set_idx, length.
    cbn [idx sequence]. rewrite leaves_from_end by lia. reflexivity. }
  exists b, c'. split; [exact Hadv|]. split; [exact Hok'|].
  rewrite Hrem, Hout. split; [reflexivity|]. split; [reflexivity|].
  split; [exact Hb|]. intros ->.
  destruct Hor as [H|H]; [congruence|]. rewrite <- Hout, <- Hrem. exact H.
Qed.

End NextChunk.

Lemma advanceChunk_skips_the_chunk_witness :
  exists (b : bool) (c' : SequenceCursor Z Z),
    advanceChunk cursor_101 = Some (b, c') /\ cursor_ok 1 c' /\
    remaining cursor_101 = leaves_from (sequence cursor_101) (idx cursor_101) ++ remaining c' /\
    remaining c' = outside cursor_101 /\
    b = valid c' /\
    (b = false -> remaining c' = []).
Proof.
  apply (@advanceChunk_skips_the_chunk Z Z NumberOps cursor_101 cursor_101_ok).
  reflexivity.
Defined.
